(** * A shallow embedding of the Go QR Code encoder (packages [base],
    [utils] and [qr]) and the properties its specification states.

    Conventions of the embedding.
    - Go's [int] is modelled by [Z], and the wrap-around of [int] is not
      written out: the embedding is the code as long as the values
      computed stay in the range of [int].  The symbols, tables and
      buffers of the encoder keep them there; a property of a function
      that computes with an integer argument of any size is stated for
      the arguments that do ([int_range]).  [byte] conversions
      ([byte(v)], [0xff & v], [b - '0']) are written with their reduction
      modulo 256.
    - Go's [/] and [%] truncate towards zero: [Z.quot] and [Z.rem].
    - A run-time panic, an error return and a loop that does not stop are
      results of the model ([outcome]); loops whose trip count is not
      fixed by a range take fuel.
    - [[]T] is [list T], indexed with stdpp's lookup after the bounds check
      Go performs; [map[int]T] is [gmap Z T]. *)

From Stdlib Require Import ZArith List Lia Bool.
From Stdlib Require Strings.String Strings.Ascii.
From Stdlib Require Import Floats.PrimFloat Floats.SpecFloat Floats.FloatOps.
From Stdlib Require Import Numbers.Cyclic.Int63.Uint63.
From stdpp Require Import base option list gmap.
Import ListNotations.
Open Scope Z_scope.

(** ** Errors, panics and outcomes *)

(** The [error] values the packages construct with [fmt.Errorf] or
    [errors.New]. *)
Inductive go_error : Type :=
| ErrInvalidBoxSize (size : Z)
| ErrInvalidBorder (border : Z)
| ErrInvalidMaskPattern (pattern : Z)
| ErrInvalidOptimize (optimize : Z)
| ErrUnsupportedDataType
| ErrInvalidMode (mode : Z)
| ErrNotRepresentable (mode : Z)
| ErrBadRSBlock (version errorCorrection : Z)
| ErrCodeLengthOverflow (size available : Z)
| ErrEmptyPolynomial (len shift : Z)
| ErrGlog (n : Z).

(** What stops a goroutine: the run-time's own panics, the explicit
    [panic(...)] calls of the source, and the panic of
    [regexp.MustCompile] on an expression with the repeat [{n,}] that the
    parser refuses. *)
Inductive go_panic : Type :=
| IndexOutOfRange
| NilDereference
| NegativeShift
| MakeSliceLen
| PanicInvalidVersion (v : Z)
| PanicInvalidMode (mode : Z)
| PanicDataOverflow
| PanicBadMaskPattern
| PanicRegexpCompile (n : Z)
| PanicError (e : go_error).

Inductive outcome (A : Type) : Type :=
| Done (a : A)
| Panicked (p : go_panic)
| OutOfFuel.
Arguments Done {A} a.
Arguments Panicked {A} p.
Arguments OutOfFuel {A}.

Definition obind {A B} (m : outcome A) (k : A -> outcome B) : outcome B :=
  match m with
  | Done a => k a
  | Panicked p => Panicked p
  | OutOfFuel => OutOfFuel
  end.

Declare Scope go_scope.
Delimit Scope go_scope with go.
Notation "'do' x <- m ; k" := (obind m (fun x => k))
  (at level 10, x pattern, m at level 100, k at level 200) : go_scope.
Open Scope go_scope.

(** [s[i]] on a slice: a bounds check, then the element. *)
Definition index {A} (s : list A) (i : Z) : outcome A :=
  if (i <? 0) || (Z.of_nat (length s) <=? i) then Panicked IndexOutOfRange
  else match s !! Z.to_nat i with
       | Some x => Done x
       | None => Panicked IndexOutOfRange
       end.

(** [s[i] = x]. *)
Definition store {A} (s : list A) (i : Z) (x : A) : outcome (list A) :=
  if (i <? 0) || (Z.of_nat (length s) <=? i) then Panicked IndexOutOfRange
  else Done (<[Z.to_nat i := x]> s).

(** [x << n] and [x >> n] on [int]; a negative count panics. *)
Definition shl (x n : Z) : outcome Z :=
  if n <? 0 then Panicked NegativeShift else Done (Z.shiftl x n).
Definition shr (x n : Z) : outcome Z :=
  if n <? 0 then Panicked NegativeShift else Done (Z.shiftr x n).

(** [for i := lo; i < hi; i++ { body }] where the body leaves [i] alone:
    [n] is the number of iterations left. *)
Fixpoint for_loop {S} (n : nat) (i : Z) (body : Z -> S -> outcome S) (s : S) : outcome S :=
  match n with
  | O => Done s
  | S n' => do s' <- body i s; for_loop n' (i + 1) body s'
  end.
Definition for_range {S} (lo hi : Z) (body : Z -> S -> outcome S) (s : S) : outcome S :=
  for_loop (Z.to_nat (hi - lo)) lo body s.

(** [for _, x := range xs { body }]. *)
Fixpoint for_each {A S} (xs : list A) (body : A -> S -> outcome S) (s : S) : outcome S :=
  match xs with
  | [] => Done s
  | x :: xs' => do s' <- body x s; for_each xs' body s'
  end.

(** [m[k]] on a Go map: the zero value when the key is missing. *)
Definition map_get (m : gmap Z Z) (k : Z) : Z := default 0 (m !! k).

Definition byte_of (v : Z) : Z := v mod 256.

(** [make([]int, n)]. *)
Definition make_ints (n : Z) : outcome (list Z) :=
  if n <? 0 then Panicked MakeSliceLen else Done (replicate (Z.to_nat n) 0).

(** Functions that return [(T, error)]. *)
Inductive fallible (A : Type) : Type :=
| Ok (a : A)
| Err (e : go_error).
Arguments Ok {A} a.
Arguments Err {A} e.

(** [v, err := f(); if err != nil { return nil, err }; k v]. *)
Definition ebind {A B} (m : outcome (fallible A)) (k : A -> outcome (fallible B))
  : outcome (fallible B) :=
  do r <- m;
  match r with
  | Ok a => k a
  | Err e => Done (Err e)
  end.
Notation "'try' x <- m ; k" := (ebind m (fun x => k))
  (at level 10, x pattern, m at level 100, k at level 200) : go_scope.

(** [for i := lo; i < hi; i += step { body }] with [step > 0]. *)
Fixpoint for_step {S} (fuel : nat) (i hi step : Z) (body : Z -> S -> outcome S) (s : S)
  : outcome S :=
  if i <? hi then
    match fuel with
    | O => OutOfFuel
    | S fuel' => do s' <- body i s; for_step fuel' (i + step) hi step body s'
    end
  else Done s.

(** [s[lo:hi]] for [0 <= lo <= hi <= len(s)]. *)
Definition slice {A} (s : list A) (lo hi : Z) : list A :=
  take (Z.to_nat (hi - lo)) (drop (Z.to_nat lo) s).

Definition len {A} (s : list A) : Z := Z.of_nat (length s).

(** The bytes of a string literal. *)
Definition bytes_of_string (s : String.string) : list Z :=
  map (fun a => Z.of_N (Ascii.N_of_ascii a)) (String.list_ascii_of_string s).

(** String constants of the source. *)
Module Literal.
Import Stdlib.Strings.String.
Definition AlphanumericChars : string :=
  "0123456789ABCDEFGHIJKLMNOPQRSTUVWXYZ $%*+-./:"%string.
End Literal.


(** [for i, x := range xs { body }] where the body may [return nil, err]. *)
Fixpoint for_each_e {A S} (xs : list A) (i : Z)
    (body : Z -> A -> S -> outcome (fallible S)) (s : S) : outcome (fallible S) :=
  match xs with
  | [] => Done (Ok s)
  | x :: xs' => try s' <- body i x s; for_each_e xs' (i + 1) body s'
  end.

(** [for i := 0; i < n; i++ { body }] where the body may [return nil, err]. *)
Fixpoint for_loop_e {S} (n : nat) (i : Z)
    (body : Z -> S -> outcome (fallible S)) (s : S) : outcome (fallible S) :=
  match n with
  | O => Done (Ok s)
  | S n' => try s' <- body i s; for_loop_e n' (i + 1) body s'
  end.

(** ** Package [constants] *)

(** Package [constants] is imported by the sources ([base], [qr], [main])
    but is not among them; only the four names below are used.  The
    sources show that the four are distinct keys of [RS_BLOCK_OFFSET] and
    indices of [BIT_LIMIT_TABLE]; their values are the specification's. *)
Module constants.
(** Modelled from the spec: the constant [constants.ERROR_CORRECT_L] is
    missing; the specification numbers the levels L=0, M=1, Q=2, H=3. *)
Definition ERROR_CORRECT_L : Z := 0.
(** Modelled from the spec: the constant [constants.ERROR_CORRECT_M] is
    missing; the specification numbers the levels L=0, M=1, Q=2, H=3. *)
Definition ERROR_CORRECT_M : Z := 1.
(** Modelled from the spec: the constant [constants.ERROR_CORRECT_Q] is
    missing; the specification numbers the levels L=0, M=1, Q=2, H=3. *)
Definition ERROR_CORRECT_Q : Z := 2.
(** Modelled from the spec: the constant [constants.ERROR_CORRECT_H] is
    missing; the specification numbers the levels L=0, M=1, Q=2, H=3. *)
Definition ERROR_CORRECT_H : Z := 3.
End constants.

(** ** Package [base]: GF(256) tables, polynomials, Reed-Solomon blocks *)
Module base.

(** [init] fills [EXP_TABLE] and [LOG_TABLE], both made with 256 zeros. *)
Definition init : outcome (list Z * list Z) :=
  do e <- make_ints 256;
  do l <- make_ints 256;
  do e <- for_range 0 8 (fun i e => store e i (Z.shiftl 1 i)) e;
  do e <- for_range 8 256
            (fun i e =>
               do a <- index e (i - 4);
               do b <- index e (i - 5);
               do c <- index e (i - 6);
               do d <- index e (i - 8);
               store e i (Z.lxor (Z.lxor (Z.lxor a b) c) d)) e;
  do l <- for_range 0 255 (fun i l => do x <- index e i; store l x i) l;
  Done (e, l).

Definition EXP_TABLE : list Z :=
  Eval vm_compute in match init with Done (e, _) => e | _ => [] end.
Definition LOG_TABLE : list Z :=
  Eval vm_compute in match init with Done (_, l) => l | _ => [] end.

Definition RS_BLOCK_OFFSET : gmap Z Z :=
  <[constants.ERROR_CORRECT_L := 0]> (<[constants.ERROR_CORRECT_M := 1]>
  (<[constants.ERROR_CORRECT_Q := 2]> (<[constants.ERROR_CORRECT_H := 3]> ∅))).

Definition RS_BLOCK_TABLE : list (list Z) := [
  [1; 26; 19]; [1; 26; 16]; [1; 26; 13]; [1; 26; 9];
  [1; 44; 34]; [1; 44; 28]; [1; 44; 22]; [1; 44; 16];
  [1; 70; 55]; [1; 70; 44]; [2; 35; 17]; [2; 35; 13];
  [1; 100; 80]; [2; 50; 32]; [2; 50; 24]; [4; 25; 9];
  [1; 134; 108]; [2; 67; 43]; [2; 33; 15; 2; 34; 16]; [2; 33; 11; 2; 34; 12];
  [2; 86; 68]; [4; 43; 27]; [4; 43; 19]; [4; 43; 15];
  [2; 98; 78]; [4; 49; 31]; [2; 32; 14; 4; 33; 15]; [4; 39; 13; 1; 40; 14];
  [2; 121; 97]; [2; 60; 38; 2; 61; 39]; [4; 40; 18; 2; 41; 19]; [4; 40; 14; 2; 41; 15];
  [2; 146; 116]; [3; 58; 36; 2; 59; 37]; [4; 36; 16; 4; 37; 17]; [4; 36; 12; 4; 37; 13];
  [2; 86; 68; 2; 87; 69]; [4; 69; 43; 1; 70; 44]; [6; 43; 19; 2; 44; 20]; [6; 43; 15; 2; 44; 16];
  [4; 101; 81]; [1; 80; 50; 4; 81; 51]; [4; 50; 22; 4; 51; 23]; [3; 36; 12; 8; 37; 13];
  [2; 116; 92; 2; 117; 93]; [6; 58; 36; 2; 59; 37]; [4; 46; 20; 6; 47; 21]; [7; 42; 14; 4; 43; 15];
  [4; 133; 107]; [8; 59; 37; 1; 60; 38]; [8; 44; 20; 4; 45; 21]; [12; 33; 11; 4; 34; 12];
  [3; 145; 115; 1; 146; 116]; [4; 64; 40; 5; 65; 41]; [11; 36; 16; 5; 37; 17]; [11; 36; 12; 5; 37; 13];
  [5; 109; 87; 1; 110; 88]; [5; 65; 41; 5; 66; 42]; [5; 54; 24; 7; 55; 25]; [11; 36; 12; 7; 37; 13];
  [5; 122; 98; 1; 123; 99]; [7; 73; 45; 3; 74; 46]; [15; 43; 19; 2; 44; 20]; [3; 45; 15; 13; 46; 16];
  [1; 135; 107; 5; 136; 108]; [10; 74; 46; 1; 75; 47]; [1; 50; 22; 15; 51; 23]; [2; 42; 14; 17; 43; 15];
  [5; 150; 120; 1; 151; 121]; [9; 69; 43; 4; 70; 44]; [17; 50; 22; 1; 51; 23]; [2; 42; 14; 19; 43; 15];
  [3; 141; 113; 4; 142; 114]; [3; 70; 44; 11; 71; 45]; [17; 47; 21; 4; 48; 22]; [9; 39; 13; 16; 40; 14];
  [3; 135; 107; 5; 136; 108]; [3; 67; 41; 13; 68; 42]; [15; 54; 24; 5; 55; 25]; [15; 43; 15; 10; 44; 16];
  [4; 144; 116; 4; 145; 117]; [17; 68; 42]; [17; 50; 22; 6; 51; 23]; [19; 46; 16; 6; 47; 17];
  [2; 139; 111; 7; 140; 112]; [17; 74; 46]; [7; 54; 24; 16; 55; 25]; [34; 37; 13];
  [4; 151; 121; 5; 152; 122]; [4; 75; 47; 14; 76; 48]; [11; 54; 24; 14; 55; 25]; [16; 45; 15; 14; 46; 16];
  [6; 147; 117; 4; 148; 118]; [6; 73; 45; 14; 74; 46]; [11; 54; 24; 16; 55; 25]; [30; 46; 16; 2; 47; 17];
  [8; 132; 106; 4; 133; 107]; [8; 75; 47; 13; 76; 48]; [7; 54; 24; 22; 55; 25]; [22; 45; 15; 13; 46; 16];
  [10; 142; 114; 2; 143; 115]; [19; 74; 46; 4; 75; 47]; [28; 50; 22; 6; 51; 23]; [33; 46; 16; 4; 47; 17];
  [8; 152; 122; 4; 153; 123]; [22; 73; 45; 3; 74; 46]; [8; 53; 23; 26; 54; 24]; [12; 45; 15; 28; 46; 16];
  [3; 147; 117; 10; 148; 118]; [3; 73; 45; 23; 74; 46]; [4; 54; 24; 31; 55; 25]; [11; 45; 15; 31; 46; 16];
  [7; 146; 116; 7; 147; 117]; [21; 73; 45; 7; 74; 46]; [1; 53; 23; 37; 54; 24]; [19; 45; 15; 26; 46; 16];
  [5; 145; 115; 10; 146; 116]; [19; 75; 47; 10; 76; 48]; [15; 54; 24; 25; 55; 25]; [23; 45; 15; 25; 46; 16];
  [13; 145; 115; 3; 146; 116]; [2; 74; 46; 29; 75; 47]; [42; 54; 24; 1; 55; 25]; [23; 45; 15; 28; 46; 16];
  [17; 145; 115]; [10; 74; 46; 23; 75; 47]; [10; 54; 24; 35; 55; 25]; [19; 45; 15; 35; 46; 16];
  [17; 145; 115; 1; 146; 116]; [14; 74; 46; 21; 75; 47]; [29; 54; 24; 19; 55; 25]; [11; 45; 15; 46; 46; 16];
  [13; 145; 115; 6; 146; 116]; [14; 74; 46; 23; 75; 47]; [44; 54; 24; 7; 55; 25]; [59; 46; 16; 1; 47; 17];
  [12; 151; 121; 7; 152; 122]; [12; 75; 47; 26; 76; 48]; [39; 54; 24; 14; 55; 25]; [22; 45; 15; 41; 46; 16];
  [6; 151; 121; 14; 152; 122]; [6; 75; 47; 34; 76; 48]; [46; 54; 24; 10; 55; 25]; [2; 45; 15; 64; 46; 16];
  [17; 152; 122; 4; 153; 123]; [29; 74; 46; 14; 75; 47]; [49; 54; 24; 10; 55; 25]; [24; 45; 15; 46; 46; 16];
  [4; 152; 122; 18; 153; 123]; [13; 74; 46; 32; 75; 47]; [48; 54; 24; 14; 55; 25]; [42; 45; 15; 32; 46; 16];
  [20; 147; 117; 4; 148; 118]; [40; 75; 47; 7; 76; 48]; [43; 54; 24; 22; 55; 25]; [10; 45; 15; 67; 46; 16];
  [19; 148; 118; 6; 149; 119]; [18; 75; 47; 31; 76; 48]; [34; 54; 24; 34; 55; 25]; [20; 45; 15; 61; 46; 16]
].

Definition glog (n : Z) : outcome (fallible Z) :=
  if n <? 1 then Done (Err (ErrGlog n))
  else do v <- index LOG_TABLE n; Done (Ok v).

Definition Gexp (n : Z) : outcome Z := index EXP_TABLE (Z.rem n 255).

Record Polynomial : Type := mkPolynomial { num : list Z }.

(** [offset := 0; for offset = range num { if num[offset] != 0 { break } }]
    on a non-empty [num]: the first non-zero position, the last position
    when there is none. *)
Fixpoint range_offset (num : list Z) (offset : Z) : Z :=
  match num with
  | [] => offset
  | x :: rest =>
      if negb (x =? 0) then offset
      else match rest with
           | [] => offset
           | _ => range_offset rest (offset + 1)
           end
  end.

Definition NewPolynomial (num : list Z) (shift : Z) : outcome (fallible Polynomial) :=
  if len num =? 0 then Done (Err (ErrEmptyPolynomial (len num) shift))
  else
    let offset := range_offset num 0 in
    do zeros <- make_ints shift;
    Done (Ok {| num := slice num offset (len num) ++ zeros |}).

Definition Poly_Get (p : Polynomial) (i : Z) : outcome Z := index (num p) i.
Definition Poly_Len (p : Polynomial) : Z := len (num p).

(** The body of the loops of [Mul]:
    [num[i+j] ^= Gexp(glog(item) + glog(otherItem))]. *)
Definition Mul_term (i item j otherItem : Z) (acc : list Z) : outcome (fallible (list Z)) :=
  try glogItem <- glog item;
  try glogOtherItem <- glog otherItem;
  do g <- Gexp (glogItem + glogOtherItem);
  do old <- index acc (i + j);
  do acc <- store acc (i + j) (Z.lxor old g);
  Done (Ok acc).

Definition Mul (p other : Polynomial) : outcome (fallible Polynomial) :=
  do zeros <- make_ints (Poly_Len p + Poly_Len other - 1);
  try num <- for_each_e (num p) 0
               (fun i item acc => for_each_e (num other) 0 (Mul_term i item) acc) zeros;
  NewPolynomial num 0.

(** [for len(num) > 0 && num[0] == 0 { num = num[1:] }]. *)
Fixpoint strip_zeros (num : list Z) : list Z :=
  match num with
  | x :: rest => if x =? 0 then strip_zeros rest else num
  | [] => []
  end.

Fixpoint Mod_loop (fuel : nat) (p other : Polynomial) : outcome (fallible Polynomial) :=
  if Poly_Len p >=? Poly_Len other then
    match fuel with
    | O => OutOfFuel
    | S fuel' =>
        let difference := Poly_Len p - Poly_Len other in
        if difference <? 0 then Done (Ok p)
        else
          do p0 <- Poly_Get p 0;
          try glogP0 <- glog p0;
          do o0 <- Poly_Get other 0;
          try glogOther0 <- glog o0;
          let ratio := glogP0 - glogOther0 in
          try num <- for_loop_e (length (num other)) 0
                       (fun i acc =>
                          do oi <- Poly_Get other i;
                          try glogOtherItem <- glog oi;
                          do g <- Gexp (glogOtherItem + ratio);
                          do old <- index acc i;
                          do acc <- store acc i (Z.lxor old g);
                          Done (Ok acc)) (num p);
          let num := strip_zeros num in
          try modPoly <- NewPolynomial num 0;
          Mod_loop fuel' modPoly other
    end
  else Done (Ok p).

(** Every round removes the leading coefficient, so the length of [p]
    bounds the rounds. *)
Definition Mod (p other : Polynomial) : outcome (fallible Polynomial) :=
  Mod_loop (S (length (num p))) p other.

Record RSBlock : Type := mkRSBlock { TotalCount : Z; DataCount : Z }.

(** [RSBlocks]: the blocks of a version and level, read from the row
    [(version-1)*4 + offset] of [RS_BLOCK_TABLE].  The index is computed in
    [Z]: it is Go's for the versions on which the product stays in the
    range of [int]. *)
Definition RSBlocks (version errorCorrection : Z) : outcome (fallible (list RSBlock)) :=
  match RS_BLOCK_OFFSET !! errorCorrection with
  | None => Done (Err (ErrBadRSBlock version errorCorrection))
  | Some offset =>
      do rsBlock <- index RS_BLOCK_TABLE ((version - 1) * 4 + offset);
      do blocks <- for_step (length rsBlock) 0 (len rsBlock) 3
                     (fun i blocks =>
                        do count <- index rsBlock i;
                        do totalCount <- index rsBlock (i + 1);
                        do dataCount <- index rsBlock (i + 2);
                        for_range 0 count
                          (fun _ blocks =>
                             Done (blocks ++ [{| TotalCount := totalCount;
                                                 DataCount := dataCount |}])) blocks) [];
      Done (Ok blocks)
  end.

End base.
(** ** Package [utils] *)
Module utils.

(** *** Constants, BCH codes, mask predicates *)

(** QR encoding modes. *)
Definition ModeNumeric : Z := Z.shiftl 1 0.
Definition ModeAlphanumeric : Z := Z.shiftl 1 1.
Definition ModeByte : Z := Z.shiftl 1 2.
Definition ModeKanji : Z := Z.shiftl 1 3.

(** Encoding mode sizes. *)
Definition ModeSizeSmall : gmap Z Z :=
  <[ModeNumeric := 10]> (<[ModeAlphanumeric := 9]> (<[ModeByte := 8]> (<[ModeKanji := 8]> ∅))).
Definition ModeSizeMedium : gmap Z Z :=
  <[ModeNumeric := 12]> (<[ModeAlphanumeric := 11]> (<[ModeByte := 16]> (<[ModeKanji := 10]> ∅))).
Definition ModeSizeLarge : gmap Z Z :=
  <[ModeNumeric := 14]> (<[ModeAlphanumeric := 13]> (<[ModeByte := 16]> (<[ModeKanji := 12]> ∅))).

(** Number of bits for numeric delimited data lengths. *)
Definition NumberLength : gmap Z Z := <[3 := 10]> (<[2 := 7]> (<[1 := 4]> ∅)).

(** [PatternPositionTable] defines the position of alignment patterns for
    each version of the QR code. *)
Definition PatternPositionTable : list (list Z) := [
  [];
  [6; 18];
  [6; 22];
  [6; 26];
  [6; 30];
  [6; 34];
  [6; 22; 38];
  [6; 24; 42];
  [6; 26; 46];
  [6; 28; 50];
  [6; 30; 54];
  [6; 32; 58];
  [6; 34; 62];
  [6; 26; 46; 66];
  [6; 26; 48; 70];
  [6; 26; 50; 74];
  [6; 30; 54; 78];
  [6; 30; 56; 82];
  [6; 30; 58; 86];
  [6; 34; 62; 90];
  [6; 28; 50; 72; 94];
  [6; 26; 50; 74; 98];
  [6; 30; 54; 78; 102];
  [6; 28; 54; 80; 106];
  [6; 32; 58; 84; 110];
  [6; 30; 58; 86; 114];
  [6; 34; 62; 90; 118];
  [6; 26; 50; 74; 98; 122];
  [6; 30; 54; 78; 102; 126];
  [6; 26; 52; 78; 104; 130];
  [6; 30; 56; 82; 108; 134];
  [6; 34; 60; 86; 112; 138];
  [6; 30; 58; 86; 114; 142];
  [6; 34; 62; 90; 118; 146];
  [6; 30; 54; 78; 102; 126; 150];
  [6; 24; 50; 76; 102; 128; 154];
  [6; 28; 54; 80; 106; 132; 158];
  [6; 32; 58; 84; 110; 136; 162];
  [6; 26; 54; 82; 110; 138; 166];
  [6; 30; 58; 86; 114; 142; 170]
].

Definition G15 : Z :=
  Z.lor (Z.lor (Z.lor (Z.lor (Z.lor (Z.lor (Z.shiftl 1 10) (Z.shiftl 1 8)) (Z.shiftl 1 5))
    (Z.shiftl 1 4)) (Z.shiftl 1 2)) (Z.shiftl 1 1)) (Z.shiftl 1 0).
Definition G18 : Z :=
  Z.lor (Z.lor (Z.lor (Z.lor (Z.lor (Z.lor (Z.lor (Z.shiftl 1 12) (Z.shiftl 1 11)) (Z.shiftl 1 10))
    (Z.shiftl 1 9)) (Z.shiftl 1 8)) (Z.shiftl 1 5)) (Z.shiftl 1 2)) (Z.shiftl 1 0).
Definition G15_MASK : Z :=
  Z.lor (Z.lor (Z.lor (Z.lor (Z.shiftl 1 14) (Z.shiftl 1 12)) (Z.shiftl 1 10)) (Z.shiftl 1 4))
    (Z.shiftl 1 1).

Definition PAD0 : Z := 0xEC.
Definition PAD1 : Z := 0x11.

(** [BCHDigit]: [for data != 0 { digit++; data >>= 1 }].  An [int] has 64
    bits, so 64 rounds empty any non-negative value; a negative one never
    reaches zero. *)
Fixpoint BCHDigit_loop (fuel : nat) (digit data : Z) : outcome Z :=
  if data =? 0 then Done digit
  else match fuel with
       | O => OutOfFuel
       | S fuel' => BCHDigit_loop fuel' (digit + 1) (Z.shiftr data 1)
       end.
Definition BCHDigit (data : Z) : outcome Z := BCHDigit_loop 64 0 data.

(** The reduction loop shared by [BCHTypeInfo] and [BCHTypeNumber]:
    [for BCHDigit(d)-BCHDigit(g) >= 0 { d ^= g << (BCHDigit(d)-BCHDigit(g)) }]. *)
Fixpoint BCH_reduce (fuel : nat) (g d : Z) : outcome Z :=
  do dd <- BCHDigit d;
  do dg <- BCHDigit g;
  if dd - dg >=? 0 then
    match fuel with
    | O => OutOfFuel
    | S fuel' =>
        do s <- shl g (dd - dg);
        BCH_reduce fuel' g (Z.lxor d s)
    end
  else Done d.

(** [BCHTypeInfo] calculates BCH code for type information. *)
Definition BCHTypeInfo (data : Z) : outcome Z :=
  do d <- BCH_reduce 64 G15 (Z.shiftl data 10);
  Done (Z.lxor (Z.lor (Z.shiftl data 10) d) G15_MASK).

(** [BCHTypeNumber] calculates BCH code for type number. *)
Definition BCHTypeNumber (data : Z) : outcome Z :=
  do d <- BCH_reduce 64 G18 (Z.shiftl data 12);
  Done (Z.lor (Z.shiftl data 12) d).

(** [MaskFunc] returns the mask function for the given mask pattern. *)
Definition MaskFunc (pattern : Z) : outcome (Z -> Z -> bool) :=
  match pattern with
  | 0 => Done (fun i j => Z.rem (i + j) 2 =? 0)
  | 1 => Done (fun i j => Z.rem i 2 =? 0)
  | 2 => Done (fun i j => Z.rem j 3 =? 0)
  | 3 => Done (fun i j => Z.rem (i + j) 3 =? 0)
  | 4 => Done (fun i j => Z.rem (Z.quot i 2 + Z.quot j 3) 2 =? 0)
  | 5 => Done (fun i j => Z.rem (i * j) 2 + Z.rem (i * j) 3 =? 0)
  | 6 => Done (fun i j => Z.rem (Z.rem (i * j) 2 + Z.rem (i * j) 3) 2 =? 0)
  | 7 => Done (fun i j => Z.rem (Z.rem (i * j) 3 + Z.rem (i + j) 2) 2 =? 0)
  | _ => Panicked PanicBadMaskPattern
  end.

Definition ModeSizeVersion (version : Z) : gmap Z Z :=
  if version <=? 9 then ModeSizeSmall
  else if version <=? 26 then ModeSizeMedium
  else ModeSizeLarge.

Definition CheckVersion (version : Z) : bool := (version >=? 1) && (version <=? 40).

Definition LengthInBits (mode version : Z) : outcome Z :=
  if negb (mode =? ModeNumeric) && negb (mode =? ModeAlphanumeric)
     && negb (mode =? ModeByte) && negb (mode =? ModeKanji)
  then Panicked (PanicInvalidMode mode)
  else if negb (CheckVersion version) then Panicked (PanicInvalidVersion version)
  else Done (map_get (ModeSizeVersion version) mode).

(** *** [BitBuffer] *)

(** [BitBuffer] is a structure to hold bits and manage them
    ([bb_length] is the field [length]). *)
Record BitBuffer : Type := mkBitBuffer { buffer : list Z; bb_length : Z }.

Definition NewBitBuffer : BitBuffer := {| buffer := []; bb_length := 0 |}.

(** [Get] returns the bit at the specified index. *)
Definition Get (b : BitBuffer) (index_ : Z) : outcome bool :=
  let bufIndex := Z.quot index_ 8 in
  do w <- index (buffer b) bufIndex;
  do s <- shr w (7 - Z.rem index_ 8);
  Done (Z.land s 1 =? 1).

(** [Len] returns the number of bits in the buffer. *)
Definition Len (b : BitBuffer) : Z := bb_length b.

(** [PutBit] adds a single bit to the buffer. *)
Definition PutBit (b : BitBuffer) (bit : bool) : outcome BitBuffer :=
  let bufIndex := Z.quot (bb_length b) 8 in
  let buf := if Z.of_nat (length (buffer b)) <=? bufIndex then buffer b ++ [0] else buffer b in
  do buf' <- (if bit then
                do w <- index buf bufIndex;
                do m <- shr 0x80 (Z.rem (bb_length b) 8);
                store buf bufIndex (Z.lor w m)
              else Done buf);
  Done {| buffer := buf'; bb_length := bb_length b + 1 |}.

(** [Put] adds the specified number of bits to the buffer. *)
Definition Put (b : BitBuffer) (num length_ : Z) : outcome BitBuffer :=
  for_range 0 length_
    (fun i b => do s <- shr num (length_ - i - 1); PutBit b (Z.land s 1 =? 1)) b.
(** *** Segments and the chunker *)

Definition AlphanumericChars : list Z :=
  bytes_of_string Literal.AlphanumericChars.

(** [\d] on bytes: an ASCII digit. *)
Definition class_digit (b : Z) : bool := (48 <=? b) && (b <=? 57).

(** The class ["[" + regexp.QuoteMeta(AlphanumericChars) + "]"].  [QuoteMeta]
    escapes [$], [*], [+] and [.] but not [-], so the class text reads
    [0-9A-Z \$%\*\+-\./:] item by item, and [\+-\.] is the range from [+]
    (43) to [.] (46): the comma (44) belongs to the class. *)
Definition class_alnum (b : Z) : bool :=
  class_digit b || ((65 <=? b) && (b <=? 90)) || (b =? 32) || (b =? 36) || (b =? 37)
  || (b =? 42) || ((43 <=? b) && (b <=? 46)) || (b =? 47) || (b =? 58).

(** The regular expressions the package compiles, by shape:
    [Star c] is [^c*$], [Whole c] is [^c+$] and [Run c n] is [c{n,}]. *)
Inductive regexp : Type :=
| Star (c : Z -> bool)
| Whole (c : Z -> bool)
| Run (c : Z -> bool) (n : Z).

(** [regexp.MustCompile]: the parser of package [regexp] refuses a repeat
    count above 1000 (its [ErrInvalidRepeatSize]), and [MustCompile] panics
    on an expression that does not parse.  The other expressions of the
    package always compile. *)
Definition MustCompile (re : regexp) : outcome regexp :=
  match re with
  | Run _ n => if n >? 1000 then Panicked (PanicRegexpCompile n) else Done re
  | _ => Done re
  end.

(** Number of leading bytes in the class. *)
Fixpoint run_length (c : Z -> bool) (data : list Z) : Z :=
  match data with
  | b :: rest => if c b then 1 + run_length c rest else 0
  | [] => 0
  end.

(** Leftmost position from which at least [n] bytes of the class follow,
    with the end of the greedy match. *)
Fixpoint find_run (c : Z -> bool) (n : Z) (off : Z) (data : list Z) : option (Z * Z) :=
  if n <=? run_length c data then Some (off, off + run_length c data)
  else match data with
       | [] => None
       | _ :: rest => find_run c n (off + 1) rest
       end.

(** [re.Match(data)]. *)
Definition Match (re : regexp) (data : list Z) : bool :=
  match re with
  | Star c => forallb c data
  | Whole c => negb (len data =? 0) && forallb c data
  | Run c n => match find_run c n 0 data with Some _ => true | None => false end
  end.

(** [re.FindIndex(data)]: the leftmost match, [nil] when there is none. *)
Definition FindIndex (re : regexp) (data : list Z) : option (Z * Z) :=
  match re with
  | Star c => if forallb c data then Some (0, len data) else None
  | Whole c => if negb (len data =? 0) && forallb c data then Some (0, len data) else None
  | Run c n => find_run c n 0 data
  end.

(** [ReAlphaNumeric] is compiled when the package is initialised. *)
Definition ReAlphaNumeric : regexp := Star class_alnum.

Record QRData : Type := mkQRData { data : list Z; mode : Z }.

Definition isDigit (data : list Z) : bool :=
  forallb (fun b => negb ((b <? 48) || (b >? 57))) data.

(** Calculate the optimal mode for this chunk of data. *)
Definition OptimalMode (data : list Z) : Z :=
  if isDigit data then ModeNumeric
  else if Match ReAlphaNumeric data then ModeAlphanumeric
  else ModeByte.

(** [toBytes] on a [[]byte] argument returns it. *)
Definition toBytes (data : list Z) : list Z := data.

(** [NewQRData] creates a new QRData instance. *)
Definition NewQRData (data : list Z) (mode : Z) (checkData : bool) : fallible QRData :=
  let data := if checkData then toBytes data else data in
  if mode =? 0 then Ok {| data := data; mode := OptimalMode data |}
  else if negb (mode =? ModeNumeric) && negb (mode =? ModeAlphanumeric) && negb (mode =? ModeByte)
  then Err (ErrInvalidMode mode)
  else if checkData && (mode <? OptimalMode data) then Err (ErrNotRepresentable mode)
  else Ok {| data := data; mode := mode |}.

Definition QRData_Len (q : QRData) : Z := len (data q).
Definition GetMode (q : QRData) : Z := mode q.

Definition min (x y : Z) : Z := if x <? y then x else y.

(** [strings.IndexByte(AlphanumericChars, c)]. *)
Fixpoint IndexByte (s : list Z) (c : Z) : Z :=
  match s with
  | [] => -1
  | b :: rest => if b =? c then 0
                 else let r := IndexByte rest c in if r <? 0 then -1 else 1 + r
  end.
Definition alphanumericIndex (c : Z) : Z := IndexByte AlphanumericChars c.

(** [bytesToInt] converts a byte slice to an integer; [b-'0'] is a [byte]. *)
Definition bytesToInt (bytes : list Z) : Z :=
  fold_left (fun result b => result * 10 + byte_of (b - 48)) bytes 0.

(** [Write] writes the data to the buffer. *)
Definition Write (q : QRData) (b : BitBuffer) : outcome BitBuffer :=
  let n := len (data q) in
  if mode q =? ModeNumeric then
    for_step (length (data q)) 0 n 3
      (fun i b =>
         let chars := slice (data q) i (min (i + 3) n) in
         let bitLength := map_get NumberLength (len chars) in
         Put b (bytesToInt chars) bitLength) b
  else if mode q =? ModeAlphanumeric then
    for_step (length (data q)) 0 n 2
      (fun i b =>
         let chars := slice (data q) i (min (i + 2) n) in
         if len chars >? 1 then
           do c0 <- index chars 0;
           do c1 <- index chars 1;
           Put b (alphanumericIndex c0 * 45 + alphanumericIndex c1) 11
         else
           do c0 <- index chars 0;
           Put b (alphanumericIndex c0) 6) b
  else
    for_each (data q) (fun c b => Put b c 8) b.

(** The loop of [optimalSplit] over the numeric matches; it returns the
    segments emitted so far and the data left. *)
Fixpoint optimalSplit_loop (fuel : nat) (numPattern : regexp) (data : list Z)
    (result : list QRData) : outcome (list QRData * list Z) :=
  if len data >? 0 then
    match FindIndex numPattern data with
    | None => Done (result, data)
    | Some (start, end_) =>
        match fuel with
        | O => OutOfFuel
        | S fuel' =>
            let result :=
              if start >? 0 then result ++ [{| data := slice data 0 start; mode := ModeByte |}]
              else result in
            let result := result ++ [{| data := slice data start end_; mode := ModeNumeric |}] in
            optimalSplit_loop fuel' numPattern (slice data end_ (len data)) result
        end
    end
  else Done (result, data).

Definition optimalSplit (data : list Z) (numPattern alphaPattern : regexp)
  : outcome (fallible (list QRData)) :=
  do (result, data) <- optimalSplit_loop (S (length data)) numPattern data [];
  if len data >? 0 then
    match FindIndex alphaPattern data with
    | Some (start, end_) =>
        let result :=
          if start >? 0 then result ++ [{| data := slice data 0 start; mode := ModeByte |}]
          else result in
        let result := result ++ [{| data := slice data start end_; mode := ModeAlphanumeric |}] in
        (* data = data[end:] is the last statement of this branch *)
        Done (Ok result)
    | None => Done (Ok (result ++ [{| data := data; mode := ModeByte |}]))
    end
  else Done (Ok result).

(** [OptimalDataChunks] returns the QRData chunks optimized to the data
    content. *)
Definition OptimalDataChunks (data : list Z) (minimum : Z) : outcome (fallible (list QRData)) :=
  let minimum := if minimum <=? 0 then 4 else minimum in
  let data := toBytes data in
  (* the two expressions compiled first, [\d] and the class alone, have no
     repeat and are replaced on both branches *)
  do patterns <-
    (if len data <=? minimum then
       do numPattern <- MustCompile (Whole class_digit);
       do alphaPattern <- MustCompile (Whole class_alnum);
       Done (numPattern, alphaPattern)
     else
       (* repeat := fmt.Sprintf("{%d,}", minimum) *)
       do numPattern <- MustCompile (Run class_digit minimum);
       do alphaPattern <- MustCompile (Run class_alnum minimum);
       Done (numPattern, alphaPattern));
  let '(numPattern, alphaPattern) := patterns in
  optimalSplit data numPattern alphaPattern.


(** *** Codeword assembly *)

(** The per-block state of the first loop of [CreateBytes]. *)
Record blocks_state : Type := mkBlocksState {
  offset : Z;
  maxDcCount : Z;
  maxEcCount : Z;
  dcdata : list (list Z);
  ecdata : list (list Z)
}.

(** The generator polynomial loop:
    [for i := 0; i < ecCount; i++ { rsPoly = rsPoly.Mul(NewPolynomial([1, Gexp(i)], 0)) }]. *)
Definition rs_generator (ecCount : Z) : outcome (fallible base.Polynomial) :=
  try rsPoly <- base.NewPolynomial [1] 0;
  for_loop_e (Z.to_nat ecCount) 0
    (fun i rsPoly =>
       do g <- base.Gexp i;
       try child <- base.NewPolynomial [1; g] 0;
       base.Mul rsPoly child) rsPoly.

(** [dcdata[r] = make([]int, dcCount)] and the loop that fills it from the
    buffer. *)
Definition block_data (buffer : BitBuffer) (offset dcCount : Z) : outcome (list Z) :=
  do dc0 <- make_ints dcCount;
  for_range 0 (len dc0)
    (fun i dc => do w <- index (utils.buffer buffer) (i + offset);
                 store dc i (Z.land 0xff w)) dc0.

(** The error-correction codewords of the data codewords [dc]: generator
    polynomial, remainder, and the loop that fills [ecdata[r]].  An [Err]
    stands for the [log.Printf(...); return nil] exits. *)
Definition block_ec (dc : list Z) (ecCount : Z) : outcome (fallible (list Z)) :=
  try rsPoly <- rs_generator ecCount;
  try rawPoly <- base.NewPolynomial dc (base.Poly_Len rsPoly - 1);
  try modPoly <- base.Mod rawPoly rsPoly;
  do ec0 <- make_ints (base.Poly_Len rsPoly - 1);
  let modOffset := base.Poly_Len modPoly - len ec0 in
  do ec <- for_range 0 (len ec0)
             (fun i ec =>
                let modIndex := i + modOffset in
                if modIndex >=? 0 then
                  do v <- base.Poly_Get modPoly modIndex; store ec i v
                else store ec i 0) ec0;
  Done (Ok ec).

(** One round of the loop over [rsBlocks]. *)
Definition CreateBytes_block (buffer : BitBuffer) (r : Z) (rsBlock : base.RSBlock)
    (st : blocks_state) : outcome (fallible blocks_state) :=
  let dcCount := base.DataCount rsBlock in
  let ecCount := base.TotalCount rsBlock - dcCount in
  let maxDc := if maxDcCount st <? dcCount then dcCount else maxDcCount st in
  let maxEc := if maxEcCount st <? ecCount then ecCount else maxEcCount st in
  do dc <- block_data buffer (offset st) dcCount;
  do dcdata' <- store (dcdata st) r dc;
  let offset' := offset st + dcCount in
  try ec <- block_ec dc ecCount;
  do ecdata' <- store (ecdata st) r ec;
  Done (Ok {| offset := offset'; maxDcCount := maxDc; maxEcCount := maxEc;
              dcdata := dcdata'; ecdata := ecdata' |}).

(** The two interleaving loops:
    [for i := 0; i < max; i++ { for r := 0; r < len(rsBlocks); r++ {
       if i < len(cols[r]) { data[index] = byte(cols[r][i]); index++ } } }]. *)
Definition interleave_into (max blocks : Z) (cols : list (list Z))
    (st : list Z * Z) : outcome (list Z * Z) :=
  for_range 0 max
    (fun i st =>
       for_range 0 blocks
         (fun r '(data, index_) =>
            do col <- index cols r;
            if i <? len col then
              do v <- index col i;
              do data <- store data index_ (byte_of v);
              Done (data, index_ + 1)
            else Done (data, index_)) st) st.

(** [CreateBytes]; [None] is the [nil] slice it returns when a polynomial
    step fails. *)
Definition CreateBytes (buffer : BitBuffer) (rsBlocks : list base.RSBlock)
  : outcome (option (list Z)) :=
  let n := len rsBlocks in
  do r <- for_each_e rsBlocks 0 (CreateBytes_block buffer)
            {| offset := 0; maxDcCount := 0; maxEcCount := 0;
               dcdata := replicate (length rsBlocks) [];
               ecdata := replicate (length rsBlocks) [] |};
  match r with
  | Err _ => Done None
  | Ok st =>
      let totalCodewords := fold_left (fun t b => t + base.TotalCount b) rsBlocks 0 in
      do data <- make_ints totalCodewords;
      do (data, index_) <- interleave_into (maxDcCount st) n (dcdata st) (data, 0);
      do (data, index_) <- interleave_into (maxEcCount st) n (ecdata st) (data, index_);
      Done (Some data)
  end.

(** [for i := 0; i < min(bitLimit-buffer.Len(), 4); i++ { buffer.PutBit(false) }]:
    the bound is read again on every round, while the buffer grows. *)
Fixpoint terminate_bits (fuel : nat) (bitLimit i : Z) (b : BitBuffer) : outcome BitBuffer :=
  if i <? min (bitLimit - Len b) 4 then
    match fuel with
    | O => OutOfFuel
    | S fuel' => do b <- PutBit b false; terminate_bits fuel' bitLimit (i + 1) b
    end
  else Done b.

(** The segment loop shared by [CreateData] and [qr.BestFit]: mode header,
    character count of width [width mode], payload. *)
Definition write_segments (width : Z -> outcome Z) (dataList : list QRData)
  : outcome BitBuffer :=
  for_each dataList
    (fun d b =>
       do b <- Put b (mode d) 4;
       do w <- width (mode d);
       do b <- Put b (len (data d)) w;
       Write d b) NewBitBuffer.

Definition CreateData (version errorCorrection : Z) (dataList : list QRData)
  : outcome (fallible (option (list Z))) :=
  do buffer <- write_segments (fun m => LengthInBits m version) dataList;
  (* Calculate the maximum number of bits for the given version. *)
  try rsBlocks <- base.RSBlocks version errorCorrection;
  let bitLimit := fold_left (fun t b => t + base.DataCount b * 8) rsBlocks 0 in
  if Len buffer >? bitLimit then Done (Err (ErrCodeLengthOverflow (Len buffer) bitLimit))
  else
    (* Terminate the bits (add up to four 0s). *)
    do buffer <- terminate_bits 4 bitLimit 0 buffer;
    (* Delimit the string into 8-bit words, padding with 0s if necessary. *)
    let delimit := Z.rem (Len buffer) 8 in
    do buffer <- (if negb (delimit =? 0)
                  then for_range 0 (8 - delimit) (fun _ b => PutBit b false) buffer
                  else Done buffer);
    (* Add special alternating padding bitstrings until buffer is full. *)
    let bytesToFill := Z.quot (bitLimit - Len buffer) 8 in
    do buffer <- for_range 0 bytesToFill
                   (fun i b => if Z.rem i 2 =? 0 then Put b PAD0 8 else Put b PAD1 8) buffer;
    do bytes <- CreateBytes buffer rsBlocks;
    Done (Ok bytes).
(** *** Penalty scoring *)

(** A non-nil [*bool].  The sources never store through such a pointer
    (there is no [*p = ...]), so what it points to is fixed when it is
    allocated: the model carries it with the address.  Go's [==] on
    pointers compares addresses. *)
Record boolptr : Type := mkBoolPtr { addr : Z; pointee : bool }.

(** A cell of [[][]*bool]: [None] is [nil]. *)
Definition cell : Type := option boolptr.

(** [p == q] on [*bool]. *)
Definition ptr_eqb (p q : cell) : bool :=
  match p, q with
  | None, None => true
  | Some a, Some b => addr a =? addr b
  | _, _ => false
  end.

(** [*p]. *)
Definition deref (p : cell) : outcome bool :=
  match p with
  | Some a => Done (pointee a)
  | None => Panicked NilDereference
  end.

(** [container[length]++]. *)
Definition incr_at (container : list Z) (i : Z) : outcome (list Z) :=
  do v <- index container i; store container i (v + 1).

(** State of one scan line of rule 1: the counters, the pointer last seen
    and the current run. *)
Definition scan_state : Type := (list Z * cell * Z)%type.

(** The body of the inner loops of [lostPointLevel1] on the cell [c]. *)
Definition level1_step (c : cell) (st : scan_state) : outcome scan_state :=
  let '(container, previousColor, length_) := st in
  if ptr_eqb c previousColor then Done (container, previousColor, length_ + 1)
  else
    do container <- (if length_ >=? 5 then incr_at container length_ else Done container);
    Done (container, c, 1).

(** [if length >= 5 { container[length]++ }] after a scan line. *)
Definition level1_flush (st : scan_state) : outcome (list Z) :=
  let '(container, _, length_) := st in
  if length_ >=? 5 then incr_at container length_ else Done container.

Definition lostPointLevel1 (modules : list (list cell)) (modulesCount : Z) : outcome Z :=
  do container <- make_ints (modulesCount + 1);
  do container <- for_range 0 modulesCount
    (fun row container =>
       do thisRow <- index modules row;
       do previousColor <- index thisRow 0;
       do st <- for_range 0 modulesCount
                  (fun col st => do c <- index thisRow col; level1_step c st)
                  (container, previousColor, 0);
       level1_flush st) container;
  do container <- for_range 0 modulesCount
    (fun col container =>
       do row0 <- index modules 0;
       do previousColor <- index row0 col;
       do st <- for_range 0 modulesCount
                  (fun row st =>
                     do thisRow <- index modules row;
                     do c <- index thisRow col;
                     level1_step c st)
                  (container, previousColor, 0);
       level1_flush st) container;
  for_range 5 (modulesCount + 1)
    (fun eachLength lostPoint =>
       do n <- index container eachLength;
       Done (lostPoint + n * (eachLength - 2))) 0.

(** The inner loop of [lostPointLevel2], whose body may advance [col]. *)
Fixpoint level2_cols (fuel : nat) (modulesCount : Z) (thisRow nextRow : list cell)
    (col lostPoint : Z) : outcome Z :=
  if col <? modulesCount - 1 then
    match fuel with
    | O => OutOfFuel
    | S fuel' =>
        do topRight <- index thisRow (col + 1);
        do bottomRight <- index nextRow (col + 1);
        if negb (ptr_eqb topRight bottomRight) then
          (* Skip the next column *)
          level2_cols fuel' modulesCount thisRow nextRow (col + 1 + 1) lostPoint
        else
          do topLeft <- index thisRow col;
          if negb (ptr_eqb topRight topLeft) then
            level2_cols fuel' modulesCount thisRow nextRow (col + 1) lostPoint
          else
            do bottomLeft <- index nextRow col;
            if negb (ptr_eqb topRight bottomLeft) then
              level2_cols fuel' modulesCount thisRow nextRow (col + 1) lostPoint
            else
              level2_cols fuel' modulesCount thisRow nextRow (col + 1) (lostPoint + 3)
    end
  else Done lostPoint.

Definition lostPointLevel2 (modules : list (list cell)) (modulesCount : Z) : outcome Z :=
  for_range 0 (modulesCount - 1)
    (fun row lostPoint =>
       do thisRow <- index modules row;
       do nextRow <- index modules (row + 1);
       level2_cols (Z.to_nat modulesCount) modulesCount thisRow nextRow 0 lostPoint) 0.

(** [a && b] and [a || b] with Go's left-to-right short circuit. *)
Definition and_then (a b : outcome bool) : outcome bool :=
  do x <- a; if x then b else Done false.
Definition or_else (a b : outcome bool) : outcome bool :=
  do x <- a; if x then Done true else b.
Definition not_ (a : outcome bool) : outcome bool := do x <- a; Done (negb x).
Infix "&&&" := and_then (at level 40, left associativity) : go_scope.
Infix "|||" := or_else (at level 50, left associativity) : go_scope.

(** The 11-module test of [lostPointLevel3]; [at_ k] reads and dereferences
    the module [k] places after the current one. *)
Definition level3_match (at_ : Z -> outcome bool) : outcome bool :=
  not_ (at_ 1) &&& at_ 4 &&& not_ (at_ 5) &&& at_ 6 &&& not_ (at_ 9) &&&
  ((at_ 0 &&& at_ 2 &&& at_ 3 &&& not_ (at_ 7) &&& not_ (at_ 8) &&& not_ (at_ 10))
   ||| (not_ (at_ 0) &&& not_ (at_ 2) &&& not_ (at_ 3) &&& at_ 7 &&& at_ 8 &&& at_ 10)).

(** One scan line of [lostPointLevel3]; [read k] is the module at position
    [k] of the line and the body may advance the position. *)
Fixpoint level3_line (fuel : nat) (modulesCount : Z) (read : Z -> outcome cell)
    (pos lostPoint : Z) : outcome Z :=
  if pos <? modulesCount - 10 then
    match fuel with
    | O => OutOfFuel
    | S fuel' =>
        let at_ k := do c <- read (pos + k); deref c in
        do hit <- level3_match at_;
        let lostPoint := if hit then lostPoint + 40 else lostPoint in
        do last <- at_ 10;
        (* Skip the next column *)
        let pos := if last then pos + 1 else pos in
        level3_line fuel' modulesCount read (pos + 1) lostPoint
    end
  else Done lostPoint.

Definition lostPointLevel3 (modules : list (list cell)) (modulesCount : Z) : outcome Z :=
  do lostPoint <- for_range 0 modulesCount
    (fun row lostPoint =>
       do thisRow <- index modules row;
       level3_line (Z.to_nat modulesCount) modulesCount (fun k => index thisRow k) 0 lostPoint) 0;
  for_range 0 modulesCount
    (fun col lostPoint =>
       level3_line (Z.to_nat modulesCount) modulesCount
         (fun k => do r <- index modules k; index r col) 0 lostPoint) lostPoint.

(** [float64(n)] for an [int] below [2^53], and [int(x)] for a finite [x]
    (truncation towards zero; [int] of a NaN or an infinity is taken as
    the smallest [int], as amd64 gives it).  The operations of
    [lostPointLevel4] are binary64 operations, each rounded on its own
    (no fused multiply-add, as on amd64). *)
Definition float64_of_int (n : Z) : float :=
  if n <? 0 then PrimFloat.opp (PrimFloat.of_uint63 (Uint63.of_Z (- n)))
  else PrimFloat.of_uint63 (Uint63.of_Z n).
Definition int_of_float64 (x : float) : Z :=
  match FloatOps.Prim2SF x with
  | SpecFloat.S754_zero _ => 0
  | SpecFloat.S754_finite s m e =>
      let mag := if e <? 0 then Z.shiftr (Z.pos m) (- e) else Z.shiftl (Z.pos m) e in
      if s then - mag else mag
  | _ => - 2 ^ 63
  end.

Definition lostPointLevel4 (modules : list (list cell)) (modulesCount : Z) : outcome Z :=
  do darkCount <- for_each modules
    (fun row darkCount =>
       for_each row
         (fun module darkCount =>
            do dark <- deref module;
            Done (if dark then darkCount + 1 else darkCount)) darkCount) 0;
  let percent := PrimFloat.div (float64_of_int darkCount)
                               (float64_of_int (modulesCount * modulesCount)) in
  let rating := int_of_float64
    (PrimFloat.div
       (PrimFloat.abs (PrimFloat.sub (PrimFloat.mul percent (float64_of_int 100))
                                     (float64_of_int 50)))
       (float64_of_int 5)) in
  Done (rating * 10).

Definition LostPoint (modules : list (list cell)) : outcome Z :=
  let modulesCount := len modules in
  do l1 <- lostPointLevel1 modules modulesCount;
  do l2 <- lostPointLevel2 modules modulesCount;
  do l3 <- lostPointLevel3 modules modulesCount;
  do l4 <- lostPointLevel4 modules modulesCount;
  Done (0 + l1 + l2 + l3 + l4).

Definition PatternPosition (version : Z) : outcome (list Z) :=
  index PatternPositionTable (version - 1).

(** [BisectLeft] finds the insertion point for [x] in [a] to maintain
    sorted order: [for lo < hi { mid := (lo + hi) / 2; ... }].  Every round
    narrows [hi - lo], which starts at [len(a)]. *)
Fixpoint BisectLeft_loop (fuel : nat) (a : list Z) (x lo hi : Z) : outcome Z :=
  if lo <? hi then
    match fuel with
    | O => OutOfFuel
    | S fuel' =>
        let mid := Z.quot (lo + hi) 2 in
        do v <- index a mid;
        if v <? x then BisectLeft_loop fuel' a x (mid + 1) hi
        else BisectLeft_loop fuel' a x lo mid
    end
  else Done lo.
Definition BisectLeft (a : list Z) (x : Z) : outcome Z :=
  BisectLeft_loop (S (length a)) a x 0 (len a).
End utils.

(** ** Package [qr] *)
Module qr.
Import utils.

Definition ModulesType : Type := list (list cell).

(** The fields of [QRCode] the encoder reads and writes ([imageFactory] is
    only handed to the renderer). *)
Record QRCode : Type := mkQRCode {
  modules : ModulesType;
  modulesCount : Z;
  version : Z;
  errorCorrection : Z;
  BoxSize : Z;
  border : Z;
  maskPattern : Z;
  DataList : list QRData;
  dataCache : option (list Z)
}.

(** What a method of [*QRCode] can read and change: the receiver, the
    package variable [precomputedQRBlanks], and the allocator, of which the
    model keeps the next fresh address.  [lost_point_calls] is ghost
    state: the number of calls of [utils.LostPoint] made so far. *)
Record world : Type := mkWorld {
  self : QRCode;
  precomputedQRBlanks : gmap Z ModulesType;
  next_addr : Z;
  lost_point_calls : Z
}.

(** A method run either returns, or panics in some state of the world, or
    runs out of fuel. *)
Inductive execution (A : Type) : Type :=
| Return (a : A) (w : world)
| Abort (p : go_panic) (w : world)
| Starved.
Arguments Return {A} a w.
Arguments Abort {A} p w.
Arguments Starved {A}.

Definition M (A : Type) : Type := world -> execution A.

Definition ret {A} (a : A) : M A := fun w => Return a w.
Definition sbind {A B} (m : M A) (k : A -> M B) : M B :=
  fun w => match m w with
           | Return a w' => k a w'
           | Abort p w' => Abort p w'
           | Starved => Starved
           end.
Notation "'run' x <- m ; k" := (sbind m (fun x => k))
  (at level 10, x pattern, m at level 100, k at level 200) : go_scope.

Definition panic {A} (p : go_panic) : M A := fun w => Abort p w.

(** A call of a function that touches no state. *)
Definition lift {A} (o : outcome A) : M A :=
  fun w => match o with
           | Done a => Return a w
           | Panicked p => Abort p w
           | OutOfFuel => Starved
           end.

Definition this : M QRCode := fun w => Return (self w) w.
Definition update (f : QRCode -> QRCode) : M unit :=
  fun w => Return tt {| self := f (self w); precomputedQRBlanks := precomputedQRBlanks w;
                        next_addr := next_addr w; lost_point_calls := lost_point_calls w |}.

Definition set_modules (m : ModulesType) (q : QRCode) : QRCode :=
  {| modules := m; modulesCount := modulesCount q; version := version q;
     errorCorrection := errorCorrection q; BoxSize := BoxSize q; border := border q;
     maskPattern := maskPattern q; DataList := DataList q; dataCache := dataCache q |}.
Definition set_modulesCount (n : Z) (q : QRCode) : QRCode :=
  {| modules := modules q; modulesCount := n; version := version q;
     errorCorrection := errorCorrection q; BoxSize := BoxSize q; border := border q;
     maskPattern := maskPattern q; DataList := DataList q; dataCache := dataCache q |}.
Definition set_version (v : Z) (q : QRCode) : QRCode :=
  {| modules := modules q; modulesCount := modulesCount q; version := v;
     errorCorrection := errorCorrection q; BoxSize := BoxSize q; border := border q;
     maskPattern := maskPattern q; DataList := DataList q; dataCache := dataCache q |}.
Definition set_maskPattern (p : Z) (q : QRCode) : QRCode :=
  {| modules := modules q; modulesCount := modulesCount q; version := version q;
     errorCorrection := errorCorrection q; BoxSize := BoxSize q; border := border q;
     maskPattern := p; DataList := DataList q; dataCache := dataCache q |}.
Definition set_DataList (l : list QRData) (q : QRCode) : QRCode :=
  {| modules := modules q; modulesCount := modulesCount q; version := version q;
     errorCorrection := errorCorrection q; BoxSize := BoxSize q; border := border q;
     maskPattern := maskPattern q; DataList := l; dataCache := dataCache q |}.
Definition set_dataCache (c : option (list Z)) (q : QRCode) : QRCode :=
  {| modules := modules q; modulesCount := modulesCount q; version := version q;
     errorCorrection := errorCorrection q; BoxSize := BoxSize q; border := border q;
     maskPattern := maskPattern q; DataList := DataList q; dataCache := c |}.

(** [&v] for a fresh [bool] variable [v]: a new address. *)
Definition new_bool (v : bool) : M cell :=
  fun w => Return (Some {| addr := next_addr w; pointee := v |})
             {| self := self w; precomputedQRBlanks := precomputedQRBlanks w;
                next_addr := next_addr w + 1; lost_point_calls := lost_point_calls w |}.

(** [q.modules[row][col]]. *)
Definition module_at (row col : Z) : M cell :=
  run q <- this;
  lift (do r <- index (modules q) row; index r col).

(** [val := v; q.modules[row][col] = &val]. *)
Definition set_module (row col : Z) (v : bool) : M unit :=
  run p <- new_bool v;
  run q <- this;
  run m <- lift (do r <- index (modules q) row;
                 do r' <- store r col p;
                 store (modules q) row r');
  update (set_modules m).

(** Loops over the state of the world. *)
Fixpoint forM (n : nat) (i : Z) (body : Z -> M unit) : M unit :=
  match n with
  | O => ret tt
  | S n' => run _ <- body i; forM n' (i + 1) body
  end.
Definition for_rangeM (lo hi : Z) (body : Z -> M unit) : M unit :=
  forM (Z.to_nat (hi - lo)) lo body.
Fixpoint for_eachM {A} (xs : list A) (body : A -> M unit) : M unit :=
  match xs with
  | [] => ret tt
  | x :: xs' => run _ <- body x; for_eachM xs' body
  end.

Definition CheckBoxSize (size : Z) : option go_error :=
  if size <? 0 then Some (ErrInvalidBoxSize size) else None.
Definition CheckBorder (border : Z) : option go_error :=
  if border <? 0 then Some (ErrInvalidBorder border) else None.
Definition CheckMaskPattern (pattern : Z) : option go_error :=
  if (pattern <? 0) || (pattern >? 7) then Some (ErrInvalidMaskPattern pattern) else None.

Definition Copy2DArray (src : ModulesType) : ModulesType := map (fun row => [] ++ row) src.

(** [BIT_LIMIT_TABLE] precomputes bit count limits, indexed by error
    correction level and code size. *)
Definition BIT_LIMIT_TABLE_init : outcome (list (list Z)) :=
  for_range 0 4
    (fun errorCorrection table =>
       do row <- make_ints 41;
       do row <- for_range 1 41
         (fun version row =>
            do r <- base.RSBlocks version errorCorrection;
            match r with
            | Err e => Panicked (PanicError e)
            | Ok rsBlocks =>
                let bitCount :=
                  fold_left (fun t block => t + 8 * base.DataCount block) rsBlocks 0 in
                store row version bitCount
            end) row;
       store table errorCorrection row) (replicate 4 []).
Definition BIT_LIMIT_TABLE : list (list Z) :=
  Eval vm_compute in match BIT_LIMIT_TABLE_init with Done t => t | _ => [] end.

(** [SetVersion]. *)
Definition SetVersion (value : Z) : M Z :=
  if negb (value =? 0) && negb (CheckVersion value) then panic (PanicInvalidVersion value)
  else run _ <- update (set_version value); ret value.

(** [Clear] resets the internal data. *)
Definition Clear : M unit :=
  run _ <- update (set_modules []);
  run _ <- update (set_modulesCount 0);
  run _ <- update (set_dataCache None);
  update (set_DataList []).

(** [Version], given the [BestFit] it calls. *)
Definition Version_with (BestFit : Z -> M Z) : M Z :=
  run q <- this;
  run _ <- (if version q =? 0 then run _ <- BestFit (version q); ret tt else ret tt);
  run q <- this;
  ret (version q).

(** The body of [BestFit], given the [BestFit] it calls (directly, and
    through [Version]). *)
Definition BestFit_body (BestFit : Z -> M Z) (start : Z) : M Z :=
  let Version := Version_with BestFit in
  if negb (CheckVersion start) then panic (PanicInvalidVersion start)
  else
    let modeSizes := ModeSizeVersion start in
    run q <- this;
    run buffer <- lift (write_segments (fun m => Done (map_get modeSizes m)) (DataList q));
    (* FIXME: the bisect_left search is commented out in the source *)
    run v <- Version;
    if v =? 41 then panic PanicDataOverflow
    else
      (* Now check whether we need more bits for the mode sizes,
         recursing if our guess was too low *)
      run v <- Version;
      let status := bool_decide (modeSizes = ModeSizeVersion v) in
      run _ <- (if negb status
                then run v <- Version; run _ <- BestFit v; ret tt
                else ret tt);
      Version.

(** [BestFit]; [Version] and [BestFit] call each other, and [fuel] bounds
    the depth of these calls. *)
Fixpoint BestFit_fuel (fuel : nat) (start : Z) : M Z :=
  match fuel with
  | O => fun _ => Starved
  | S fuel' => BestFit_body (BestFit_fuel fuel') start
  end.

(** The source calls [BestFit] at depth three at most (see
    [BestFit_changes_nothing]). *)
Definition call_depth : nat := 8.
Definition BestFit (start : Z) : M Z := BestFit_fuel call_depth start.
Definition Version : M Z := Version_with BestFit.

Definition MaskPattern : M Z := run q <- this; ret (maskPattern q).

Definition SetMaskPattern (value : Z) : M unit :=
  match CheckMaskPattern value with
  | Some e => panic (PanicError e)
  | None => update (set_maskPattern value)
  end.

Definition isOutOfBounds (index_ : Z) : M bool :=
  run q <- this; ret ((index_ <=? -1) || (modulesCount q <=? index_)).

Definition setModuleValue (row col r c : Z) : M unit :=
  if ((0 <=? r) && (r <=? 6) && ((c =? 0) || (c =? 6)))
     || ((0 <=? c) && (c <=? 6) && ((r =? 0) || (r =? 6)))
     || ((2 <=? r) && (r <=? 4) && (2 <=? c) && (c <=? 4))
  then set_module row col true
  else set_module row col false.

Definition SetupPositionProbePattern (row col : Z) : M unit :=
  for_rangeM (-1) 8
    (fun r =>
       run out <- isOutOfBounds (row + r);
       if out then ret tt
       else for_rangeM (-1) 8
              (fun c =>
                 run out <- isOutOfBounds (col + c);
                 if out then ret tt else setModuleValue (row + r) (col + c) r c)).

Definition setPositionAdjustPatternValue (row col r c : Z) : M unit :=
  if (r =? -2) || (r =? 2) || (c =? -2) || (c =? 2) || ((r =? 0) && (c =? 0))
  then set_module (row + r) (col + c) true
  else set_module (row + r) (col + c) false.

Definition setPositionAdjustPattern (row col : Z) : M unit :=
  for_rangeM (-2) 3 (fun r => for_rangeM (-2) 3 (fun c =>
    setPositionAdjustPatternValue row col r c)).

Definition SetupPositionAdjustPattern : M unit :=
  run v <- Version;
  run pos <- lift (PatternPosition v);
  for_eachM pos (fun row =>
    for_eachM pos (fun col =>
      run m <- module_at row col;
      if negb (ptr_eqb m None) then ret tt
      else setPositionAdjustPattern row col)).

Definition SetupTimingPattern : M unit :=
  run q <- this;
  run _ <- for_rangeM 8 (modulesCount q - 8)
    (fun r =>
       run m <- module_at r 6;
       if negb (ptr_eqb m None) then ret tt
       else set_module r 6 (Z.rem r 2 =? 0));
  for_rangeM 8 (modulesCount q - 8)
    (fun c =>
       run m <- module_at 6 c;
       if negb (ptr_eqb m None) then ret tt
       else set_module 6 c (Z.rem c 2 =? 0)).

(** [mod := !test && ((bits>>i)&1) == 1]. *)
Definition bit_module (test : bool) (bits i : Z) : bool :=
  negb test && (Z.land (Z.shiftr bits i) 1 =? 1).

Definition SetupTypeNumber (test : bool) : M unit :=
  run q <- this;
  run bits <- lift (BCHTypeNumber (version q));
  run _ <- for_rangeM 0 18
    (fun i => set_module (Z.quot i 3) (Z.rem i 3 + modulesCount q - 8 - 3) (bit_module test bits i));
  for_rangeM 0 18
    (fun i => set_module (Z.rem i 3 + modulesCount q - 8 - 3) (Z.quot i 3) (bit_module test bits i)).

Definition SetupTypeInfo (test : bool) (maskPattern : Z) : M unit :=
  run q <- this;
  let data := Z.lor (Z.shiftl (errorCorrection q) 3) maskPattern in
  run bits <- lift (BCHTypeInfo data);
  (* vertical *)
  run _ <- for_rangeM 0 15
    (fun i =>
       let mod_ := bit_module test bits i in
       if i <? 6 then set_module i 8 mod_
       else if i <? 8 then set_module (i + 1) 8 mod_
       else set_module (modulesCount q - 15 + i) 8 mod_);
  (* horizontal *)
  run _ <- for_rangeM 0 15
    (fun i =>
       let mod_ := bit_module test bits i in
       if i <? 8 then set_module 8 (modulesCount q - i - 1) mod_
       else if i <? 9 then set_module 8 (15 - i - 1 + 1) mod_
       else set_module 8 (15 - i - 1) mod_);
  (* fixed module *)
  set_module (modulesCount q - 8) 8 (negb test).

(** The position of [MapData] in the symbol and in the codewords. *)
Record cursor : Type := mkCursor { inc : Z; row : Z; bitIndex : Z; byteIndex : Z }.

(** [if maskFunc(row, c) { dark = !dark }]. *)
Definition mask_flip (maskFunc : Z -> Z -> bool) (row c : Z) (dark : bool) : bool :=
  if maskFunc row c then negb dark else dark.

(** The body of [for _, c := range colRange] in [MapData]. *)
Definition MapData_cell (data : list Z) (maskFunc : Z -> Z -> bool) (c : Z) (k : cursor)
  : M cursor :=
  run m <- module_at (row k) c;
  if ptr_eqb m None then
    run dark <- lift (if byteIndex k <? len data
                      then do b <- index data (byteIndex k);
                           do s <- shr b (bitIndex k);
                           Done (Z.land s 1 =? 1)
                      else Done false);
    let dark := mask_flip maskFunc (row k) c dark in
    run _ <- set_module (row k) c dark;
    let bitIndex' := bitIndex k - 1 in
    if bitIndex' =? -1
    then ret {| inc := inc k; row := row k; bitIndex := 7; byteIndex := byteIndex k + 1 |}
    else ret {| inc := inc k; row := row k; bitIndex := bitIndex'; byteIndex := byteIndex k |}
  else ret k.

(** The inner [for { ... }] of [MapData]: one pass over a column pair. *)
Fixpoint MapData_column (fuel : nat) (data : list Z) (maskFunc : Z -> Z -> bool)
    (col : Z) (k : cursor) : M cursor :=
  match fuel with
  | O => fun _ => Starved
  | S fuel' =>
      run k <- MapData_cell data maskFunc col k;
      run k <- MapData_cell data maskFunc (col - 1) k;
      run q <- this;
      let row' := row k + inc k in
      if (row' <? 0) || (row' >=? modulesCount q)
      then ret {| inc := - inc k; row := row' - inc k;
                  bitIndex := bitIndex k; byteIndex := byteIndex k |}
      else MapData_column fuel' data maskFunc col
             {| inc := inc k; row := row'; bitIndex := bitIndex k; byteIndex := byteIndex k |}
  end.

(** The outer loop of [MapData]:
    [for col := q.modulesCount - 1; col > 0; col -= 2 { if col <= 6 { col-- } ... }]. *)
Fixpoint MapData_columns (fuel : nat) (data : list Z) (maskFunc : Z -> Z -> bool)
    (col : Z) (k : cursor) : M unit :=
  if col >? 0 then
    match fuel with
    | O => fun _ => Starved
    | S fuel' =>
        let col := if col <=? 6 then col - 1 else col in
        run q <- this;
        run k <- MapData_column (S (Z.to_nat (modulesCount q))) data maskFunc col k;
        MapData_columns fuel' data maskFunc (col - 2) k
    end
  else ret tt.

Definition MapData (data : list Z) (maskPattern : Z) : M unit :=
  run q <- this;
  let k := {| inc := -1; row := modulesCount q - 1; bitIndex := 7; byteIndex := 0 |} in
  run maskFunc <- lift (MaskFunc maskPattern);
  MapData_columns (S (Z.to_nat (modulesCount q))) data maskFunc (modulesCount q - 1) k.

(** [make(ModulesType, n)] followed by [make([]*bool, n)] for every row. *)
Definition blank_modules (n : Z) : outcome ModulesType :=
  if n <? 0 then Panicked MakeSliceLen
  else Done (replicate (Z.to_nat n) (replicate (Z.to_nat n) None)).

Definition set_cache (v : Z) (m : ModulesType) : M unit :=
  fun w => Return tt {| self := self w;
                        precomputedQRBlanks := <[v := m]> (precomputedQRBlanks w);
                        next_addr := next_addr w; lost_point_calls := lost_point_calls w |}.

Definition MakeImpl (test : bool) (maskPattern : Z) : M unit :=
  run v <- Version;
  run _ <- update (set_modulesCount (v * 4 + 17));
  run v <- Version;
  run _ <- (fun w =>
    match precomputedQRBlanks w !! v with
    | Some precomputedModules => update (set_modules (Copy2DArray precomputedModules)) w
    | None =>
        (run q <- this;
         run m <- lift (blank_modules (modulesCount q));
         run _ <- update (set_modules m);
         run _ <- SetupPositionProbePattern 0 0;
         run q <- this;
         run _ <- SetupPositionProbePattern (modulesCount q - 7) 0;
         run q <- this;
         run _ <- SetupPositionProbePattern 0 (modulesCount q - 7);
         run _ <- SetupPositionAdjustPattern;
         run _ <- SetupTimingPattern;
         run v <- Version;
         run q <- this;
         set_cache v (Copy2DArray (modules q))) w
    end);
  run _ <- SetupTypeInfo test maskPattern;
  run v <- Version;
  run _ <- (if v >=? 7 then SetupTypeNumber test else ret tt);
  run q <- this;
  run _ <- (match dataCache q with
            | None =>
                run v <- Version;
                run q <- this;
                run r <- lift (CreateData v (errorCorrection q) (DataList q));
                match r with
                | Err e => panic (PanicError e)
                | Ok dataCache =>
                    update (set_dataCache (Some (default [] dataCache)))
                end
            | Some _ => ret tt
            end);
  run q <- this;
  let dataCacheBytes := map byte_of (default [] (dataCache q)) in
  MapData dataCacheBytes maskPattern.

(** [utils.LostPoint(q.modules)], counted in the ghost state. *)
Definition LostPoint_call : M Z :=
  run _ <- (fun w => Return tt {| self := self w;
                                  precomputedQRBlanks := precomputedQRBlanks w;
                                  next_addr := next_addr w;
                                  lost_point_calls := lost_point_calls w + 1 |});
  run q <- this;
  lift (LostPoint (modules q)).

(** The largest [int]: [int(^uint(0) >> 1)]. *)
Definition MaxInt : Z := 2 ^ 63 - 1.

(** [q.MakeImpl(true, pattern); lostPoint := utils.LostPoint(q.modules)]. *)
Definition score_pattern (pattern : Z) : M Z :=
  run _ <- MakeImpl true pattern;
  LostPoint_call.

(** The loop of [BestMaskPattern] from [pattern] on, [n] rounds left, over
    the scoring [score] of one pattern. *)
Fixpoint BestMaskPattern_loop (score : Z -> M Z) (n : nat)
    (pattern minLostPoint bestPattern : Z) : M Z :=
  match n with
  | O => ret bestPattern
  | S n' =>
      run lostPoint <- score pattern;
      if (pattern =? 0) || (minLostPoint >? lostPoint)
      then BestMaskPattern_loop score n' (pattern + 1) lostPoint pattern
      else BestMaskPattern_loop score n' (pattern + 1) minLostPoint bestPattern
  end.

Definition BestMaskPattern : M Z := BestMaskPattern_loop score_pattern 8 0 MaxInt 0.

(** [Make]; the [error] it returns is always [nil]. *)
Definition Make (fit : bool) : M (option go_error) :=
  run again <- (if fit then ret true else run v <- Version; ret (v =? 0));
  run _ <- (if again then run v <- Version; run _ <- BestFit v; ret tt else ret tt);
  run _ <- Version;
  run q <- this;
  run _ <- (if maskPattern q =? 0
            then run p <- BestMaskPattern; MakeImpl false p
            else MakeImpl false (maskPattern q));
  ret None.

(** What [AddData] is given: a [utils.QRData], a [string], or a value of
    another type. *)
Inductive payload : Type :=
| Segment (d : QRData)
| Text (s : list Z)
| Unsupported.

Definition AddData (data : payload) (optimize : Z) : M (option go_error) :=
  if optimize <? 0 then ret (Some (ErrInvalidOptimize optimize))
  else
    run q <- this;
    run r <- (match data with
              | Segment v => ret (Ok (DataList q ++ [v]))
              | Text v =>
                  if optimize >? 0 then
                    run chunks <- lift (OptimalDataChunks v optimize);
                    match chunks with
                    | Err e => ret (Err e)
                    | Ok chunks => ret (Ok (DataList q ++ chunks))
                    end
                  else
                    match NewQRData v 0 true with
                    | Err e => ret (Err e)
                    | Ok d => ret (Ok (DataList q ++ [d]))
                    end
              | Unsupported => ret (Err ErrUnsupportedDataType)
              end);
    match r with
    | Err e => ret (Some e)
    | Ok l =>
        run _ <- update (set_DataList l);
        run _ <- update (set_dataCache None);
        ret None
    end.

(** [NewQRCode]: the initial state of a symbol, or the error returned. *)
Definition NewQRCode (version errorCorrection boxSize border maskPattern : Z)
  : M (fallible unit) :=
  match CheckBoxSize boxSize with
  | Some e => ret (Err e)
  | None =>
      match CheckBorder border with
      | Some e => ret (Err e)
      | None =>
          match (if negb (maskPattern =? 0) then CheckMaskPattern maskPattern else None) with
          | Some e => ret (Err e)
          | None =>
              run _ <- update (fun _ =>
                {| modules := []; modulesCount := 0; version := version;
                   errorCorrection := errorCorrection; BoxSize := boxSize; border := border;
                   maskPattern := maskPattern; DataList := []; dataCache := None |});
              run _ <- SetVersion version;
              run _ <- Clear;
              ret (Ok tt)
          end
      end
  end.

(** [IsConstrained] and the read of [ActiveWithNeighbors]: what a caller
    sees of [q.modules]. *)
Definition IsConstrained (q : QRCode) (row col : Z) : bool :=
  (row >=? 0) && (row <? len (modules q)) && (col >=? 0)
  && (col <? len (default [] (modules q !! Z.to_nat row))).

(** [for i, x := range xs { body }]. *)
Fixpoint for_each_i {A S} (xs : list A) (i : Z) (body : Z -> A -> S -> outcome S) (s : S)
  : outcome S :=
  match xs with
  | [] => Done s
  | x :: xs' => do s' <- body i x s; for_each_i xs' (i + 1) body s'
  end.

(** [make([]bool, n)] and [make([][]bool, n)]; the rows start out [nil]. *)
Definition make_bools (n : Z) : outcome (list bool) :=
  if n <? 0 then Panicked MakeSliceLen else Done (replicate (Z.to_nat n) false).
Definition make_rows (n : Z) : outcome (list (list bool)) :=
  if n <? 0 then Panicked MakeSliceLen else Done (replicate (Z.to_nat n) []).

(** [for j, cell := range cells { if cell != nil { row[j+off] = *cell } }]. *)
Definition copy_row (off : Z) (cells : list cell) (row : list bool) : outcome (list bool) :=
  for_each_i cells 0
    (fun j c row =>
       if negb (ptr_eqb c None) then do v <- deref c; store row (j + off) v
       else Done row) row.

(** [GetMatrix] once the symbol is made: the matrix of module values,
    with the border around it.  The width [len(q.modules) + q.border*2] is
    computed in [Z]: it is Go's where it is in the range of [int]. *)
Definition matrix_of (q : QRCode) : outcome (list (list bool)) :=
  if border q =? 0 then
    do matrix <- make_rows (len (modules q));
    for_each_i (modules q) 0
      (fun i row matrix =>
         do r <- make_bools (len row);
         do r <- copy_row 0 row r;
         store matrix i r) matrix
  else
    let width := len (modules q) + border q * 2 in
    do code <- make_rows width;
    do code <- for_range 0 (border q)
                 (fun i code =>
                    do top <- make_bools width;
                    do code <- store code i top;
                    do bottom <- make_bools width;
                    store code (width - 1 - i) bottom) code;
    for_each_i (modules q) 0
      (fun i module code =>
         do row <- make_bools width;
         do row <- copy_row (border q) module row;
         store code (i + border q) row) code.

Definition GetMatrix : M (list (list bool)) :=
  run q <- this;
  run _ <- (match dataCache q with
            | None => run _ <- Make true; ret tt
            | Some _ => ret tt
            end);
  run q <- this;
  lift (matrix_of q).

Record ActiveWithNeighbors : Type := mkActiveWithNeighbors {
  NW : bool; N : bool; NE : bool;
  W : bool; me : bool; E : bool;
  SW : bool; S : bool; SE : bool
}.

(** [q.IsConstrained(r, c) && q.modules[r][c] != nil && *q.modules[r][c]]. *)
Definition active (q : QRCode) (r c : Z) : outcome bool :=
  if IsConstrained q r c then
    do row <- index (modules q) r;
    do cell <- index row c;
    if negb (ptr_eqb cell None) then deref cell else Done false
  else Done false.

(** The method [ActiveWithNeighbors] of [*QRCode].  The two loops run from
    [row-1] to [row+1] and from [col-1] to [col+1] with bounds computed in
    [Z]: they are Go's where [row-1], [row+2], [col-1] and [col+2] are in
    the range of [int]. *)
Definition QRCode_ActiveWithNeighbors (q : QRCode) (row col : Z)
  : outcome ActiveWithNeighbors :=
  do context <- for_range (row - 1) (row + 1 + 1)
                  (fun r context =>
                     for_range (col - 1) (col + 1 + 1)
                       (fun c context => do a <- active q r c; Done (context ++ [a]))
                       context) [];
  do nw <- index context 0;
  do n <- index context 1;
  do ne <- index context 2;
  do w <- index context 3;
  do m <- index context 4;
  do e <- index context 5;
  do sw <- index context 6;
  do s <- index context 7;
  do se <- index context 8;
  Done {| NW := nw; N := n; NE := ne; W := w; me := m; E := e; SW := sw; S := s; SE := se |}.

End qr.

(** ** Notions of the specification *)

(** The mask transform of a whole matrix of module values: the cell
    [(i, j)] goes through [mask_flip]; rows are numbered from [i]. *)
Fixpoint mask_row (maskFunc : Z -> Z -> bool) (i j : Z) (row : list bool) : list bool :=
  match row with
  | [] => []
  | b :: rest => qr.mask_flip maskFunc i j b :: mask_row maskFunc i (j + 1) rest
  end.
Fixpoint mask_rows (maskFunc : Z -> Z -> bool) (i : Z) (m : list (list bool))
  : list (list bool) :=
  match m with
  | [] => []
  | row :: rest => mask_row maskFunc i 0 row :: mask_rows maskFunc (i + 1) rest
  end.
Definition mask_matrix (maskFunc : Z -> Z -> bool) (m : list (list bool)) : list (list bool) :=
  mask_rows maskFunc 0 m.

(** The bit buffers the package can build: [NewBitBuffer], then [PutBit]
    (the fields are not exported, and [Put] is a loop of [PutBit]). *)
Inductive built : utils.BitBuffer -> Prop :=
| built_new : built utils.NewBitBuffer
| built_put (b : utils.BitBuffer) (bit : bool) (b' : utils.BitBuffer) :
    built b -> utils.PutBit b bit = Done b' -> built b'.

(** The bit at position [i] of the backing bytes, most significant first. *)
Definition stored_bit (buf : list Z) (i : Z) : bool :=
  Z.testbit (nth (Z.to_nat (i / 8)) buf 0) (7 - i mod 8).

(** Invariant of a built buffer: the backing slice has one byte per
    started group of eight bits, and the bits not yet appended are zero. *)
Definition buffer_inv (b : utils.BitBuffer) : Prop :=
  0 <= utils.bb_length b
  /\ len (utils.buffer b) = (utils.bb_length b + 7) / 8
  /\ forall i, utils.bb_length b <= i -> stored_bit (utils.buffer b) i = false.

(** Encoded size of a segment list with the count widths [sizes]: 4 bits
    of mode, the character count, and the payload of each mode
    (10/7/4 bits per 3/2/1 digits, 11/6 bits per 2/1 characters, 8 bits per
    byte). *)
Definition payload_bits (d : utils.QRData) : Z :=
  let n := len (utils.data d) in
  if utils.mode d =? utils.ModeNumeric then
    10 * (n / 3) + (if n mod 3 =? 2 then 7 else if n mod 3 =? 1 then 4 else 0)
  else if utils.mode d =? utils.ModeAlphanumeric then
    11 * (n / 2) + (if n mod 2 =? 1 then 6 else 0)
  else 8 * n.
Definition total_bits (sizes : gmap Z Z) (dataList : list utils.QRData) : Z :=
  fold_left (fun t d => t + 4 + map_get sizes (utils.mode d) + payload_bits d) dataList 0.

(** The version the specification asks of best-fit: the smallest [v] in
    [1,40] whose capacity [BIT_LIMIT_TABLE[ec][v]] holds the segments
    encoded with the count widths of [v]; [None] stands for DataOverflow. *)
Definition fits (ec : Z) (dataList : list utils.QRData) (v : Z) : bool :=
  total_bits (utils.ModeSizeVersion v) dataList
  <=? nth (Z.to_nat v) (nth (Z.to_nat ec) qr.BIT_LIMIT_TABLE []) 0.
Definition smallest_fit (ec : Z) (dataList : list utils.QRData) : option Z :=
  find (fits ec dataList) (map Z.of_nat (seq 1 40)).

(** A symbol as [NewQRCode] and [AddData] leave it. *)
Definition symbol (version errorCorrection maskPattern : Z) (dataList : list utils.QRData)
  : qr.world :=
  {| qr.self := {| qr.modules := []; qr.modulesCount := 0; qr.version := version;
                   qr.errorCorrection := errorCorrection; qr.BoxSize := 10; qr.border := 4;
                   qr.maskPattern := maskPattern; qr.DataList := dataList;
                   qr.dataCache := None |};
     qr.precomputedQRBlanks := ∅; qr.next_addr := 0; qr.lost_point_calls := 0 |}.

(** Twenty bytes ['a'] as one BYTE segment: 172 bits. *)
Definition twenty_bytes : list utils.QRData :=
  [ {| utils.data := replicate 20 97; utils.mode := utils.ModeByte |} ].

(** A run that ends in the world it started in, returning the symbol's
    version when it returns. *)
Definition leaves_unchanged (w : qr.world) (r : qr.execution Z) : Prop :=
  (exists p, r = qr.Abort p w) \/ r = qr.Return (qr.version (qr.self w)) w.

(** Payloads used as examples. *)
Module Inputs.
Import Stdlib.Strings.String.
Definition alnum_then_bytes : list Z := bytes_of_string "ABCDE!!"%string.
Definition alnum_then_digits : list Z := bytes_of_string "ABCDE12345"%string.
Definition hello_world : list Z := bytes_of_string "HELLO WORLD"%string.
End Inputs.

(** Rule 1 as the specification words it: in a line of module colours,
    every maximal run of at least 5 equal modules costs its length minus 2;
    the penalty of a matrix adds this over all rows and all columns. *)
Fixpoint run_lengths (current : bool) (n : Z) (line : list bool) : list Z :=
  match line with
  | [] => [n]
  | b :: rest => if Bool.eqb b current then run_lengths current (n + 1) rest
                 else n :: run_lengths b 1 rest
  end.
Definition line_penalty (line : list bool) : Z :=
  match line with
  | [] => 0
  | b :: rest =>
      fold_left (fun t n => if n >=? 5 then t + (n - 2) else t) (run_lengths b 1 rest) 0
  end.
Definition column (m : list (list bool)) (j : nat) : list bool :=
  map (fun row => nth j row false) m.
Definition rule1_penalty (m : list (list bool)) : Z :=
  fold_left (fun t row => t + line_penalty row) m 0
  + fold_left (fun t j => t + line_penalty (column m j)) (seq 0 (length m)) 0.

(** A matrix of module colours as the builder stores it: one fresh
    allocation per cell, addresses in row-major order from [a]. *)
Fixpoint alloc_row (a : Z) (row : list bool) : list utils.cell :=
  match row with
  | [] => []
  | b :: rest => Some {| utils.addr := a; utils.pointee := b |} :: alloc_row (a + 1) rest
  end.
Fixpoint alloc_rows (a : Z) (m : list (list bool)) : list (list utils.cell) :=
  match m with
  | [] => []
  | row :: rest => alloc_row a row :: alloc_rows (a + len row) rest
  end.

(** The same colours with one allocation per colour, shared by the cells. *)
Definition shared_rows (m : list (list bool)) : list (list utils.cell) :=
  map (map (fun b : bool =>
              Some {| utils.addr := if b then 1 else 0; utils.pointee := b |})) m.

Definition all_dark (n : nat) : list (list bool) := replicate n (replicate n true).

(** The module colours of a matrix; [None] marks a [nil] cell. *)
Definition colours (m : qr.ModulesType) : list (list (option bool)) :=
  map (map (fun c : utils.cell => option_map utils.pointee c)) m.
Definition nil_cells (m : qr.ModulesType) : list (Z * Z) :=
  concat (imap (fun i row =>
            omap (fun x => x)
                 (imap (fun j (c : utils.cell) =>
                          match c with
                          | None => Some (Z.of_nat i, Z.of_nat j)
                          | Some _ => None
                          end) row)) m).


(** The position in the buffer of the data codewords of block [r]: the
    data counts of the blocks before it. *)
Definition data_offset (rsBlocks : list base.RSBlock) (r : nat) : Z :=
  fold_left (fun t b => t + base.DataCount b) (take r rsBlocks) 0.
Definition total_codewords (rsBlocks : list base.RSBlock) : Z :=
  fold_left (fun t b => t + base.TotalCount b) rsBlocks 0.


(** [dc] and [ec] are the data and error-correction codewords the code
    computes for the block [b] whose data starts at byte [off] of the
    buffer. *)
Definition block_codewords (buffer : utils.BitBuffer) (off : Z) (b : base.RSBlock)
    (dc ec : list Z) : Prop :=
  utils.block_data buffer off (base.DataCount b) = Done dc
  /\ utils.block_ec dc (base.TotalCount b - base.DataCount b) = Done (Ok ec)
  /\ len dc = base.DataCount b
  /\ len ec = base.TotalCount b - base.DataCount b.



(** What a method leaves alone.  [keeps R m]: however the run of [m] ends
    (return or panic), the world it ends in is [R]-related to the world it
    started in. *)
Definition keeps {A} (R : qr.world -> qr.world -> Prop) (m : qr.M A) : Prop :=
  forall w, match m w with
            | qr.Return _ w' => R w w'
            | qr.Abort _ w' => R w w'
            | qr.Starved => True
            end.

(** The parameters of a symbol and its segments. *)
Definition same_parameters (w w' : qr.world) : Prop :=
  qr.version (qr.self w') = qr.version (qr.self w)
  /\ qr.errorCorrection (qr.self w') = qr.errorCorrection (qr.self w)
  /\ qr.maskPattern (qr.self w') = qr.maskPattern (qr.self w)
  /\ qr.BoxSize (qr.self w') = qr.BoxSize (qr.self w)
  /\ qr.border (qr.self w') = qr.border (qr.self w)
  /\ qr.DataList (qr.self w') = qr.DataList (qr.self w).

(** The same, with no call of [utils.LostPoint] in between. *)
Definition unscored (w w' : qr.world) : Prop :=
  same_parameters w w' /\ qr.lost_point_calls w' = qr.lost_point_calls w.

(** The pattern the selection loop should retain for the scores [f]: a
    minimum, and the lowest index among the minima. *)
Definition first_minimum (f : Z -> Z) (best : Z) : Prop :=
  0 <= best <= 7
  /\ (forall k, 0 <= k <= 7 -> f best <= f k)
  /\ (forall k, 0 <= k < best -> f best < f k).

(** The version 1, level Q symbol of ["HELLO WORLD"] with the mask
    setting [p]. *)
Definition hello_symbol (p : Z) : qr.world :=
  symbol 1 constants.ERROR_CORRECT_Q p
    [ {| utils.data := Inputs.hello_world; utils.mode := utils.ModeAlphanumeric |} ].


(** *** Format information *)

(** Product of binary polynomials (carry-less product of their bit
    patterns). *)
Fixpoint clmul_pos (p : positive) (g : Z) : Z :=
  match p with
  | xH => g
  | xO p' => 2 * clmul_pos p' g
  | xI p' => Z.lxor g (2 * clmul_pos p' g)
  end.
Definition clmul (q g : Z) : Z :=
  match q with
  | Zpos p => clmul_pos p g
  | _ => 0
  end.

(** [r] is the BCH remainder of the 5-bit word [data] under the generator
    [g]: it has 10 bits and [data * x^10 + r] is a multiple of [g]. *)
Definition bch_remainder (g data r : Z) : Prop :=
  0 <= r < 1024 /\ exists q, clmul q g = Z.lxor (Z.shiftl data 10) r.

(** The check of one data word, decided by computation. *)
Definition bch_check (data : Z) : bool :=
  match utils.BCHTypeInfo data with
  | Done word =>
      let r := Z.land (Z.lxor word utils.G15_MASK) 1023 in
      (word =? Z.lxor (Z.lor (Z.shiftl data 10) r) utils.G15_MASK)
      && existsb (fun q => clmul q utils.G15 =? Z.lxor (Z.shiftl data 10) r) (seqZ 0 32)
      && (0 <=? word) && (word <? 2 ^ 15)
  | _ => false
  end.


(** Where bit [i] of the format information goes, in a matrix of size
    [N]: once down column 8, once along row 8. *)
Definition vertical (N i : Z) : Z * Z :=
  if i <? 6 then (i, 8) else if i <? 8 then (i + 1, 8) else (N - 15 + i, 8).
Definition horizontal (N i : Z) : Z * Z :=
  if i <? 8 then (8, N - i - 1) else if i <? 9 then (8, 15 - i - 1 + 1) else (8, 15 - i - 1).

(** The colour of the module at a position; [None] out of the matrix and
    on a [nil] cell. *)
Definition cell_at (m : list (list utils.cell)) (rc : Z * Z) : utils.cell :=
  match m !! Z.to_nat (fst rc) with
  | Some row => match row !! Z.to_nat (snd rc) with
                | Some c => c
                | None => None
                end
  | None => None
  end.
Definition colour_at (m : list (list utils.cell)) (rc : Z * Z) : option bool :=
  option_map utils.pointee (cell_at m rc).

(** An [N] by [N] matrix. *)
Definition square (N : Z) (m : list (list utils.cell)) : bool :=
  (len m =? N) && forallb (fun row : list utils.cell => len row =? N) m.

(** [q.modules[row][col] = p] on a matrix. *)
Definition write_cell (m : list (list utils.cell)) (rc : Z * Z) (p : utils.cell) : list (list utils.cell) :=
  match m !! Z.to_nat (fst rc) with
  | Some row => <[Z.to_nat (fst rc) := <[Z.to_nat (snd rc) := p]> row]> m
  | None => m
  end.

(** The world after [set_module row col v]. *)
Definition after_set_module (rc : Z * Z) (v : bool) (w : qr.world) : qr.world :=
  {| qr.self := qr.set_modules
                  (write_cell (qr.modules (qr.self w)) rc
                     (Some {| utils.addr := qr.next_addr w; utils.pointee := v |}))
                  (qr.self w);
     qr.precomputedQRBlanks := qr.precomputedQRBlanks w;
     qr.next_addr := qr.next_addr w + 1;
     qr.lost_point_calls := qr.lost_point_calls w |}.


(** A blank 21x21 symbol at level [ec]. *)
Definition blank_symbol (ec : Z) : qr.world :=
  {| qr.self := {| qr.modules := replicate 21 (replicate 21 None); qr.modulesCount := 21;
                   qr.version := 1; qr.errorCorrection := ec; qr.BoxSize := 10;
                   qr.border := 4; qr.maskPattern := 0; qr.DataList := [];
                   qr.dataCache := None |};
     qr.precomputedQRBlanks := ∅; qr.next_addr := 0; qr.lost_point_calls := 0 |}.

(** A position inside a matrix of size [N]. *)
Definition in_matrix (N : Z) (rc : Z * Z) : Prop :=
  0 <= fst rc < N /\ 0 <= snd rc < N.

(** A run that ends: it returns or panics, it does not run out of fuel. *)
Definition halts {A} (o : outcome A) : Prop :=
  match o with
  | OutOfFuel => False
  | _ => True
  end.

(** *** Reed-Solomon block table *)

(** The check of one entry of the block table, decided by computation:
    [RSBlocks] returns blocks, at least one, each with fewer data
    codewords than codewords; any two blocks have as many
    error-correction codewords and data counts one apart at most; and the
    codewords add up to as many as at level L. *)
Definition rs_blocks_check (version errorCorrection : Z) : bool :=
  match base.RSBlocks version errorCorrection,
        base.RSBlocks version constants.ERROR_CORRECT_L with
  | Done (Ok blocks), Done (Ok blocksL) =>
      negb (len blocks =? 0)
      && forallb (fun b => (0 <? base.DataCount b) && (base.DataCount b <? base.TotalCount b))
           blocks
      && forallb (fun b =>
           forallb (fun b' =>
             (base.TotalCount b - base.DataCount b =? base.TotalCount b' - base.DataCount b')
             && (Z.abs (base.DataCount b - base.DataCount b') <=? 1)) blocks) blocks
      && (total_codewords blocks =? total_codewords blocksL)
  | _, _ => false
  end.

(** *** Bit buffers and segments *)

(** The bits a buffer holds, in the order they were appended. *)
Definition bits_of (b : utils.BitBuffer) : list bool :=
  map (stored_bit (utils.buffer b)) (seqZ 0 (utils.bb_length b)).

(** The [n] low bits of [num], most significant first: what [Put] appends. *)
Definition field_bits (num n : Z) : list bool :=
  map (fun i => Z.testbit num (n - 1 - i)) (seqZ 0 n).

(** A slice of [int] in non-decreasing order. *)
Definition sorted (a : list Z) : Prop :=
  forall i j, 0 <= i -> i <= j -> j < len a ->
    nth (Z.to_nat i) a 0 <= nth (Z.to_nat j) a 0.

(** Number of bits set in a non-negative word. *)
Definition popcount (w : Z) : Z :=
  match w with
  | Zpos p => (fix count (p : positive) : Z :=
                 match p with
                 | xH => 1
                 | xO p' => count p'
                 | xI p' => 1 + count p'
                 end) p
  | _ => 0
  end.

(** Bits of [n] digits (10 per group of three, 7 for two left over, 4
    for one) and of [n] alphanumeric characters (11 per pair, 6 for one
    left over). *)
Definition numeric_bits (n : Z) : Z :=
  10 * (n / 3) + (if n mod 3 =? 2 then 7 else if n mod 3 =? 1 then 4 else 0).
Definition alnum_bits (n : Z) : Z :=
  11 * (n / 2) + (if n mod 2 =? 1 then 6 else 0).

(** The modes [LengthInBits] accepts. *)
Definition known_mode (m : Z) : Prop :=
  m = utils.ModeNumeric \/ m = utils.ModeAlphanumeric \/ m = utils.ModeByte
  \/ m = utils.ModeKanji.

(** A segment the chunker may emit: not empty, and of a mode its bytes
    can be written in. *)
Definition sound_chunk (q : utils.QRData) : Prop :=
  utils.data q <> []
  /\ ((utils.mode q = utils.ModeNumeric
       /\ Forall (fun c => utils.class_digit c = true) (utils.data q))
      \/ (utils.mode q = utils.ModeAlphanumeric
          /\ Forall (fun c => utils.class_alnum c = true) (utils.data q))
      \/ utils.mode q = utils.ModeByte).

(** A pattern whose matches are non-empty runs of bytes of the class
    [cls], inside the data. *)
Definition matches_runs_of (cls : Z -> bool) (re : utils.regexp) : Prop :=
  forall data s e,
    utils.FindIndex re data = Some (s, e) ->
    0 <= s /\ s < e /\ e <= len data
    /\ Forall (fun c => cls c = true) (slice data s e).

(** *** The module matrix *)

(** The package cache holds, for a version, a matrix of the size of that
    version. *)
Definition cache_ok (w : qr.world) : Prop :=
  forall v m, qr.precomputedQRBlanks w !! v = Some m -> square (v * 4 + 17) m = true.

(** The symbol of version [v] has its matrix: [N] rows of [N] cells for
    [N = 4v + 17], and a cache of such matrices. *)
Definition dimensioned (v : Z) (w : qr.world) : Prop :=
  qr.version (qr.self w) = v
  /\ qr.modulesCount (qr.self w) = v * 4 + 17
  /\ square (v * 4 + 17) (qr.modules (qr.self w)) = true
  /\ cache_ok w.

(** A dark module: inside the matrix, not [nil], and true. *)
Definition dark_at (m : list (list utils.cell)) (r c : Z) : bool :=
  if (r <? 0) || (c <? 0) then false
  else match colour_at m (r, c) with
       | Some true => true
       | _ => false
       end.

(** Where bit [i] of the version information goes: left of the
    upper-right finder and, mirrored, above the lower-left one. *)
Definition version_upper (N i : Z) : Z * Z := (Z.quot i 3, Z.rem i 3 + N - 8 - 3).
Definition version_lower (N i : Z) : Z * Z := (Z.rem i 3 + N - 8 - 3, Z.quot i 3).

(** A step that leaves a dimensioned symbol dimensioned. *)
Definition stays_dimensioned (v : Z) (w w' : qr.world) : Prop :=
  dimensioned v w -> dimensioned v w'.

(** However the run ends (return or panic), it ends in a world where [Q]
    holds. *)
Definition ends_in {A} (Q : qr.world -> Prop) (r : qr.execution A) : Prop :=
  match r with
  | qr.Return _ w' => Q w'
  | qr.Abort _ w' => Q w'
  | qr.Starved => True
  end.

(** *** Runs that cannot panic *)

(** [returns_with Q o]: the run [o] returned, and what it returned
    satisfies [Q]. *)
Definition returns_with {A} (Q : A -> Prop) (o : outcome A) : Prop :=
  match o with
  | Done a => Q a
  | _ => False
  end.

(** The same for a function that returns [(T, error)]: it returned, either
    an error or a value that satisfies [Q]. *)
Definition settles {A} (Q : A -> Prop) (o : outcome (fallible A)) : Prop :=
  returns_with (fun r => match r with
                         | Ok a => Q a
                         | Err _ => True
                         end) o.

(** An [int] that holds a byte. *)
Definition is_byte (x : Z) : Prop := 0 <= x <= 255.

(** The codewords the interleaving loops of [CreateBytes] have still to
    emit once they reach row [i]: what the columns hold from [i] on. *)
Definition pending (cols : list (list Z)) (i : Z) : Z :=
  fold_right (fun col t => Z.max 0 (len col - i) + t) 0 cols.

(** *** Penalty scoring *)

(** The matrix has a [nil] cell. *)
Definition has_nil (m : list (list utils.cell)) : Prop :=
  exists row, In row m /\ In None row.

(** A run that returns, or that stops at a nil dereference where [nil_seen]
    holds; it does nothing else. *)
Definition returns_unless_nil {A} (nil_seen : Prop) (o : outcome A) : Prop :=
  match o with
  | Done _ => True
  | Panicked p => p = NilDereference /\ nil_seen
  | OutOfFuel => False
  end.

(** The state of a scan line of rule 1 after [col] cells: [L] counters,
    and a run no longer than the cells scanned. *)
Definition scanned (L : nat) (col : Z) (st : utils.scan_state) : Prop :=
  length (fst (fst st)) = L /\ 0 <= snd st <= col.

(** *** Builds that complete *)

(** The cells of column 0 between the finder patterns, above the place of
    the version information. *)
Definition left_gap (N : Z) (rc : Z * Z) : Prop :=
  snd rc = 0 /\ 9 <= fst rc <= N - 12.

(** The package cache holds, for a version, a square matrix of the size of
    that version whose cells of the left gap are [nil]. *)
Definition cache_blank (w : qr.world) : Prop :=
  forall v m, qr.precomputedQRBlanks w !! v = Some m ->
    square (v * 4 + 17) m = true
    /\ forall rc, left_gap (v * 4 + 17) rc -> cell_at m rc = None.

(** The symbol during the build of version [v] at level [ec] from the
    segments [dl]: it has its square matrix, and the cells of the left gap
    are [nil]. *)
Definition building (v ec : Z) (dl : list utils.QRData) (w : qr.world) : Prop :=
  qr.version (qr.self w) = v
  /\ qr.modulesCount (qr.self w) = v * 4 + 17
  /\ square (v * 4 + 17) (qr.modules (qr.self w)) = true
  /\ qr.errorCorrection (qr.self w) = ec
  /\ qr.DataList (qr.self w) = dl
  /\ (forall rc, left_gap (v * 4 + 17) rc -> cell_at (qr.modules (qr.self w)) rc = None)
  /\ cache_blank w.

(** The symbol before a build. *)
Definition ready (v ec : Z) (dl : list utils.QRData) (w : qr.world) : Prop :=
  qr.version (qr.self w) = v
  /\ qr.errorCorrection (qr.self w) = ec
  /\ qr.DataList (qr.self w) = dl
  /\ cache_blank w.

(** [m], run in a world where [P] holds, returns; [Q] holds of what it
    returns and of the world it returns in. *)
Definition completes {A} (P : qr.world -> Prop) (m : qr.M A)
    (Q : A -> qr.world -> Prop) : Prop :=
  forall w, P w -> match m w with
                   | qr.Return a w' => Q a w'
                   | _ => False
                   end.

(** The cursor of [MapData] inside a matrix of size [N]. *)
Definition cursor_ok (N : Z) (k : qr.cursor) : Prop :=
  0 <= qr.bitIndex k <= 7 /\ 0 <= qr.byteIndex k /\ 0 <= qr.row k < N
  /\ (qr.inc k = 1 \/ qr.inc k = -1).

(** The columns at which the outer loop of [MapData] starts a round. *)
Definition column_ok (N col : Z) : Prop :=
  col <= N - 1 /\ (col = 0 \/ col = 3 \/ col = 6 \/ exists h, 4 <= h /\ col = 2 * h).

(** The centres of the alignment patterns of a version lie between the
    finder patterns. *)
Definition pattern_positions_check (v : Z) : bool :=
  match utils.PatternPosition v with
  | Done pos => forallb (fun x => (6 <=? x) && (x <=? v * 4 + 10)) pos
  | _ => false
  end.

(** *** The matrix of module values *)

(** What [copy_row] leaves at a position of the row it fills: the value of
    the cell [j] of the module row where that cell is inside the row and
    not [nil], the old value elsewhere. *)
Definition copied (cells : list utils.cell) (j : Z) (old : bool) : bool :=
  if j <? 0 then old
  else match cells !! Z.to_nat j with
       | Some (Some p) => utils.pointee p
       | _ => old
       end.

(** *** The range of [int]

    Go's [int] is 32 or 64 bits wide and its arithmetic wraps around; the
    embedding computes in [Z].  The two agree as long as every value
    computed stays in the range of a 32-bit [int].  The properties below
    that take any integer argument are stated for arguments on which the
    values the function computes from them stay in this range. *)
Definition int_range (z : Z) : Prop := - 2 ^ 31 <= z <= 2 ^ 31 - 1.

(** A made symbol of one dark module with a border of one. *)
Definition one_dark_module : qr.QRCode :=
  {| qr.modules := [[Some {| utils.addr := 0; utils.pointee := true |}]];
     qr.modulesCount := 1; qr.version := 1; qr.errorCorrection := 0; qr.BoxSize := 10;
     qr.border := 1; qr.maskPattern := 1; qr.DataList := []; qr.dataCache := Some [] |}.

(** * Properties *)

(** ** Masks *)

Lemma mask_flip_involutive (f : Z -> Z -> bool) (i j : Z) (b : bool) :
  qr.mask_flip f i j (qr.mask_flip f i j b) = b.
Proof. unfold qr.mask_flip. destruct (f i j), b; reflexivity. Qed.

Lemma mask_row_involutive (f : Z -> Z -> bool) (row : list bool) :
  forall i j, mask_row f i j (mask_row f i j row) = row.
Proof.
  induction row as [|b rest IH]; intros i j; simpl.
  - reflexivity.
  - rewrite mask_flip_involutive, IH. reflexivity.
Qed.

Lemma mask_rows_involutive (f : Z -> Z -> bool) (m : list (list bool)) :
  forall i, mask_rows f i (mask_rows f i m) = m.
Proof.
  induction m as [|row rest IH]; intros i; simpl.
  - reflexivity.
  - rewrite mask_row_involutive, IH. reflexivity.
Qed.

Lemma MaskFunc_defined (pattern : Z) :
  0 <= pattern <= 7 -> exists f, utils.MaskFunc pattern = Done f.
Proof.
  intros H.
  assert (pattern = 0 \/ pattern = 1 \/ pattern = 2 \/ pattern = 3 \/
          pattern = 4 \/ pattern = 5 \/ pattern = 6 \/ pattern = 7) as Hc by lia.
  repeat (destruct Hc as [-> | Hc]); try subst pattern; eexists; reflexivity.
Qed.

(** C5: for every mask pattern in [0,7] the mask function exists, flipping
    a cell value twice where the predicate holds gives the value back, and
    so masking any matrix twice gives the matrix back. *)
Theorem mask_twice_is_identity (pattern : Z) (Hpattern : 0 <= pattern <= 7) :
  exists f, utils.MaskFunc pattern = Done f
            /\ (forall i j b, qr.mask_flip f i j (qr.mask_flip f i j b) = b)
            /\ (forall m, mask_matrix f (mask_matrix f m) = m).
Proof.
  destruct (MaskFunc_defined pattern Hpattern) as [f Hf].
  exists f. split; [exact Hf|]. split.
  - intros. apply mask_flip_involutive.
  - intros m. apply mask_rows_involutive.
Qed.

Lemma mask_twice_is_identity_witness :
  exists f, utils.MaskFunc 3 = Done f
            /\ (forall i j b, qr.mask_flip f i j (qr.mask_flip f i j b) = b)
            /\ (forall m, mask_matrix f (mask_matrix f m) = m).
Proof. apply (mask_twice_is_identity 3). lia. Defined.

(** ** Slices *)

Lemma index_in_range {A} (s : list A) (i : Z) (x : A) :
  0 <= i -> s !! Z.to_nat i = Some x -> index s i = Done x.
Proof.
  intros Hi Hx. unfold index.
  apply lookup_lt_Some in Hx as Hlt.
  destruct (i <? 0) eqn:E1; [lia|].
  destruct (Z.of_nat (length s) <=? i) eqn:E2; [lia|].
  simpl. rewrite Hx. reflexivity.
Qed.

Lemma lookup_nth {A} (s : list A) (n : nat) (d : A) :
  (n < length s)%nat -> s !! n = Some (nth n s d).
Proof.
  intros Hn. destruct (nth_lookup_or_length s n d) as [H | H]; [exact H | lia].
Qed.

Lemma index_nth {A} (s : list A) (i : Z) (d : A) :
  0 <= i < len s -> index s i = Done (nth (Z.to_nat i) s d).
Proof.
  intros Hi. unfold len in Hi. apply index_in_range; [lia|].
  apply lookup_nth. lia.
Qed.

Lemma index_out_of_range {A} (s : list A) (i : Z) :
  i < 0 \/ len s <= i -> index s i = Panicked IndexOutOfRange.
Proof.
  intros Hi. unfold index, len in *.
  destruct (i <? 0) eqn:E1; [reflexivity|].
  destruct (Z.of_nat (length s) <=? i) eqn:E2; [reflexivity|]. lia.
Qed.

Lemma store_in_range {A} (s : list A) (i : Z) (x : A) :
  0 <= i < len s -> store s i x = Done (<[Z.to_nat i := x]> s).
Proof.
  intros Hi. unfold store, len in *.
  destruct (i <? 0) eqn:E1; [lia|].
  destruct (Z.of_nat (length s) <=? i) eqn:E2; [lia|]. reflexivity.
Qed.

(** ** Bit buffers *)

Lemma land_one_testbit (w n : Z) :
  0 <= n -> (Z.land (Z.shiftr w n) 1 =? 1) = Z.testbit w n.
Proof.
  intros Hn.
  change 1 with (Z.ones 1) at 1. rewrite Z.land_ones by lia.
  rewrite Z.shiftr_div_pow2 by lia. change (2 ^ 1) with 2.
  rewrite <- Z.testbit_spec' by lia.
  destruct (Z.testbit w n); reflexivity.
Qed.

Lemma Get_stored_bit (b : utils.BitBuffer) (i : Z) :
  0 <= i < 8 * len (utils.buffer b) ->
  utils.Get b i = Done (stored_bit (utils.buffer b) i).
Proof.
  intros Hi. unfold utils.Get, stored_bit.
  rewrite Z.quot_div_nonneg, Z.rem_mod_nonneg by lia.
  rewrite index_nth with (d := 0) by (split; [apply Z.div_pos; lia | apply Z.div_lt_upper_bound; lia]).
  cbn [obind]. unfold shr.
  assert (0 <= i mod 8 < 8) by (apply Z.mod_pos_bound; lia).
  destruct (7 - i mod 8 <? 0) eqn:E; [lia|].
  cbn [obind]. rewrite land_one_testbit by lia. reflexivity.
Qed.

Lemma Get_past_backing (b : utils.BitBuffer) (i : Z) :
  8 * len (utils.buffer b) <= i -> utils.Get b i = Panicked IndexOutOfRange.
Proof.
  intros Hi. unfold utils.Get.
  assert (0 <= len (utils.buffer b)) by (unfold len; lia).
  rewrite Z.quot_div_nonneg by lia.
  rewrite index_out_of_range; [reflexivity|].
  right. apply Z.div_le_lower_bound; lia.
Qed.

Lemma stored_bit_app_old (buf : list Z) (x : Z) (i : Z) :
  0 <= i < 8 * len buf -> stored_bit (buf ++ [x]) i = stored_bit buf i.
Proof.
  intros Hi. unfold stored_bit, len in *.
  rewrite app_nth1; [reflexivity|].
  assert (i / 8 < Z.of_nat (length buf)) by (apply Z.div_lt_upper_bound; lia).
  assert (0 <= i / 8) by (apply Z.div_pos; lia). lia.
Qed.

Lemma testbit_top_bit (k n : Z) :
  0 <= k -> 0 <= n -> Z.testbit (Z.shiftr 128 k) n = (n + k =? 7).
Proof.
  intros Hk Hn. rewrite Z.shiftr_spec by lia.
  change 128 with (2 ^ 7). rewrite Z.pow2_bits_eqb by lia.
  rewrite Z.eqb_sym. reflexivity.
Qed.

Lemma PutBit_inv (b : utils.BitBuffer) (bit : bool) :
  buffer_inv b ->
  exists b', utils.PutBit b bit = Done b'
             /\ buffer_inv b'
             /\ utils.bb_length b' = utils.bb_length b + 1.
Proof.
  intros (Hlen & Hsize & Hzero).
  destruct b as [buf L]. simpl in *. unfold utils.PutBit. simpl.
  rewrite Z.quot_div_nonneg, Z.rem_mod_nonneg by lia.
  assert (Hk : 0 <= L mod 8 < 8) by (apply Z.mod_pos_bound; lia).
  assert (HL : L = 8 * (L / 8) + L mod 8) by (apply Z.div_mod; lia).
  assert (Hq : 0 <= L / 8) by (apply Z.div_pos; lia).
  unfold len in Hsize.
  destruct (Z.eq_dec (L mod 8) 0) as [Hk0 | Hk0].
  - (* a new byte is appended *)
    assert (Hn : Z.of_nat (length buf) = L / 8).
    { rewrite Hsize. replace (L + 7) with (7 + (L / 8) * 8) by lia.
      rewrite Z.div_add by lia. reflexivity. }
    destruct (Z.of_nat (length buf) <=? L / 8) eqn:E; [|lia].
    set (v := if bit then 128 else 0).
    assert (Hres : (if bit
                    then do w <- index (buf ++ [0]) (L / 8);
                         do m <- shr 128 (L mod 8);
                         store (buf ++ [0]) (L / 8) (Z.lor w m)
                    else Done (buf ++ [0])) = Done (buf ++ [v])).
    { destruct bit; [|reflexivity].
      rewrite index_nth with (d := 0) by (unfold len; rewrite length_app; simpl; lia).
      replace (Z.to_nat (L / 8)) with (length buf + 0)%nat by lia.
      rewrite app_nth2_plus. simpl.
      rewrite Hk0. simpl.
      rewrite store_in_range by (unfold len; rewrite length_app; simpl; lia).
      replace (Z.to_nat (L / 8)) with (length buf + 0)%nat by lia.
      rewrite insert_app_r. reflexivity. }
    rewrite Hres. simpl. eexists. split; [reflexivity|]. split; [|reflexivity].
    unfold buffer_inv; simpl. split; [lia|]. split.
    + unfold len. rewrite length_app. cbn [length].
      replace (L + 1 + 7) with (0 + (L / 8 + 1) * 8) by lia.
      rewrite Z.div_add by lia. change (0 / 8) with 0. lia.
    + intros i Hi.
      destruct (Z_lt_le_dec i (8 * (L / 8 + 1))) as [Hin | Hout].
      * unfold stored_bit.
        assert (i / 8 = L / 8) as ->.
        { symmetry. apply Z.div_unique with (r := i - 8 * (L / 8)); lia. }
        replace (Z.to_nat (L / 8)) with (length buf + 0)%nat by lia.
        rewrite app_nth2_plus. simpl.
        assert (Hi8 : i mod 8 = i - 8 * (L / 8)).
        { symmetry. apply Z.mod_unique with (q := L / 8); lia. }
        subst v. destruct bit; [|apply Z.testbit_0_l].
        change 128 with (2 ^ 7). rewrite Z.pow2_bits_eqb by lia.
        apply Z.eqb_neq. lia.
      * unfold stored_bit.
        rewrite nth_overflow; [apply Z.testbit_0_l|].
        rewrite length_app. simpl.
        assert (L / 8 + 1 <= i / 8) by (apply Z.div_le_lower_bound; lia). lia.
  - (* the last byte is completed *)
    assert (Hn : Z.of_nat (length buf) = L / 8 + 1).
    { rewrite Hsize. replace (L + 7) with ((L mod 8 + 7) + (L / 8) * 8) by lia.
      rewrite Z.div_add by lia.
      assert ((L mod 8 + 7) / 8 = 1) as ->; [|lia].
      symmetry. apply Z.div_unique with (r := L mod 8 - 1); lia. }
    destruct (Z.of_nat (length buf) <=? L / 8) eqn:E; [lia|].
    set (w := nth (Z.to_nat (L / 8)) buf 0).
    set (v := if bit then Z.lor w (Z.shiftr 128 (L mod 8)) else w).
    assert (Hres : (if bit
                    then do w <- index buf (L / 8);
                         do m <- shr 128 (L mod 8);
                         store buf (L / 8) (Z.lor w m)
                    else Done buf) = Done (<[Z.to_nat (L / 8) := v]> buf)).
    { subst v. destruct bit.
      - rewrite index_nth with (d := 0) by (unfold len; lia). simpl. unfold shr.
        destruct (L mod 8 <? 0) eqn:E2; [lia|]. simpl.
        rewrite store_in_range by (unfold len; lia). reflexivity.
      - f_equal. symmetry. apply list_insert_id.
        subst w. apply lookup_nth. lia. }
    rewrite Hres. simpl. eexists. split; [reflexivity|]. split; [|reflexivity].
    unfold buffer_inv; simpl. split; [lia|]. split.
    + unfold len. rewrite length_insert.
      rewrite Hn. replace (L + 1 + 7) with (L mod 8 + (L / 8 + 1) * 8) by lia.
      rewrite Z.div_add by lia. rewrite (Z.div_small (L mod 8) 8) by lia. lia.
    + intros i Hi. specialize (Hzero i ltac:(lia)).
      unfold stored_bit in *.
      assert (Hi8 : 0 <= i mod 8 < 8) by (apply Z.mod_pos_bound; lia).
      destruct (Z.eq_dec (i / 8) (L / 8)) as [Heq | Hne].
      * rewrite Heq in *.
        rewrite nth_lookup, list_lookup_insert_eq by lia. simpl.
        fold w in Hzero. subst v. destruct bit; [|exact Hzero].
        rewrite Z.lor_spec, Hzero. simpl.
        rewrite testbit_top_bit by lia. apply Z.eqb_neq.
        assert (i = 8 * (L / 8) + i mod 8) by (rewrite <- Heq; apply Z.div_mod; lia).
        lia.
      * rewrite nth_lookup, list_lookup_insert_ne.
        -- rewrite <- nth_lookup. exact Hzero.
        -- assert (0 <= i / 8) by (apply Z.div_pos; lia). lia.
Qed.

Lemma built_inv (b : utils.BitBuffer) : built b -> buffer_inv b.
Proof.
  induction 1 as [|b bit b' Hb IH Hput].
  - unfold buffer_inv; simpl. split; [lia|]. split; [reflexivity|].
    intros i _. unfold stored_bit. destruct (Z.to_nat (i / 8)); apply Z.testbit_0_l.
  - destruct (PutBit_inv b bit IH) as (b2 & Hput2 & Hinv & _).
    rewrite Hput in Hput2. injection Hput2 as <-. exact Hinv.
Qed.

(** C6, as the code has it: past the bits appended, [Get] panics only from
    the first bit after the backing bytes on; inside the last backing byte
    it returns the zero bit that pads it. *)
Theorem Get_beyond_length (b : utils.BitBuffer) (i : Z)
    (Hb : built b) (Hi : utils.Len b <= i) :
  (i < 8 * ((utils.Len b + 7) / 8) -> utils.Get b i = Done false)
  /\ (8 * ((utils.Len b + 7) / 8) <= i -> utils.Get b i = Panicked IndexOutOfRange).
Proof.
  destruct (built_inv b Hb) as (Hlen & Hsize & Hzero). unfold utils.Len in *.
  rewrite <- Hsize. split; intros H.
  - rewrite Get_stored_bit by lia. rewrite Hzero by lia. reflexivity.
  - apply Get_past_backing. exact H.
Qed.

Lemma built_one_bit : built {| utils.buffer := [128]; utils.bb_length := 1 |}.
Proof. apply (built_put utils.NewBitBuffer true); [apply built_new | reflexivity]. Qed.

Lemma Get_beyond_length_witness :
  (1 < 8 * ((utils.Len {| utils.buffer := [128]; utils.bb_length := 1 |} + 7) / 8) ->
   utils.Get {| utils.buffer := [128]; utils.bb_length := 1 |} 1 = Done false)
  /\ (8 * ((utils.Len {| utils.buffer := [128]; utils.bb_length := 1 |} + 7) / 8) <= 1 ->
      utils.Get {| utils.buffer := [128]; utils.bb_length := 1 |} 1
      = Panicked IndexOutOfRange).
Proof.
  apply (Get_beyond_length {| utils.buffer := [128]; utils.bb_length := 1 |} 1).
  - exact built_one_bit.
  - simpl. lia.
Defined.

(** C6 as stated fails: after one appended bit, reading index 1 (at the
    length) returns a bit value instead of failing. *)
Lemma Get_at_length_returns :
  exists b i, built b /\ utils.Len b <= i /\ utils.Get b i = Done false.
Proof.
  exists {| utils.buffer := [128]; utils.bb_length := 1 |}, 1.
  split; [exact built_one_bit|]. split; [simpl; lia | reflexivity].
Qed.

(** ** Loops that always finish *)

Lemma for_loop_Done {St} (I : Z -> St -> Prop) (body : Z -> St -> outcome St) (n : nat) :
  forall i s,
    I i s ->
    (forall j t, i <= j < i + Z.of_nat n -> I j t -> exists t', body j t = Done t' /\ I (j + 1) t') ->
    exists s', for_loop n i body s = Done s' /\ I (i + Z.of_nat n) s'.
Proof.
  induction n as [|n IH]; intros i s Hs Hbody; simpl for_loop.
  - exists s. split; [reflexivity|]. replace (i + Z.of_nat 0) with i by lia. exact Hs.
  - destruct (Hbody i s ltac:(lia) Hs) as (t & Ht & HIt). rewrite Ht. cbn [obind].
    destruct (IH (i + 1) t HIt) as (s' & Hs' & HI').
    + intros j u Hj Hu. apply Hbody; [lia | exact Hu].
    + exists s'. split; [exact Hs'|].
      replace (i + Z.of_nat (S n)) with (i + 1 + Z.of_nat n) by lia. exact HI'.
Qed.

Lemma for_each_Done {A St} (I : St -> Prop) (body : A -> St -> outcome St) (xs : list A) :
  forall s,
    I s ->
    (forall x t, In x xs -> I t -> exists t', body x t = Done t' /\ I t') ->
    exists s', for_each xs body s = Done s' /\ I s'.
Proof.
  induction xs as [|x xs IH]; intros s Hs Hbody; simpl for_each.
  - exists s. split; [reflexivity | exact Hs].
  - destruct (Hbody x s (or_introl eq_refl) Hs) as (t & Ht & HIt). rewrite Ht. cbn [obind].
    apply IH; [exact HIt|]. intros y u Hy Hu. apply Hbody; [right; exact Hy | exact Hu].
Qed.

Lemma for_step_Done {St} (I : St -> Prop) (body : Z -> St -> outcome St) (hi step : Z) :
  0 < step ->
  (forall j t, 0 <= j < hi -> I t -> exists t', body j t = Done t' /\ I t') ->
  forall fuel i s,
    0 <= i -> hi - i <= Z.of_nat fuel -> I s ->
    exists s', for_step fuel i hi step body s = Done s' /\ I s'.
Proof.
  intros Hstep Hbody. induction fuel as [|fuel IH]; intros i s Hi Hfuel Hs; simpl for_step.
  - destruct (i <? hi) eqn:E; [lia|]. exists s. split; [reflexivity | exact Hs].
  - destruct (i <? hi) eqn:E.
    + destruct (Hbody i s ltac:(lia) Hs) as (t & Ht & HIt). rewrite Ht. cbn [obind].
      apply IH; [lia | lia | exact HIt].
    + exists s. split; [reflexivity | exact Hs].
Qed.

(** ** Writing segments never fails *)

Lemma Put_inv (b : utils.BitBuffer) (num n : Z) :
  buffer_inv b -> exists b', utils.Put b num n = Done b' /\ buffer_inv b'.
Proof.
  intros Hb. unfold utils.Put, for_range.
  destruct (for_loop_Done (fun _ b => buffer_inv b)
              (fun i b => do s <- shr num (n - i - 1); utils.PutBit b (Z.land s 1 =? 1))
              (Z.to_nat (n - 0)) 0 b Hb) as (b' & Hb' & Hinv).
  - intros j t Hj Ht. unfold shr.
    destruct (n - j - 1 <? 0) eqn:E; [lia|]. cbn [obind].
    destruct (PutBit_inv t (Z.land (Z.shiftr num (n - j - 1)) 1 =? 1) Ht) as (t' & H1 & H2 & _).
    exists t'. split; assumption.
  - exists b'. split; assumption.
Qed.

Lemma len_slice {A} (s : list A) (lo hi : Z) :
  0 <= lo <= hi -> hi <= len s -> len (slice s lo hi) = hi - lo.
Proof.
  intros H1 H2. unfold len, slice in *.
  rewrite length_take, length_drop. lia.
Qed.

Lemma Write_inv (q : utils.QRData) (b : utils.BitBuffer) :
  buffer_inv b -> exists b', utils.Write q b = Done b' /\ buffer_inv b'.
Proof.
  intros Hb. unfold utils.Write.
  assert (Hn : 0 <= len (utils.data q)) by (unfold len; lia).
  destruct (utils.mode q =? utils.ModeNumeric).
  - apply for_step_Done with (I := buffer_inv); try lia; [|unfold len; lia|exact Hb].
    intros j t Hj Ht. apply Put_inv. exact Ht.
  - destruct (utils.mode q =? utils.ModeAlphanumeric).
    + apply for_step_Done with (I := buffer_inv); try lia; [|unfold len; lia|exact Hb].
      intros j t Hj Ht.
      set (chars := slice (utils.data q) j (utils.min (j + 2) (len (utils.data q)))).
      assert (Hc : len chars = utils.min (j + 2) (len (utils.data q)) - j).
      { apply len_slice; unfold utils.min;
          destruct (j + 2 <? len (utils.data q)) eqn:E; lia. }
      unfold utils.min in Hc.
      destruct (len chars >? 1) eqn:E1.
      * rewrite (index_nth chars 0 0) by lia. cbn [obind].
        rewrite (index_nth chars 1 0) by lia. cbn [obind].
        apply Put_inv. exact Ht.
      * rewrite (index_nth chars 0 0)
          by (destruct (j + 2 <? len (utils.data q)) eqn:E; lia).
        cbn [obind]. apply Put_inv. exact Ht.
    + apply for_each_Done with (I := buffer_inv); [exact Hb|].
      intros x t _ Ht. apply Put_inv. exact Ht.
Qed.

Lemma NewBitBuffer_inv : buffer_inv utils.NewBitBuffer.
Proof. apply built_inv. apply built_new. Qed.

Lemma write_segments_Done (sizes : gmap Z Z) (dataList : list utils.QRData) :
  exists b, utils.write_segments (fun m => Done (map_get sizes m)) dataList = Done b.
Proof.
  unfold utils.write_segments.
  destruct (for_each_Done buffer_inv
              (fun d b => do b <- utils.Put b (utils.mode d) 4;
                          do w <- Done (map_get sizes (utils.mode d));
                          do b <- utils.Put b (len (utils.data d)) w;
                          utils.Write d b)
              dataList utils.NewBitBuffer NewBitBuffer_inv) as (b & Hb & _).
  - intros d t _ Ht.
    destruct (Put_inv t (utils.mode d) 4 Ht) as (t1 & H1 & I1). rewrite H1. cbn [obind].
    destruct (Put_inv t1 (len (utils.data d)) (map_get sizes (utils.mode d)) I1)
      as (t2 & H2 & I2).
    rewrite H2. cbn [obind]. apply Write_inv. exact I2.
  - exists b. exact Hb.
Qed.

(** ** Best fit *)

Lemma Version_with_nonzero (bf : Z -> qr.M Z) (w : qr.world) :
  qr.version (qr.self w) <> 0 ->
  qr.Version_with bf w = qr.Return (qr.version (qr.self w)) w.
Proof.
  intros Hv. unfold qr.Version_with, qr.sbind, qr.this, qr.ret.
  destruct (qr.version (qr.self w) =? 0) eqn:E; [lia|]. reflexivity.
Qed.

Lemma Version_with_zero (fuel : nat) (w : qr.world) :
  qr.version (qr.self w) = 0 ->
  qr.Version_with (qr.BestFit_fuel (S fuel)) w = qr.Abort (PanicInvalidVersion 0) w.
Proof.
  intros Hv. unfold qr.Version_with, qr.sbind, qr.this.
  rewrite Hv. reflexivity.
Qed.

Lemma aborted_unchanged (w : qr.world) (p : go_panic) :
  leaves_unchanged w (qr.Abort p w).
Proof. left. exists p. reflexivity. Qed.

Lemma returned_unchanged (w : qr.world) :
  leaves_unchanged w (qr.Return (qr.version (qr.self w)) w).
Proof. right. reflexivity. Qed.

(** With the mode sizes of the symbol's own version, [BestFit] returns at
    once. *)
Lemma BestFit_fuel_settled (fuel : nat) (w : qr.world) :
  leaves_unchanged w (qr.BestFit_fuel (S (S fuel)) (qr.version (qr.self w)) w).
Proof.
  set (v := qr.version (qr.self w)).
  change (qr.BestFit_fuel (S (S fuel)) v)
    with (qr.BestFit_body (qr.BestFit_fuel (S fuel)) v).
  unfold qr.BestFit_body.
  destruct (utils.CheckVersion v) eqn:Ecv; cbn [negb]; [|apply aborted_unchanged].
  assert (Hv : qr.version (qr.self w) <> 0).
  { unfold utils.CheckVersion in Ecv. subst v. lia. }
  unfold qr.sbind at 1. unfold qr.this at 1.
  destruct (write_segments_Done (utils.ModeSizeVersion v) (qr.DataList (qr.self w)))
    as (b & Hb).
  unfold qr.sbind at 1. unfold qr.lift at 1. rewrite Hb.
  unfold qr.sbind at 1. rewrite Version_with_nonzero by exact Hv. fold v.
  destruct (v =? 41); [apply aborted_unchanged|].
  unfold qr.sbind at 1. rewrite Version_with_nonzero by exact Hv. fold v.
  rewrite bool_decide_eq_true_2 by reflexivity. cbn [negb].
  unfold qr.sbind at 1. unfold qr.ret at 1.
  rewrite Version_with_nonzero by exact Hv. apply returned_unchanged.
Qed.

Lemma BestFit_fuel_spec (fuel : nat) (start : Z) (w : qr.world) :
  leaves_unchanged w (qr.BestFit_fuel (S (S (S fuel))) start w).
Proof.
  remember (S (S fuel)) as f eqn:Hf.
  change (qr.BestFit_fuel (S f) start) with (qr.BestFit_body (qr.BestFit_fuel f) start).
  unfold qr.BestFit_body.
  destruct (utils.CheckVersion start) eqn:Ecv; cbn [negb]; [|apply aborted_unchanged].
  unfold qr.sbind at 1. unfold qr.this at 1.
  destruct (write_segments_Done (utils.ModeSizeVersion start) (qr.DataList (qr.self w)))
    as (b & Hb).
  unfold qr.sbind at 1. unfold qr.lift at 1. rewrite Hb.
  set (v := qr.version (qr.self w)).
  destruct (Z.eq_dec v 0) as [Hv0 | Hv].
  - unfold qr.sbind at 1. subst f. rewrite Version_with_zero by exact Hv0.
    apply aborted_unchanged.
  - unfold qr.sbind at 1. rewrite Version_with_nonzero by exact Hv. fold v.
    destruct (v =? 41); [apply aborted_unchanged|].
    unfold qr.sbind at 1. rewrite Version_with_nonzero by exact Hv. fold v.
    destruct (bool_decide (utils.ModeSizeVersion start = utils.ModeSizeVersion v)); cbn [negb].
    + unfold qr.sbind at 1. unfold qr.ret at 1.
      rewrite Version_with_nonzero by exact Hv. apply returned_unchanged.
    + unfold qr.sbind at 1. unfold qr.sbind at 1.
      rewrite Version_with_nonzero by exact Hv. fold v.
      unfold qr.sbind at 1. subst f.
      destruct (BestFit_fuel_settled fuel w) as [(p & Hp) | Hr]; fold v in Hp || fold v in Hr.
      * rewrite Hp. apply aborted_unchanged.
      * rewrite Hr. unfold qr.ret at 1.
        rewrite Version_with_nonzero by exact Hv. apply returned_unchanged.
Qed.

(** [BestFit] never runs out of call depth, never changes the symbol, and
    returns the version the symbol already has. *)
Lemma BestFit_changes_nothing (start : Z) (w : qr.world) :
  leaves_unchanged w (qr.BestFit start w).
Proof. unfold qr.BestFit, qr.call_depth. apply BestFit_fuel_spec. Qed.

Lemma BestFit_valid_version (w : qr.world) :
  utils.CheckVersion (qr.version (qr.self w)) = true ->
  qr.BestFit (qr.version (qr.self w)) w = qr.Return (qr.version (qr.self w)) w.
Proof.
  intros Hcv. unfold qr.BestFit, qr.call_depth.
  assert (Hv : qr.version (qr.self w) <> 0 /\ qr.version (qr.self w) <> 41)
    by (unfold utils.CheckVersion in Hcv; lia).
  destruct Hv as [Hv Hv41].
  change (qr.BestFit_fuel 8 (qr.version (qr.self w)))
    with (qr.BestFit_body (qr.BestFit_fuel 7) (qr.version (qr.self w))).
  unfold qr.BestFit_body. rewrite Hcv. cbn [negb].
  unfold qr.sbind at 1. unfold qr.this at 1.
  destruct (write_segments_Done (utils.ModeSizeVersion (qr.version (qr.self w)))
              (qr.DataList (qr.self w))) as (b & Hb).
  unfold qr.sbind at 1. unfold qr.lift at 1. rewrite Hb.
  unfold qr.sbind at 1. rewrite Version_with_nonzero by exact Hv.
  destruct (qr.version (qr.self w) =? 41) eqn:E; [lia|].
  unfold qr.sbind at 1. rewrite Version_with_nonzero by exact Hv.
  rewrite bool_decide_eq_true_2 by reflexivity. cbn [negb].
  unfold qr.sbind at 1. unfold qr.ret at 1.
  rewrite Version_with_nonzero by exact Hv. reflexivity.
Qed.

(** C1, at a failing input: a symbol at version 1, level L, holding one
    BYTE segment of twenty bytes.  The segments take 172 bits, version 1
    holds 152 and version 2 is the smallest that fits, yet [BestFit] leaves
    the symbol at version 1 and reports no overflow; the build that
    follows stops in [CreateData], and a symbol on automatic version
    (0) is refused as an invalid version before any search. *)
Theorem BestFit_does_not_search :
  total_bits (utils.ModeSizeVersion 1) twenty_bytes = 172
  /\ smallest_fit constants.ERROR_CORRECT_L twenty_bytes = Some 2
  /\ qr.BestFit 1 (symbol 1 constants.ERROR_CORRECT_L 1 twenty_bytes)
     = qr.Return 1 (symbol 1 constants.ERROR_CORRECT_L 1 twenty_bytes)
  /\ (exists w, qr.Make true (symbol 1 constants.ERROR_CORRECT_L 1 twenty_bytes)
                = qr.Abort (PanicError (ErrCodeLengthOverflow 172 152)) w)
  /\ qr.Make true (symbol 0 constants.ERROR_CORRECT_L 1 twenty_bytes)
     = qr.Abort (PanicInvalidVersion 0) (symbol 0 constants.ERROR_CORRECT_L 1 twenty_bytes).
Proof.
  split; [vm_compute; reflexivity|].
  split; [vm_compute; reflexivity|].
  split; [vm_compute; reflexivity|].
  split; [eexists; vm_compute; reflexivity|].
  vm_compute; reflexivity.
Qed.

(** ** The chunker *)

(** C7, at failing inputs (both longer than the minimum 4).  For
    ["ABCDE!!"] the chunker returns the single ALPHANUMERIC segment
    ["ABCDE"]: the two trailing bytes are dropped.  For ["ABCDE12345"] the
    alphanumeric run before the digits comes out as a BYTE segment. *)
Theorem chunker_drops_trailing_bytes :
  len Inputs.alnum_then_bytes = 7
  /\ utils.OptimalDataChunks Inputs.alnum_then_bytes 4
     = Done (Ok [ {| utils.data := [65; 66; 67; 68; 69];
                     utils.mode := utils.ModeAlphanumeric |} ])
  /\ utils.OptimalDataChunks Inputs.alnum_then_digits 4
     = Done (Ok [ {| utils.data := [65; 66; 67; 68; 69]; utils.mode := utils.ModeByte |};
                  {| utils.data := [49; 50; 51; 52; 53]; utils.mode := utils.ModeNumeric |} ]).
Proof.
  split; [vm_compute; reflexivity|].
  split; vm_compute; reflexivity.
Qed.

(** ** Penalty rule 1 *)

(** C4, at a failing input: a 5x5 matrix of dark modules, each cell its own
    allocation.  The rule asks 3 for each of the 5 rows and 5 columns;
    [lostPointLevel1] compares the cells' addresses, finds no two adjacent
    cells equal and returns 0.  Only where equal colours share one
    allocation does it count the runs. *)
Theorem rule1_compares_addresses :
  rule1_penalty (all_dark 5) = 30
  /\ utils.lostPointLevel1 (alloc_rows 0 (all_dark 5)) 5 = Done 0
  /\ utils.lostPointLevel1 (shared_rows (all_dark 5)) 5 = Done 30.
Proof.
  split; [vm_compute; reflexivity|].
  split; vm_compute; reflexivity.
Qed.

(** ** Data mapping *)

(** C8, at a failing input: the version 1, level Q symbol of
    ["HELLO WORLD"] with mask 3.  The build completes, and the 21x21
    matrix has eight [nil] cells: rows 9 to 12 of columns 0 and 3, the
    columns the zig-zag of [MapData] never visits. *)
Theorem MapData_leaves_nil_cells :
  exists w,
    qr.Make true (symbol 1 constants.ERROR_CORRECT_Q 3
                    [ {| utils.data := Inputs.hello_world;
                         utils.mode := utils.ModeAlphanumeric |} ])
    = qr.Return None w
    /\ qr.modulesCount (qr.self w) = 21
    /\ len (qr.modules (qr.self w)) = 21
    /\ nil_cells (qr.modules (qr.self w))
       = [(9, 0); (9, 3); (10, 0); (10, 3); (11, 0); (11, 3); (12, 0); (12, 3)].
Proof.
  eexists. split; [vm_compute; reflexivity|].
  split; [vm_compute; reflexivity|].
  split; vm_compute; reflexivity.
Qed.

(** ** Column-major interleaving *)








(** ** Inversion of the monadic steps *)

Lemma obind_Done {A B} (m : outcome A) (k : A -> outcome B) (b : B) :
  obind m k = Done b -> exists a, m = Done a /\ k a = Done b.
Proof. destruct m as [a| |]; simpl; intros H; [exists a; auto | discriminate | discriminate]. Qed.

Lemma ebind_Ok {A B} (m : outcome (fallible A)) (k : A -> outcome (fallible B)) (b : B) :
  ebind m k = Done (Ok b) -> exists a, m = Done (Ok a) /\ k a = Done (Ok b).
Proof.
  unfold ebind. intros H. apply obind_Done in H as ([a | e] & Hm & Hk).
  - exists a. auto.
  - discriminate.
Qed.

Lemma index_Done {A} (s : list A) (i : Z) (x : A) :
  index s i = Done x -> 0 <= i < len s /\ s !! Z.to_nat i = Some x.
Proof.
  unfold index, len. destruct (i <? 0) eqn:E1; [discriminate|].
  destruct (Z.of_nat (length s) <=? i) eqn:E2; [discriminate|]. simpl.
  destruct (s !! Z.to_nat i) eqn:E; [|discriminate].
  intros [= <-]. split; [lia | reflexivity].
Qed.

Lemma store_Done {A} (s s' : list A) (i : Z) (x : A) :
  store s i x = Done s' -> 0 <= i < len s /\ s' = <[Z.to_nat i := x]> s.
Proof.
  unfold store, len. destruct (i <? 0) eqn:E1; [discriminate|].
  destruct (Z.of_nat (length s) <=? i) eqn:E2; [discriminate|]. simpl.
  intros [= <-]. split; [lia | reflexivity].
Qed.

Lemma make_ints_Done (n : Z) (l : list Z) :
  make_ints n = Done l -> 0 <= n /\ l = replicate (Z.to_nat n) 0.
Proof.
  unfold make_ints. destruct (n <? 0) eqn:E; [discriminate|].
  intros [= <-]. split; [lia | reflexivity].
Qed.

Ltac invert_step H :=
  first
    [ let a := fresh "x" in let H1 := fresh H in
      apply ebind_Ok in H as (a & H1 & H)
    | let a := fresh "x" in let H1 := fresh H in
      apply obind_Done in H as (a & H1 & H) ].

(** ** Loops, when they return *)

Lemma for_loop_returns {St} (I : Z -> St -> Prop) (body : Z -> St -> outcome St) (n : nat) :
  forall i s s',
    I i s ->
    (forall j t t', i <= j < i + Z.of_nat n -> I j t -> body j t = Done t' -> I (j + 1) t') ->
    for_loop n i body s = Done s' -> I (i + Z.of_nat n) s'.
Proof.
  induction n as [|n IH]; intros i s s' Hs Hbody Hrun; simpl for_loop in Hrun.
  - injection Hrun as <-. replace (i + Z.of_nat 0) with i by lia. exact Hs.
  - apply obind_Done in Hrun as (t & Ht & Hrun).
    replace (i + Z.of_nat (S n)) with (i + 1 + Z.of_nat n) by lia.
    apply (IH (i + 1) t s'); [| |exact Hrun].
    + apply (Hbody i s t); [lia | exact Hs | exact Ht].
    + intros j u u' Hj. apply Hbody. lia.
Qed.

Lemma for_loop_e_returns {St} (I : Z -> St -> Prop)
    (body : Z -> St -> outcome (fallible St)) (n : nat) :
  forall i s s',
    I i s ->
    (forall j t t', i <= j < i + Z.of_nat n -> I j t -> body j t = Done (Ok t') -> I (j + 1) t') ->
    for_loop_e n i body s = Done (Ok s') -> I (i + Z.of_nat n) s'.
Proof.
  induction n as [|n IH]; intros i s s' Hs Hbody Hrun; simpl for_loop_e in Hrun.
  - injection Hrun as <-. replace (i + Z.of_nat 0) with i by lia. exact Hs.
  - apply ebind_Ok in Hrun as (t & Ht & Hrun).
    replace (i + Z.of_nat (S n)) with (i + 1 + Z.of_nat n) by lia.
    apply (IH (i + 1) t s'); [| |exact Hrun].
    + apply (Hbody i s t); [lia | exact Hs | exact Ht].
    + intros j u u' Hj. apply Hbody. lia.
Qed.

Lemma for_each_e_returns {A St} (I : Z -> St -> Prop)
    (body : Z -> A -> St -> outcome (fallible St)) (xs : list A) :
  forall i s s',
    I i s ->
    (forall j x t t', i <= j -> In x xs -> I j t -> body j x t = Done (Ok t') -> I (j + 1) t') ->
    for_each_e xs i body s = Done (Ok s') -> I (i + len xs) s'.
Proof.
  induction xs as [|x xs IH]; intros i s s' Hs Hbody Hrun; simpl for_each_e in Hrun.
  - injection Hrun as <-. unfold len. simpl length.
    replace (i + Z.of_nat 0) with i by lia. exact Hs.
  - apply ebind_Ok in Hrun as (t & Ht & Hrun).
    replace (i + len (x :: xs)) with (i + 1 + len xs) by (unfold len; simpl length; lia).
    apply (IH (i + 1) t s'); [| |exact Hrun].
    + apply (Hbody i x s t); [lia | left; reflexivity | exact Hs | exact Ht].
    + intros j y u u' Hj Hy. apply Hbody; [lia | right; exact Hy].
Qed.

Lemma for_each_e_cons {A St} (body : Z -> A -> St -> outcome (fallible St))
    (x : A) (xs : list A) (i : Z) (s : St) :
  for_each_e (x :: xs) i body s
  = ebind (body i x s) (fun s' => for_each_e xs (i + 1) body s').
Proof. reflexivity. Qed.

(** ** The generator polynomial has one coefficient per EC codeword, plus one *)

Lemma EXP_TABLE_nonzero :
  forallb (fun x => negb (x =? 0)) (take 255 base.EXP_TABLE) = true.
Proof. vm_compute. reflexivity. Qed.

Lemma Gexp_nonzero (n g : Z) : base.Gexp n = Done g -> g <> 0.
Proof.
  unfold base.Gexp. intros H. apply index_Done in H as (Hr & Hl).
  assert (Hk : Z.rem n 255 < 255).
  { pose proof (Z.rem_bound_abs n 255 ltac:(lia)). lia. }
  assert (Hin : In g (take 255 base.EXP_TABLE)).
  { apply list_elem_of_In. apply list_elem_of_lookup. exists (Z.to_nat (Z.rem n 255)).
    rewrite lookup_take_lt by lia. exact Hl. }
  pose proof (proj1 (forallb_forall _ _) EXP_TABLE_nonzero g Hin) as Hg.
  apply negb_true_iff in Hg. apply Z.eqb_neq in Hg. exact Hg.
Qed.

(** What a step of [Mul] leaves alone: the length, and the leading
    coefficient once the step is not the first. *)
Lemma Mul_term_keeps (i item j otherItem : Z) (acc acc' : list Z) :
  base.Mul_term i item j otherItem acc = Done (Ok acc') ->
  length acc' = length acc /\ (1 <= i + j -> acc' !! 0%nat = acc !! 0%nat).
Proof.
  unfold base.Mul_term. intros H.
  invert_step H. invert_step H. invert_step H. invert_step H. invert_step H.
  injection H as <-.
  apply store_Done in H4 as (Hr & ->). split.
  - apply length_insert.
  - intros Hij. apply list_lookup_insert_ne. lia.
Qed.

Lemma Mul_row_keeps (i item : Z) (others : list Z) :
  forall j acc acc',
    0 <= j ->
    for_each_e others j (base.Mul_term i item) acc = Done (Ok acc') ->
    length acc' = length acc /\ (1 <= i + j -> acc' !! 0%nat = acc !! 0%nat).
Proof.
  intros j acc acc' Hj Hrun.
  apply (for_each_e_returns
           (fun k t => length t = length acc /\ (1 <= i + j -> t !! 0%nat = acc !! 0%nat))
           (base.Mul_term i item) others j acc acc'); [auto | | exact Hrun].
  intros k x t t' Hk _ (Hlen & Hhead) Hstep.
  apply Mul_term_keeps in Hstep as (Hlen' & Hhead').
  split; [congruence|]. intros Hij. rewrite Hhead' by lia. apply Hhead. exact Hij.
Qed.

Lemma Mul_rows_keep (other : list Z) (items : list Z) :
  forall i acc acc',
    1 <= i ->
    for_each_e items i (fun i item acc => for_each_e other 0 (base.Mul_term i item) acc) acc
    = Done (Ok acc') ->
    length acc' = length acc /\ acc' !! 0%nat = acc !! 0%nat.
Proof.
  intros i acc acc' Hi Hrun.
  apply (for_each_e_returns
           (fun k t => length t = length acc /\ t !! 0%nat = acc !! 0%nat)
           (fun i item acc => for_each_e other 0 (base.Mul_term i item) acc)
           items i acc acc'); [auto | | exact Hrun].
  intros k x t t' Hk _ (Hlen & Hhead) Hstep.
  apply Mul_row_keeps in Hstep as (Hlen' & Hhead'); [|lia].
  split; [congruence|]. rewrite Hhead' by lia. exact Hhead.
Qed.

Lemma Mul_leading_term (p other : list Z) (acc acc' : list Z) :
  p <> [] -> other <> [] -> acc !! 0%nat = Some 0 ->
  for_each_e p 0 (fun i item acc => for_each_e other 0 (base.Mul_term i item) acc) acc
  = Done (Ok acc') ->
  length acc' = length acc /\ exists g, g <> 0 /\ acc' !! 0%nat = Some g.
Proof.
  intros Hp Ho Hacc Hrun.
  destruct p as [|x xs]; [contradiction|]. destruct other as [|o os]; [contradiction|].
  rewrite for_each_e_cons in Hrun.
  apply ebind_Ok in Hrun as (acc1 & Hrow & Hrest).
  rewrite for_each_e_cons in Hrow.
  apply ebind_Ok in Hrow as (acc0 & Hfirst & Hrow).
  assert (H0 : length acc0 = length acc /\ exists g, g <> 0 /\ acc0 !! 0%nat = Some g).
  { unfold base.Mul_term in Hfirst.
    invert_step Hfirst. invert_step Hfirst. invert_step Hfirst.
    invert_step Hfirst. invert_step Hfirst. injection Hfirst as <-.
    apply store_Done in Hfirst4 as (Hr & ->).
    apply index_Done in Hfirst3 as (_ & Hold).
    change (Z.to_nat (0 + 0)) with 0%nat in *.
    rewrite Hacc in Hold. injection Hold as <-.
    split; [apply length_insert|].
    exists x2. split; [eapply Gexp_nonzero; eassumption|].
    rewrite list_lookup_insert_eq by (unfold len in Hr; lia).
    rewrite Z.lxor_0_l. reflexivity. }
  destruct H0 as (Hlen0 & g & Hg & Hhead0).
  apply Mul_row_keeps in Hrow as (Hlen1 & Hhead1); [|lia].
  apply Mul_rows_keep in Hrest as (Hlen2 & Hhead2); [|lia].
  split; [congruence|]. exists g. split; [exact Hg|].
  rewrite Hhead2, Hhead1 by lia. exact Hhead0.
Qed.

Lemma NewPolynomial_leading (num : list Z) (g : Z) :
  num !! 0%nat = Some g -> g <> 0 ->
  base.NewPolynomial num 0 = Done (Ok {| base.num := num |}).
Proof.
  intros Hhead Hg. destruct num as [|x rest]; [discriminate|].
  simpl in Hhead. injection Hhead as ->.
  unfold base.NewPolynomial.
  assert ((len (g :: rest) =? 0) = false) as ->
    by (apply Z.eqb_neq; unfold len; simpl length; lia).
  unfold base.range_offset. destruct (g =? 0) eqn:E; [lia|]. cbn [negb].
  unfold make_ints. simpl. unfold slice.
  replace (Z.to_nat (len (g :: rest) - 0)) with (length (g :: rest)) by (unfold len; lia).
  simpl drop. rewrite firstn_all, app_nil_r. reflexivity.
Qed.

Lemma Mul_length (p other q : base.Polynomial) :
  base.num p <> [] -> base.num other <> [] ->
  base.Mul p other = Done (Ok q) ->
  base.Poly_Len q = base.Poly_Len p + base.Poly_Len other - 1.
Proof.
  intros Hp Ho H. unfold base.Mul in H.
  apply obind_Done in H as (zeros & Hz & H).
  apply ebind_Ok in H as (num & Hloop & Hnew).
  apply make_ints_Done in Hz as (Hn & ->).
  assert (Hpos : 1 <= base.Poly_Len p /\ 1 <= base.Poly_Len other).
  { unfold base.Poly_Len, len. destruct (base.num p), (base.num other);
      try contradiction; simpl length; lia. }
  apply Mul_leading_term in Hloop as (Hlen & g & Hg & Hhead); try assumption.
  - rewrite (NewPolynomial_leading num g Hhead Hg) in Hnew. injection Hnew as <-.
    unfold base.Poly_Len, len in *. simpl. rewrite Hlen, length_replicate. lia.
  - apply lookup_replicate_2. lia.
Qed.

Lemma Mul_nonempty (p other q : base.Polynomial) :
  base.num p <> [] -> base.num other <> [] ->
  base.Mul p other = Done (Ok q) -> base.num q <> [].
Proof.
  intros Hp Ho H. pose proof (Mul_length p other q Hp Ho H) as Hlen.
  unfold base.Poly_Len, len in Hlen.
  destruct (base.num p), (base.num other); try contradiction.
  destruct (base.num q); [simpl length in Hlen; lia | discriminate].
Qed.

Lemma rs_generator_length (ecCount : Z) (rsPoly : base.Polynomial) :
  0 <= ecCount ->
  utils.rs_generator ecCount = Done (Ok rsPoly) ->
  base.Poly_Len rsPoly = ecCount + 1.
Proof.
  intros Hec H. unfold utils.rs_generator in H.
  apply ebind_Ok in H as (p0 & Hp0 & Hloop).
  assert (p0 = {| base.num := [1] |}) as -> by (vm_compute in Hp0; congruence).
  assert (Hinv : (fun i p => base.Poly_Len p = i + 1 /\ base.num p <> [])
                   (0 + Z.of_nat (Z.to_nat ecCount)) rsPoly).
  { refine (for_loop_e_returns
              (fun i p => base.Poly_Len p = i + 1 /\ base.num p <> [])
              _ _ 0 _ rsPoly _ _ Hloop).
    - split; [reflexivity | discriminate].
    - intros j t t' Hj (Hlen & Hne) Hstep.
      apply obind_Done in Hstep as (g & Hg & Hstep).
      apply ebind_Ok in Hstep as (child & Hchild & Hmul).
      assert (child = {| base.num := [1; g] |}) as ->.
      { rewrite (NewPolynomial_leading [1; g] 1) in Hchild by (reflexivity || lia).
        congruence. }
      assert (Hc : base.num {| base.num := [1; g] |} <> []) by discriminate.
      split.
      + rewrite (Mul_length _ _ _ Hne Hc Hmul). rewrite Hlen.
        unfold base.Poly_Len, len. simpl. lia.
      + exact (Mul_nonempty _ _ _ Hne Hc Hmul). }
  cbv beta in Hinv. rewrite Z2Nat.id in Hinv by lia. destruct Hinv as [Hinv _]. lia.
Qed.

(** ** The codewords of one block *)

Lemma block_data_length (buffer : utils.BitBuffer) (offset dcCount : Z) (dc : list Z) :
  utils.block_data buffer offset dcCount = Done dc -> len dc = dcCount.
Proof.
  unfold utils.block_data. intros H.
  apply obind_Done in H as (dc0 & Hdc0 & H).
  apply make_ints_Done in Hdc0 as (Hn & ->).
  unfold for_range in H.
  assert (Hinv : (fun (_ : Z) t => length t = length (replicate (Z.to_nat dcCount) 0))
                   (0 + Z.of_nat (Z.to_nat (len (replicate (Z.to_nat dcCount) 0) - 0))) dc).
  { refine (for_loop_returns
              (fun (_ : Z) t => length t = length (replicate (Z.to_nat dcCount) 0))
              _ _ 0 _ dc _ _ H); [reflexivity|].
    intros j t t' _ Ht Hstep.
    apply obind_Done in Hstep as (w & _ & Hstep).
    apply store_Done in Hstep as (_ & ->). rewrite length_insert. exact Ht. }
  cbv beta in Hinv. unfold len. rewrite Hinv, length_replicate. lia.
Qed.

Lemma block_ec_length (dc : list Z) (ecCount : Z) (ec : list Z) :
  0 <= ecCount ->
  utils.block_ec dc ecCount = Done (Ok ec) -> len ec = ecCount.
Proof.
  intros Hec H. unfold utils.block_ec in H.
  apply ebind_Ok in H as (rsPoly & Hgen & H).
  apply ebind_Ok in H as (rawPoly & _ & H).
  apply ebind_Ok in H as (modPoly & _ & H).
  apply obind_Done in H as (ec0 & Hec0 & H).
  apply obind_Done in H as (ec1 & Hfill & H).
  injection H as <-.
  rewrite (rs_generator_length ecCount rsPoly Hec Hgen) in Hec0.
  apply make_ints_Done in Hec0 as (Hn & ->).
  unfold for_range in Hfill.
  assert (Hinv : (fun (_ : Z) t => length t = length (replicate (Z.to_nat (ecCount + 1 - 1)) 0))
                   (0 + Z.of_nat (Z.to_nat (len (replicate (Z.to_nat (ecCount + 1 - 1)) 0) - 0)))
                   ec1).
  { refine (for_loop_returns
              (fun (_ : Z) t => length t = length (replicate (Z.to_nat (ecCount + 1 - 1)) 0))
              _ _ 0 _ ec1 _ _ Hfill); [reflexivity|].
    intros j t t' _ Ht Hstep.
    destruct (j + (base.Poly_Len modPoly - len (replicate (Z.to_nat (ecCount + 1 - 1)) 0)) >=? 0).
    - apply obind_Done in Hstep as (v & _ & Hstep).
      apply store_Done in Hstep as (_ & ->). rewrite length_insert. exact Ht.
    - apply store_Done in Hstep as (_ & ->). rewrite length_insert. exact Ht. }
  cbv beta in Hinv. unfold len. rewrite Hinv, length_replicate. lia.
Qed.

(** ** The loop over the blocks *)

Lemma CreateBytes_block_step (buffer : utils.BitBuffer) (r : Z) (b : base.RSBlock)
    (st st' : utils.blocks_state) :
  0 <= base.DataCount b <= base.TotalCount b ->
  utils.CreateBytes_block buffer r b st = Done (Ok st') ->
  exists dc ec,
    utils.block_data buffer (utils.offset st) (base.DataCount b) = Done dc
    /\ utils.block_ec dc (base.TotalCount b - base.DataCount b) = Done (Ok ec)
    /\ len dc = base.DataCount b
    /\ len ec = base.TotalCount b - base.DataCount b
    /\ 0 <= r < len (utils.dcdata st) /\ r < len (utils.ecdata st)
    /\ utils.dcdata st' = <[Z.to_nat r := dc]> (utils.dcdata st)
    /\ utils.ecdata st' = <[Z.to_nat r := ec]> (utils.ecdata st)
    /\ utils.offset st' = utils.offset st + base.DataCount b
    /\ utils.maxDcCount st' = Z.max (utils.maxDcCount st) (base.DataCount b)
    /\ utils.maxEcCount st' = Z.max (utils.maxEcCount st) (base.TotalCount b - base.DataCount b).
Proof.
  intros Hb H. unfold utils.CreateBytes_block in H.
  apply obind_Done in H as (dc & Hdc & H).
  apply obind_Done in H as (dcdata' & Hsd & H).
  apply ebind_Ok in H as (ec & Hec & H).
  apply obind_Done in H as (ecdata' & Hse & H).
  injection H as <-. simpl.
  apply store_Done in Hsd as (Hr1 & ->). apply store_Done in Hse as (Hr2 & ->).
  exists dc, ec.
  split; [exact Hdc|]. split; [exact Hec|].
  split; [apply (block_data_length _ _ _ _ Hdc)|].
  split; [eapply block_ec_length; [|exact Hec]; lia|].
  split; [exact Hr1|]. split; [lia|].
  split; [reflexivity|]. split; [reflexivity|]. split; [reflexivity|].
  split.
  - destruct (utils.maxDcCount st <? base.DataCount b) eqn:E; lia.
  - destruct (utils.maxEcCount st <? base.TotalCount b - base.DataCount b) eqn:E; lia.
Qed.

Lemma blocks_loop_returns (buffer : utils.BitBuffer) (blocks : list base.RSBlock) :
  forall (r : nat) (st st' : utils.blocks_state),
    (forall b, In b blocks -> 0 <= base.DataCount b <= base.TotalCount b) ->
    for_each_e blocks (Z.of_nat r) (utils.CreateBytes_block buffer) st = Done (Ok st') ->
    length (utils.dcdata st') = length (utils.dcdata st)
    /\ length (utils.ecdata st') = length (utils.ecdata st)
    /\ (forall k, (k < r)%nat ->
                  utils.dcdata st' !! k = utils.dcdata st !! k
                  /\ utils.ecdata st' !! k = utils.ecdata st !! k)
    /\ (forall j b, blocks !! j = Some b ->
          exists dc ec,
            utils.dcdata st' !! (r + j)%nat = Some dc
            /\ utils.ecdata st' !! (r + j)%nat = Some ec
            /\ block_codewords buffer
                 (fold_left (fun t b => t + base.DataCount b) (take j blocks) (utils.offset st))
                 b dc ec)
    /\ utils.maxDcCount st <= utils.maxDcCount st'
    /\ utils.maxEcCount st <= utils.maxEcCount st'
    /\ (forall b, In b blocks ->
          base.DataCount b <= utils.maxDcCount st'
          /\ base.TotalCount b - base.DataCount b <= utils.maxEcCount st').
Proof.
  induction blocks as [|b bs IH]; intros r st st' Hblocks Hrun.
  - simpl in Hrun. injection Hrun as <-.
    repeat split; try reflexivity; try lia.
    + intros j b Hj. discriminate.
    + contradiction.
    + contradiction.
  - rewrite for_each_e_cons in Hrun.
    apply ebind_Ok in Hrun as (st1 & Hstep & Hrest).
    apply CreateBytes_block_step in Hstep
      as (dc & ec & Hdc & Hec & Hldc & Hlec & Hr1 & Hr2 & Hd1 & He1 & Ho1 & Hm1 & Hn1);
      [|apply Hblocks; left; reflexivity].
    replace (Z.of_nat r + 1) with (Z.of_nat (S r)) in Hrest by lia.
    apply IH in Hrest as (Hl1 & Hl2 & Hkeep & Hnew & Hmd & Hme & Hmax);
      [|intros b' Hb'; apply Hblocks; right; exact Hb'].
    rewrite Nat2Z.id in Hd1, He1.
    assert (Hrd : (r < length (utils.dcdata st))%nat) by (unfold len in Hr1; lia).
    assert (Hre : (r < length (utils.ecdata st))%nat) by (unfold len in Hr2; lia).
    split; [rewrite Hl1, Hd1; apply length_insert|].
    split; [rewrite Hl2, He1; apply length_insert|].
    split.
    { intros k Hk. destruct (Hkeep k ltac:(lia)) as [H1 H2].
      rewrite H1, H2, Hd1, He1.
      rewrite !list_lookup_insert_ne by lia. split; reflexivity. }
    split.
    { intros j b' Hj. destruct j as [|j].
      - simpl in Hj. injection Hj as <-.
        exists dc, ec. destruct (Hkeep r ltac:(lia)) as [H1 H2].
        rewrite Nat.add_0_r, H1, H2, Hd1, He1.
        rewrite !list_lookup_insert_eq by assumption.
        split; [reflexivity|]. split; [reflexivity|].
        simpl. unfold block_codewords. auto.
      - simpl in Hj. destruct (Hnew j b' Hj) as (dc' & ec' & H1 & H2 & H3).
        exists dc', ec'.
        replace (r + S j)%nat with (S r + j)%nat by lia.
        split; [exact H1|]. split; [exact H2|].
        simpl. rewrite <- Ho1. exact H3. }
    split; [lia|]. split; [lia|].
    intros b' [<- | Hb']; [lia | apply Hmax; exact Hb'].
Qed.

(** ** The interleaving loops *)











(** ** Sums over the blocks *)

Lemma fold_left_sum {A} (f : A -> Z) (l : list A) (a : Z) :
  fold_left (fun t b => t + f b) l a = a + fold_right (fun b t => f b + t) 0 l.
Proof.
  revert a. induction l as [|x l IH]; intros a; simpl; [lia|]. rewrite IH. lia.
Qed.

Lemma sum_by_lookup (f : base.RSBlock -> Z) (blocks : list base.RSBlock) :
  forall cols : list (list Z),
    length cols = length blocks ->
    (forall j b, blocks !! j = Some b -> exists col, cols !! j = Some col /\ len col = f b) ->
    fold_right (fun col t => len col + t) 0 cols = fold_right (fun b t => f b + t) 0 blocks.
Proof.
  induction blocks as [|b blocks IH]; intros cols Hlen Hcols.
  - destruct cols; [reflexivity | discriminate].
  - destruct cols as [|col cols]; [discriminate|]. simpl.
    destruct (Hcols 0%nat b eq_refl) as (c & Hc & Hlc). simpl in Hc. injection Hc as <-.
    rewrite Hlc. f_equal. apply IH.
    + simpl in Hlen. lia.
    + intros j b' Hj. apply (Hcols (S j) b'). exact Hj.
Qed.

(** ** [CreateBytes] *)





(** ** [CreateBytes] always ends *)

Lemma halts_obind {A B} (m : outcome A) (k : A -> outcome B) :
  halts m -> (forall a, m = Done a -> halts (k a)) -> halts (obind m k).
Proof. destruct m as [a| |]; simpl; intros Hm Hk; [apply Hk; reflexivity | exact I | exact Hm]. Qed.

Lemma halts_ebind {A B} (m : outcome (fallible A)) (k : A -> outcome (fallible B)) :
  halts m -> (forall a, m = Done (Ok a) -> halts (k a)) -> halts (ebind m k).
Proof.
  intros Hm Hk. unfold ebind. apply halts_obind; [exact Hm|].
  intros [a | e] Hr; [apply Hk; exact Hr | exact I].
Qed.

Lemma halts_index {A} (s : list A) (i : Z) : halts (index s i).
Proof.
  unfold index. destruct (_ || _); [exact I|]. destruct (s !! Z.to_nat i); exact I.
Qed.

Lemma halts_store {A} (s : list A) (i : Z) (x : A) : halts (store s i x).
Proof. unfold store. destruct (_ || _); exact I. Qed.

Lemma halts_make_ints (n : Z) : halts (make_ints n).
Proof. unfold make_ints. destruct (n <? 0); exact I. Qed.

Lemma halts_for_loop {St} (body : Z -> St -> outcome St) (n : nat) :
  (forall j s, halts (body j s)) -> forall i s, halts (for_loop n i body s).
Proof.
  intros Hbody. induction n as [|n IH]; intros i s; simpl; [exact I|].
  apply halts_obind; [apply Hbody | intros t _; apply IH].
Qed.

Lemma halts_for_loop_e {St} (body : Z -> St -> outcome (fallible St)) (n : nat) :
  (forall j s, halts (body j s)) -> forall i s, halts (for_loop_e n i body s).
Proof.
  intros Hbody. induction n as [|n IH]; intros i s; simpl; [exact I|].
  apply halts_ebind; [apply Hbody | intros t _; apply IH].
Qed.

Lemma halts_for_each_e {A St} (body : Z -> A -> St -> outcome (fallible St)) (xs : list A) :
  (forall j x s, halts (body j x s)) -> forall i s, halts (for_each_e xs i body s).
Proof.
  intros Hbody. induction xs as [|x xs IH]; intros i s; simpl; [exact I|].
  apply halts_ebind; [apply Hbody | intros t _; apply IH].
Qed.

Lemma halts_glog (n : Z) : halts (base.glog n).
Proof.
  unfold base.glog. destruct (n <? 1); [exact I|].
  apply halts_obind; [apply halts_index | intros; exact I].
Qed.

Lemma halts_Gexp (n : Z) : halts (base.Gexp n).
Proof. apply halts_index. Qed.

Lemma halts_NewPolynomial (num : list Z) (shift : Z) : halts (base.NewPolynomial num shift).
Proof.
  unfold base.NewPolynomial. destruct (len num =? 0); [exact I|].
  apply halts_obind; [apply halts_make_ints | intros; exact I].
Qed.

Lemma halts_Mul_term (i item j otherItem : Z) (acc : list Z) :
  halts (base.Mul_term i item j otherItem acc).
Proof.
  unfold base.Mul_term.
  apply halts_ebind; [apply halts_glog|]. intros g1 _.
  apply halts_ebind; [apply halts_glog|]. intros g2 _.
  apply halts_obind; [apply halts_Gexp|]. intros g _.
  apply halts_obind; [apply halts_index|]. intros old _.
  apply halts_obind; [apply halts_store|]. intros acc' _. exact I.
Qed.

Lemma halts_Mul (p other : base.Polynomial) : halts (base.Mul p other).
Proof.
  unfold base.Mul.
  apply halts_obind; [apply halts_make_ints|]. intros zeros _.
  apply halts_ebind; [|intros num _; apply halts_NewPolynomial].
  apply halts_for_each_e. intros i item acc.
  apply halts_for_each_e. intros j otherItem acc'. apply halts_Mul_term.
Qed.

Lemma halts_rs_generator (ecCount : Z) : halts (utils.rs_generator ecCount).
Proof.
  unfold utils.rs_generator.
  apply halts_ebind; [apply halts_NewPolynomial|]. intros p0 _.
  apply halts_for_loop_e. intros i p.
  apply halts_obind; [apply halts_Gexp|]. intros g _.
  apply halts_ebind; [apply halts_NewPolynomial|]. intros child _. apply halts_Mul.
Qed.

(** [Gexp] undoes [glog]. *)
Lemma Gexp_glog_checked :
  forallb (fun n => match base.glog n with
                    | Done (Ok g) => match base.Gexp g with
                                     | Done m => m =? n
                                     | _ => false
                                     end
                    | _ => false
                    end) (seqZ 1 255) = true.
Proof. vm_compute. reflexivity. Qed.

Lemma Gexp_glog (n g : Z) : base.glog n = Done (Ok g) -> base.Gexp g = Done n.
Proof.
  intros Hg.
  assert (Hin : In n (seqZ 1 255)).
  { unfold base.glog in Hg. destruct (n <? 1) eqn:E; [discriminate|].
    apply obind_Done in Hg as (v & Hv & _). apply index_Done in Hv as (Hr & _).
    assert (len base.LOG_TABLE = 256) by reflexivity.
    apply list_elem_of_In. apply elem_of_seqZ. lia. }
  pose proof (proj1 (forallb_forall _ _) Gexp_glog_checked n Hin) as Hc.
  cbv beta in Hc. rewrite Hg in Hc.
  destruct (base.Gexp g) as [m| |]; try discriminate.
  apply Z.eqb_eq in Hc. congruence.
Qed.

Lemma strip_zeros_length (num : list Z) :
  (length (base.strip_zeros num) <= length num)%nat.
Proof.
  induction num as [|x rest IH]; simpl; [lia|]. destruct (x =? 0); simpl; lia.
Qed.

Lemma NewPolynomial_length (num : list Z) (q : base.Polynomial) :
  base.NewPolynomial num 0 = Done (Ok q) -> (length (base.num q) <= length num)%nat.
Proof.
  unfold base.NewPolynomial. destruct (len num =? 0); [discriminate|].
  unfold make_ints. simpl. intros [= <-]. simpl.
  unfold slice. rewrite length_app, length_take, length_drop. simpl. lia.
Qed.

(** One round of [Mod] cancels the leading coefficient. *)
Lemma Mod_round_cancels (p other : base.Polynomial) (p0 o0 gp go : Z) (num : list Z) :
  base.Poly_Get p 0 = Done p0 -> base.glog p0 = Done (Ok gp) ->
  base.Poly_Get other 0 = Done o0 -> base.glog o0 = Done (Ok go) ->
  for_loop_e (length (base.num other)) 0
    (fun i acc =>
       do oi <- base.Poly_Get other i;
       try glogOtherItem <- base.glog oi;
       do g <- base.Gexp (glogOtherItem + (gp - go));
       do old <- index acc i;
       do acc <- store acc i (Z.lxor old g);
       Done (Ok acc)) (base.num p) = Done (Ok num) ->
  length num = length (base.num p) /\ num !! 0%nat = Some 0.
Proof.
  intros Hp0 Hgp Ho0 Hgo Hloop.
  apply index_Done in Hp0 as (_ & Hp0). apply index_Done in Ho0 as (Hro & Ho0).
  simpl in Hp0, Ho0.
  assert (Hinv : (fun i acc => length acc = length (base.num p)
                               /\ (i = 0 -> acc = base.num p)
                               /\ (1 <= i -> acc !! 0%nat = Some 0))
                   (0 + Z.of_nat (length (base.num other))) num).
  { refine (for_loop_e_returns
              (fun i acc => length acc = length (base.num p)
                            /\ (i = 0 -> acc = base.num p)
                            /\ (1 <= i -> acc !! 0%nat = Some 0))
              _ _ 0 _ num _ _ Hloop).
    - split; [reflexivity|]. split; [reflexivity | lia].
    - intros j t t' Hj (Hlen & Hfirst & Hzero) Hstep.
      apply obind_Done in Hstep as (oi & Hoi & Hstep).
      apply ebind_Ok in Hstep as (gi & Hgi & Hstep).
      apply obind_Done in Hstep as (g & Hg & Hstep).
      apply obind_Done in Hstep as (old & Hold & Hstep).
      apply obind_Done in Hstep as (acc & Hst & Hstep).
      injection Hstep as <-.
      apply store_Done in Hst as (Hr & ->).
      split; [rewrite length_insert; exact Hlen|]. split; [lia|]. intros _.
      destruct (Z.eq_dec j 0) as [-> | Hne].
      + specialize (Hfirst eq_refl). subst t.
        apply index_Done in Hoi as (_ & Hoi). simpl in Hoi.
        unfold base.Poly_Get in *. rewrite Ho0 in Hoi. injection Hoi as <-.
        rewrite Hgo in Hgi. injection Hgi as <-.
        replace (go + (gp - go)) with gp in Hg by lia.
        rewrite (Gexp_glog p0 gp Hgp) in Hg. injection Hg as <-.
        apply index_Done in Hold as (_ & Hold). simpl in Hold.
        rewrite Hp0 in Hold. injection Hold as <-.
        simpl Z.to_nat. rewrite list_lookup_insert_eq by (unfold len in Hr; lia).
        rewrite Z.lxor_nilpotent. reflexivity.
      + rewrite list_lookup_insert_ne by lia. apply Hzero. lia. }
  cbv beta in Hinv. destruct Hinv as (Hlen & _ & Hzero). split; [exact Hlen|].
  apply Hzero. unfold len in Hro. lia.
Qed.

Lemma strip_zeros_leading (num : list Z) :
  num !! 0%nat = Some 0 -> (length (base.strip_zeros num) < length num)%nat.
Proof.
  destruct num as [|x rest]; [discriminate|]. simpl. intros [= ->]. simpl.
  pose proof (strip_zeros_length rest). lia.
Qed.

Lemma halts_Mod_loop (other : base.Polynomial) (fuel : nat) :
  forall p, (length (base.num p) < fuel)%nat -> halts (base.Mod_loop fuel p other).
Proof.
  induction fuel as [|fuel IH]; intros p Hfuel; [lia|].
  cbn [base.Mod_loop].
  destruct (base.Poly_Len p >=? base.Poly_Len other); [|exact I].
  destruct (base.Poly_Len p - base.Poly_Len other <? 0); [exact I|].
  apply halts_obind; [apply halts_index|]. intros p0 Hp0.
  apply halts_ebind; [apply halts_glog|]. intros gp Hgp.
  apply halts_obind; [apply halts_index|]. intros o0 Ho0.
  apply halts_ebind; [apply halts_glog|]. intros go Hgo.
  apply halts_ebind.
  { apply halts_for_loop_e. intros j acc.
    apply halts_obind; [apply halts_index|]. intros oi _.
    apply halts_ebind; [apply halts_glog|]. intros gi _.
    apply halts_obind; [apply halts_Gexp|]. intros g _.
    apply halts_obind; [apply halts_index|]. intros old _.
    apply halts_obind; [apply halts_store|]. intros acc' _. exact I. }
  intros num Hloop.
  apply halts_ebind; [apply halts_NewPolynomial|]. intros q Hq.
  apply IH.
  destruct (Mod_round_cancels p other p0 o0 gp go num Hp0 Hgp Ho0 Hgo Hloop) as (Hlen & Hzero).
  pose proof (strip_zeros_leading num Hzero).
  pose proof (NewPolynomial_length _ _ Hq). lia.
Qed.

Lemma halts_Mod (p other : base.Polynomial) : halts (base.Mod p other).
Proof. unfold base.Mod. apply halts_Mod_loop. lia. Qed.

Lemma halts_block_ec (dc : list Z) (ecCount : Z) : halts (utils.block_ec dc ecCount).
Proof.
  unfold utils.block_ec.
  apply halts_ebind; [apply halts_rs_generator|]. intros rsPoly _.
  apply halts_ebind; [apply halts_NewPolynomial|]. intros rawPoly _.
  apply halts_ebind; [apply halts_Mod|]. intros modPoly _.
  apply halts_obind; [apply halts_make_ints|]. intros ec0 _.
  apply halts_obind; [|intros; exact I].
  apply halts_for_loop. intros j ec.
  destruct (_ >=? 0); [|apply halts_store].
  apply halts_obind; [apply halts_index | intros; apply halts_store].
Qed.

Lemma halts_block_data (buffer : utils.BitBuffer) (offset dcCount : Z) :
  halts (utils.block_data buffer offset dcCount).
Proof.
  unfold utils.block_data.
  apply halts_obind; [apply halts_make_ints|]. intros dc0 _.
  apply halts_for_loop. intros j dc.
  apply halts_obind; [apply halts_index | intros; apply halts_store].
Qed.

Lemma halts_interleave_into (max blocks : Z) (cols : list (list Z)) (st : list Z * Z) :
  halts (utils.interleave_into max blocks cols st).
Proof.
  unfold utils.interleave_into. apply halts_for_loop. intros i st1.
  apply halts_for_loop. intros r [data idx].
  apply halts_obind; [apply halts_index|]. intros col _.
  destruct (i <? len col); [|exact I].
  apply halts_obind; [apply halts_index|]. intros v _.
  apply halts_obind; [apply halts_store | intros; exact I].
Qed.

(** Whatever the buffer and the blocks, [CreateBytes] ends: with a stream,
    with [nil], or in a panic of the run-time (an index out of range). *)
Lemma CreateBytes_halts (buffer : utils.BitBuffer) (rsBlocks : list base.RSBlock) :
  halts (utils.CreateBytes buffer rsBlocks).
Proof.
  unfold utils.CreateBytes.
  apply halts_obind.
  { apply halts_for_each_e. intros r b st. unfold utils.CreateBytes_block.
    apply halts_obind; [apply halts_block_data|]. intros dc _.
    apply halts_obind; [apply halts_store|]. intros dcdata' _.
    apply halts_ebind; [apply halts_block_ec|]. intros ec _.
    apply halts_obind; [apply halts_store | intros; exact I]. }
  intros [st | e] _; [|exact I].
  apply halts_obind; [apply halts_make_ints|]. intros data0 _.
  apply halts_obind; [apply halts_interleave_into|]. intros [data1 idx1] _.
  apply halts_obind; [apply halts_interleave_into|]. intros [data2 idx2] _. exact I.
Qed.

(** ** What the methods of a symbol leave alone *)

Section Keeps.
Variable R : qr.world -> qr.world -> Prop.
Hypothesis R_refl : forall w, R w w.
Hypothesis R_trans : forall w1 w2 w3, R w1 w2 -> R w2 w3 -> R w1 w3.

Lemma keeps_ret {A} (a : A) : keeps R (qr.ret a).
Proof. intros w. apply R_refl. Qed.

Lemma keeps_panic {A} (p : go_panic) : keeps R (@qr.panic A p).
Proof. intros w. apply R_refl. Qed.

Lemma keeps_starved {A} : keeps R (fun _ => @qr.Starved A).
Proof. intros w. exact I. Qed.

Lemma keeps_lift {A} (o : outcome A) : keeps R (qr.lift o).
Proof. intros w. unfold qr.lift. destruct o; try apply R_refl. exact I. Qed.

Lemma keeps_this : keeps R qr.this.
Proof. intros w. apply R_refl. Qed.

Lemma keeps_bind {A B} (m : qr.M A) (k : A -> qr.M B) :
  keeps R m -> (forall a, keeps R (k a)) -> keeps R (qr.sbind m k).
Proof.
  intros Hm Hk w. unfold qr.sbind. specialize (Hm w).
  destruct (m w) as [a w1 | p w1 |]; [|exact Hm|exact I].
  specialize (Hk a w1). destruct (k a w1) as [b w2 | p w2 |]; [| |exact I].
  - eapply R_trans; eassumption.
  - eapply R_trans; eassumption.
Qed.

Lemma keeps_forM (body : Z -> qr.M unit) (n : nat) :
  (forall i, keeps R (body i)) -> forall i, keeps R (qr.forM n i body).
Proof.
  intros Hbody. induction n as [|n IH]; intros i; simpl.
  - apply keeps_ret.
  - apply keeps_bind; [apply Hbody | intros _; apply IH].
Qed.

Lemma keeps_for_rangeM (lo hi : Z) (body : Z -> qr.M unit) :
  (forall i, keeps R (body i)) -> keeps R (qr.for_rangeM lo hi body).
Proof. intros Hbody. unfold qr.for_rangeM. apply keeps_forM. exact Hbody. Qed.

Lemma keeps_for_eachM {A} (xs : list A) (body : A -> qr.M unit) :
  (forall x, keeps R (body x)) -> keeps R (qr.for_eachM xs body).
Proof.
  intros Hbody. induction xs as [|x xs IH]; simpl.
  - apply keeps_ret.
  - apply keeps_bind; [apply Hbody | intros _; exact IH].
Qed.

Lemma keeps_Version_with (bf : Z -> qr.M Z) :
  (forall v, keeps R (bf v)) -> keeps R (qr.Version_with bf).
Proof.
  intros Hbf. unfold qr.Version_with.
  apply keeps_bind; [apply keeps_this|]. intros q.
  apply keeps_bind.
  - destruct (qr.version q =? 0); [|apply keeps_ret].
    apply keeps_bind; [apply Hbf | intros _; apply keeps_ret].
  - intros _. apply keeps_bind; [apply keeps_this | intros q'; apply keeps_ret].
Qed.

Lemma keeps_BestFit_fuel (fuel : nat) : forall start, keeps R (qr.BestFit_fuel fuel start).
Proof.
  induction fuel as [|fuel IH]; intros start; simpl.
  - apply keeps_starved.
  - unfold qr.BestFit_body.
    destruct (negb (utils.CheckVersion start)); [apply keeps_panic|].
    apply keeps_bind; [apply keeps_this|]. intros q.
    apply keeps_bind; [apply keeps_lift|]. intros b.
    apply keeps_bind; [apply keeps_Version_with, IH|]. intros v.
    destruct (v =? 41); [apply keeps_panic|].
    apply keeps_bind; [apply keeps_Version_with, IH|]. intros v'.
    apply keeps_bind.
    + destruct (negb _); [|apply keeps_ret].
      apply keeps_bind; [apply keeps_Version_with, IH|]. intros v''.
      apply keeps_bind; [apply IH | intros _; apply keeps_ret].
    + intros _. apply keeps_Version_with, IH.
Qed.

Lemma keeps_BestFit (start : Z) : keeps R (qr.BestFit start).
Proof. apply keeps_BestFit_fuel. Qed.

Lemma keeps_Version : keeps R qr.Version.
Proof. apply keeps_Version_with. intros v. apply keeps_BestFit. Qed.

Lemma keeps_module_at (row col : Z) : keeps R (qr.module_at row col).
Proof.
  unfold qr.module_at. apply keeps_bind; [apply keeps_this|]. intros q. apply keeps_lift.
Qed.

Lemma keeps_isOutOfBounds (i : Z) : keeps R (qr.isOutOfBounds i).
Proof.
  unfold qr.isOutOfBounds. apply keeps_bind; [apply keeps_this|]. intros q. apply keeps_ret.
Qed.

(** The steps that do change the world. *)
Hypothesis R_update_modules : forall m, keeps R (qr.update (qr.set_modules m)).
Hypothesis R_update_modulesCount : forall n, keeps R (qr.update (qr.set_modulesCount n)).
Hypothesis R_update_dataCache : forall c, keeps R (qr.update (qr.set_dataCache c)).
Hypothesis R_new_bool : forall v, keeps R (qr.new_bool v).
Hypothesis R_set_cache : forall v m, keeps R (qr.set_cache v m).

Lemma keeps_set_module (row col : Z) (v : bool) : keeps R (qr.set_module row col v).
Proof.
  unfold qr.set_module.
  apply keeps_bind; [apply R_new_bool|]. intros p.
  apply keeps_bind; [apply keeps_this|]. intros q.
  apply keeps_bind; [apply keeps_lift|]. intros m. apply R_update_modules.
Qed.

Lemma keeps_setModuleValue (row col r c : Z) : keeps R (qr.setModuleValue row col r c).
Proof. unfold qr.setModuleValue. destruct (_ || _); apply keeps_set_module. Qed.

Lemma keeps_SetupPositionProbePattern (row col : Z) :
  keeps R (qr.SetupPositionProbePattern row col).
Proof.
  unfold qr.SetupPositionProbePattern. apply keeps_for_rangeM. intros r.
  apply keeps_bind; [apply keeps_isOutOfBounds|]. intros [|]; [apply keeps_ret|].
  apply keeps_for_rangeM. intros c.
  apply keeps_bind; [apply keeps_isOutOfBounds|]. intros [|]; [apply keeps_ret|].
  apply keeps_setModuleValue.
Qed.

Lemma keeps_setPositionAdjustPattern (row col : Z) :
  keeps R (qr.setPositionAdjustPattern row col).
Proof.
  unfold qr.setPositionAdjustPattern. apply keeps_for_rangeM. intros r.
  apply keeps_for_rangeM. intros c. unfold qr.setPositionAdjustPatternValue.
  destruct (_ || _); apply keeps_set_module.
Qed.

Lemma keeps_SetupPositionAdjustPattern : keeps R qr.SetupPositionAdjustPattern.
Proof.
  unfold qr.SetupPositionAdjustPattern.
  apply keeps_bind; [apply keeps_Version|]. intros v.
  apply keeps_bind; [apply keeps_lift|]. intros pos.
  apply keeps_for_eachM. intros row. apply keeps_for_eachM. intros col.
  apply keeps_bind; [apply keeps_module_at|]. intros m.
  destruct (negb _); [apply keeps_ret | apply keeps_setPositionAdjustPattern].
Qed.

Lemma keeps_SetupTimingPattern : keeps R qr.SetupTimingPattern.
Proof.
  unfold qr.SetupTimingPattern.
  apply keeps_bind; [apply keeps_this|]. intros q.
  apply keeps_bind.
  - apply keeps_for_rangeM. intros r.
    apply keeps_bind; [apply keeps_module_at|]. intros m.
    destruct (negb _); [apply keeps_ret | apply keeps_set_module].
  - intros _. apply keeps_for_rangeM. intros c.
    apply keeps_bind; [apply keeps_module_at|]. intros m.
    destruct (negb _); [apply keeps_ret | apply keeps_set_module].
Qed.

Lemma keeps_SetupTypeNumber (test : bool) : keeps R (qr.SetupTypeNumber test).
Proof.
  unfold qr.SetupTypeNumber.
  apply keeps_bind; [apply keeps_this|]. intros q.
  apply keeps_bind; [apply keeps_lift|]. intros bits.
  apply keeps_bind; [|intros _]; apply keeps_for_rangeM; intros i; apply keeps_set_module.
Qed.

Lemma keeps_SetupTypeInfo (test : bool) (maskPattern : Z) :
  keeps R (qr.SetupTypeInfo test maskPattern).
Proof.
  unfold qr.SetupTypeInfo.
  apply keeps_bind; [apply keeps_this|]. intros q.
  apply keeps_bind; [apply keeps_lift|]. intros bits.
  apply keeps_bind.
  { apply keeps_for_rangeM. intros i.
    destruct (i <? 6); [apply keeps_set_module|].
    destruct (i <? 8); apply keeps_set_module. }
  intros _. apply keeps_bind.
  { apply keeps_for_rangeM. intros i.
    destruct (i <? 8); [apply keeps_set_module|].
    destruct (i <? 9); apply keeps_set_module. }
  intros _. apply keeps_set_module.
Qed.

Lemma keeps_MapData_cell (data : list Z) (f : Z -> Z -> bool) (c : Z) (k : qr.cursor) :
  keeps R (qr.MapData_cell data f c k).
Proof.
  unfold qr.MapData_cell.
  apply keeps_bind; [apply keeps_module_at|]. intros m.
  destruct (utils.ptr_eqb m None); [|apply keeps_ret].
  apply keeps_bind; [apply keeps_lift|]. intros dark.
  apply keeps_bind; [apply keeps_set_module|]. intros _.
  destruct (_ =? _); apply keeps_ret.
Qed.

Lemma keeps_MapData_column (data : list Z) (f : Z -> Z -> bool) (col : Z) (fuel : nat) :
  forall k, keeps R (qr.MapData_column fuel data f col k).
Proof.
  induction fuel as [|fuel IH]; intros k; cbn [qr.MapData_column]; [apply keeps_starved|].
  apply keeps_bind; [apply keeps_MapData_cell|]. intros k1.
  apply keeps_bind; [apply keeps_MapData_cell|]. intros k2.
  apply keeps_bind; [apply keeps_this|]. intros q.
  destruct (_ || _); [apply keeps_ret | apply IH].
Qed.

Lemma keeps_MapData_columns (data : list Z) (f : Z -> Z -> bool) (fuel : nat) :
  forall col k, keeps R (qr.MapData_columns fuel data f col k).
Proof.
  induction fuel as [|fuel IH]; intros col k; cbn [qr.MapData_columns].
  - destruct (col >? 0); [apply keeps_starved | apply keeps_ret].
  - destruct (col >? 0); [|apply keeps_ret].
    apply keeps_bind; [apply keeps_this|]. intros q.
    apply keeps_bind; [apply keeps_MapData_column|]. intros k'. apply IH.
Qed.

Lemma keeps_MapData (data : list Z) (maskPattern : Z) : keeps R (qr.MapData data maskPattern).
Proof.
  unfold qr.MapData.
  apply keeps_bind; [apply keeps_this|]. intros q.
  apply keeps_bind; [apply keeps_lift|]. intros f. apply keeps_MapData_columns.
Qed.

Lemma keeps_MakeImpl (test : bool) (maskPattern : Z) : keeps R (qr.MakeImpl test maskPattern).
Proof.
  unfold qr.MakeImpl.
  apply keeps_bind; [apply keeps_Version|]. intros v.
  apply keeps_bind; [apply R_update_modulesCount|]. intros _.
  apply keeps_bind; [apply keeps_Version|]. intros v1.
  apply keeps_bind.
  { intros w. destruct (qr.precomputedQRBlanks w !! v1) as [m|].
    - apply R_update_modules.
    - revert w.
      apply keeps_bind; [apply keeps_this|]. intros q.
      apply keeps_bind; [apply keeps_lift|]. intros m.
      apply keeps_bind; [apply R_update_modules|]. intros _.
      apply keeps_bind; [apply keeps_SetupPositionProbePattern|]. intros _.
      apply keeps_bind; [apply keeps_this|]. intros q1.
      apply keeps_bind; [apply keeps_SetupPositionProbePattern|]. intros _.
      apply keeps_bind; [apply keeps_this|]. intros q2.
      apply keeps_bind; [apply keeps_SetupPositionProbePattern|]. intros _.
      apply keeps_bind; [apply keeps_SetupPositionAdjustPattern|]. intros _.
      apply keeps_bind; [apply keeps_SetupTimingPattern|]. intros _.
      apply keeps_bind; [apply keeps_Version|]. intros v2.
      apply keeps_bind; [apply keeps_this|]. intros q3. apply R_set_cache. }
  intros _.
  apply keeps_bind; [apply keeps_SetupTypeInfo|]. intros _.
  apply keeps_bind; [apply keeps_Version|]. intros v2.
  apply keeps_bind; [destruct (v2 >=? 7); [apply keeps_SetupTypeNumber | apply keeps_ret]|].
  intros _.
  apply keeps_bind; [apply keeps_this|]. intros q.
  apply keeps_bind.
  { destruct (qr.dataCache q); [apply keeps_ret|].
    apply keeps_bind; [apply keeps_Version|]. intros v3.
    apply keeps_bind; [apply keeps_this|]. intros q1.
    apply keeps_bind; [apply keeps_lift|]. intros [bytes | e];
      [apply R_update_dataCache | apply keeps_panic]. }
  intros _.
  apply keeps_bind; [apply keeps_this|]. intros q1. apply keeps_MapData.
Qed.

(** Scoring included. *)
Hypothesis R_LostPoint_call : keeps R qr.LostPoint_call.



End Keeps.

Lemma same_parameters_refl (w : qr.world) : same_parameters w w.
Proof. unfold same_parameters. auto 10. Qed.

Lemma same_parameters_trans (w1 w2 w3 : qr.world) :
  same_parameters w1 w2 -> same_parameters w2 w3 -> same_parameters w1 w3.
Proof. unfold same_parameters. intuition congruence. Qed.

Lemma unscored_refl (w : qr.world) : unscored w w.
Proof. split; [apply same_parameters_refl | reflexivity]. Qed.

Lemma unscored_trans (w1 w2 w3 : qr.world) :
  unscored w1 w2 -> unscored w2 w3 -> unscored w1 w3.
Proof.
  intros [H1 H2] [H3 H4]. split; [eapply same_parameters_trans; eassumption | congruence].
Qed.

(** A build without mask selection calls no scoring and keeps the
    parameters. *)
Lemma MakeImpl_unscored (test : bool) (maskPattern : Z) :
  keeps unscored (qr.MakeImpl test maskPattern).
Proof.
  apply keeps_MakeImpl.
  - apply unscored_refl.
  - apply unscored_trans.
  - intros m w. unfold unscored, same_parameters. cbn. auto 10.
  - intros n w. unfold unscored, same_parameters. cbn. auto 10.
  - intros c w. unfold unscored, same_parameters. cbn. auto 10.
  - intros v w. unfold unscored, same_parameters. cbn. auto 10.
  - intros v m w. unfold unscored, same_parameters. cbn. auto 10.
Qed.


(** ** Failure of a build *)





(** ** Mask selection *)

Lemma Version_valid (w : qr.world) :
  utils.CheckVersion (qr.version (qr.self w)) = true ->
  qr.Version w = qr.Return (qr.version (qr.self w)) w.
Proof.
  intros H. unfold qr.Version. apply Version_with_nonzero.
  unfold utils.CheckVersion in H. lia.
Qed.

(** With a valid version, the best-fit step of [Make] changes nothing. *)
Lemma Make_valid_version (fit : bool) (w : qr.world) :
  utils.CheckVersion (qr.version (qr.self w)) = true ->
  qr.Make fit w
  = qr.sbind (if qr.maskPattern (qr.self w) =? 0
              then qr.sbind qr.BestMaskPattern (fun p => qr.MakeImpl false p)
              else qr.MakeImpl false (qr.maskPattern (qr.self w)))
             (fun _ => qr.ret None) w.
Proof.
  intros Hv. pose proof (Version_valid w Hv) as HV.
  assert (Hv0 : (qr.version (qr.self w) =? 0) = false)
    by (unfold utils.CheckVersion in Hv; lia).
  unfold qr.Make.
  assert (Hagain : (if fit then qr.ret true
                    else qr.sbind qr.Version (fun v => qr.ret (v =? 0))) w
                   = qr.Return fit w).
  { destruct fit; [reflexivity|]. unfold qr.sbind. rewrite HV. unfold qr.ret.
    rewrite Hv0. reflexivity. }
  unfold qr.sbind at 1. rewrite Hagain.
  assert (Hfit : (if fit
                  then qr.sbind qr.Version
                         (fun v => qr.sbind (qr.BestFit v) (fun _ => qr.ret tt))
                  else qr.ret tt) w = qr.Return tt w).
  { destruct fit; [|reflexivity]. unfold qr.sbind. rewrite HV.
    rewrite (BestFit_valid_version w Hv). reflexivity. }
  unfold qr.sbind at 1. rewrite Hfit.
  unfold qr.sbind at 1. rewrite HV.
  unfold qr.sbind at 1. unfold qr.this at 1.
  reflexivity.
Qed.

Lemma BestMaskPattern_loop_S (score : Z -> qr.M Z) (n : nat)
    (pattern minLostPoint bestPattern : Z) :
  qr.BestMaskPattern_loop score (S n) pattern minLostPoint bestPattern
  = qr.sbind (score pattern)
      (fun lostPoint =>
         if (pattern =? 0) || (minLostPoint >? lostPoint)
         then qr.BestMaskPattern_loop score n (pattern + 1) lostPoint pattern
         else qr.BestMaskPattern_loop score n (pattern + 1) minLostPoint bestPattern).
Proof. reflexivity. Qed.

Lemma selection_loop (f : Z -> Z) (w : qr.world) (n : nat) :
  forall pattern minLostPoint bestPattern,
    1 <= pattern -> pattern + Z.of_nat n = 8 ->
    0 <= bestPattern < pattern -> minLostPoint = f bestPattern ->
    (forall k, 0 <= k < pattern -> f bestPattern <= f k) ->
    (forall k, 0 <= k < bestPattern -> f bestPattern < f k) ->
    exists best,
      qr.BestMaskPattern_loop (fun p => qr.ret (f p)) n pattern minLostPoint bestPattern w
      = qr.Return best w
      /\ first_minimum f best.
Proof.
  induction n as [|n IH]; intros pattern minLostPoint bestPattern Hp Hn Hb Hmin Hle Hlt.
  - exists bestPattern. split; [reflexivity|].
    split; [lia|]. split; [|exact Hlt]. intros k Hk. apply Hle. lia.
  - rewrite BestMaskPattern_loop_S. unfold qr.sbind at 1. unfold qr.ret at 1.
    assert (Hp0 : (pattern =? 0) = false) by lia. rewrite Hp0. cbn [orb].
    destruct (minLostPoint >? f pattern) eqn:E.
    + apply IH; try lia.
      * intros k Hk. destruct (Z.eq_dec k pattern) as [-> | Hne]; [lia|].
        specialize (Hle k ltac:(lia)). lia.
      * intros k Hk. specialize (Hle k ltac:(lia)). lia.
    + apply IH; try lia; [|exact Hlt].
      intros k Hk. destruct (Z.eq_dec k pattern) as [-> | Hne]; [lia|].
      apply Hle. lia.
Qed.

(** Whatever the eight scores are, the loop of [BestMaskPattern] retains
    the pattern with the least score, the lowest one among equals. *)
Lemma selection_retains_first_minimum (f : Z -> Z) (w : qr.world) :
  exists best,
    qr.BestMaskPattern_loop (fun p => qr.ret (f p)) 8 0 qr.MaxInt 0 w = qr.Return best w
    /\ first_minimum f best.
Proof.
  change 8%nat with (S 7). rewrite BestMaskPattern_loop_S.
  unfold qr.sbind at 1. unfold qr.ret at 1.
  change ((0 =? 0) || (qr.MaxInt >? f 0)) with true. cbv iota.
  apply selection_loop; try lia. intros k Hk. replace k with 0 by lia. lia.
Qed.

(** The mask setting of a symbol with a valid version.  A mask setting
    from 1 to 7 is used as it is: the build is [MakeImpl(false, p)]
    and calls no scoring.  The setting 0 stands for automatic selection:
    the build first runs [BestMaskPattern] and then builds with its
    result; the loop of [BestMaskPattern] retains, for any eight scores,
    the pattern of least score, the lowest index among equals. *)
Theorem mask_setting_and_selection (fit : bool) (w : qr.world)
    (Hversion : utils.CheckVersion (qr.version (qr.self w)) = true) :
  (1 <= qr.maskPattern (qr.self w) <= 7 ->
     qr.Make fit w
     = qr.sbind (qr.MakeImpl false (qr.maskPattern (qr.self w))) (fun _ => qr.ret None) w
     /\ match qr.Make fit w with
        | qr.Return _ w' | qr.Abort _ w' => qr.lost_point_calls w' = qr.lost_point_calls w
        | qr.Starved => True
        end)
  /\ (qr.maskPattern (qr.self w) = 0 ->
      qr.Make fit w
      = qr.sbind (qr.sbind qr.BestMaskPattern (fun p => qr.MakeImpl false p))
                 (fun _ => qr.ret None) w)
  /\ (forall f : Z -> Z,
        exists best,
          qr.BestMaskPattern_loop (fun p => qr.ret (f p)) 8 0 qr.MaxInt 0 w
          = qr.Return best w
          /\ first_minimum f best).
Proof.
  pose proof (Make_valid_version fit w Hversion) as HM.
  split; [|split].
  - intros Hp. assert (Hp0 : (qr.maskPattern (qr.self w) =? 0) = false) by lia.
    rewrite Hp0 in HM. split; [exact HM|].
    rewrite HM. unfold qr.sbind.
    pose proof (MakeImpl_unscored false (qr.maskPattern (qr.self w)) w) as Hk.
    destruct (qr.MakeImpl false (qr.maskPattern (qr.self w)) w) as [a w' | p w' |];
      [apply Hk | apply Hk | exact I].
  - intros Hp. rewrite Hp in HM. exact HM.
  - intros f. apply selection_retains_first_minimum.
Qed.

Lemma mask_setting_and_selection_witness :
  (1 <= qr.maskPattern (qr.self (hello_symbol 3)) <= 7 ->
     qr.Make true (hello_symbol 3)
     = qr.sbind (qr.MakeImpl false (qr.maskPattern (qr.self (hello_symbol 3))))
                (fun _ => qr.ret None) (hello_symbol 3)
     /\ match qr.Make true (hello_symbol 3) with
        | qr.Return _ w' | qr.Abort _ w' =>
            qr.lost_point_calls w' = qr.lost_point_calls (hello_symbol 3)
        | qr.Starved => True
        end)
  /\ (qr.maskPattern (qr.self (hello_symbol 3)) = 0 ->
      qr.Make true (hello_symbol 3)
      = qr.sbind (qr.sbind qr.BestMaskPattern (fun p => qr.MakeImpl false p))
                 (fun _ => qr.ret None) (hello_symbol 3))
  /\ (forall f : Z -> Z,
        exists best,
          qr.BestMaskPattern_loop (fun p => qr.ret (f p)) 8 0 qr.MaxInt 0 (hello_symbol 3)
          = qr.Return best (hello_symbol 3)
          /\ first_minimum f best).
Proof. apply (mask_setting_and_selection true (hello_symbol 3)). reflexivity. Defined.

(** C3: automatic mask selection stops at its first score.  The setting
    0 of the mask pattern stands for automatic selection; on the version
    1, level Q symbol of ["HELLO WORLD"] with that setting the build
    constructs the trial matrix of pattern 0, calls [utils.LostPoint] on
    it once, and panics there with a nil dereference: no other pattern is
    tried, no penalty is compared, and no symbol is built. *)
Lemma automatic_mask_selection_panics :
  exists w',
    qr.maskPattern (qr.self (hello_symbol 0)) = 0
    /\ qr.Make true (hello_symbol 0) = qr.Abort NilDereference w'
    /\ qr.lost_point_calls (hello_symbol 0) = 0
    /\ qr.lost_point_calls w' = 1.
Proof.
  eexists. split; [reflexivity|].
  split; [vm_compute; reflexivity|].
  split; [reflexivity|].
  vm_compute. reflexivity.
Qed.

(** ** Writing modules *)

Lemma square_spec (N : Z) (m : list (list utils.cell)) :
  square N m = true <-> len m = N /\ forall row, In row m -> len row = N.
Proof.
  unfold square. rewrite andb_true_iff, Z.eqb_eq, forallb_forall.
  split; intros [H1 H2]; (split; [exact H1|]); intros row Hrow;
    specialize (H2 row Hrow); [apply Z.eqb_eq in H2 | apply Z.eqb_eq]; exact H2.
Qed.

Lemma square_row (N : Z) (m : list (list utils.cell)) (r : Z) :
  square N m = true -> 0 <= r < N ->
  exists row, m !! Z.to_nat r = Some row /\ len row = N.
Proof.
  intros Hsq Hr. apply square_spec in Hsq as [Hlen Hrows].
  destruct (lookup_lt_is_Some_2 m (Z.to_nat r)) as (row & Hrow); [unfold len in Hlen; lia|].
  exists row. split; [exact Hrow|]. apply Hrows.
  apply list_elem_of_In. eapply list_elem_of_lookup_2. exact Hrow.
Qed.

Lemma write_cell_square (N : Z) (m : list (list utils.cell)) (rc : Z * Z) (p : utils.cell) :
  square N m = true -> square N (write_cell m rc p) = true.
Proof.
  intros Hsq. unfold write_cell.
  destruct (m !! Z.to_nat (fst rc)) as [row|] eqn:Hrow; [|exact Hsq].
  apply square_spec in Hsq as [Hlen Hrows]. apply square_spec. split.
  - unfold len in *. rewrite length_insert. exact Hlen.
  - intros row' Hin. apply list_elem_of_In, list_elem_of_lookup in Hin as (k & Hk).
    destruct (Nat.eq_dec k (Z.to_nat (fst rc))) as [-> | Hne].
    + rewrite list_lookup_insert_eq in Hk by (eapply lookup_lt_Some; exact Hrow).
      injection Hk as <-. unfold len. rewrite length_insert.
      apply Hrows. apply list_elem_of_In. eapply list_elem_of_lookup_2. exact Hrow.
    + rewrite list_lookup_insert_ne in Hk by congruence.
      apply Hrows. apply list_elem_of_In. eapply list_elem_of_lookup_2. exact Hk.
Qed.

Lemma cell_at_write_same (N : Z) (m : list (list utils.cell)) (rc : Z * Z) (p : utils.cell) :
  square N m = true -> in_matrix N rc -> cell_at (write_cell m rc p) rc = p.
Proof.
  intros Hsq [Hr Hc]. destruct (square_row N m (fst rc) Hsq Hr) as (row & Hrow & Hlen).
  unfold cell_at, write_cell. rewrite Hrow.
  rewrite list_lookup_insert_eq by (eapply lookup_lt_Some; exact Hrow).
  rewrite list_lookup_insert_eq by (unfold len in Hlen; lia).
  reflexivity.
Qed.

Lemma cell_at_write_other (N : Z) (m : list (list utils.cell)) (rc rc' : Z * Z) (p : utils.cell) :
  in_matrix N rc -> in_matrix N rc' -> rc <> rc' ->
  cell_at (write_cell m rc p) rc' = cell_at m rc'.
Proof.
  intros [Hr Hc] [Hr' Hc'] Hne. unfold cell_at, write_cell.
  destruct (m !! Z.to_nat (fst rc)) as [row|] eqn:Hrow; [|reflexivity].
  destruct (Z.eq_dec (fst rc) (fst rc')) as [Heq | Hdiff].
  - rewrite <- Heq. rewrite Hrow.
    rewrite list_lookup_insert_eq by (eapply lookup_lt_Some; exact Hrow).
    rewrite list_lookup_insert_ne; [reflexivity|].
    intros Hcol. apply Hne. destruct rc, rc'; simpl in *. f_equal; lia.
  - rewrite list_lookup_insert_ne by lia. reflexivity.
Qed.

Lemma set_module_run (N : Z) (w : qr.world) (rc : Z * Z) (v : bool) :
  square N (qr.modules (qr.self w)) = true -> in_matrix N rc ->
  qr.set_module (fst rc) (snd rc) v w = qr.Return tt (after_set_module rc v w).
Proof.
  intros Hsq [Hr Hc].
  destruct (square_row N _ (fst rc) Hsq Hr) as (row & Hrow & Hlen).
  unfold qr.set_module, qr.sbind, qr.new_bool, qr.this, qr.lift. cbn [qr.self].
  rewrite (index_in_range _ _ row) by (lia || exact Hrow). cbn [obind].
  rewrite store_in_range by lia. cbn [obind].
  rewrite store_in_range
    by (apply square_spec in Hsq as [Hl _]; lia).
  unfold qr.update, after_set_module, write_cell. cbn [qr.self qr.precomputedQRBlanks
    qr.next_addr qr.lost_point_calls]. rewrite Hrow. reflexivity.
Qed.

Lemma after_set_module_square (N : Z) (w : qr.world) (rc : Z * Z) (v : bool) :
  square N (qr.modules (qr.self w)) = true ->
  square N (qr.modules (qr.self (after_set_module rc v w))) = true.
Proof. intros Hsq. unfold after_set_module. cbn. apply write_cell_square. exact Hsq. Qed.

Lemma forM_ext (body body' : Z -> qr.M unit) (n : nat) :
  forall i w,
    (forall j, i <= j < i + Z.of_nat n -> forall w, body j w = body' j w) ->
    qr.forM n i body w = qr.forM n i body' w.
Proof.
  induction n as [|n IH]; intros i w Hext; [reflexivity|].
  cbn [qr.forM]. unfold qr.sbind. rewrite Hext by lia.
  destruct (body' i w) as [[] w1 | |]; try reflexivity.
  apply IH. intros j Hj. apply Hext. lia.
Qed.

(** A loop of [set_module] over distinct positions of the matrix: every
    position holds the value written there, the rest is untouched. *)
Lemma forM_set_module (N : Z) (pos : Z -> Z * Z) (val : Z -> bool) (n : nat) :
  forall i w,
    square N (qr.modules (qr.self w)) = true ->
    (forall j, i <= j < i + Z.of_nat n -> in_matrix N (pos j)) ->
    (forall j j', i <= j < i + Z.of_nat n -> i <= j' < i + Z.of_nat n ->
                  pos j = pos j' -> j = j') ->
    exists w',
      qr.forM n i (fun j => qr.set_module (fst (pos j)) (snd (pos j)) (val j)) w
      = qr.Return tt w'
      /\ square N (qr.modules (qr.self w')) = true
      /\ (forall j, i <= j < i + Z.of_nat n ->
            colour_at (qr.modules (qr.self w')) (pos j) = Some (val j))
      /\ (forall rc, in_matrix N rc ->
            (forall j, i <= j < i + Z.of_nat n -> pos j <> rc) ->
            cell_at (qr.modules (qr.self w')) rc = cell_at (qr.modules (qr.self w)) rc).
Proof.
  induction n as [|n IH]; intros i w Hsq Hin Hinj.
  - exists w. split; [reflexivity|]. split; [exact Hsq|]. split; [intros j Hj; lia|].
    intros rc _ _. reflexivity.
  - cbn [qr.forM]. unfold qr.sbind at 1.
    rewrite (set_module_run N w (pos i) (val i) Hsq) by (apply Hin; lia).
    set (w1 := after_set_module (pos i) (val i) w).
    assert (Hsq1 : square N (qr.modules (qr.self w1)) = true)
      by (apply after_set_module_square; exact Hsq).
    destruct (IH (i + 1) w1 Hsq1) as (w' & Hrun & Hsq' & Hval & Hrest).
    { intros j Hj. apply Hin. lia. }
    { intros j j' Hj Hj'. apply Hinj; lia. }
    exists w'. split; [exact Hrun|]. split; [exact Hsq'|]. split.
    + intros j Hj. destruct (Z.eq_dec j i) as [-> | Hne].
      * unfold colour_at. rewrite Hrest.
        -- subst w1. unfold after_set_module. cbn [qr.self qr.modules qr.set_modules].
           rewrite (cell_at_write_same N) by (exact Hsq || (apply Hin; lia)).
           reflexivity.
        -- apply Hin. lia.
        -- intros j' Hj' Heq. assert (j' = i) by (apply Hinj; [lia | lia | exact Heq]). lia.
      * apply Hval. lia.
    + intros rc Hrc Hfree. rewrite Hrest.
      * subst w1. unfold after_set_module. cbn [qr.self qr.modules qr.set_modules].
        apply (cell_at_write_other N); [apply Hin; lia | exact Hrc | apply Hfree; lia].
      * exact Hrc.
      * intros j Hj. apply Hfree. lia.
Qed.

(** ** The format information word *)

Lemma bch_checked : forallb bch_check (seqZ 0 32) = true.
Proof. vm_compute. reflexivity. Qed.

Lemma BCHTypeInfo_word (data : Z) :
  0 <= data < 32 ->
  exists r,
    utils.BCHTypeInfo data = Done (Z.lxor (Z.lor (Z.shiftl data 10) r) utils.G15_MASK)
    /\ bch_remainder utils.G15 data r
    /\ 0 <= Z.lxor (Z.lor (Z.shiftl data 10) r) utils.G15_MASK < 2 ^ 15.
Proof.
  intros Hd.
  assert (Hin : In data (seqZ 0 32)).
  { apply list_elem_of_In. apply elem_of_seqZ. lia. }
  pose proof (proj1 (forallb_forall _ _) bch_checked data Hin) as Hc.
  unfold bch_check in Hc.
  destruct (utils.BCHTypeInfo data) as [word | |]; try discriminate.
  apply andb_true_iff in Hc as [Hc H4]. apply andb_true_iff in Hc as [Hc H3].
  apply andb_true_iff in Hc as [H1 H2].
  set (r := Z.land (Z.lxor word utils.G15_MASK) 1023) in *.
  apply Z.eqb_eq in H1. apply existsb_exists in H2 as (q & _ & Hq). apply Z.eqb_eq in Hq.
  exists r. rewrite <- H1. split; [reflexivity|]. split; [|lia].
  split; [|exists q; exact Hq].
  subst r. change 1023 with (Z.ones 10). rewrite Z.land_ones by lia.
  apply Z.mod_pos_bound. lia.
Qed.

Lemma type_info_data (ec mask : Z) :
  0 <= ec <= 3 -> 0 <= mask <= 7 -> Z.lor (Z.shiftl ec 3) mask = 8 * ec + mask.
Proof.
  intros He Hm.
  assert (ec = 0 \/ ec = 1 \/ ec = 2 \/ ec = 3) as Hec by lia.
  assert (mask = 0 \/ mask = 1 \/ mask = 2 \/ mask = 3
          \/ mask = 4 \/ mask = 5 \/ mask = 6 \/ mask = 7) as Hmask by lia.
  destruct Hec as [-> | [-> | [-> | ->]]];
    destruct Hmask as [-> | [-> | [-> | [-> | [-> | [-> | [-> | ->]]]]]]]; reflexivity.
Qed.

Lemma vertical_in_matrix (N i : Z) : 21 <= N -> 0 <= i < 15 -> in_matrix N (vertical N i).
Proof.
  intros HN Hi. unfold vertical, in_matrix.
  destruct (i <? 6) eqn:E1; [simpl; lia|]. destruct (i <? 8) eqn:E2; simpl; lia.
Qed.

Lemma horizontal_in_matrix (N i : Z) : 21 <= N -> 0 <= i < 15 -> in_matrix N (horizontal N i).
Proof.
  intros HN Hi. unfold horizontal, in_matrix.
  destruct (i <? 8) eqn:E1; [simpl; lia|]. destruct (i <? 9) eqn:E2; simpl; lia.
Qed.

Lemma vertical_injective (N i j : Z) :
  21 <= N -> 0 <= i < 15 -> 0 <= j < 15 -> vertical N i = vertical N j -> i = j.
Proof.
  intros HN Hi Hj. unfold vertical.
  destruct (i <? 6) eqn:E1; destruct (i <? 8) eqn:E2;
    destruct (j <? 6) eqn:E3; destruct (j <? 8) eqn:E4; intros [= H]; lia.
Qed.

Lemma horizontal_injective (N i j : Z) :
  21 <= N -> 0 <= i < 15 -> 0 <= j < 15 -> horizontal N i = horizontal N j -> i = j.
Proof.
  intros HN Hi Hj. unfold horizontal.
  destruct (i <? 8) eqn:E1; destruct (i <? 9) eqn:E2;
    destruct (j <? 8) eqn:E3; destruct (j <? 9) eqn:E4; intros [= H]; lia.
Qed.

Lemma vertical_not_horizontal (N i j : Z) :
  21 <= N -> 0 <= i < 15 -> 0 <= j < 15 -> horizontal N j <> vertical N i.
Proof.
  intros HN Hi Hj. unfold vertical, horizontal.
  destruct (i <? 6) eqn:E1; destruct (i <? 8) eqn:E2;
    destruct (j <? 8) eqn:E3; destruct (j <? 9) eqn:E4; intros [= H1 H2]; lia.
Qed.

Lemma fixed_module_apart (N i : Z) :
  21 <= N -> 0 <= i < 15 -> (N - 8, 8) <> vertical N i /\ (N - 8, 8) <> horizontal N i.
Proof.
  intros HN Hi. unfold vertical, horizontal. split.
  - destruct (i <? 6) eqn:E1; destruct (i <? 8) eqn:E2; intros [= H1]; lia.
  - destruct (i <? 8) eqn:E1; destruct (i <? 9) eqn:E2; intros [= H1 H2]; lia.
Qed.

(** What [SetupTypeInfo] writes, for the word [bits] that [BCHTypeInfo]
    returns. *)
Lemma SetupTypeInfo_run (N : Z) (test : bool) (maskPattern bits : Z) (w : qr.world) :
  square N (qr.modules (qr.self w)) = true ->
  qr.modulesCount (qr.self w) = N -> 21 <= N ->
  utils.BCHTypeInfo (Z.lor (Z.shiftl (qr.errorCorrection (qr.self w)) 3) maskPattern)
  = Done bits ->
  exists w',
    qr.SetupTypeInfo test maskPattern w = qr.Return tt w'
    /\ (forall i, 0 <= i < 15 ->
          colour_at (qr.modules (qr.self w')) (vertical N i) = Some (qr.bit_module test bits i)
          /\ colour_at (qr.modules (qr.self w')) (horizontal N i)
             = Some (qr.bit_module test bits i))
    /\ colour_at (qr.modules (qr.self w')) (N - 8, 8) = Some (negb test).
Proof.
  intros Hsq HN H21 Hbits.
  unfold qr.SetupTypeInfo. unfold qr.sbind at 1. unfold qr.this at 1.
  unfold qr.sbind at 1. unfold qr.lift at 1. rewrite Hbits. rewrite HN.
  unfold qr.for_rangeM. change (Z.to_nat (15 - 0)) with 15%nat.
  (* vertical *)
  destruct (forM_set_module N (vertical N) (qr.bit_module test bits) 15 0 w Hsq)
    as (w1 & Hrun1 & Hsq1 & Hv1 & _).
  { intros j Hj. apply vertical_in_matrix; lia. }
  { intros j j' Hj Hj'. apply vertical_injective; lia. }
  unfold qr.sbind at 1.
  rewrite (forM_ext _ (fun j => qr.set_module (fst (vertical N j)) (snd (vertical N j))
                                  (qr.bit_module test bits j))).
  2:{ intros j Hj w0. unfold vertical.
      destruct (j <? 6); [reflexivity|]. destruct (j <? 8); reflexivity. }
  rewrite Hrun1.
  (* horizontal *)
  destruct (forM_set_module N (horizontal N) (qr.bit_module test bits) 15 0 w1 Hsq1)
    as (w2 & Hrun2 & Hsq2 & Hv2 & Hrest2).
  { intros j Hj. apply horizontal_in_matrix; lia. }
  { intros j j' Hj Hj'. apply horizontal_injective; lia. }
  unfold qr.sbind at 1.
  rewrite (forM_ext _ (fun j => qr.set_module (fst (horizontal N j)) (snd (horizontal N j))
                                  (qr.bit_module test bits j))).
  2:{ intros j Hj w0. unfold horizontal.
      destruct (j <? 8); [reflexivity|]. destruct (j <? 9); reflexivity. }
  rewrite Hrun2.
  (* fixed module *)
  assert (Hfix : in_matrix N (N - 8, 8)) by (unfold in_matrix; simpl; lia).
  pose proof (set_module_run N w2 (N - 8, 8) (negb test) Hsq2 Hfix) as Hrun3.
  cbn [fst snd] in Hrun3. rewrite Hrun3.
  eexists. split; [reflexivity|].
  unfold after_set_module, colour_at. cbn [qr.self qr.modules qr.set_modules].
  split.
  - intros i Hi. destruct (fixed_module_apart N i H21 Hi) as [Hf1 Hf2]. split.
    + rewrite (cell_at_write_other N)
        by (exact Hfix || exact Hf1 || (apply vertical_in_matrix; lia)).
      rewrite Hrest2.
      * apply Hv1. lia.
      * apply vertical_in_matrix; lia.
      * intros j Hj. apply vertical_not_horizontal; lia.
    + rewrite (cell_at_write_other N)
        by (exact Hfix || exact Hf2 || (apply horizontal_in_matrix; lia)).
      apply Hv2. lia.
  - rewrite (cell_at_write_same N) by assumption. reflexivity.
Qed.

(** The format information for any stored level: for a symbol whose
    stored error-correction value is [ec] in [0,3] and a mask pattern in
    [0,7], [SetupTypeInfo] builds the 5-bit word [ec << 3 | mask] from the
    stored value as it is, appends its 10-bit BCH remainder under
    [G15 = 0x537], XORs with [G15_MASK = 0x5412], and places bit [i] of
    the resulting 15-bit word at the [i]-th vertical and at the [i]-th
    horizontal position, with a dark module at [(N-8, 8)]. *)
Theorem SetupTypeInfo_places_word (N ec maskPattern : Z) (w : qr.world)
    (Hsquare : square N (qr.modules (qr.self w)) = true)
    (Hcount : qr.modulesCount (qr.self w) = N)
    (Hsize : 21 <= N)
    (Hlevel : qr.errorCorrection (qr.self w) = ec)
    (Hec : 0 <= ec <= 3)
    (Hmask : 0 <= maskPattern <= 7) :
  utils.G15 = 0x537 /\ utils.G15_MASK = 0x5412
  /\ Z.lor (Z.shiftl ec 3) maskPattern = 8 * ec + maskPattern
  /\ exists r w',
       bch_remainder 0x537 (8 * ec + maskPattern) r
       /\ 0 <= Z.lxor (Z.lor (Z.shiftl (8 * ec + maskPattern) 10) r) 0x5412 < 2 ^ 15
       /\ qr.SetupTypeInfo false maskPattern w = qr.Return tt w'
       /\ (forall i, 0 <= i < 15 ->
             colour_at (qr.modules (qr.self w')) (vertical N i)
             = Some (Z.testbit (Z.lxor (Z.lor (Z.shiftl (8 * ec + maskPattern) 10) r) 0x5412) i)
             /\ colour_at (qr.modules (qr.self w')) (horizontal N i)
                = Some (Z.testbit
                          (Z.lxor (Z.lor (Z.shiftl (8 * ec + maskPattern) 10) r) 0x5412) i))
       /\ colour_at (qr.modules (qr.self w')) (N - 8, 8) = Some true.
Proof.
  split; [reflexivity|]. split; [reflexivity|].
  pose proof (type_info_data ec maskPattern Hec Hmask) as Hdata.
  split; [exact Hdata|].
  destruct (BCHTypeInfo_word (8 * ec + maskPattern) ltac:(lia)) as (r & Hword & Hrem & Hbound).
  change utils.G15 with 0x537 in Hrem. change utils.G15_MASK with 0x5412 in Hword, Hbound.
  destruct (SetupTypeInfo_run N false maskPattern
              (Z.lxor (Z.lor (Z.shiftl (8 * ec + maskPattern) 10) r) 0x5412)
              w Hsquare Hcount Hsize)
    as (w' & Hrun & Hbits & Hfix).
  { rewrite Hlevel, Hdata. exact Hword. }
  exists r, w'. split; [exact Hrem|]. split; [exact Hbound|]. split; [exact Hrun|].
  split; [|exact Hfix].
  intros i Hi. destruct (Hbits i Hi) as [H1 H2].
  unfold qr.bit_module in H1, H2. cbn [negb andb] in H1, H2.
  rewrite land_one_testbit in H1, H2 by lia. split; assumption.
Qed.

Lemma SetupTypeInfo_places_word_witness :
  utils.G15 = 0x537 /\ utils.G15_MASK = 0x5412
  /\ Z.lor (Z.shiftl 2 3) 5 = 8 * 2 + 5
  /\ exists r w',
       bch_remainder 0x537 (8 * 2 + 5) r
       /\ 0 <= Z.lxor (Z.lor (Z.shiftl (8 * 2 + 5) 10) r) 0x5412 < 2 ^ 15
       /\ qr.SetupTypeInfo false 5 (blank_symbol 2) = qr.Return tt w'
       /\ (forall i, 0 <= i < 15 ->
             colour_at (qr.modules (qr.self w')) (vertical 21 i)
             = Some (Z.testbit (Z.lxor (Z.lor (Z.shiftl (8 * 2 + 5) 10) r) 0x5412) i)
             /\ colour_at (qr.modules (qr.self w')) (horizontal 21 i)
                = Some (Z.testbit (Z.lxor (Z.lor (Z.shiftl (8 * 2 + 5) 10) r) 0x5412) i))
       /\ colour_at (qr.modules (qr.self w')) (21 - 8, 8) = Some true.
Proof.
  apply (SetupTypeInfo_places_word 21 2 5 (blank_symbol 2)).
  - reflexivity.
  - reflexivity.
  - lia.
  - reflexivity.
  - lia.
  - lia.
Defined.


(** ** Further properties of package [base] *)

Lemma forallb_seqZ (P : Z -> bool) (lo n x : Z) :
  forallb P (seqZ lo n) = true -> lo <= x < lo + n -> P x = true.
Proof.
  intros H Hx. apply (proj1 (forallb_forall _ _) H).
  apply list_elem_of_In, elem_of_seqZ. lia.
Qed.

Lemma LOG_TABLE_checked :
  forallb (fun n => match base.glog n with
                    | Done (Ok g) =>
                        (0 <=? g) && (g <=? 254)
                        && match base.Gexp g with
                           | Done m => m =? n
                           | _ => false
                           end
                    | _ => false
                    end) (seqZ 1 255) = true.
Proof. vm_compute. reflexivity. Qed.

Lemma EXP_TABLE_checked :
  forallb (fun g => match index base.EXP_TABLE g with
                    | Done n =>
                        (1 <=? n) && (n <=? 255)
                        && match base.glog n with
                           | Done (Ok g') => g' =? g
                           | _ => false
                           end
                    | _ => false
                    end) (seqZ 0 255) = true.
Proof. vm_compute. reflexivity. Qed.

(** X1: [glog] returns the error [glog(n)] for every [n < 1]; for
    [1 <= n <= 255] it returns an exponent between 0 and 254 that [Gexp]
    maps back to [n]; beyond 255 it indexes [LOG_TABLE] out of range. *)
Theorem glog_Gexp_round_trip (n : Z) :
  (n < 1 -> base.glog n = Done (Err (ErrGlog n)))
  /\ (1 <= n <= 255 ->
      exists g, base.glog n = Done (Ok g) /\ 0 <= g <= 254 /\ base.Gexp g = Done n)
  /\ (255 < n -> base.glog n = Panicked IndexOutOfRange).
Proof.
  split; [|split].
  - intros Hn. unfold base.glog. destruct (n <? 1) eqn:E; [reflexivity|lia].
  - intros Hn.
    pose proof (forallb_seqZ _ _ _ n LOG_TABLE_checked ltac:(lia)) as Hc.
    cbv beta in Hc.
    destruct (base.glog n) as [[g|e]| |]; try discriminate.
    apply andb_true_iff in Hc as [Hc H3]. apply andb_true_iff in Hc as [H1 H2].
    destruct (base.Gexp g) as [m| |] eqn:EG; try discriminate.
    apply Z.eqb_eq in H3. subst m. exists g. repeat split; first [reflexivity | assumption | lia].
  - intros Hn. unfold base.glog. destruct (n <? 1) eqn:E; [lia|].
    rewrite index_out_of_range; [reflexivity|].
    right. change (len base.LOG_TABLE) with 256. lia.
Qed.

(** X2: on a non-negative exponent [Gexp] never fails, has period 255,
    returns a value between 1 and 255, and [glog] gives back the exponent
    reduced modulo 255.  On a negative exponent that is not a multiple of
    255 it panics: Go's [%] keeps the sign, and the index is negative. *)
Theorem Gexp_period_and_sign (g : Z) :
  (0 <= g ->
   exists n, base.Gexp g = Done n /\ 1 <= n <= 255
             /\ base.glog n = Done (Ok (g mod 255))
             /\ base.Gexp (g + 255) = Done n)
  /\ (g < 0 -> Z.rem g 255 <> 0 -> base.Gexp g = Panicked IndexOutOfRange).
Proof.
  split.
  - intros Hg. unfold base.Gexp.
    rewrite !Z.rem_mod_nonneg by lia.
    replace ((g + 255) mod 255) with (g mod 255)
      by (rewrite <- (Z.mul_1_l 255) at 2; rewrite Z.mod_add by lia; reflexivity).
    pose proof (Z.mod_pos_bound g 255 ltac:(lia)) as Hb.
    pose proof (forallb_seqZ _ _ _ (g mod 255) EXP_TABLE_checked ltac:(lia)) as Hc.
    cbv beta in Hc.
    destruct (index base.EXP_TABLE (g mod 255)) as [n| |]; try discriminate.
    apply andb_true_iff in Hc as [Hc H3]. apply andb_true_iff in Hc as [H1 H2].
    destruct (base.glog n) as [[g'|e]| |] eqn:EG; try discriminate.
    apply Z.eqb_eq in H3. subst g'. exists n. repeat split; first [reflexivity | assumption | lia].
  - intros Hg Hr. unfold base.Gexp. apply index_out_of_range. left.
    pose proof (Z.rem_nonpos g 255). lia.
Qed.

(** The leading zeros [NewPolynomial] drops. *)
Lemma range_offset_spec (num : list Z) :
  num <> [] ->
  forall offset, 0 <= offset ->
    exists k : nat,
      base.range_offset num offset = offset + Z.of_nat k
      /\ (k < length num)%nat
      /\ Forall (fun x => x = 0) (take k num)
      /\ (head (drop k num) <> Some 0 \/ S k = length num).
Proof.
  induction num as [|x rest IH]; [congruence|]. intros _ offset Hoff.
  cbn [base.range_offset]. destruct (x =? 0) eqn:E; cbn [negb].
  - apply Z.eqb_eq in E. subst x. destruct rest as [|y rest'].
    + exists 0%nat. cbn. split; [lia|]. split; [lia|]. split; [constructor|].
      right. reflexivity.
    + destruct (IH ltac:(congruence) (offset + 1) ltac:(lia)) as (k & Hk & Hlt & Hz & Hh).
      exists (S k). rewrite Hk. cbn [length take drop] in *.
      split; [lia|]. split; [lia|]. split; [constructor; [reflexivity|exact Hz]|].
      destruct Hh as [Hh|Hh]; [left; exact Hh|right; lia].
  - apply Z.eqb_neq in E. exists 0%nat. cbn.
    split; [lia|]. split; [lia|]. split; [constructor|].
    left. congruence.
Qed.

(** X3: [NewPolynomial] returns an error on an empty coefficient slice and
    panics on a negative shift; otherwise it drops the leading zero
    coefficients, keeping the last coefficient when all are zero, and
    appends [shift] zeros. *)
Theorem NewPolynomial_drops_leading_zeros (num : list Z) (shift : Z) :
  (num = [] -> base.NewPolynomial num shift = Done (Err (ErrEmptyPolynomial 0 shift)))
  /\ (num <> [] -> shift < 0 -> base.NewPolynomial num shift = Panicked MakeSliceLen)
  /\ (num <> [] -> 0 <= shift ->
      exists k : nat,
        (k < length num)%nat
        /\ Forall (fun x => x = 0) (take k num)
        /\ (head (drop k num) <> Some 0 \/ S k = length num)
        /\ base.NewPolynomial num shift
           = Done (Ok {| base.num := drop k num ++ replicate (Z.to_nat shift) 0 |})).
Proof.
  split; [|split].
  - intros ->. reflexivity.
  - intros Hne Hs. unfold base.NewPolynomial.
    destruct (len num =? 0) eqn:E.
    { apply Z.eqb_eq in E. destruct num; [congruence|]. unfold len in E. cbn in E. lia. }
    unfold make_ints. destruct (shift <? 0) eqn:E2; [reflexivity|lia].
  - intros Hne Hs. unfold base.NewPolynomial.
    destruct (len num =? 0) eqn:E.
    { apply Z.eqb_eq in E. destruct num; [congruence|]. unfold len in E. cbn in E. lia. }
    unfold make_ints. destruct (shift <? 0) eqn:E2; [lia|]. cbn [obind].
    destruct (range_offset_spec num Hne 0 ltac:(lia)) as (k & Hk & Hlt & Hz & Hh).
    exists k. repeat split; try assumption.
    rewrite Hk. unfold slice, len. do 3 f_equal.
    rewrite Z.add_0_l, Nat2Z.id.
    rewrite take_ge by (rewrite length_drop; lia). reflexivity.
Qed.

(** X4: whenever [Mod] returns a polynomial, it is shorter than the
    divisor; a dividend that is already shorter is returned as it is. *)
Theorem Mod_remainder_is_shorter (p other r : base.Polynomial)
    (Hrun : base.Mod p other = Done (Ok r)) :
  base.Poly_Len r < base.Poly_Len other
  /\ (base.Poly_Len p < base.Poly_Len other -> r = p).
Proof.
  unfold base.Mod in Hrun. revert Hrun.
  generalize (S (length (base.num p))) as fuel. intros fuel. revert p.
  induction fuel as [|fuel IH]; intros p Hrun.
  - cbn [base.Mod_loop] in Hrun.
    destruct (base.Poly_Len p >=? base.Poly_Len other) eqn:E; [discriminate|].
    injection Hrun as <-. split; [lia|reflexivity].
  - cbn [base.Mod_loop] in Hrun.
    destruct (base.Poly_Len p >=? base.Poly_Len other) eqn:E.
    + destruct (base.Poly_Len p - base.Poly_Len other <? 0) eqn:E2; [lia|].
      apply obind_Done in Hrun as (p0 & _ & Hrun).
      apply ebind_Ok in Hrun as (gp & _ & Hrun).
      apply obind_Done in Hrun as (o0 & _ & Hrun).
      apply ebind_Ok in Hrun as (go & _ & Hrun).
      apply ebind_Ok in Hrun as (num & _ & Hrun).
      apply ebind_Ok in Hrun as (modPoly & _ & Hrun).
      destruct (IH _ Hrun) as [Hlt _]. split; [exact Hlt|lia].
    + injection Hrun as <-. split; [lia|reflexivity].
Qed.

Lemma Mod_remainder_is_shorter_witness :
  base.Poly_Len {| base.num := [8; 8] |} < base.Poly_Len {| base.num := [1; 2; 3] |}
  /\ (base.Poly_Len {| base.num := [6; 4; 2] |} < base.Poly_Len {| base.num := [1; 2; 3] |}
      -> {| base.num := [8; 8] |} = {| base.num := [6; 4; 2] |}).
Proof.
  apply (Mod_remainder_is_shorter {| base.num := [6; 4; 2] |} {| base.num := [1; 2; 3] |}).
  vm_compute. reflexivity.
Defined.

Lemma glog_defined (n : Z) :
  1 <= n <= 255 -> exists g, base.glog n = Done (Ok g) /\ 0 <= g <= 254.
Proof.
  intros Hn.
  pose proof (forallb_seqZ _ _ _ n LOG_TABLE_checked ltac:(lia)) as Hc.
  cbv beta in Hc.
  destruct (base.glog n) as [[g|e]| |]; try discriminate.
  apply andb_true_iff in Hc as [Hc _]. exists g. split; [reflexivity|lia].
Qed.

Lemma Gexp_defined (g : Z) :
  0 <= g -> exists n, base.Gexp g = Done n /\ 1 <= n <= 255.
Proof.
  intros Hg. unfold base.Gexp. rewrite Z.rem_mod_nonneg by lia.
  pose proof (Z.mod_pos_bound g 255 ltac:(lia)) as Hb.
  pose proof (forallb_seqZ _ _ _ (g mod 255) EXP_TABLE_checked ltac:(lia)) as Hc.
  cbv beta in Hc.
  destruct (index base.EXP_TABLE (g mod 255)) as [n| |]; try discriminate.
  apply andb_true_iff in Hc as [Hc _]. exists n. split; [reflexivity|lia].
Qed.

(** One term of the product of two non-zero coefficients. *)
Lemma Mul_term_defined (i item j otherItem : Z) (acc : list Z) :
  1 <= item <= 255 -> 1 <= otherItem <= 255 -> 0 <= i + j < len acc ->
  exists acc', base.Mul_term i item j otherItem acc = Done (Ok acc')
               /\ length acc' = length acc.
Proof.
  intros Hi Ho Hr. unfold base.Mul_term.
  destruct (glog_defined item Hi) as (gi & -> & Hgi).
  destruct (glog_defined otherItem Ho) as (go & -> & Hgo). cbn [ebind obind].
  destruct (Gexp_defined (gi + go) ltac:(lia)) as (g & -> & _). cbn [obind].
  rewrite (index_nth acc (i + j) 0) by exact Hr. cbn [obind].
  rewrite store_in_range by exact Hr. cbn [obind].
  eexists. split; [reflexivity|]. apply length_insert.
Qed.

Lemma Mul_term_zero (i item j otherItem : Z) (acc : list Z) :
  0 <= item <= 255 -> item = 0 \/ otherItem = 0 ->
  base.Mul_term i item j otherItem acc = Done (Err (ErrGlog 0)).
Proof.
  intros Hi Hz. unfold base.Mul_term.
  destruct (Z.eq_dec item 0) as [->|Hne]; [reflexivity|].
  destruct Hz as [Hz | ->]; [contradiction|].
  destruct (glog_defined item ltac:(lia)) as (gi & -> & _). reflexivity.
Qed.

(** The inner loop of [Mul] for one coefficient [item] of [p]. *)
Lemma Mul_row (i item : Z) (others : list Z) :
  1 <= item <= 255 ->
  Forall (fun x => 0 <= x <= 255) others ->
  forall j acc,
    0 <= i + j -> i + j + len others <= len acc ->
    (Forall (fun x => x <> 0) others ->
     exists acc', for_each_e others j (base.Mul_term i item) acc = Done (Ok acc')
                  /\ length acc' = length acc)
    /\ (In 0 others ->
        for_each_e others j (base.Mul_term i item) acc = Done (Err (ErrGlog 0))).
Proof.
  intros Hi Hall. induction Hall as [|x rest Hx Hrest IH]; intros j acc Hj Hlen.
  - split; [|intros []]. intros _. exists acc. split; reflexivity.
  - unfold len in Hlen. cbn [length] in Hlen. rewrite for_each_e_cons.
    destruct (Z.eq_dec x 0) as [->|Hne].
    + rewrite Mul_term_zero by (lia || (right; reflexivity)). split.
      * intros Hnz. inversion Hnz; subst. congruence.
      * intros _. reflexivity.
    + destruct (Mul_term_defined i item j x acc Hi ltac:(lia) ltac:(unfold len; lia))
        as (acc1 & -> & Hl1).
      cbn [ebind obind].
      destruct (IH (j + 1) acc1 ltac:(lia) ltac:(unfold len in *; lia)) as [IHok IHerr].
      split.
      * intros Hnz. inversion Hnz; subst.
        destruct (IHok ltac:(assumption)) as (acc' & -> & Hl). exists acc'.
        split; [reflexivity|congruence].
      * intros [Hin|Hin]; [congruence|]. apply IHerr. exact Hin.
Qed.

(** The loops of [Mul]. *)
Lemma Mul_rows (others items : list Z) :
  others <> [] ->
  Forall (fun x => 0 <= x <= 255) others ->
  Forall (fun x => 0 <= x <= 255) items ->
  forall i acc,
    0 <= i -> i + len items + len others - 1 <= len acc ->
    (Forall (fun x => x <> 0) items -> Forall (fun x => x <> 0) others ->
     exists acc',
       for_each_e items i (fun i item acc => for_each_e others 0 (base.Mul_term i item) acc) acc
       = Done (Ok acc')
       /\ length acc' = length acc)
    /\ (items <> [] -> In 0 items \/ In 0 others ->
        for_each_e items i (fun i item acc => for_each_e others 0 (base.Mul_term i item) acc) acc
        = Done (Err (ErrGlog 0))).
Proof.
  intros Hne Hothers Hitems.
  induction Hitems as [|x rest Hx Hrest IH]; intros i acc Hi Hlen.
  - split; [|intros []; reflexivity]. intros _ _. exists acc. split; reflexivity.
  - unfold len in Hlen. cbn [length] in Hlen. rewrite for_each_e_cons.
    destruct (Z.eq_dec x 0) as [->|Hx0].
    + assert (Hrow : for_each_e others 0 (base.Mul_term i 0) acc = Done (Err (ErrGlog 0))).
      { destruct others as [|o others']; [congruence|].
        rewrite for_each_e_cons, Mul_term_zero by (lia || (left; reflexivity)).
        reflexivity. }
      rewrite Hrow. split.
      * intros Hnz. inversion Hnz; subst. congruence.
      * intros _ _. reflexivity.
    + destruct (Mul_row i x others ltac:(lia) Hothers 0 acc ltac:(lia)
                  ltac:(unfold len in *; lia)) as [Rok Rerr].
      destruct (in_dec Z.eq_dec 0 others) as [Hin|Hnin].
      * rewrite (Rerr Hin). split.
        -- intros _ Hnz. rewrite List.Forall_forall in Hnz. specialize (Hnz 0 Hin). congruence.
        -- intros _ _. reflexivity.
      * assert (Hnz : Forall (fun x => x <> 0) others).
        { apply List.Forall_forall. intros y Hy ->. contradiction. }
        destruct (Rok Hnz) as (acc1 & -> & Hl1). cbn [ebind obind].
        destruct (IH (i + 1) acc1 ltac:(lia) ltac:(unfold len in *; lia)) as [IHok IHerr].
        split.
        -- intros Hall _. inversion Hall; subst.
           destruct (IHok ltac:(assumption) Hnz) as (acc' & -> & Hl). exists acc'.
           split; [reflexivity|congruence].
        -- intros _ [[Hin|Hin]|Hin]; [congruence| |contradiction].
           apply IHerr; [|left; exact Hin]. intros ->. destruct Hin.
Qed.

(** X5: [Mul] multiplies two polynomials only when none of their
    coefficients is zero: on non-empty polynomials with coefficients
    between 1 and 255 it returns a product of length
    [Len p + Len other - 1]; as soon as one coefficient of either is zero
    it returns the error [glog(0)]. *)
Theorem Mul_needs_nonzero_coefficients (p other : base.Polynomial)
    (Hp : base.num p <> []) (Hother : base.num other <> [])
    (Hpb : Forall (fun x => 0 <= x <= 255) (base.num p))
    (Hob : Forall (fun x => 0 <= x <= 255) (base.num other)) :
  (Forall (fun x => x <> 0) (base.num p) -> Forall (fun x => x <> 0) (base.num other) ->
   exists q, base.Mul p other = Done (Ok q)
             /\ base.Poly_Len q = base.Poly_Len p + base.Poly_Len other - 1)
  /\ (In 0 (base.num p) \/ In 0 (base.num other) ->
      base.Mul p other = Done (Err (ErrGlog 0))).
Proof.
  assert (Hlp : 1 <= base.Poly_Len p).
  { unfold base.Poly_Len, len. destruct (base.num p); [congruence|cbn; lia]. }
  assert (Hlo : 1 <= base.Poly_Len other).
  { unfold base.Poly_Len, len. destruct (base.num other); [congruence|cbn; lia]. }
  assert (Hmake : make_ints (base.Poly_Len p + base.Poly_Len other - 1)
                  = Done (replicate (Z.to_nat (base.Poly_Len p + base.Poly_Len other - 1)) 0)).
  { unfold make_ints. destruct (_ <? 0) eqn:E; [lia|reflexivity]. }
  destruct (Mul_rows (base.num other) (base.num p) Hother Hob Hpb 0
              (replicate (Z.to_nat (base.Poly_Len p + base.Poly_Len other - 1)) 0)
              ltac:(lia)
              ltac:(unfold len; rewrite length_replicate; unfold base.Poly_Len, len in *; lia))
    as [Hok Herr].
  split.
  - intros Hnp Hno. destruct (Hok Hnp Hno) as (acc' & Hrun & Hl).
    assert (Hrun' : exists q, base.Mul p other = Done (Ok q)).
    { unfold base.Mul. rewrite Hmake. cbn [obind]. rewrite Hrun. cbn [ebind obind].
      unfold base.NewPolynomial.
      destruct (len acc' =? 0) eqn:E.
      { apply Z.eqb_eq in E. unfold len in E. rewrite Hl, length_replicate in E. lia. }
      cbn. eexists. reflexivity. }
    destruct Hrun' as (q & Hq). exists q. split; [exact Hq|].
    apply (Mul_length p other q Hp Hother Hq).
  - intros Hz. unfold base.Mul. rewrite Hmake. cbn [obind].
    rewrite (Herr Hp Hz). reflexivity.
Qed.

Lemma Mul_needs_nonzero_coefficients_witness :
  (Forall (fun x => x <> 0) [1; 1] -> Forall (fun x => x <> 0) [1; 2] ->
   exists q, base.Mul {| base.num := [1; 1] |} {| base.num := [1; 2] |} = Done (Ok q)
             /\ base.Poly_Len q
                = base.Poly_Len {| base.num := [1; 1] |}
                  + base.Poly_Len {| base.num := [1; 2] |} - 1)
  /\ (In 0 [1; 1] \/ In 0 [1; 2] ->
      base.Mul {| base.num := [1; 1] |} {| base.num := [1; 2] |} = Done (Err (ErrGlog 0))).
Proof.
  apply (Mul_needs_nonzero_coefficients {| base.num := [1; 1] |} {| base.num := [1; 2] |});
    cbn [base.num]; try congruence; repeat constructor; lia.
Defined.

Lemma rs_blocks_checked :
  forallb (fun v => forallb (rs_blocks_check v) (seqZ 0 4)) (seqZ 1 40) = true.
Proof. vm_compute. reflexivity. Qed.

Lemma rs_blocks_check_sound (version errorCorrection : Z) :
  1 <= version <= 40 -> 0 <= errorCorrection <= 3 ->
  rs_blocks_check version errorCorrection = true.
Proof.
  intros Hv He.
  pose proof (forallb_seqZ _ _ _ version rs_blocks_checked ltac:(lia)) as Hc.
  cbv beta in Hc. apply (forallb_seqZ _ _ _ errorCorrection Hc). lia.
Qed.

(** X6: for every version from 1 to 40 and each of the four levels
    [RSBlocks] returns a non-empty block list; every block has at least one
    data codeword and at least one error-correction codeword; all blocks of
    a list have the same number of error-correction codewords and data
    counts that differ by one at most; and the number of codewords of a
    version is the same at every level. *)
Theorem RSBlocks_shape (version errorCorrection : Z)
    (Hversion : 1 <= version <= 40) (Hlevel : 0 <= errorCorrection <= 3) :
  exists blocks,
    base.RSBlocks version errorCorrection = Done (Ok blocks)
    /\ blocks <> []
    /\ (forall b, In b blocks -> 0 < base.DataCount b < base.TotalCount b)
    /\ (forall b b', In b blocks -> In b' blocks ->
          base.TotalCount b - base.DataCount b = base.TotalCount b' - base.DataCount b'
          /\ -1 <= base.DataCount b - base.DataCount b' <= 1)
    /\ (forall level' blocks',
          0 <= level' <= 3 -> base.RSBlocks version level' = Done (Ok blocks') ->
          total_codewords blocks' = total_codewords blocks).
Proof.
  pose proof (rs_blocks_check_sound version errorCorrection Hversion Hlevel) as Hc.
  unfold rs_blocks_check in Hc.
  destruct (base.RSBlocks version errorCorrection) as [[blocks|e]| |] eqn:Hrun;
    try discriminate.
  destruct (base.RSBlocks version constants.ERROR_CORRECT_L) as [[blocksL|e]| |] eqn:HrunL;
    try discriminate.
  apply andb_true_iff in Hc as [Hc H4]. apply andb_true_iff in Hc as [Hc H3].
  apply andb_true_iff in Hc as [H1 H2].
  exists blocks. split; [reflexivity|]. split; [|split; [|split]].
  - intros ->. discriminate.
  - intros b Hb. apply (proj1 (forallb_forall _ _) H2) in Hb. lia.
  - intros b b' Hb Hb'. apply (proj1 (forallb_forall _ _) H3) in Hb.
    apply (proj1 (forallb_forall _ _) Hb) in Hb'. lia.
  - intros level' blocks' Hl' Hrun'.
    pose proof (rs_blocks_check_sound version level' Hversion Hl') as Hc'.
    unfold rs_blocks_check in Hc'. rewrite Hrun', HrunL in Hc'.
    apply andb_true_iff in Hc' as [_ H4']. lia.
Qed.

Lemma RSBlocks_shape_witness :
  exists blocks,
    base.RSBlocks 5 2 = Done (Ok blocks)
    /\ blocks <> []
    /\ (forall b, In b blocks -> 0 < base.DataCount b < base.TotalCount b)
    /\ (forall b b', In b blocks -> In b' blocks ->
          base.TotalCount b - base.DataCount b = base.TotalCount b' - base.DataCount b'
          /\ -1 <= base.DataCount b - base.DataCount b' <= 1)
    /\ (forall level' blocks',
          0 <= level' <= 3 -> base.RSBlocks 5 level' = Done (Ok blocks') ->
          total_codewords blocks' = total_codewords blocks).
Proof. apply (RSBlocks_shape 5 2); lia. Defined.

(** X7: [RSBlocks] returns the error [bad rs block] for a level that is
    not a key of [RS_BLOCK_OFFSET], before it looks at the version; for a
    known level and a version outside 1..40 it indexes [RS_BLOCK_TABLE] out
    of range and panics.  The second part is for the versions on which the
    product [(version-1)*4] of the index stays in the range of [int]. *)
Theorem RSBlocks_bad_arguments (version errorCorrection : Z) :
  (errorCorrection < 0 \/ 3 < errorCorrection ->
   base.RSBlocks version errorCorrection
   = Done (Err (ErrBadRSBlock version errorCorrection)))
  /\ (0 <= errorCorrection <= 3 -> version < 1 \/ 40 < version ->
      int_range ((version - 1) * 4) ->
      base.RSBlocks version errorCorrection = Panicked IndexOutOfRange).
Proof.
  split.
  - intros He. unfold base.RSBlocks, base.RS_BLOCK_OFFSET.
    unfold constants.ERROR_CORRECT_L, constants.ERROR_CORRECT_M,
      constants.ERROR_CORRECT_Q, constants.ERROR_CORRECT_H.
    rewrite !lookup_insert_ne by lia. rewrite lookup_empty. reflexivity.
  - intros He Hv _. unfold base.RSBlocks.
    assert (Hoff : base.RS_BLOCK_OFFSET !! errorCorrection = Some errorCorrection).
    { assert (H : errorCorrection = 0 \/ errorCorrection = 1 \/ errorCorrection = 2
                  \/ errorCorrection = 3) by lia.
      destruct H as [-> | [-> | [-> | ->]]]; reflexivity. }
    rewrite Hoff. rewrite index_out_of_range; [reflexivity|].
    change (len base.RS_BLOCK_TABLE) with 160. lia.
Qed.

(** ** Further properties of package [utils] *)

Lemma BisectLeft_loop_spec (a : list Z) (x : Z) (fuel : nat) :
  forall lo hi,
    0 <= lo -> lo <= hi -> hi <= len a -> hi - lo < Z.of_nat fuel ->
    exists k,
      utils.BisectLeft_loop fuel a x lo hi = Done k
      /\ lo <= k <= hi
      /\ (sorted a ->
          (forall i, 0 <= i < lo -> nth (Z.to_nat i) a 0 < x) ->
          (forall i, hi <= i < len a -> x <= nth (Z.to_nat i) a 0) ->
          (forall i, 0 <= i < k -> nth (Z.to_nat i) a 0 < x)
          /\ (forall i, k <= i < len a -> x <= nth (Z.to_nat i) a 0)).
Proof.
  induction fuel as [|fuel IH]; intros lo hi Hlo Hle Hhi Hfuel; [lia|].
  cbn [utils.BisectLeft_loop]. destruct (lo <? hi) eqn:E.
  - rewrite Z.quot_div_nonneg by lia.
    assert (Hmid : lo <= (lo + hi) / 2 < hi).
    { split; [apply Z.div_le_lower_bound; lia | apply Z.div_lt_upper_bound; lia]. }
    set (mid := (lo + hi) / 2) in *.
    rewrite (index_nth a mid 0) by lia. cbn [obind].
    destruct (nth (Z.to_nat mid) a 0 <? x) eqn:Ev.
    + destruct (IH (mid + 1) hi ltac:(lia) ltac:(lia) Hhi ltac:(lia)) as (k & -> & Hk & Hs).
      exists k. split; [reflexivity|]. split; [lia|].
      intros Hsorted Hbelow Habove. apply Hs; [exact Hsorted| |exact Habove].
      intros i Hi. pose proof (Hsorted i mid ltac:(lia) ltac:(lia) ltac:(lia)). lia.
    + destruct (IH lo mid Hlo ltac:(lia) ltac:(lia) ltac:(lia)) as (k & -> & Hk & Hs).
      exists k. split; [reflexivity|]. split; [lia|].
      intros Hsorted Hbelow Habove. apply Hs; [exact Hsorted|exact Hbelow|].
      intros i Hi. pose proof (Hsorted mid i ltac:(lia) ltac:(lia) ltac:(lia)). lia.
  - exists lo. split; [reflexivity|]. split; [lia|].
    intros _ Hbelow Habove. split; [exact Hbelow|].
    intros i Hi. apply Habove. lia.
Qed.

(** X8: [BisectLeft] never indexes out of range and returns a position
    between 0 and [len(a)]; on a slice in non-decreasing order this is
    the insertion point of [x]: every element before it is smaller than
    [x], every element from it on is at least [x]. *)
Theorem BisectLeft_insertion_point (a : list Z) (x : Z) :
  exists k,
    utils.BisectLeft a x = Done k
    /\ 0 <= k <= len a
    /\ (sorted a ->
        (forall i, 0 <= i < k -> nth (Z.to_nat i) a 0 < x)
        /\ (forall i, k <= i < len a -> x <= nth (Z.to_nat i) a 0)).
Proof.
  unfold utils.BisectLeft.
  destruct (BisectLeft_loop_spec a x (S (length a)) 0 (len a)
              ltac:(lia) ltac:(unfold len; lia) ltac:(lia) ltac:(unfold len; lia))
    as (k & Hrun & Hk & Hs).
  exists k. split; [exact Hrun|]. split; [exact Hk|].
  intros Hsorted. apply Hs; [exact Hsorted| |]; intros i Hi; lia.
Qed.

(** The rows of [BIT_LIMIT_TABLE] from version 1 on. *)
Lemma BIT_LIMIT_TABLE_checked :
  forallb (fun ec =>
    match index qr.BIT_LIMIT_TABLE ec with
    | Done row =>
        (len row =? 41) && (nth 0 row 0 =? 0)
        && forallb (fun v =>
             match index row v, index row (v + 1), base.RSBlocks (v + 1) ec with
             | Done x, Done y, Done (Ok blocks) =>
                 (x <? y)
                 && (y =? fold_left (fun t b => t + 8 * base.DataCount b) blocks 0)
             | _, _, _ => false
             end) (seqZ 0 40)
    | _ => false
    end) (seqZ 0 4) = true.
Proof. vm_compute. reflexivity. Qed.

Lemma increasing_from_adjacent (row : list Z) (n : Z) :
  (forall v, 0 <= v < n -> nth (Z.to_nat v) row 0 < nth (Z.to_nat (v + 1)) row 0) ->
  forall v v', 0 <= v -> v < v' -> v' <= n ->
    nth (Z.to_nat v) row 0 < nth (Z.to_nat v') row 0.
Proof.
  intros Hadj v v' Hv Hlt Hn.
  replace v' with (v + 1 + Z.of_nat (Z.to_nat (v' - v - 1))) in * by lia.
  induction (Z.to_nat (v' - v - 1)) as [|d IH].
  - rewrite Z.add_0_r. apply Hadj. lia.
  - specialize (IH ltac:(lia) ltac:(lia)).
    pose proof (Hadj (v + 1 + Z.of_nat d) ltac:(lia)) as Hstep.
    replace (v + 1 + Z.of_nat (S d)) with (v + 1 + Z.of_nat d + 1) by lia. lia.
Qed.

(** X9: each of the four rows of [BIT_LIMIT_TABLE] has 41 entries: entry
    0 is zero and entry [v], for a version from 1 to 40, is eight times the
    data codewords [RSBlocks] gives.  A row increases strictly with the
    version, so that [BisectLeft] on it returns the smallest version whose
    limit holds [x] bits (41 when none does). *)
Theorem BIT_LIMIT_TABLE_rows_increase (errorCorrection : Z)
    (Hlevel : 0 <= errorCorrection <= 3) :
  exists row,
    index qr.BIT_LIMIT_TABLE errorCorrection = Done row
    /\ len row = 41
    /\ nth 0 row 0 = 0
    /\ (forall v, 1 <= v <= 40 ->
          exists blocks,
            base.RSBlocks v errorCorrection = Done (Ok blocks)
            /\ nth (Z.to_nat v) row 0
               = fold_left (fun t b => t + 8 * base.DataCount b) blocks 0)
    /\ (forall v v', 0 <= v -> v < v' -> v' <= 40 ->
          nth (Z.to_nat v) row 0 < nth (Z.to_nat v') row 0)
    /\ (forall x, exists k,
          utils.BisectLeft row x = Done k
          /\ 0 <= k <= 41
          /\ (forall v, 0 <= v < k -> nth (Z.to_nat v) row 0 < x)
          /\ (forall v, k <= v <= 40 -> x <= nth (Z.to_nat v) row 0)).
Proof.
  pose proof (forallb_seqZ _ _ _ errorCorrection BIT_LIMIT_TABLE_checked ltac:(lia)) as Hc.
  cbv beta in Hc.
  destruct (index qr.BIT_LIMIT_TABLE errorCorrection) as [row| |] eqn:Hrow; try discriminate.
  apply andb_true_iff in Hc as [Hlen Hc]. apply andb_true_iff in Hlen as [Hlen H0].
  apply Z.eqb_eq in Hlen. apply Z.eqb_eq in H0.
  assert (Hadj : forall v, 0 <= v < 40 ->
            nth (Z.to_nat v) row 0 < nth (Z.to_nat (v + 1)) row 0
            /\ exists blocks,
                 base.RSBlocks (v + 1) errorCorrection = Done (Ok blocks)
                 /\ nth (Z.to_nat (v + 1)) row 0
                    = fold_left (fun t b => t + 8 * base.DataCount b) blocks 0).
  { intros v Hv. pose proof (forallb_seqZ _ _ _ v Hc ltac:(lia)) as Hv'. cbv beta in Hv'.
    rewrite (index_nth row v 0), (index_nth row (v + 1) 0) in Hv' by lia.
    destruct (base.RSBlocks (v + 1) errorCorrection) as [[blocks|e]| |]; try discriminate.
    apply andb_true_iff in Hv' as [H1 H2]. split; [lia|].
    exists blocks. split; [reflexivity|lia]. }
  assert (Hinc : forall v v', 0 <= v -> v < v' -> v' <= 40 ->
            nth (Z.to_nat v) row 0 < nth (Z.to_nat v') row 0).
  { apply increasing_from_adjacent. intros v Hv. apply Hadj. exact Hv. }
  exists row. split; [reflexivity|]. split; [exact Hlen|]. split; [exact H0|].
  split; [|split; [exact Hinc|]].
  - intros v Hv. destruct (Hadj (v - 1) ltac:(lia)) as [_ (blocks & Hb & Hn)].
    replace (v - 1 + 1) with v in * by lia. exists blocks. split; assumption.
  - intros x.
    destruct (BisectLeft_loop_spec row x (S (length row)) 0 (len row)
                ltac:(lia) ltac:(unfold len; lia) ltac:(lia) ltac:(unfold len; lia))
      as (k & Hrun & Hk & Hs).
    exists k. split; [exact Hrun|]. split; [lia|].
    assert (Hsorted : sorted row).
    { intros i j Hi Hij Hj. destruct (Z.eq_dec i j) as [->|Hne]; [lia|].
      pose proof (Hinc i j Hi ltac:(lia) ltac:(lia)). lia. }
    destruct (Hs Hsorted ltac:(intros; lia) ltac:(intros; lia)) as [Hb Ha].
    split; [exact Hb|]. intros v Hv. apply Ha. lia.
Qed.

Lemma BIT_LIMIT_TABLE_rows_increase_witness :
  exists row,
    index qr.BIT_LIMIT_TABLE 1 = Done row
    /\ len row = 41
    /\ nth 0 row 0 = 0
    /\ (forall v, 1 <= v <= 40 ->
          exists blocks,
            base.RSBlocks v 1 = Done (Ok blocks)
            /\ nth (Z.to_nat v) row 0
               = fold_left (fun t b => t + 8 * base.DataCount b) blocks 0)
    /\ (forall v v', 0 <= v -> v < v' -> v' <= 40 ->
          nth (Z.to_nat v) row 0 < nth (Z.to_nat v') row 0)
    /\ (forall x, exists k,
          utils.BisectLeft row x = Done k
          /\ 0 <= k <= 41
          /\ (forall v, 0 <= v < k -> nth (Z.to_nat v) row 0 < x)
          /\ (forall v, k <= v <= 40 -> x <= nth (Z.to_nat v) row 0)).
Proof. apply (BIT_LIMIT_TABLE_rows_increase 1); lia. Defined.

Lemma BCHDigit_loop_counts (fuel : nat) :
  forall digit data,
    0 <= data < 2 ^ Z.of_nat fuel ->
    utils.BCHDigit_loop fuel digit data
    = Done (digit + (if data =? 0 then 0 else Z.log2 data + 1)).
Proof.
  induction fuel as [|fuel IH]; intros digit data Hd.
  - assert (data = 0) as -> by (cbn in Hd; lia). cbn. f_equal. lia.
  - cbn [utils.BCHDigit_loop]. destruct (data =? 0) eqn:E; [f_equal; lia|].
    apply Z.eqb_neq in E.
    assert (Hhalf : 0 <= Z.shiftr data 1 < 2 ^ Z.of_nat fuel).
    { rewrite Z.shiftr_div_pow2 by lia. change (2 ^ 1) with 2.
      rewrite Nat2Z.inj_succ, Z.pow_succ_r in Hd by lia.
      split; [apply Z.div_pos; lia | apply Z.div_lt_upper_bound; lia]. }
    rewrite IH by exact Hhalf. f_equal.
    destruct (Z.shiftr data 1 =? 0) eqn:E2.
    + apply Z.eqb_eq in E2. rewrite Z.shiftr_div_pow2 in E2 by lia. change (2 ^ 1) with 2 in E2.
      assert (data = 1).
      { pose proof (Z.div_mod data 2 ltac:(lia)).
        pose proof (Z.mod_pos_bound data 2 ltac:(lia)). lia. }
      subst data. change (Z.log2 1) with 0. lia.
    + rewrite Z.log2_shiftr by lia.
      apply Z.eqb_neq in E2.
      assert (1 <= Z.log2 data).
      { destruct (Z.eq_dec data 1) as [->|Hne]; [exfalso; apply E2; reflexivity|].
        apply Z.log2_le_pow2; [lia|]. cbn. lia. }
      lia.
Qed.

Lemma BCHDigit_loop_negative (fuel : nat) :
  forall digit data, data < 0 -> utils.BCHDigit_loop fuel digit data = OutOfFuel.
Proof.
  induction fuel as [|fuel IH]; intros digit data Hd; cbn [utils.BCHDigit_loop];
    (destruct (data =? 0) eqn:E; [lia|]); [reflexivity|].
  apply IH. apply Z.shiftr_neg. exact Hd.
Qed.

(** X10: on a non-negative [int], [BCHDigit] is the length of the binary
    representation: 0 for 0 and [log2(data) + 1] otherwise.  On a negative
    [int] the loop never ends, whatever the number of rounds allowed: the
    arithmetic shift keeps the sign. *)
Theorem BCHDigit_is_bit_length (data : Z) :
  (0 <= data < 2 ^ 63 ->
   utils.BCHDigit data = Done (if data =? 0 then 0 else Z.log2 data + 1))
  /\ (data < 0 -> forall fuel, utils.BCHDigit_loop fuel 0 data = OutOfFuel).
Proof.
  split.
  - intros Hd. unfold utils.BCHDigit.
    rewrite BCHDigit_loop_counts by (change (2 ^ Z.of_nat 64) with (2 * 2 ^ 63); lia).
    reflexivity.
  - intros Hd fuel. apply BCHDigit_loop_negative. exact Hd.
Qed.

Lemma BCHTypeNumber_checked :
  forallb (fun v =>
    match utils.BCHTypeNumber v with
    | Done word =>
        (0 <=? word) && (word <? 2 ^ 18) && (Z.shiftr word 12 =? v)
        && existsb (fun q => clmul q utils.G18 =? word) (seqZ 0 64)
    | _ => false
    end) (seqZ 1 63) = true.
Proof. vm_compute. reflexivity. Qed.

(** X11: for every six-bit value from 1 to 63, and so for every version
    from 7 to 40, [BCHTypeNumber] returns an 18-bit word whose six high
    bits are the value and which is a multiple of the generator [G18] as a
    binary polynomial. *)
Theorem BCHTypeNumber_is_codeword (version : Z) (Hversion : 1 <= version <= 63) :
  exists word q,
    utils.BCHTypeNumber version = Done word
    /\ 0 <= word < 2 ^ 18
    /\ Z.shiftr word 12 = version
    /\ clmul q utils.G18 = word.
Proof.
  pose proof (forallb_seqZ _ _ _ version BCHTypeNumber_checked ltac:(lia)) as Hc.
  cbv beta in Hc.
  destruct (utils.BCHTypeNumber version) as [word| |]; try discriminate.
  apply andb_true_iff in Hc as [Hc H4]. apply andb_true_iff in Hc as [Hc H3].
  apply andb_true_iff in Hc as [H1 H2].
  apply existsb_exists in H4 as (q & _ & Hq).
  exists word, q. split; [reflexivity|]. split; [lia|]. split; lia.
Qed.

Lemma BCHTypeNumber_is_codeword_witness :
  exists word q,
    utils.BCHTypeNumber 7 = Done word
    /\ 0 <= word < 2 ^ 18
    /\ Z.shiftr word 12 = 7
    /\ clmul q utils.G18 = word.
Proof. apply (BCHTypeNumber_is_codeword 7); lia. Defined.

Lemma BCH_distances_checked :
  forallb (fun a =>
    forallb (fun b =>
      (a =? b)
      || match utils.BCHTypeInfo a, utils.BCHTypeInfo b with
         | Done x, Done y => 7 <=? popcount (Z.lxor x y)
         | _, _ => false
         end) (seqZ 0 32)) (seqZ 0 32)
  && forallb (fun a =>
    forallb (fun b =>
      (a =? b)
      || match utils.BCHTypeNumber a, utils.BCHTypeNumber b with
         | Done x, Done y => 8 <=? popcount (Z.lxor x y)
         | _, _ => false
         end) (seqZ 7 34)) (seqZ 7 34) = true.
Proof. vm_compute. reflexivity. Qed.

(** X12: the format words [BCHTypeInfo] gives to two different five-bit
    values differ in at least 7 of their 15 bits, and the version words
    [BCHTypeNumber] gives to two different versions from 7 to 40 differ in
    at least 8 of their 18 bits. *)
Theorem BCH_words_are_far_apart (a b : Z) (Hab : a <> b) :
  (0 <= a < 32 -> 0 <= b < 32 ->
   exists x y, utils.BCHTypeInfo a = Done x /\ utils.BCHTypeInfo b = Done y
               /\ 7 <= popcount (Z.lxor x y))
  /\ (7 <= a <= 40 -> 7 <= b <= 40 ->
      exists x y, utils.BCHTypeNumber a = Done x /\ utils.BCHTypeNumber b = Done y
                  /\ 8 <= popcount (Z.lxor x y)).
Proof.
  pose proof BCH_distances_checked as Hc. apply andb_true_iff in Hc as [H1 H2].
  split; intros Ha Hb.
  - pose proof (forallb_seqZ _ _ _ a H1 ltac:(clear H1 H2; lia)) as Hc. cbv beta in Hc.
    pose proof (forallb_seqZ _ _ _ b Hc ltac:(clear H1 H2 Hc; lia)) as Hc'. cbv beta in Hc'.
    clear H1 H2 Hc.
    apply orb_true_iff in Hc' as [Hc'|Hc']; [apply Z.eqb_eq in Hc'; contradiction|].
    destruct (utils.BCHTypeInfo a) as [x| |]; try discriminate.
    destruct (utils.BCHTypeInfo b) as [y| |]; try discriminate.
    exists x, y. split; [reflexivity|]. split; [reflexivity|lia].
  - pose proof (forallb_seqZ _ _ _ a H2 ltac:(clear H1 H2; lia)) as Hc. cbv beta in Hc.
    pose proof (forallb_seqZ _ _ _ b Hc ltac:(clear H1 H2 Hc; lia)) as Hc'. cbv beta in Hc'.
    clear H1 H2 Hc.
    apply orb_true_iff in Hc' as [Hc'|Hc']; [apply Z.eqb_eq in Hc'; contradiction|].
    destruct (utils.BCHTypeNumber a) as [x| |]; try discriminate.
    destruct (utils.BCHTypeNumber b) as [y| |]; try discriminate.
    exists x, y. split; [reflexivity|]. split; [reflexivity|lia].
Qed.

Lemma BCH_words_are_far_apart_witness :
  (0 <= 9 < 32 -> 0 <= 12 < 32 ->
   exists x y, utils.BCHTypeInfo 9 = Done x /\ utils.BCHTypeInfo 12 = Done y
               /\ 7 <= popcount (Z.lxor x y))
  /\ (7 <= 9 <= 40 -> 7 <= 12 <= 40 ->
      exists x y, utils.BCHTypeNumber 9 = Done x /\ utils.BCHTypeNumber 12 = Done y
                  /\ 8 <= popcount (Z.lxor x y)).
Proof. apply (BCH_words_are_far_apart 9 12). lia. Defined.

(** What [PutBit] stores: the new bit at position [length], the bits
    before it unchanged. *)
Lemma PutBit_appends (b : utils.BitBuffer) (bit : bool) :
  buffer_inv b ->
  exists b', utils.PutBit b bit = Done b'
             /\ buffer_inv b'
             /\ utils.bb_length b' = utils.bb_length b + 1
             /\ forall i, 0 <= i <= utils.bb_length b ->
                  stored_bit (utils.buffer b') i
                  = if i =? utils.bb_length b then bit else stored_bit (utils.buffer b) i.
Proof.
  intros Hinv. destruct (PutBit_inv b bit Hinv) as (b' & Hput & Hinv' & Hlen').
  exists b'. split; [exact Hput|]. split; [exact Hinv'|]. split; [exact Hlen'|].
  destruct Hinv as (Hlen & Hsize & Hzero).
  destruct b as [buf L]. cbn [utils.buffer utils.bb_length] in *.
  unfold utils.PutBit in Hput. cbn [utils.buffer utils.bb_length] in Hput.
  rewrite Z.quot_div_nonneg, Z.rem_mod_nonneg in Hput by lia.
  assert (Hk : 0 <= L mod 8 < 8) by (apply Z.mod_pos_bound; lia).
  assert (HL : L = 8 * (L / 8) + L mod 8) by (apply Z.div_mod; lia).
  assert (Hq : 0 <= L / 8) by (apply Z.div_pos; lia).
  unfold len in Hsize.
  intros i Hi.
  assert (Hi8 : 0 <= i mod 8 < 8) by (apply Z.mod_pos_bound; lia).
  assert (Hidm : i = 8 * (i / 8) + i mod 8) by (apply Z.div_mod; lia).
  assert (Hiq : 0 <= i / 8) by (apply Z.div_pos; lia).
  assert (Hile : i / 8 <= L / 8) by (apply Z.div_le_mono; lia).
  destruct (Z.eq_dec (L mod 8) 0) as [Hk0 | Hk0].
  - (* a new byte is appended *)
    assert (Hn : Z.of_nat (length buf) = L / 8).
    { rewrite Hsize. replace (L + 7) with (7 + (L / 8) * 8) by lia.
      rewrite Z.div_add by lia. reflexivity. }
    destruct (Z.of_nat (length buf) <=? L / 8) eqn:E; [|lia].
    set (v := if bit then 128 else 0).
    assert (Hres : (if bit
                    then do w <- index (buf ++ [0]) (L / 8);
                         do m <- shr 128 (L mod 8);
                         store (buf ++ [0]) (L / 8) (Z.lor w m)
                    else Done (buf ++ [0])) = Done (buf ++ [v])).
    { destruct bit; [|reflexivity].
      rewrite index_nth with (d := 0) by (unfold len; rewrite length_app; simpl; lia).
      replace (Z.to_nat (L / 8)) with (length buf + 0)%nat by lia.
      rewrite app_nth2_plus. simpl.
      rewrite Hk0. simpl.
      rewrite store_in_range by (unfold len; rewrite length_app; simpl; lia).
      replace (Z.to_nat (L / 8)) with (length buf + 0)%nat by lia.
      rewrite insert_app_r. reflexivity. }
    rewrite Hres in Hput. cbn [obind] in Hput. injection Hput as <-.
    cbn [utils.buffer].
    destruct (i =? L) eqn:EiL.
    + apply Z.eqb_eq in EiL. subst i. unfold stored_bit.
      replace (Z.to_nat (L / 8)) with (length buf + 0)%nat by lia.
      rewrite app_nth2_plus. cbn [nth]. rewrite Hk0. subst v.
      destruct bit; reflexivity.
    + apply Z.eqb_neq in EiL. apply stored_bit_app_old. unfold len. lia.
  - (* the last byte is completed *)
    assert (Hn : Z.of_nat (length buf) = L / 8 + 1).
    { rewrite Hsize. replace (L + 7) with ((L mod 8 + 7) + (L / 8) * 8) by lia.
      rewrite Z.div_add by lia.
      assert ((L mod 8 + 7) / 8 = 1) as ->; [|lia].
      symmetry. apply Z.div_unique with (r := L mod 8 - 1); lia. }
    destruct (Z.of_nat (length buf) <=? L / 8) eqn:E; [lia|].
    set (w := nth (Z.to_nat (L / 8)) buf 0).
    set (v := if bit then Z.lor w (Z.shiftr 128 (L mod 8)) else w).
    assert (Hres : (if bit
                    then do w <- index buf (L / 8);
                         do m <- shr 128 (L mod 8);
                         store buf (L / 8) (Z.lor w m)
                    else Done buf) = Done (<[Z.to_nat (L / 8) := v]> buf)).
    { subst v. destruct bit.
      - rewrite index_nth with (d := 0) by (unfold len; lia). simpl. unfold shr.
        destruct (L mod 8 <? 0) eqn:E2; [lia|]. simpl.
        rewrite store_in_range by (unfold len; lia). reflexivity.
      - f_equal. symmetry. apply list_insert_id.
        subst w. apply lookup_nth. lia. }
    rewrite Hres in Hput. cbn [obind] in Hput. injection Hput as <-.
    cbn [utils.buffer]. unfold stored_bit.
    destruct (Z.eq_dec (i / 8) (L / 8)) as [Heq | Hne].
    + rewrite Heq. rewrite nth_lookup, list_lookup_insert_eq by lia. cbn [default].
      unfold id. fold w. subst v.
      destruct (i =? L) eqn:EiL.
      * apply Z.eqb_eq in EiL. subst i.
        specialize (Hzero L ltac:(lia)). unfold stored_bit in Hzero. fold w in Hzero.
        destruct bit; [|exact Hzero].
        rewrite Z.lor_spec, Hzero. cbn [orb].
        rewrite testbit_top_bit by lia. apply Z.eqb_eq. lia.
      * apply Z.eqb_neq in EiL.
        destruct bit; [|reflexivity].
        rewrite Z.lor_spec, testbit_top_bit by lia.
        replace (7 - i mod 8 + L mod 8 =? 7) with false by (symmetry; apply Z.eqb_neq; lia).
        apply orb_false_r.
    + destruct (i =? L) eqn:EiL; [apply Z.eqb_eq in EiL; subst i; congruence|].
      rewrite nth_lookup, list_lookup_insert_ne by lia.
      rewrite <- nth_lookup. reflexivity.
Qed.

Lemma seqZ_snoc (n : Z) : 0 <= n -> seqZ 0 (n + 1) = seqZ 0 n ++ [n].
Proof.
  intros Hn. rewrite seqZ_app by lia. f_equal.
Qed.

Lemma PutBit_bits (b : utils.BitBuffer) (bit : bool) :
  buffer_inv b ->
  exists b', utils.PutBit b bit = Done b' /\ buffer_inv b' /\ bits_of b' = bits_of b ++ [bit].
Proof.
  intros Hinv. destruct (PutBit_appends b bit Hinv) as (b' & Hput & Hinv' & Hlen' & Hbits).
  exists b'. split; [exact Hput|]. split; [exact Hinv'|].
  destruct Hinv as (Hlen & _). unfold bits_of. rewrite Hlen', seqZ_snoc by lia.
  rewrite map_app. cbn [map]. f_equal.
  - apply map_ext_in. intros i Hi. apply list_elem_of_In, elem_of_seqZ in Hi.
    rewrite Hbits by lia. destruct (i =? utils.bb_length b) eqn:E; [lia|reflexivity].
  - rewrite Hbits by lia. rewrite Z.eqb_refl. reflexivity.
Qed.

Lemma length_bits_of (b : utils.BitBuffer) :
  0 <= utils.bb_length b -> len (bits_of b) = utils.bb_length b.
Proof.
  intros Hb. unfold bits_of, len. rewrite length_map, length_seqZ. lia.
Qed.

(** The loop of [Put] from round [i] on. *)
Lemma Put_loop_bits (num n : Z) (k : nat) :
  forall i b,
    0 <= i -> i + Z.of_nat k <= n -> buffer_inv b ->
    exists b',
      for_loop k i (fun i b => do s <- shr num (n - i - 1);
                               utils.PutBit b (Z.land s 1 =? 1)) b = Done b'
      /\ buffer_inv b'
      /\ bits_of b'
         = bits_of b ++ map (fun j => Z.testbit num (n - 1 - j)) (seqZ i (Z.of_nat k)).
Proof.
  induction k as [|k IH]; intros i b Hi Hn Hinv.
  - exists b. split; [reflexivity|]. split; [exact Hinv|].
    change (seqZ i (Z.of_nat 0)) with (@nil Z). cbn [map]. rewrite app_nil_r. reflexivity.
  - cbn [for_loop]. unfold shr at 1.
    destruct (n - i - 1 <? 0) eqn:E; [lia|]. cbn [obind].
    rewrite land_one_testbit by lia.
    destruct (PutBit_bits b (Z.testbit num (n - i - 1)) Hinv) as (b1 & -> & Hinv1 & Hb1).
    cbn [obind].
    destruct (IH (i + 1) b1 ltac:(lia) ltac:(lia) Hinv1) as (b' & Hrun & Hinv' & Hb').
    exists b'. split; [exact Hrun|]. split; [exact Hinv'|].
    rewrite Hb', Hb1, <- app_assoc. f_equal.
    rewrite Nat2Z.inj_succ. unfold Z.succ.
    rewrite (Z.add_comm (Z.of_nat k) 1), seqZ_app by lia.
    rewrite map_app. f_equal.
    replace (seqZ i 1) with [i] by (unfold seqZ; cbn; f_equal; lia).
    cbn [map]. do 2 f_equal. lia.
Qed.

Lemma Put_bits (b : utils.BitBuffer) (num n : Z) :
  buffer_inv b ->
  exists b', utils.Put b num n = Done b' /\ buffer_inv b'
             /\ bits_of b' = bits_of b ++ field_bits num n.
Proof.
  intros Hinv. unfold utils.Put, for_range, field_bits.
  destruct (Z_le_gt_dec 0 n) as [Hn|Hn].
  - destruct (Put_loop_bits num n (Z.to_nat (n - 0)) 0 b ltac:(lia) ltac:(lia) Hinv)
      as (b' & Hrun & Hinv' & Hb').
    exists b'. split; [exact Hrun|]. split; [exact Hinv'|].
    rewrite Hb'. do 3 f_equal. lia.
  - replace (Z.to_nat (n - 0)) with 0%nat by lia. exists b. cbn [for_loop].
    split; [reflexivity|]. split; [exact Hinv|].
    unfold seqZ. replace (Z.to_nat n) with 0%nat by lia. cbn. rewrite app_nil_r. reflexivity.
Qed.

Lemma Get_bits (b : utils.BitBuffer) (i : Z) :
  buffer_inv b -> 0 <= i < utils.bb_length b ->
  utils.Get b i = Done (nth (Z.to_nat i) (bits_of b) false).
Proof.
  intros (Hlen & Hsize & _) Hi.
  rewrite Get_stored_bit.
  - f_equal. unfold bits_of.
    rewrite nth_lookup. rewrite list_lookup_fmap.
    rewrite (lookup_seqZ_lt 0 (utils.bb_length b) (Z.to_nat i)) by lia.
    cbn. f_equal. lia.
  - rewrite Hsize. pose proof (Z.div_mod (utils.bb_length b + 7) 8 ltac:(lia)).
    pose proof (Z.mod_pos_bound (utils.bb_length b + 7) 8 ltac:(lia)). lia.
Qed.

Lemma length_field_bits (num n : Z) : len (field_bits num n) = Z.max 0 n.
Proof. unfold field_bits, len. rewrite length_map, length_seqZ. lia. Qed.

(** X13: on a buffer built with [NewBitBuffer] and [PutBit],
    [Put(num, n)] never fails and appends the [n] low bits of [num], most
    significant first: the length grows by [n], [Get] reads the bits
    already there as before, and [Get(Len + i)] is bit [n - 1 - i] of
    [num]. *)
Theorem Put_then_Get (b : utils.BitBuffer) (num n : Z)
    (Hb : built b) (Hn : 0 <= n) :
  exists b',
    utils.Put b num n = Done b'
    /\ utils.Len b' = utils.Len b + n
    /\ (forall i, 0 <= i < utils.Len b -> utils.Get b' i = utils.Get b i)
    /\ (forall i, 0 <= i < n ->
          utils.Get b' (utils.Len b + i) = Done (Z.testbit num (n - 1 - i))).
Proof.
  pose proof (built_inv b Hb) as Hinv.
  destruct (Put_bits b num n Hinv) as (b' & Hput & Hinv' & Hbits).
  assert (Hl : 0 <= utils.bb_length b) by (destruct Hinv; assumption).
  assert (Hl' : 0 <= utils.bb_length b') by (destruct Hinv'; assumption).
  assert (Hlen : utils.bb_length b' = utils.bb_length b + n).
  { rewrite <- (length_bits_of b'), Hbits by exact Hl'.
    unfold len. rewrite length_app. fold (len (bits_of b)) (len (field_bits num n)).
    rewrite Nat2Z.inj_add. fold (len (bits_of b)) (len (field_bits num n)).
    rewrite length_bits_of, length_field_bits by exact Hl. lia. }
  exists b'. unfold utils.Len. split; [exact Hput|]. split; [exact Hlen|]. split.
  - intros i Hi. rewrite !Get_bits by (assumption || lia). f_equal.
    rewrite Hbits. apply app_nth1.
    pose proof (length_bits_of b Hl) as Hlb. unfold len in Hlb. lia.
  - intros i Hi. rewrite Get_bits by (assumption || lia). f_equal.
    rewrite Hbits.
    pose proof (length_bits_of b Hl) as Hlb. unfold len in Hlb.
    replace (Z.to_nat (utils.bb_length b + i))
      with (length (bits_of b) + Z.to_nat i)%nat by lia.
    rewrite app_nth2_plus. unfold field_bits.
    rewrite nth_lookup, list_lookup_fmap.
    rewrite (lookup_seqZ_lt 0 n (Z.to_nat i)) by lia. cbn. f_equal. lia.
Qed.

Lemma Put_then_Get_witness :
  exists b',
    utils.Put utils.NewBitBuffer 5 3 = Done b'
    /\ utils.Len b' = utils.Len utils.NewBitBuffer + 3
    /\ (forall i, 0 <= i < utils.Len utils.NewBitBuffer ->
          utils.Get b' i = utils.Get utils.NewBitBuffer i)
    /\ (forall i, 0 <= i < 3 ->
          utils.Get b' (utils.Len utils.NewBitBuffer + i) = Done (Z.testbit 5 (3 - 1 - i))).
Proof. apply (Put_then_Get utils.NewBitBuffer 5 3); [apply built_new | lia]. Defined.

(** ** Segments: what [Write] and [CreateData] append *)

Lemma Put_length (b : utils.BitBuffer) (num n : Z) :
  buffer_inv b ->
  exists b', utils.Put b num n = Done b' /\ buffer_inv b'
             /\ utils.bb_length b' = utils.bb_length b + Z.max 0 n.
Proof.
  intros Hinv. destruct (Put_bits b num n Hinv) as (b' & Hput & Hinv' & Hbits).
  exists b'. split; [exact Hput|]. split; [exact Hinv'|].
  assert (Hl : 0 <= utils.bb_length b) by (destruct Hinv; assumption).
  assert (Hl' : 0 <= utils.bb_length b') by (destruct Hinv'; assumption).
  rewrite <- (length_bits_of b'), Hbits by exact Hl'.
  unfold len. rewrite length_app, Nat2Z.inj_add.
  fold (len (bits_of b)) (len (field_bits num n)).
  rewrite length_bits_of, length_field_bits by exact Hl. reflexivity.
Qed.

Lemma numeric_bits_step (r : Z) : 3 <= r -> numeric_bits r = 10 + numeric_bits (r - 3).
Proof.
  intros Hr. unfold numeric_bits.
  replace (r - 3) with (r + (-1) * 3) by lia.
  rewrite Z.div_add, Z.mod_add by lia. lia.
Qed.

Lemma alnum_bits_step (r : Z) : 2 <= r -> alnum_bits r = 11 + alnum_bits (r - 2).
Proof.
  intros Hr. unfold alnum_bits.
  replace (r - 2) with (r + (-1) * 2) by lia.
  rewrite Z.div_add, Z.mod_add by lia. lia.
Qed.

Lemma Write_numeric_length (d : list Z) (fuel : nat) :
  forall i b,
    0 <= i <= len d -> len d - i <= Z.of_nat fuel -> buffer_inv b ->
    exists b',
      for_step fuel i (len d) 3
        (fun i b =>
           let chars := slice d i (utils.min (i + 3) (len d)) in
           let bitLength := map_get utils.NumberLength (len chars) in
           utils.Put b (utils.bytesToInt chars) bitLength) b = Done b'
      /\ buffer_inv b'
      /\ utils.bb_length b' = utils.bb_length b + numeric_bits (len d - i).
Proof.
  induction fuel as [|fuel IH]; intros i b Hi Hfuel Hinv.
  - assert (i = len d) as -> by lia. cbn [for_step]. rewrite Z.ltb_irrefl.
    exists b. rewrite Z.sub_diag. split; [reflexivity|]. split; [exact Hinv|].
    change (numeric_bits 0) with 0. lia.
  - cbn [for_step]. destruct (i <? len d) eqn:E.
    + cbv zeta.
      assert (Hc : len (slice d i (utils.min (i + 3) (len d)))
                   = utils.min (i + 3) (len d) - i).
      { apply len_slice; unfold utils.min; destruct (i + 3 <? len d) eqn:E3; lia. }
      rewrite Hc. unfold utils.min at 2 3. destruct (i + 3 <? len d) eqn:E3.
      * replace (i + 3 - i) with 3 by lia.
        change (map_get utils.NumberLength 3) with 10.
        destruct (Put_length b (utils.bytesToInt (slice d i (utils.min (i + 3) (len d)))) 10 Hinv)
          as (b1 & -> & Hinv1 & Hl1). cbn [obind].
        destruct (IH (i + 3) b1 ltac:(lia) ltac:(lia) Hinv1) as (b' & Hrun & Hinv' & Hl').
        exists b'. split; [exact Hrun|]. split; [exact Hinv'|].
        rewrite Hl', Hl1, (numeric_bits_step (len d - i)) by lia.
        replace (len d - (i + 3)) with (len d - i - 3) by lia. lia.
      * assert (Hr : len d - i = 1 \/ len d - i = 2 \/ len d - i = 3) by lia.
        assert (Hbits : 0 <= map_get utils.NumberLength (len d - i)
                        /\ map_get utils.NumberLength (len d - i) = numeric_bits (len d - i)).
        { destruct Hr as [-> | [-> | ->]]; split; vm_compute; congruence. }
        destruct Hbits as [Hb0 Hbits].
        destruct (Put_length b (utils.bytesToInt (slice d i (utils.min (i + 3) (len d))))
                    (map_get utils.NumberLength (len d - i)) Hinv)
          as (b1 & -> & Hinv1 & Hl1). cbn [obind].
        assert (Hend : forall f, for_step fuel (i + 3) (len d) 3 f b1 = Done b1).
        { intros f. destruct fuel; cbn [for_step];
            (destruct (i + 3 <? len d) eqn:E4; [lia|reflexivity]). }
        rewrite Hend. exists b1. split; [reflexivity|]. split; [exact Hinv1|]. lia.
    + assert (i = len d) as -> by lia. exists b. rewrite Z.sub_diag.
      split; [reflexivity|]. split; [exact Hinv|]. change (numeric_bits 0) with 0. lia.
Qed.

Lemma Write_alnum_length (d : list Z) (fuel : nat) :
  forall i b,
    0 <= i <= len d -> len d - i <= Z.of_nat fuel -> buffer_inv b ->
    exists b',
      for_step fuel i (len d) 2
        (fun i b =>
           let chars := slice d i (utils.min (i + 2) (len d)) in
           if len chars >? 1 then
             do c0 <- index chars 0;
             do c1 <- index chars 1;
             utils.Put b (utils.alphanumericIndex c0 * 45 + utils.alphanumericIndex c1) 11
           else
             do c0 <- index chars 0;
             utils.Put b (utils.alphanumericIndex c0) 6) b = Done b'
      /\ buffer_inv b'
      /\ utils.bb_length b' = utils.bb_length b + alnum_bits (len d - i).
Proof.
  induction fuel as [|fuel IH]; intros i b Hi Hfuel Hinv.
  - assert (i = len d) as -> by lia. cbn [for_step]. rewrite Z.ltb_irrefl.
    exists b. rewrite Z.sub_diag. split; [reflexivity|]. split; [exact Hinv|].
    change (alnum_bits 0) with 0. lia.
  - cbn [for_step]. destruct (i <? len d) eqn:E.
    + cbv zeta.
      set (chars := slice d i (utils.min (i + 2) (len d))).
      assert (Hc : len chars = utils.min (i + 2) (len d) - i).
      { apply len_slice; unfold utils.min; destruct (i + 2 <? len d) eqn:E3; lia. }
      unfold utils.min in Hc. destruct (i + 2 <? len d) eqn:E3.
      * destruct (len chars >? 1) eqn:E1; [|lia].
        rewrite (index_nth chars 0 0), (index_nth chars 1 0) by lia. cbn [obind].
        destruct (Put_length b
                    (utils.alphanumericIndex (nth (Z.to_nat 0) chars 0) * 45
                     + utils.alphanumericIndex (nth (Z.to_nat 1) chars 0)) 11 Hinv)
          as (b1 & -> & Hinv1 & Hl1). cbn [obind].
        destruct (IH (i + 2) b1 ltac:(lia) ltac:(lia) Hinv1) as (b' & Hrun & Hinv' & Hl').
        exists b'. split; [exact Hrun|]. split; [exact Hinv'|].
        rewrite Hl', Hl1, (alnum_bits_step (len d - i)) by lia.
        replace (len d - (i + 2)) with (len d - i - 2) by lia. lia.
      * assert (Hend : forall f (b1 : utils.BitBuffer), for_step fuel (i + 2) (len d) 2 f b1 = Done b1).
        { intros f b1. destruct fuel; cbn [for_step];
            (destruct (i + 2 <? len d) eqn:E4; [lia|reflexivity]). }
        assert (Hr : len d - i = 1 \/ len d - i = 2) by lia.
        destruct Hr as [Hr|Hr].
        -- destruct (len chars >? 1) eqn:E1; [lia|].
           rewrite (index_nth chars 0 0) by lia. cbn [obind].
           destruct (Put_length b (utils.alphanumericIndex (nth (Z.to_nat 0) chars 0)) 6 Hinv)
             as (b1 & -> & Hinv1 & Hl1). cbn [obind].
           rewrite Hend. exists b1. split; [reflexivity|]. split; [exact Hinv1|].
           rewrite Hl1, Hr. reflexivity.
        -- destruct (len chars >? 1) eqn:E1; [|lia].
           rewrite (index_nth chars 0 0), (index_nth chars 1 0) by lia. cbn [obind].
           destruct (Put_length b
                       (utils.alphanumericIndex (nth (Z.to_nat 0) chars 0) * 45
                        + utils.alphanumericIndex (nth (Z.to_nat 1) chars 0)) 11 Hinv)
             as (b1 & -> & Hinv1 & Hl1). cbn [obind].
           rewrite Hend. exists b1. split; [reflexivity|]. split; [exact Hinv1|].
           rewrite Hl1, Hr. reflexivity.
    + assert (i = len d) as -> by lia. exists b. rewrite Z.sub_diag.
      split; [reflexivity|]. split; [exact Hinv|]. change (alnum_bits 0) with 0. lia.
Qed.

Lemma Write_bytes_length (d : list Z) :
  forall b,
    buffer_inv b ->
    exists b',
      for_each d (fun c b => utils.Put b c 8) b = Done b'
      /\ buffer_inv b'
      /\ utils.bb_length b' = utils.bb_length b + 8 * len d.
Proof.
  induction d as [|c d IH]; intros b Hinv.
  - exists b. split; [reflexivity|]. split; [exact Hinv|]. change (len (@nil Z)) with 0. lia.
  - cbn [for_each]. destruct (Put_length b c 8 Hinv) as (b1 & -> & Hinv1 & Hl1).
    cbn [obind]. destruct (IH b1 Hinv1) as (b' & Hrun & Hinv' & Hl').
    exists b'. split; [exact Hrun|]. split; [exact Hinv'|].
    rewrite Hl', Hl1. unfold len. cbn [length]. lia.
Qed.

Lemma Write_length (q : utils.QRData) (b : utils.BitBuffer) :
  buffer_inv b ->
  exists b', utils.Write q b = Done b' /\ buffer_inv b'
             /\ utils.bb_length b' = utils.bb_length b + payload_bits q.
Proof.
  intros Hinv. unfold utils.Write, payload_bits.
  assert (Hn : 0 <= len (utils.data q)) by (unfold len; lia).
  destruct (utils.mode q =? utils.ModeNumeric).
  - destruct (Write_numeric_length (utils.data q) (length (utils.data q)) 0 b
                ltac:(lia) ltac:(unfold len; lia) Hinv) as (b' & Hrun & Hinv' & Hl).
    exists b'. split; [exact Hrun|]. split; [exact Hinv'|].
    rewrite Hl, Z.sub_0_r. reflexivity.
  - destruct (utils.mode q =? utils.ModeAlphanumeric).
    + destruct (Write_alnum_length (utils.data q) (length (utils.data q)) 0 b
                  ltac:(lia) ltac:(unfold len; lia) Hinv) as (b' & Hrun & Hinv' & Hl).
      exists b'. split; [exact Hrun|]. split; [exact Hinv'|].
      rewrite Hl, Z.sub_0_r. reflexivity.
    + apply Write_bytes_length. exact Hinv.
Qed.

(** X14: on a buffer built with [NewBitBuffer] and [PutBit], [Write]
    never fails, whatever the mode and the bytes of the segment, and
    appends 10 bits per three digits (7 for two left over, 4 for one) in
    numeric mode, 11 bits per two characters (6 for one left over) in
    alphanumeric mode, and 8 bits per byte in any other mode. *)
Theorem Write_appends_payload (q : utils.QRData) (b : utils.BitBuffer) (Hb : built b) :
  exists b',
    utils.Write q b = Done b'
    /\ utils.Len b' = utils.Len b
                      + (if utils.mode q =? utils.ModeNumeric
                         then numeric_bits (len (utils.data q))
                         else if utils.mode q =? utils.ModeAlphanumeric
                              then alnum_bits (len (utils.data q))
                              else 8 * len (utils.data q)).
Proof.
  destruct (Write_length q b (built_inv b Hb)) as (b' & Hrun & _ & Hl).
  exists b'. split; [exact Hrun|]. unfold utils.Len. rewrite Hl. reflexivity.
Qed.

Lemma Write_appends_payload_witness :
  exists b',
    utils.Write {| utils.data := [49; 50; 51; 52]; utils.mode := utils.ModeNumeric |}
      utils.NewBitBuffer = Done b'
    /\ utils.Len b'
       = utils.Len utils.NewBitBuffer
         + (if utils.mode {| utils.data := [49; 50; 51; 52]; utils.mode := utils.ModeNumeric |}
               =? utils.ModeNumeric
            then numeric_bits
                   (len (utils.data {| utils.data := [49; 50; 51; 52];
                                       utils.mode := utils.ModeNumeric |}))
            else if utils.mode {| utils.data := [49; 50; 51; 52];
                                  utils.mode := utils.ModeNumeric |}
                    =? utils.ModeAlphanumeric
                 then alnum_bits
                        (len (utils.data {| utils.data := [49; 50; 51; 52];
                                            utils.mode := utils.ModeNumeric |}))
                 else 8 * len (utils.data {| utils.data := [49; 50; 51; 52];
                                             utils.mode := utils.ModeNumeric |})).
Proof.
  apply (Write_appends_payload
           {| utils.data := [49; 50; 51; 52]; utils.mode := utils.ModeNumeric |}
           utils.NewBitBuffer).
  apply built_new.
Defined.

Lemma bytesToInt_digits (chars : list Z) :
  Forall (fun c => utils.class_digit c = true) chars ->
  forall a, 0 <= a ->
    a * 10 ^ len chars
    <= fold_left (fun result b => result * 10 + byte_of (b - 48)) chars a
    < (a + 1) * 10 ^ len chars.
Proof.
  induction 1 as [|c chars Hc _ IH]; intros a Ha.
  - change (len (@nil Z)) with 0. cbn [fold_left]. lia.
  - cbn [fold_left].
    assert (Hd : 0 <= byte_of (c - 48) <= 9).
    { unfold utils.class_digit in Hc. apply andb_true_iff in Hc as [H1 H2].
      unfold byte_of. rewrite Z.mod_small by lia. lia. }
    specialize (IH (a * 10 + byte_of (c - 48)) ltac:(lia)).
    replace (len (c :: chars)) with (Z.succ (len chars)) by (unfold len; cbn [length]; lia).
    rewrite Z.pow_succ_r by (unfold len; lia).
    assert (0 < 10 ^ len chars) by (apply Z.pow_pos_nonneg; unfold len; lia).
    nia.
Qed.

Lemma IndexByte_bounds (s : list Z) (c : Z) : -1 <= utils.IndexByte s c < len s.
Proof.
  induction s as [|b s IH]; [unfold len; cbn [utils.IndexByte length]; lia|].
  cbn [utils.IndexByte]. unfold len in *. cbn [length].
  destruct (b =? c); [lia|].
  destruct (utils.IndexByte s c <? 0) eqn:E; lia.
Qed.

Lemma NumberLength_values :
  map_get utils.NumberLength 1 = 4 /\ map_get utils.NumberLength 2 = 7
  /\ map_get utils.NumberLength 3 = 10.
Proof. vm_compute. repeat split; reflexivity. Qed.

Lemma len_AlphanumericChars : len utils.AlphanumericChars = 45.
Proof. vm_compute. reflexivity. Qed.

(** X15: the values [Write] hands to [Put] fit their fields.  A group of
    one, two or three ASCII digits has a value below 10, 100 or 1000, which
    fits the 4, 7 or 10 bits of [NumberLength]; a pair of characters of
    [AlphanumericChars] has a value below 2^11 and a single one a value
    below 2^6. *)
Theorem groups_fit_their_fields :
  (forall chars,
     Forall (fun c => utils.class_digit c = true) chars -> 1 <= len chars <= 3 ->
     0 <= utils.bytesToInt chars < 10 ^ len chars
     /\ utils.bytesToInt chars < 2 ^ map_get utils.NumberLength (len chars))
  /\ (forall c0 c1,
        0 <= utils.alphanumericIndex c0 -> 0 <= utils.alphanumericIndex c1 ->
        0 <= utils.alphanumericIndex c0 * 45 + utils.alphanumericIndex c1 < 2 ^ 11
        /\ utils.alphanumericIndex c0 < 2 ^ 6).
Proof.
  split.
  - intros chars Hd Hl.
    pose proof (bytesToInt_digits chars Hd 0 ltac:(lia)) as Hb.
    fold (utils.bytesToInt chars) in Hb. split; [lia|].
    assert (H : len chars = 1 \/ len chars = 2 \/ len chars = 3) by lia.
    destruct NumberLength_values as (N1 & N2 & N3).
    destruct H as [H | [H | H]]; rewrite H in *; rewrite ?N1, ?N2, ?N3; lia.
  - intros c0 c1. unfold utils.alphanumericIndex.
    generalize (IndexByte_bounds utils.AlphanumericChars c0).
    generalize (IndexByte_bounds utils.AlphanumericChars c1).
    rewrite len_AlphanumericChars.
    generalize (utils.IndexByte utils.AlphanumericChars c0) as i0.
    generalize (utils.IndexByte utils.AlphanumericChars c1) as i1.
    intros i1 i0 B1 B0 H0 H1. change (2 ^ 11) with 2048. change (2 ^ 6) with 64. lia.
Qed.

Lemma alnum_class_checked :
  forallb (fun c => Bool.eqb (utils.class_alnum c)
                      ((0 <=? utils.alphanumericIndex c) || (c =? 44))) (seqZ 0 256) = true.
Proof. vm_compute. reflexivity. Qed.

(** X16: a byte is in the class [ReAlphaNumeric] accepts exactly when it
    is one of the 45 characters of [AlphanumericChars] or the comma:
    [QuoteMeta] leaves the [-] of the constant unescaped, so that [+-.] in
    the class is a range.  [OptimalMode] therefore calls a comma
    alphanumeric, although [alphanumericIndex] has no value for it. *)
Theorem alnum_class_is_charset_and_comma (c : Z) (Hc : 0 <= c <= 255) :
  utils.class_alnum c = (0 <=? utils.alphanumericIndex c) || (c =? 44)
  /\ utils.alphanumericIndex 44 = -1
  /\ utils.OptimalMode [44] = utils.ModeAlphanumeric.
Proof.
  split; [|split; reflexivity].
  pose proof (forallb_seqZ _ _ _ c alnum_class_checked ltac:(lia)) as H.
  cbv beta in H. apply eqb_prop in H. exact H.
Qed.

Lemma alnum_class_is_charset_and_comma_witness :
  utils.class_alnum 44 = (0 <=? utils.alphanumericIndex 44) || (44 =? 44)
  /\ utils.alphanumericIndex 44 = -1
  /\ utils.OptimalMode [44] = utils.ModeAlphanumeric.
Proof. apply (alnum_class_is_charset_and_comma 44). lia. Defined.

Lemma isDigit_class (data : list Z) :
  utils.isDigit data = true -> Forall (fun c => utils.class_digit c = true) data.
Proof.
  unfold utils.isDigit. intros H. apply List.Forall_forall. intros c Hc.
  apply (proj1 (forallb_forall _ _) H) in Hc.
  unfold utils.class_digit. lia.
Qed.

Lemma digit_is_alnum (c : Z) : utils.class_digit c = true -> utils.class_alnum c = true.
Proof. intros H. unfold utils.class_alnum. rewrite H. reflexivity. Qed.

(** X17: a segment [NewQRData] returns with [checkData] set keeps the
    bytes it was given, has the mode asked for ([OptimalMode] when 0 was
    asked), which is NUMERIC, ALPHANUMERIC or BYTE, and can be written in
    that mode: a NUMERIC segment holds ASCII digits only, an ALPHANUMERIC
    segment only bytes of the class [ReAlphaNumeric] accepts. *)
Theorem NewQRData_checked (data : list Z) (mode : Z) (q : utils.QRData)
    (Hrun : utils.NewQRData data mode true = Ok q) :
  utils.data q = data
  /\ utils.mode q = (if mode =? 0 then utils.OptimalMode data else mode)
  /\ (utils.mode q = utils.ModeNumeric \/ utils.mode q = utils.ModeAlphanumeric
      \/ utils.mode q = utils.ModeByte)
  /\ (utils.mode q = utils.ModeNumeric ->
      Forall (fun c => utils.class_digit c = true) data)
  /\ (utils.mode q = utils.ModeAlphanumeric ->
      Forall (fun c => utils.class_alnum c = true) data).
Proof.
  unfold utils.NewQRData, utils.toBytes in Hrun.
  assert (Hopt : (utils.OptimalMode data = utils.ModeNumeric
                  /\ Forall (fun c => utils.class_digit c = true) data)
                 \/ (utils.OptimalMode data = utils.ModeAlphanumeric
                     /\ Forall (fun c => utils.class_alnum c = true) data)
                 \/ utils.OptimalMode data = utils.ModeByte).
  { unfold utils.OptimalMode. destruct (utils.isDigit data) eqn:Ed.
    - left. split; [reflexivity|]. apply isDigit_class. exact Ed.
    - destruct (utils.Match utils.ReAlphaNumeric data) eqn:Ea.
      + right. left. split; [reflexivity|]. cbn in Ea.
        apply List.Forall_forall. intros c Hc.
        apply (proj1 (forallb_forall _ _) Ea). exact Hc.
      + right. right. reflexivity. }
  assert (Hdig : Forall (fun c => utils.class_digit c = true) data ->
                 Forall (fun c => utils.class_alnum c = true) data).
  { intros H. eapply Forall_impl; [exact H|]. intros c. apply digit_is_alnum. }
  change utils.ModeNumeric with 1 in *. change utils.ModeAlphanumeric with 2 in *.
  change utils.ModeByte with 4 in *.
  destruct (mode =? 0) eqn:E0.
  - injection Hrun as <-. cbn [utils.data utils.mode].
    split; [reflexivity|]. split; [reflexivity|].
    destruct Hopt as [[-> Hd] | [[-> Ha] | ->]].
    + split; [lia|]. split; [intros _; exact Hd|intros H; discriminate].
    + split; [lia|]. split; [intros H; discriminate|intros _; exact Ha].
    + split; [lia|]. split; intros H; discriminate.
  - destruct (negb (mode =? 1) && negb (mode =? 2) && negb (mode =? 4)) eqn:Em;
      [discriminate|].
    cbn [andb] in Hrun. destruct (mode <? utils.OptimalMode data) eqn:El; [discriminate|].
    injection Hrun as <-. cbn [utils.data utils.mode].
    split; [reflexivity|]. split; [reflexivity|]. split; [lia|].
    destruct Hopt as [[Ho Hd] | [[Ho Ha] | Ho]]; rewrite Ho in El; split; intros ->;
      first [exact Hd | exact Ha | exact (Hdig Hd) | lia].
Qed.

Lemma NewQRData_checked_witness :
  utils.data {| utils.data := [65; 49]; utils.mode := utils.ModeAlphanumeric |} = [65; 49]
  /\ utils.mode {| utils.data := [65; 49]; utils.mode := utils.ModeAlphanumeric |}
     = (if 0 =? 0 then utils.OptimalMode [65; 49] else 0)
  /\ (utils.mode {| utils.data := [65; 49]; utils.mode := utils.ModeAlphanumeric |}
      = utils.ModeNumeric
      \/ utils.mode {| utils.data := [65; 49]; utils.mode := utils.ModeAlphanumeric |}
         = utils.ModeAlphanumeric
      \/ utils.mode {| utils.data := [65; 49]; utils.mode := utils.ModeAlphanumeric |}
         = utils.ModeByte)
  /\ (utils.mode {| utils.data := [65; 49]; utils.mode := utils.ModeAlphanumeric |}
      = utils.ModeNumeric ->
      Forall (fun c => utils.class_digit c = true) [65; 49])
  /\ (utils.mode {| utils.data := [65; 49]; utils.mode := utils.ModeAlphanumeric |}
      = utils.ModeAlphanumeric ->
      Forall (fun c => utils.class_alnum c = true) [65; 49]).
Proof.
  apply (NewQRData_checked [65; 49] 0
           {| utils.data := [65; 49]; utils.mode := utils.ModeAlphanumeric |}).
  reflexivity.
Defined.

Lemma LengthInBits_known (m v : Z) :
  known_mode m -> 1 <= v <= 40 ->
  utils.LengthInBits m v = Done (map_get (utils.ModeSizeVersion v) m)
  /\ 0 <= map_get (utils.ModeSizeVersion v) m.
Proof.
  intros Hm Hv. unfold utils.LengthInBits, utils.CheckVersion.
  destruct (v >=? 1) eqn:E1; [|lia]. destruct (v <=? 40) eqn:E2; [|lia].
  unfold utils.ModeSizeVersion.
  destruct Hm as [-> | [-> | [-> | ->]]];
    destruct (v <=? 9); [|destruct (v <=? 26)| |destruct (v <=? 26)
                         | |destruct (v <=? 26)| |destruct (v <=? 26)];
    (split; [reflexivity | vm_compute; congruence]).
Qed.

(** The segment loop of [CreateData] and [BestFit], from any buffer. *)
Lemma write_segments_loop (width : Z -> outcome Z) (sizes : gmap Z Z)
    (dataList : list utils.QRData) :
  (forall d, In d dataList ->
     width (utils.mode d) = Done (map_get sizes (utils.mode d))
     /\ 0 <= map_get sizes (utils.mode d)) ->
  forall b,
    buffer_inv b ->
    exists b',
      for_each dataList
        (fun d b =>
           do b <- utils.Put b (utils.mode d) 4;
           do w <- width (utils.mode d);
           do b <- utils.Put b (len (utils.data d)) w;
           utils.Write d b) b = Done b'
      /\ buffer_inv b'
      /\ utils.bb_length b'
         = fold_left (fun t d => t + 4 + map_get sizes (utils.mode d) + payload_bits d)
             dataList (utils.bb_length b).
Proof.
  induction dataList as [|d rest IH]; intros Hw b Hinv.
  - exists b. split; [reflexivity|]. split; [exact Hinv|reflexivity].
  - cbn [for_each fold_left].
    destruct (Hw d (or_introl eq_refl)) as [Hwd Hpos].
    destruct (Put_length b (utils.mode d) 4 Hinv) as (b1 & -> & Hinv1 & Hl1). cbn [obind].
    rewrite Hwd. cbn [obind].
    destruct (Put_length b1 (len (utils.data d)) (map_get sizes (utils.mode d)) Hinv1)
      as (b2 & -> & Hinv2 & Hl2). cbn [obind].
    destruct (Write_length d b2 Hinv2) as (b3 & -> & Hinv3 & Hl3). cbn [obind].
    destruct (IH (fun d' Hd' => Hw d' (or_intror Hd')) b3 Hinv3) as (b' & Hrun & Hinv' & Hl').
    exists b'. split; [exact Hrun|]. split; [exact Hinv'|].
    rewrite Hl'. f_equal. lia.
Qed.

Lemma write_segments_length (version : Z) (dataList : list utils.QRData) :
  1 <= version <= 40 ->
  Forall (fun d => known_mode (utils.mode d)) dataList ->
  exists b,
    utils.write_segments (fun m => utils.LengthInBits m version) dataList = Done b
    /\ buffer_inv b
    /\ utils.bb_length b = total_bits (utils.ModeSizeVersion version) dataList.
Proof.
  intros Hv Hmodes. unfold utils.write_segments, total_bits.
  apply (write_segments_loop (fun m => utils.LengthInBits m version)
           (utils.ModeSizeVersion version) dataList).
  - intros d Hd. apply LengthInBits_known; [|exact Hv].
    rewrite List.Forall_forall in Hmodes. apply Hmodes. exact Hd.
  - exact NewBitBuffer_inv.
Qed.

(** X18: for a version from 1 to 40 and segments of known modes,
    [CreateData] returns the error [code length overflow] exactly when the
    segments, encoded with 4 bits of mode, the character count of the
    version and their payload, take more bits than eight times the data
    codewords of the version and level; the error carries both numbers.
    When they fit, [CreateData] returns no error. *)
Theorem CreateData_overflow (version errorCorrection : Z) (dataList : list utils.QRData)
    (blocks : list base.RSBlock)
    (Hversion : 1 <= version <= 40)
    (Hmodes : Forall (fun d => known_mode (utils.mode d)) dataList)
    (Hblocks : base.RSBlocks version errorCorrection = Done (Ok blocks)) :
  (fold_left (fun t b => t + base.DataCount b * 8) blocks 0
   < total_bits (utils.ModeSizeVersion version) dataList ->
   utils.CreateData version errorCorrection dataList
   = Done (Err (ErrCodeLengthOverflow
                  (total_bits (utils.ModeSizeVersion version) dataList)
                  (fold_left (fun t b => t + base.DataCount b * 8) blocks 0))))
  /\ (total_bits (utils.ModeSizeVersion version) dataList
      <= fold_left (fun t b => t + base.DataCount b * 8) blocks 0 ->
      forall e, utils.CreateData version errorCorrection dataList <> Done (Err e)).
Proof.
  destruct (write_segments_length version dataList Hversion Hmodes) as (b & Hb & Hinv & Hlen).
  unfold utils.CreateData. rewrite Hb, Hblocks. cbn [obind ebind]. unfold utils.Len.
  rewrite Hlen. split; intros Hcmp.
  - destruct (_ >? _) eqn:E; [reflexivity|lia].
  - intros e. destruct (_ >? _) eqn:E; [lia|].
    destruct (utils.terminate_bits _ _ _ _) as [b1| |]; cbn [obind]; try discriminate.
    match goal with
    | |- context [obind ?m _] => destruct m as [b2| |]; cbn [obind]; try discriminate
    end.
    match goal with
    | |- context [obind ?m _] => destruct m as [b3| |]; cbn [obind]; try discriminate
    end.
    destruct (utils.CreateBytes b3 blocks) as [bytes| |]; cbn [obind]; discriminate.
Qed.

Lemma CreateData_overflow_witness :
  (fold_left (fun t b => t + base.DataCount b * 8)
     [ {| base.TotalCount := 26; base.DataCount := 19 |} ] 0
   < total_bits (utils.ModeSizeVersion 1) twenty_bytes ->
   utils.CreateData 1 0 twenty_bytes
   = Done (Err (ErrCodeLengthOverflow
                  (total_bits (utils.ModeSizeVersion 1) twenty_bytes)
                  (fold_left (fun t b => t + base.DataCount b * 8)
                     [ {| base.TotalCount := 26; base.DataCount := 19 |} ] 0))))
  /\ (total_bits (utils.ModeSizeVersion 1) twenty_bytes
      <= fold_left (fun t b => t + base.DataCount b * 8)
           [ {| base.TotalCount := 26; base.DataCount := 19 |} ] 0 ->
      forall e, utils.CreateData 1 0 twenty_bytes <> Done (Err e)).
Proof.
  apply (CreateData_overflow 1 0 twenty_bytes
           [ {| base.TotalCount := 26; base.DataCount := 19 |} ]).
  - lia.
  - constructor; [right; right; left; reflexivity | constructor].
  - vm_compute. reflexivity.
Defined.

(** ** The chunker *)

Lemma run_length_spec (c : Z -> bool) (data : list Z) :
  0 <= utils.run_length c data <= len data
  /\ Forall (fun x => c x = true) (take (Z.to_nat (utils.run_length c data)) data).
Proof.
  induction data as [|x rest [IHb IHf]]; unfold len in *.
  - cbn. split; [lia|constructor].
  - cbn [utils.run_length length]. destruct (c x) eqn:E.
    + split; [lia|].
      replace (Z.to_nat (1 + utils.run_length c rest))
        with (S (Z.to_nat (utils.run_length c rest))) by lia.
      cbn [take]. constructor; assumption.
    + split; [lia|]. cbn. constructor.
Qed.

Lemma find_run_spec (c : Z -> bool) (n : Z) (data : list Z) :
  forall off s e,
    utils.find_run c n off data = Some (s, e) ->
    exists k : nat,
      s = off + Z.of_nat k /\ (k <= length data)%nat
      /\ e = s + utils.run_length c (drop k data)
      /\ n <= utils.run_length c (drop k data).
Proof.
  induction data as [|x rest IH]; intros off s e H.
  - cbn [utils.find_run] in H. destruct (n <=? utils.run_length c []) eqn:E; [|discriminate].
    injection H as <- <-. exists 0%nat. cbn [drop length]. repeat split; lia.
  - cbn [utils.find_run] in H. destruct (n <=? utils.run_length c (x :: rest)) eqn:E.
    + injection H as <- <-. exists 0%nat. cbn [drop length]. repeat split; lia.
    + apply IH in H as (k & -> & Hk & -> & Hn). exists (S k). cbn [drop length].
      repeat split; lia.
Qed.

Lemma slice_decompose {A} (data : list A) (s e : Z) :
  0 <= s -> s <= e -> e <= len data ->
  data = slice data 0 s ++ slice data s e ++ slice data e (len data).
Proof.
  intros Hs He Hl. unfold slice, len in *.
  rewrite Z.sub_0_r. change (Z.to_nat 0) with 0%nat. rewrite drop_0.
  rewrite (take_ge (drop (Z.to_nat e) data)) by (rewrite length_drop; lia).
  replace (Z.to_nat e) with (Z.to_nat s + Z.to_nat (e - s))%nat by lia.
  rewrite <- drop_drop. rewrite (take_drop (Z.to_nat (e - s))).
  rewrite take_drop. reflexivity.
Qed.

Lemma Whole_matches_runs (cls : Z -> bool) : matches_runs_of cls (utils.Whole cls).
Proof.
  intros data s e H. cbn [utils.FindIndex] in H.
  destruct (negb (len data =? 0) && forallb cls data) eqn:E; [|discriminate].
  injection H as <- <-. apply andb_true_iff in E as [E1 E2].
  assert (0 < len data) by (unfold len in *; lia).
  split; [lia|]. split; [lia|]. split; [lia|].
  unfold slice. rewrite Z.sub_0_r. change (Z.to_nat 0) with 0%nat. rewrite drop_0.
  rewrite take_ge by (unfold len; lia).
  apply List.Forall_forall. intros x Hx. apply (proj1 (forallb_forall _ _) E2). exact Hx.
Qed.

Lemma Run_matches_runs (cls : Z -> bool) (n : Z) :
  1 <= n -> matches_runs_of cls (utils.Run cls n).
Proof.
  intros Hn data s e H. cbn [utils.FindIndex] in H.
  apply find_run_spec in H as (k & -> & Hk & -> & Hrun).
  destruct (run_length_spec cls (drop k data)) as [Hb Hf].
  unfold len in *. rewrite length_drop in Hb.
  split; [lia|]. split; [lia|]. split; [lia|].
  unfold slice. rewrite Z.add_0_l, Nat2Z.id.
  replace (Z.of_nat k + utils.run_length cls (drop k data) - Z.of_nat k)
    with (utils.run_length cls (drop k data)) by lia.
  exact Hf.
Qed.

Lemma slice_nonempty {A} (data : list A) (s e : Z) :
  0 <= s -> s < e -> e <= len data -> slice data s e <> [].
Proof.
  intros Hs He Hl Hnil. assert (H : len (slice data s e) = e - s) by (apply len_slice; lia).
  rewrite Hnil in H. unfold len in H. cbn in H. lia.
Qed.

(** The numeric loop of [optimalSplit]. *)
Lemma optimalSplit_loop_spec (numPattern : utils.regexp) :
  matches_runs_of utils.class_digit numPattern ->
  forall fuel data result,
    len data < Z.of_nat fuel ->
    exists new rest,
      utils.optimalSplit_loop fuel numPattern data result = Done (result ++ new, rest)
      /\ data = concat (map utils.data new) ++ rest
      /\ Forall sound_chunk new.
Proof.
  intros Hpat. induction fuel as [|fuel IH]; intros data result Hfuel; [unfold len in *; lia|].
  cbn [utils.optimalSplit_loop]. destruct (len data >? 0) eqn:E.
  - destruct (utils.FindIndex numPattern data) as [[s e]|] eqn:Hfind.
    + destruct (Hpat data s e Hfind) as (Hs & Hse & He & Hdig).
      assert (Hrest : len (slice data e (len data)) < Z.of_nat fuel).
      { rewrite len_slice by lia. lia. }
      set (result1 := if s >? 0
                      then result ++ [{| utils.data := slice data 0 s; utils.mode := utils.ModeByte |}]
                      else result).
      destruct (IH (slice data e (len data))
                  (result1 ++ [{| utils.data := slice data s e; utils.mode := utils.ModeNumeric |}])
                  Hrest) as (new & rest & Hrun & Hcat & Hok).
      assert (Hnum : sound_chunk {| utils.data := slice data s e; utils.mode := utils.ModeNumeric |}).
      { split; [apply slice_nonempty; lia|]. left. split; [reflexivity|exact Hdig]. }
      pose proof (slice_decompose data s e Hs ltac:(lia) He) as Hdec.
      subst result1. destruct (s >? 0) eqn:Es.
      * exists ({| utils.data := slice data 0 s; utils.mode := utils.ModeByte |}
                :: {| utils.data := slice data s e; utils.mode := utils.ModeNumeric |} :: new), rest.
        split; [|split].
        -- rewrite Hrun. f_equal. f_equal. rewrite <- !app_assoc. reflexivity.
        -- cbn [map concat utils.data]. rewrite <- !app_assoc, <- Hcat. exact Hdec.
        -- constructor; [|constructor; assumption].
           split; [apply slice_nonempty; lia|]. right. right. reflexivity.
      * exists ({| utils.data := slice data s e; utils.mode := utils.ModeNumeric |} :: new), rest.
        assert (s = 0) as -> by lia.
        split; [|split].
        -- rewrite Hrun. f_equal. f_equal. rewrite <- !app_assoc. reflexivity.
        -- cbn [map concat utils.data]. rewrite <- !app_assoc, <- Hcat.
           rewrite Hdec at 1. unfold slice at 1. reflexivity.
        -- constructor; assumption.
    + exists [], data. rewrite app_nil_r. split; [reflexivity|]. split; [reflexivity|constructor].
  - exists [], data. rewrite app_nil_r. split; [reflexivity|]. split; [reflexivity|constructor].
Qed.

Lemma optimalSplit_spec (data : list Z) (numPattern alphaPattern : utils.regexp) :
  matches_runs_of utils.class_digit numPattern ->
  matches_runs_of utils.class_alnum alphaPattern ->
  exists chunks rest,
    utils.optimalSplit data numPattern alphaPattern = Done (Ok chunks)
    /\ data = concat (map utils.data chunks) ++ rest
    /\ Forall sound_chunk chunks.
Proof.
  intros Hnum Halpha. unfold utils.optimalSplit.
  destruct (optimalSplit_loop_spec numPattern Hnum (S (length data)) data []
              ltac:(unfold len; lia)) as (new & left_ & Hrun & Hcat & Hok).
  rewrite Hrun. cbn [obind app]. destruct (len left_ >? 0) eqn:E.
  - destruct (utils.FindIndex alphaPattern left_) as [[s e]|] eqn:Hfind.
    + destruct (Halpha left_ s e Hfind) as (Hs & Hse & He & Hcls).
      pose proof (slice_decompose left_ s e Hs ltac:(lia) He) as Hdec.
      assert (Hal : sound_chunk {| utils.data := slice left_ s e;
                                   utils.mode := utils.ModeAlphanumeric |}).
      { split; [apply slice_nonempty; lia|]. right. left. split; [reflexivity|exact Hcls]. }
      destruct (s >? 0) eqn:Es.
      * eexists _, (slice left_ e (len left_)). split; [reflexivity|]. split.
        -- rewrite !map_app, !concat_app. cbn [map concat utils.data].
           rewrite !app_nil_r, <- !app_assoc, <- Hdec. exact Hcat.
        -- apply Forall_app. split; [apply Forall_app; split; [exact Hok|]|].
           ++ constructor; [|constructor].
              split; [apply slice_nonempty; lia|]. right. right. reflexivity.
           ++ constructor; [exact Hal|constructor].
      * assert (s = 0) as -> by lia.
        eexists _, (slice left_ e (len left_)). split; [reflexivity|]. split.
        -- rewrite !map_app, !concat_app. cbn [map concat utils.data].
           rewrite !app_nil_r, <- !app_assoc.
           rewrite Hcat at 1. f_equal. rewrite Hdec at 1. unfold slice at 1. reflexivity.
        -- apply Forall_app. split; [exact Hok|]. constructor; [exact Hal|constructor].
    + eexists _, []. split; [reflexivity|]. split.
      * rewrite !map_app, !concat_app. cbn [map concat utils.data].
        rewrite !app_nil_r. exact Hcat.
      * apply Forall_app. split; [exact Hok|]. constructor; [|constructor].
        split; [|right; right; reflexivity].
        cbn [utils.data]. intros ->. unfold len in E. cbn in E. discriminate.
  - exists new, left_. split; [reflexivity|]. split; assumption.
Qed.

(** The two expressions compile when the repeat count is at most 1000 or
    the input is no longer than the minimum; the split then returns. *)
Lemma OptimalDataChunks_returns (data : list Z) (minimum : Z) :
  minimum <= 1000 \/ len data <= minimum ->
  exists chunks rest,
    utils.OptimalDataChunks data minimum = Done (Ok chunks)
    /\ data = concat (map utils.data chunks) ++ rest
    /\ Forall sound_chunk chunks.
Proof.
  intros Hmin. unfold utils.OptimalDataChunks, utils.toBytes.
  set (m := if minimum <=? 0 then 4 else minimum).
  assert (Hm : 1 <= m) by (subst m; destruct (minimum <=? 0) eqn:E; lia).
  destruct (Z.leb_spec (len data) m) as [Hlen|Hlen]; cbn [utils.MustCompile obind].
  - apply optimalSplit_spec; apply Whole_matches_runs.
  - assert (Hc : (m >? 1000) = false)
      by (subst m; destruct (minimum <=? 0) eqn:E in Hlen |- *; lia).
    rewrite Hc. cbn [obind].
    apply optimalSplit_spec; apply Run_matches_runs; exact Hm.
Qed.

(** A minimum above 1000 with a longer input asks for the repeat
    [{minimum,}], which does not compile. *)
Lemma OptimalDataChunks_refused (data : list Z) (minimum : Z) :
  1000 < minimum -> minimum < len data ->
  utils.OptimalDataChunks data minimum = Panicked (PanicRegexpCompile minimum).
Proof.
  intros Hmin Hlen. unfold utils.OptimalDataChunks, utils.toBytes.
  replace (minimum <=? 0) with false by lia.
  replace (len data <=? minimum) with false by lia.
  cbn [utils.MustCompile]. replace (minimum >? 1000) with true by lia.
  reflexivity.
Qed.

(** X19: [OptimalDataChunks] with a minimum of at most 1000, or with an
    input no longer than the minimum, returns without an error, whatever
    the bytes.  The segments it returns are consecutive pieces of the
    input, in order and from its first byte on: their payloads, one after
    the other, are a prefix of the input.  No segment is empty, a NUMERIC
    segment holds ASCII digits only, an ALPHANUMERIC segment only bytes of
    the alphanumeric class, and every other segment is a BYTE segment.
    With a minimum above 1000 and a longer input the call panics in
    [regexp.MustCompile]: the repeat count is above what package [regexp]
    accepts. *)
Theorem OptimalDataChunks_are_a_prefix (data : list Z) (minimum : Z) :
  (minimum <= 1000 \/ len data <= minimum ->
   exists chunks rest,
     utils.OptimalDataChunks data minimum = Done (Ok chunks)
     /\ data = concat (map utils.data chunks) ++ rest
     /\ Forall sound_chunk chunks)
  /\ (1000 < minimum -> minimum < len data ->
      utils.OptimalDataChunks data minimum = Panicked (PanicRegexpCompile minimum)).
Proof.
  split.
  - apply OptimalDataChunks_returns.
  - apply OptimalDataChunks_refused.
Qed.

(** ** Creating a symbol and adding data *)

(** X20: [NewQRCode] checks the box size, then the border, then the mask
    pattern, and returns the error of the first check that fails, leaving
    everything as it was; a negative box size or border and a mask pattern
    outside 0..7 are refused, a box size of 0 is not.  When the three
    checks pass, a version outside 0..40 makes [SetVersion] panic;
    otherwise the new symbol has the parameters given, no modules and no
    data.  The error-correction level is not checked at all. *)
Theorem NewQRCode_validates (version errorCorrection boxSize border maskPattern : Z)
    (w : qr.world) :
  (boxSize < 0 ->
   qr.NewQRCode version errorCorrection boxSize border maskPattern w
   = qr.Return (Err (ErrInvalidBoxSize boxSize)) w)
  /\ (0 <= boxSize -> border < 0 ->
      qr.NewQRCode version errorCorrection boxSize border maskPattern w
      = qr.Return (Err (ErrInvalidBorder border)) w)
  /\ (0 <= boxSize -> 0 <= border -> maskPattern < 0 \/ 7 < maskPattern ->
      qr.NewQRCode version errorCorrection boxSize border maskPattern w
      = qr.Return (Err (ErrInvalidMaskPattern maskPattern)) w)
  /\ (0 <= boxSize -> 0 <= border -> 0 <= maskPattern <= 7 -> 0 <= version <= 40 ->
      exists w',
        qr.NewQRCode version errorCorrection boxSize border maskPattern w
        = qr.Return (Ok tt) w'
        /\ qr.self w'
           = {| qr.modules := []; qr.modulesCount := 0; qr.version := version;
                qr.errorCorrection := errorCorrection; qr.BoxSize := boxSize;
                qr.border := border; qr.maskPattern := maskPattern;
                qr.DataList := []; qr.dataCache := None |}
        /\ qr.precomputedQRBlanks w' = qr.precomputedQRBlanks w)
  /\ (0 <= boxSize -> 0 <= border -> 0 <= maskPattern <= 7 ->
      version < 0 \/ 40 < version ->
      exists w',
        qr.NewQRCode version errorCorrection boxSize border maskPattern w
        = qr.Abort (PanicInvalidVersion version) w').
Proof.
  unfold qr.NewQRCode, qr.CheckBoxSize, qr.CheckBorder, qr.CheckMaskPattern.
  split; [|split; [|split; [|split]]].
  - intros Hb. destruct (boxSize <? 0) eqn:E; [reflexivity|lia].
  - intros Hb Hbo. destruct (boxSize <? 0) eqn:E; [lia|].
    destruct (border <? 0) eqn:E2; [reflexivity|lia].
  - intros Hb Hbo Hm. destruct (boxSize <? 0) eqn:E; [lia|].
    destruct (border <? 0) eqn:E2; [lia|].
    destruct (maskPattern =? 0) eqn:E3; [lia|]. cbn [negb].
    destruct ((maskPattern <? 0) || (maskPattern >? 7)) eqn:E4; [reflexivity|lia].
  - intros Hb Hbo Hm Hv. destruct (boxSize <? 0) eqn:E; [lia|].
    destruct (border <? 0) eqn:E2; [lia|].
    assert (Hmask : (if negb (maskPattern =? 0)
                     then if (maskPattern <? 0) || (maskPattern >? 7)
                          then Some (ErrInvalidMaskPattern maskPattern) else None
                     else None) = None).
    { destruct (maskPattern =? 0); [reflexivity|]. cbn [negb].
      destruct ((maskPattern <? 0) || (maskPattern >? 7)) eqn:E4; [lia|reflexivity]. }
    rewrite Hmask. unfold qr.SetVersion, utils.CheckVersion.
    assert (Hcheck : negb (version =? 0) && negb ((version >=? 1) && (version <=? 40)) = false).
    { destruct (version =? 0) eqn:E5; [reflexivity|]. cbn [negb andb].
      destruct (version >=? 1) eqn:E6; [|lia]. destruct (version <=? 40) eqn:E7; [|lia].
      reflexivity. }
    rewrite Hcheck. eexists. split; [reflexivity|]. split; reflexivity.
  - intros Hb Hbo Hm Hv. destruct (boxSize <? 0) eqn:E; [lia|].
    destruct (border <? 0) eqn:E2; [lia|].
    assert (Hmask : (if negb (maskPattern =? 0)
                     then if (maskPattern <? 0) || (maskPattern >? 7)
                          then Some (ErrInvalidMaskPattern maskPattern) else None
                     else None) = None).
    { destruct (maskPattern =? 0); [reflexivity|]. cbn [negb].
      destruct ((maskPattern <? 0) || (maskPattern >? 7)) eqn:E4; [lia|reflexivity]. }
    rewrite Hmask. unfold qr.SetVersion, utils.CheckVersion.
    assert (Hcheck : negb (version =? 0) && negb ((version >=? 1) && (version <=? 40)) = true).
    { destruct (version =? 0) eqn:E5; [lia|]. cbn [negb andb].
      destruct (version >=? 1) eqn:E6; destruct (version <=? 40) eqn:E7; try reflexivity. lia. }
    rewrite Hcheck. eexists. reflexivity.
Qed.

(** X21: [AddData] refuses a negative [optimize] and a value that is
    neither a segment nor a string, and then changes nothing.  Otherwise,
    unless the value is a string longer than an [optimize] above 1000, it
    returns without an error: it appends to [DataList], keeps what was
    there, and resets the codeword cache.  A segment is appended as it is;
    a string with [optimize = 0] as one segment of its optimal mode; a
    string with [optimize > 0] as the segments of [OptimalDataChunks],
    whose payloads are a prefix of the string.  A string longer than an
    [optimize] above 1000 makes [AddData] panic in [regexp.MustCompile],
    with the symbol as it was. *)
Theorem AddData_appends (data : qr.payload) (optimize : Z) (w : qr.world) :
  (optimize < 0 ->
   qr.AddData data optimize w = qr.Return (Some (ErrInvalidOptimize optimize)) w)
  /\ (0 <= optimize -> data = qr.Unsupported ->
      qr.AddData data optimize w = qr.Return (Some ErrUnsupportedDataType) w)
  /\ (0 <= optimize -> data <> qr.Unsupported ->
      (forall s, data = qr.Text s -> optimize <= 1000 \/ len s <= optimize) ->
      exists new w',
        qr.AddData data optimize w = qr.Return None w'
        /\ qr.self w'
           = qr.set_dataCache None (qr.set_DataList (qr.DataList (qr.self w) ++ new) (qr.self w))
        /\ qr.precomputedQRBlanks w' = qr.precomputedQRBlanks w
        /\ match data with
           | qr.Segment d => new = [d]
           | qr.Text s =>
               if optimize =? 0
               then new = [ {| utils.data := s; utils.mode := utils.OptimalMode s |} ]
               else exists rest,
                      s = concat (map utils.data new) ++ rest /\ Forall sound_chunk new
           | qr.Unsupported => False
           end)
  /\ (forall s, data = qr.Text s -> 1000 < optimize -> optimize < len s ->
      qr.AddData data optimize w = qr.Abort (PanicRegexpCompile optimize) w).
Proof.
  unfold qr.AddData. split; [|split; [|split]].
  - intros Ho. destruct (optimize <? 0) eqn:E; [reflexivity|lia].
  - intros Ho ->. destruct (optimize <? 0) eqn:E; [lia|]. reflexivity.
  - intros Ho Hd Hlen. destruct (optimize <? 0) eqn:E; [lia|].
    destruct data as [d|s|]; [| |congruence].
    + exists [d]. eexists. split; [reflexivity|]. repeat split.
    + destruct (optimize >? 0) eqn:Eo.
      * destruct (OptimalDataChunks_returns s optimize (Hlen s eq_refl))
          as (chunks & rest & Hrun & Hcat & Hok).
        exists chunks. unfold qr.sbind, qr.this, qr.lift. rewrite Hrun.
        eexists. split; [reflexivity|]. split; [reflexivity|]. split; [reflexivity|].
        destruct (optimize =? 0) eqn:E0; [lia|]. exists rest. split; assumption.
      * assert (optimize = 0) as -> by lia.
        exists [ {| utils.data := s; utils.mode := utils.OptimalMode s |} ].
        eexists. split; [reflexivity|]. repeat split.
  - intros s -> Ho Hlen. replace (optimize <? 0) with false by lia.
    replace (optimize >? 0) with true by lia.
    unfold qr.sbind, qr.this, qr.lift.
    rewrite (OptimalDataChunks_refused s optimize Ho Hlen). reflexivity.
Qed.

(** ** The size of the module matrix *)

Lemma set_module_outcome (r c : Z) (b : bool) (w : qr.world) :
  match qr.set_module r c b w with
  | qr.Return _ w' => w' = after_set_module (r, c) b w
  | qr.Abort _ w' =>
      qr.self w' = qr.self w /\ qr.precomputedQRBlanks w' = qr.precomputedQRBlanks w
  | qr.Starved => False
  end.
Proof.
  unfold qr.set_module, qr.sbind, qr.new_bool, qr.this, qr.lift. cbn [qr.self].
  destruct (index (qr.modules (qr.self w)) r) as [row| |] eqn:Hrow; cbn [obind];
    [|split; reflexivity|].
  - apply index_Done in Hrow as [Hr Hrow].
    destruct (store row c _) as [row'| |] eqn:Hs; cbn [obind]; [|split; reflexivity|].
    + apply store_Done in Hs as [Hc ->].
      destruct (store (qr.modules (qr.self w)) r _) as [m'| |] eqn:Hm; cbn [obind];
        [|split; reflexivity|].
      * apply store_Done in Hm as [_ ->].
        unfold qr.update, after_set_module, write_cell.
        cbn [qr.self qr.precomputedQRBlanks qr.next_addr qr.lost_point_calls fst snd].
        rewrite Hrow. reflexivity.
      * unfold store in Hm. destruct (_ || _); discriminate.
    + unfold store in Hs. destruct (_ || _); discriminate.
  - unfold index in Hrow. destruct (_ || _); [discriminate|].
    destruct (_ !! _); discriminate.
Qed.

Section Dimensions.
Variable v : Z.
Hypothesis v_valid : 1 <= v <= 40.

Let R := stays_dimensioned v.

Lemma stays_refl (w : qr.world) : R w w.
Proof. intros H. exact H. Qed.

Lemma stays_trans (w1 w2 w3 : qr.world) : R w1 w2 -> R w2 w3 -> R w1 w3.
Proof. intros H12 H23 H. apply H23, H12, H. Qed.

Lemma stays_set_module (r c : Z) (b : bool) : keeps R (qr.set_module r c b).
Proof.
  intros w. pose proof (set_module_outcome r c b w) as H.
  destruct (qr.set_module r c b w) as [[] w'|p w'|]; [| |exact I].
  - subst w'. intros (Hv & Hn & Hsq & Hc). split; [exact Hv|]. split; [exact Hn|].
    split; [|exact Hc]. apply after_set_module_square. exact Hsq.
  - destruct H as [Hs Hp]. intros (Hv & Hn & Hsq & Hc). unfold dimensioned, cache_ok.
    rewrite Hs, Hp. repeat split; assumption.
Qed.

Lemma stays_update_dataCache (c : option (list Z)) :
  keeps R (qr.update (qr.set_dataCache c)).
Proof. intros w H. exact H. Qed.

Lemma stays_LostPoint_call : keeps R qr.LostPoint_call.
Proof.
  intros w. unfold qr.LostPoint_call, qr.sbind, qr.this, qr.lift. cbn [qr.self].
  destruct (utils.LostPoint _); [| |exact I]; intros H; exact H.
Qed.

Ltac step := apply (keeps_bind R stays_trans).
Ltac stop := apply (keeps_ret R stays_refl).

Lemma stays_module_at (r c : Z) : keeps R (qr.module_at r c).
Proof. apply (keeps_module_at R stays_refl stays_trans). Qed.

Lemma stays_Version : keeps R qr.Version.
Proof. apply (keeps_Version R stays_refl stays_trans). Qed.

Lemma stays_SetupPositionProbePattern (row col : Z) :
  keeps R (qr.SetupPositionProbePattern row col).
Proof.
  unfold qr.SetupPositionProbePattern.
  apply (keeps_for_rangeM R stays_refl stays_trans). intros r.
  step; [apply (keeps_isOutOfBounds R stays_refl stays_trans)|]. intros [|]; [stop|].
  apply (keeps_for_rangeM R stays_refl stays_trans). intros c.
  step; [apply (keeps_isOutOfBounds R stays_refl stays_trans)|]. intros [|]; [stop|].
  unfold qr.setModuleValue. destruct (_ || _); apply stays_set_module.
Qed.

Lemma stays_SetupPositionAdjustPattern : keeps R qr.SetupPositionAdjustPattern.
Proof.
  unfold qr.SetupPositionAdjustPattern.
  step; [apply stays_Version|]. intros v'.
  step; [apply (keeps_lift R stays_refl)|]. intros pos.
  apply (keeps_for_eachM R stays_refl stays_trans). intros row.
  apply (keeps_for_eachM R stays_refl stays_trans). intros col.
  step; [apply stays_module_at|]. intros m.
  destruct (negb _); [stop|].
  unfold qr.setPositionAdjustPattern.
  apply (keeps_for_rangeM R stays_refl stays_trans). intros r.
  apply (keeps_for_rangeM R stays_refl stays_trans). intros c.
  unfold qr.setPositionAdjustPatternValue. destruct (_ || _); apply stays_set_module.
Qed.

Lemma stays_SetupTimingPattern : keeps R qr.SetupTimingPattern.
Proof.
  unfold qr.SetupTimingPattern.
  step; [apply (keeps_this R stays_refl)|]. intros q.
  step.
  - apply (keeps_for_rangeM R stays_refl stays_trans). intros r.
    step; [apply stays_module_at|]. intros m.
    destruct (negb _); [stop | apply stays_set_module].
  - intros _. apply (keeps_for_rangeM R stays_refl stays_trans). intros c.
    step; [apply stays_module_at|]. intros m.
    destruct (negb _); [stop | apply stays_set_module].
Qed.

Lemma stays_SetupTypeNumber (test : bool) : keeps R (qr.SetupTypeNumber test).
Proof.
  unfold qr.SetupTypeNumber.
  step; [apply (keeps_this R stays_refl)|]. intros q.
  step; [apply (keeps_lift R stays_refl)|]. intros bits.
  step; [|intros _]; apply (keeps_for_rangeM R stays_refl stays_trans); intros i;
    apply stays_set_module.
Qed.

Lemma stays_SetupTypeInfo (test : bool) (maskPattern : Z) :
  keeps R (qr.SetupTypeInfo test maskPattern).
Proof.
  unfold qr.SetupTypeInfo.
  step; [apply (keeps_this R stays_refl)|]. intros q.
  step; [apply (keeps_lift R stays_refl)|]. intros bits.
  step.
  { apply (keeps_for_rangeM R stays_refl stays_trans). intros i.
    destruct (i <? 6); [apply stays_set_module|].
    destruct (i <? 8); apply stays_set_module. }
  intros _. step.
  { apply (keeps_for_rangeM R stays_refl stays_trans). intros i.
    destruct (i <? 8); [apply stays_set_module|].
    destruct (i <? 9); apply stays_set_module. }
  intros _. apply stays_set_module.
Qed.

Lemma stays_MapData_cell (data : list Z) (f : Z -> Z -> bool) (c : Z) (k : qr.cursor) :
  keeps R (qr.MapData_cell data f c k).
Proof.
  unfold qr.MapData_cell.
  step; [apply stays_module_at|]. intros m.
  destruct (utils.ptr_eqb m None); [|stop].
  step; [apply (keeps_lift R stays_refl)|]. intros dark.
  step; [apply stays_set_module|]. intros _.
  destruct (_ =? _); stop.
Qed.

Lemma stays_MapData_column (data : list Z) (f : Z -> Z -> bool) (col : Z) (fuel : nat) :
  forall k, keeps R (qr.MapData_column fuel data f col k).
Proof.
  induction fuel as [|fuel IH]; intros k; cbn [qr.MapData_column];
    [apply keeps_starved|].
  step; [apply stays_MapData_cell|]. intros k1.
  step; [apply stays_MapData_cell|]. intros k2.
  step; [apply (keeps_this R stays_refl)|]. intros q.
  destruct (_ || _); [stop | apply IH].
Qed.

Lemma stays_MapData_columns (data : list Z) (f : Z -> Z -> bool) (fuel : nat) :
  forall col k, keeps R (qr.MapData_columns fuel data f col k).
Proof.
  induction fuel as [|fuel IH]; intros col k; cbn [qr.MapData_columns].
  - destruct (col >? 0); [apply keeps_starved | stop].
  - destruct (col >? 0); [|stop].
    step; [apply (keeps_this R stays_refl)|]. intros q.
    step; [apply stays_MapData_column|]. intros k'. apply IH.
Qed.

Lemma stays_MapData (data : list Z) (maskPattern : Z) :
  keeps R (qr.MapData data maskPattern).
Proof.
  unfold qr.MapData.
  step; [apply (keeps_this R stays_refl)|]. intros q.
  step; [apply (keeps_lift R stays_refl)|]. intros f. apply stays_MapData_columns.
Qed.

Lemma ends_in_bind {A B} (m : qr.M A) (k : A -> qr.M B) (w : qr.world) :
  ends_in (dimensioned v) (m w) -> (forall a, keeps R (k a)) ->
  ends_in (dimensioned v) (qr.sbind m k w).
Proof.
  intros Hm Hk. unfold qr.sbind. destruct (m w) as [a w1|p w1|]; [|exact Hm|exact I].
  specialize (Hk a w1). destruct (k a w1) as [b w2|p w2|]; [| |exact I]; apply Hk, Hm.
Qed.

Lemma Copy2DArray_same (m : qr.ModulesType) : qr.Copy2DArray m = m.
Proof.
  unfold qr.Copy2DArray. rewrite <- (map_id m) at 2.
  apply map_ext. intros row. reflexivity.
Qed.

Lemma version_is_valid (w : qr.world) :
  qr.version (qr.self w) = v -> utils.CheckVersion (qr.version (qr.self w)) = true.
Proof. intros ->. unfold utils.CheckVersion. lia. Qed.

(** The last step of the construction of a blank: it goes to the cache
    under the version of the symbol. *)
Lemma stays_store_blank :
  keeps R (qr.sbind qr.Version (fun v' =>
           qr.sbind qr.this (fun q => qr.set_cache v' (qr.Copy2DArray (qr.modules q))))).
Proof.
  intros w.
  destruct (qr.sbind _ _ w) as [a w'|p w'|] eqn:Hrun; [| |exact I]; intros HQ;
    pose proof HQ as (Hv & Hn & Hsq & Hc);
    unfold qr.sbind in Hrun; rewrite (Version_valid w (version_is_valid w Hv)) in Hrun;
    unfold qr.this, qr.set_cache in Hrun; [|discriminate].
  injection Hrun as _ <-. rewrite Copy2DArray_same, Hv.
  split; [exact Hv|]. split; [exact Hn|]. split; [exact Hsq|].
  intros v' m. cbn [qr.precomputedQRBlanks].
  destruct (Z.eq_dec v v') as [<-|Hne].
  - rewrite lookup_insert_eq. intros [= <-]. exact Hsq.
  - rewrite lookup_insert_ne by exact Hne. apply Hc.
Qed.

Lemma square_blank (n : Z) :
  0 <= n -> square n (replicate (Z.to_nat n) (replicate (Z.to_nat n) None)) = true.
Proof.
  intros Hn. apply square_spec. split.
  - unfold len. rewrite length_replicate. lia.
  - intros row Hrow. apply list_elem_of_In, elem_of_replicate in Hrow as [-> _].
    unfold len. rewrite length_replicate. lia.
Qed.

Lemma MakeImpl_ends_dimensioned (test : bool) (maskPattern : Z) (w : qr.world) :
  qr.version (qr.self w) = v -> cache_ok w ->
  ends_in (dimensioned v) (qr.MakeImpl test maskPattern w).
Proof.
  intros Hv Hc. unfold qr.MakeImpl.
  unfold qr.sbind at 1. rewrite (Version_valid w (version_is_valid w Hv)).
  unfold qr.sbind at 1. unfold qr.update at 1.
  set (w1 := {| qr.self := qr.set_modulesCount (qr.version (qr.self w) * 4 + 17) (qr.self w);
                qr.precomputedQRBlanks := qr.precomputedQRBlanks w;
                qr.next_addr := qr.next_addr w;
                qr.lost_point_calls := qr.lost_point_calls w |}).
  assert (Hv1 : qr.version (qr.self w1) = v) by exact Hv.
  unfold qr.sbind at 1. rewrite (Version_valid w1 (version_is_valid w1 Hv1)).
  apply ends_in_bind.
  2:{ intros _.
      step; [apply stays_SetupTypeInfo|]. intros _.
      step; [apply stays_Version|]. intros v'.
      step; [destruct (v' >=? 7); [apply stays_SetupTypeNumber | stop]|]. intros _.
      step; [apply (keeps_this R stays_refl)|]. intros q.
      step.
      { destruct (qr.dataCache q); [stop|].
        step; [apply stays_Version|]. intros v''.
        step; [apply (keeps_this R stays_refl)|]. intros q'.
        step; [apply (keeps_lift R stays_refl)|]. intros [bytes|e];
          [apply stays_update_dataCache | apply (keeps_panic R stays_refl)]. }
      intros _. step; [apply (keeps_this R stays_refl)|]. intros q'. apply stays_MapData. }
  change (qr.version (qr.self w1)) with (qr.version (qr.self w)). rewrite Hv.
  destruct (qr.precomputedQRBlanks w1 !! v) as [m|] eqn:Hm.
  - unfold qr.update, ends_in. rewrite Copy2DArray_same.
    split; [exact Hv|]. split; [cbn; rewrite Hv; reflexivity|].
    split; [exact (Hc v m Hm)|exact Hc].
  - unfold qr.sbind at 1. unfold qr.this at 1.
    unfold qr.sbind at 1. unfold qr.lift at 1, qr.blank_modules.
    change (qr.modulesCount (qr.self w1)) with (qr.version (qr.self w) * 4 + 17).
    rewrite Hv. destruct (v * 4 + 17 <? 0) eqn:E; [lia|].
    unfold qr.sbind at 1. unfold qr.update at 1.
    cbv beta.
    match goal with
    | |- ends_in _ (qr.sbind ?m ?k ?w2) =>
        assert (Hk : keeps R (qr.sbind m k));
        [|assert (HQ : dimensioned v w2);
          [|specialize (Hk w2); destruct (qr.sbind m k w2) as [a w'|p w'|];
            [| |exact I]; apply Hk, HQ]]
    end.
    + step; [apply stays_SetupPositionProbePattern|]. intros _.
      step; [apply (keeps_this R stays_refl)|]. intros q.
      step; [apply stays_SetupPositionProbePattern|]. intros _.
      step; [apply (keeps_this R stays_refl)|]. intros q1.
      step; [apply stays_SetupPositionProbePattern|]. intros _.
      step; [apply stays_SetupPositionAdjustPattern|]. intros _.
      step; [apply stays_SetupTimingPattern|]. intros _.
      apply stays_store_blank.
    + split; [exact Hv|]. split; [cbn; rewrite Hv; reflexivity|].
      split; [apply square_blank; lia|exact Hc].
Qed.

Lemma stays_MakeImpl (test : bool) (maskPattern : Z) :
  keeps R (qr.MakeImpl test maskPattern).
Proof.
  intros w.
  destruct (qr.MakeImpl test maskPattern w) as [a w'|p w'|] eqn:Hrun; [| |exact I];
    intros (Hv & Hn & Hsq & Hc);
    pose proof (MakeImpl_ends_dimensioned test maskPattern w Hv Hc) as H;
    rewrite Hrun in H; exact H.
Qed.

Lemma stays_score_pattern (pattern : Z) : keeps R (qr.score_pattern pattern).
Proof.
  unfold qr.score_pattern. step; [apply stays_MakeImpl|]. intros _.
  apply stays_LostPoint_call.
Qed.

Lemma stays_BestMaskPattern_loop (n : nat) :
  forall pattern minLostPoint bestPattern,
    keeps R (qr.BestMaskPattern_loop qr.score_pattern n pattern minLostPoint bestPattern).
Proof.
  induction n as [|n IH]; intros pattern minLostPoint bestPattern.
  - cbn [qr.BestMaskPattern_loop]. stop.
  - rewrite BestMaskPattern_loop_S. step; [apply stays_score_pattern|]. intros lostPoint.
    destruct (_ || _); apply IH.
Qed.

Lemma BestMaskPattern_ends_dimensioned (w : qr.world) :
  qr.version (qr.self w) = v -> cache_ok w ->
  ends_in (dimensioned v) (qr.BestMaskPattern w).
Proof.
  intros Hv Hc. unfold qr.BestMaskPattern. rewrite BestMaskPattern_loop_S.
  apply ends_in_bind.
  - unfold qr.score_pattern. apply ends_in_bind.
    + apply MakeImpl_ends_dimensioned; assumption.
    + intros _. apply stays_LostPoint_call.
  - intros lostPoint. destruct (_ || _); apply stays_BestMaskPattern_loop.
Qed.

Lemma Make_ends_dimensioned (fit : bool) (w : qr.world) :
  qr.version (qr.self w) = v -> cache_ok w ->
  ends_in (dimensioned v) (qr.Make fit w).
Proof.
  intros Hv Hc. rewrite (Make_valid_version fit w (version_is_valid w Hv)).
  apply ends_in_bind; [|intros _; stop].
  destruct (qr.maskPattern (qr.self w) =? 0).
  - apply ends_in_bind; [apply BestMaskPattern_ends_dimensioned; assumption|].
    intros p. apply stays_MakeImpl.
  - apply MakeImpl_ends_dimensioned; assumption.
Qed.

End Dimensions.

(** X22: for a symbol of a version from 1 to 40, however [Make] ends (it
    returns, or panics on the way), the symbol has a matrix of
    [4 * version + 17] rows of [4 * version + 17] cells, [modulesCount] is
    that number, and the version is unchanged; this holds in every state
    in which the package cache holds, for a version, a matrix of that
    version's size, and [Make] keeps the cache so. *)
Theorem Make_sets_dimensions (fit : bool) (w : qr.world)
    (Hversion : 1 <= qr.version (qr.self w) <= 40) (Hcache : cache_ok w) :
  match qr.Make fit w with
  | qr.Return _ w' | qr.Abort _ w' =>
      qr.version (qr.self w') = qr.version (qr.self w)
      /\ qr.modulesCount (qr.self w') = qr.version (qr.self w) * 4 + 17
      /\ square (qr.version (qr.self w) * 4 + 17) (qr.modules (qr.self w')) = true
      /\ cache_ok w'
  | qr.Starved => True
  end.
Proof.
  pose proof (Make_ends_dimensioned (qr.version (qr.self w)) Hversion fit w eq_refl Hcache)
    as H.
  destruct (qr.Make fit w) as [a w'|p w'|]; [| |exact I]; exact H.
Qed.

Lemma Make_sets_dimensions_witness :
  match qr.Make true (hello_symbol 3) with
  | qr.Return _ w' | qr.Abort _ w' =>
      qr.version (qr.self w') = qr.version (qr.self (hello_symbol 3))
      /\ qr.modulesCount (qr.self w') = qr.version (qr.self (hello_symbol 3)) * 4 + 17
      /\ square (qr.version (qr.self (hello_symbol 3)) * 4 + 17) (qr.modules (qr.self w'))
         = true
      /\ cache_ok w'
  | qr.Starved => True
  end.
Proof.
  apply (Make_sets_dimensions true (hello_symbol 3)).
  - cbn. lia.
  - intros v m H. cbn in H. rewrite lookup_empty in H. discriminate.
Defined.

(** ** Version information *)

Lemma quot_rem_3 (i : Z) :
  0 <= i < 18 -> 0 <= Z.quot i 3 <= 5 /\ 0 <= Z.rem i 3 <= 2 /\ i = 3 * Z.quot i 3 + Z.rem i 3.
Proof.
  intros Hi. rewrite Z.quot_div_nonneg, Z.rem_mod_nonneg by lia.
  pose proof (Z.div_mod i 3 ltac:(lia)). pose proof (Z.mod_pos_bound i 3 ltac:(lia)).
  assert (0 <= i / 3) by (apply Z.div_pos; lia).
  assert (i / 3 < 6) by (apply Z.div_lt_upper_bound; lia). lia.
Qed.

Lemma version_upper_in_matrix (N i : Z) :
  21 <= N -> 0 <= i < 18 -> in_matrix N (version_upper N i).
Proof.
  intros HN Hi. destruct (quot_rem_3 i Hi) as (Hq & Hr & _).
  unfold in_matrix, version_upper. cbn [fst snd]. lia.
Qed.

Lemma version_lower_in_matrix (N i : Z) :
  21 <= N -> 0 <= i < 18 -> in_matrix N (version_lower N i).
Proof.
  intros HN Hi. destruct (quot_rem_3 i Hi) as (Hq & Hr & _).
  unfold in_matrix, version_lower. cbn [fst snd]. lia.
Qed.

Lemma version_upper_injective (N i j : Z) :
  0 <= i < 18 -> 0 <= j < 18 -> version_upper N i = version_upper N j -> i = j.
Proof.
  intros Hi Hj H. destruct (quot_rem_3 i Hi) as (_ & _ & Ei).
  destruct (quot_rem_3 j Hj) as (_ & _ & Ej).
  unfold version_upper in H. injection H as H1 H2. lia.
Qed.

Lemma version_lower_injective (N i j : Z) :
  0 <= i < 18 -> 0 <= j < 18 -> version_lower N i = version_lower N j -> i = j.
Proof.
  intros Hi Hj H. destruct (quot_rem_3 i Hi) as (_ & _ & Ei).
  destruct (quot_rem_3 j Hj) as (_ & _ & Ej).
  unfold version_lower in H. injection H as H1 H2. lia.
Qed.

Lemma version_lower_not_upper (N i j : Z) :
  21 <= N -> 0 <= i < 18 -> 0 <= j < 18 -> version_lower N j <> version_upper N i.
Proof.
  intros HN Hi Hj H. destruct (quot_rem_3 i Hi) as (Hqi & Hri & _).
  destruct (quot_rem_3 j Hj) as (Hqj & Hrj & _).
  unfold version_lower, version_upper in H. injection H as H1 H2. lia.
Qed.

(** X23: in a matrix of size [N >= 21], [SetupTypeNumber(false)] computes
    the 18-bit word of the symbol's version field (its six high bits are
    the version, and it is a multiple of [G18]) and writes bit [i] of it,
    for [i] from 0 to 17, at row [i / 3], column [N - 11 + i % 3], left of
    the upper-right finder, and at the mirrored position, row
    [N - 11 + i % 3], column [i / 3]. *)
Theorem SetupTypeNumber_places_word (N version : Z) (w : qr.world)
    (Hsquare : square N (qr.modules (qr.self w)) = true)
    (Hcount : qr.modulesCount (qr.self w) = N)
    (Hsize : 21 <= N)
    (Hfield : qr.version (qr.self w) = version)
    (Hversion : 1 <= version <= 63) :
  exists word q w',
    utils.BCHTypeNumber version = Done word
    /\ 0 <= word < 2 ^ 18
    /\ Z.shiftr word 12 = version
    /\ clmul q utils.G18 = word
    /\ qr.SetupTypeNumber false w = qr.Return tt w'
    /\ (forall i, 0 <= i < 18 ->
          colour_at (qr.modules (qr.self w')) (version_upper N i) = Some (Z.testbit word i)
          /\ colour_at (qr.modules (qr.self w')) (version_lower N i)
             = Some (Z.testbit word i)).
Proof.
  pose proof (forallb_seqZ _ _ _ version BCHTypeNumber_checked ltac:(lia)) as Hc.
  cbv beta in Hc.
  destruct (utils.BCHTypeNumber version) as [word| |] eqn:Hword; try discriminate.
  apply andb_true_iff in Hc as [Hc H4]. apply andb_true_iff in Hc as [Hc H3].
  apply andb_true_iff in Hc as [H1 H2].
  apply existsb_exists in H4 as (q & _ & Hq).
  exists word, q.
  unfold qr.SetupTypeNumber. unfold qr.sbind at 1. unfold qr.this at 1.
  unfold qr.sbind at 1. unfold qr.lift at 1. rewrite Hfield, Hword, Hcount.
  unfold qr.for_rangeM. change (Z.to_nat (18 - 0)) with 18%nat.
  destruct (forM_set_module N (version_upper N) (qr.bit_module false word) 18 0 w Hsquare)
    as (w1 & Hrun1 & Hsq1 & Hv1 & _).
  { intros j Hj. apply version_upper_in_matrix; lia. }
  { intros j j' Hj Hj'. apply version_upper_injective; lia. }
  destruct (forM_set_module N (version_lower N) (qr.bit_module false word) 18 0 w1 Hsq1)
    as (w2 & Hrun2 & Hsq2 & Hv2 & Hrest2).
  { intros j Hj. apply version_lower_in_matrix; lia. }
  { intros j j' Hj Hj'. apply version_lower_injective; lia. }
  exists w2. split; [reflexivity|]. split; [lia|]. split; [lia|]. split; [lia|].
  split.
  - unfold qr.sbind at 1.
    change (qr.forM 18 0 (fun i => qr.set_module (Z.quot i 3) (Z.rem i 3 + N - 8 - 3)
                                     (qr.bit_module false word i)) w)
      with (qr.forM 18 0 (fun j => qr.set_module (fst (version_upper N j))
                                     (snd (version_upper N j))
                                     (qr.bit_module false word j)) w).
    rewrite Hrun1. exact Hrun2.
  - intros i Hi.
    assert (Hbit : qr.bit_module false word i = Z.testbit word i).
    { unfold qr.bit_module. cbn [negb andb]. apply land_one_testbit. lia. }
    split.
    + unfold colour_at. rewrite Hrest2.
      * fold (colour_at (qr.modules (qr.self w1)) (version_upper N i)).
        rewrite Hv1 by lia. rewrite Hbit. reflexivity.
      * apply version_upper_in_matrix; lia.
      * intros j Hj. apply version_lower_not_upper; lia.
    + rewrite Hv2 by lia. rewrite Hbit. reflexivity.
Qed.

Lemma SetupTypeNumber_places_word_witness :
  exists word q w',
    utils.BCHTypeNumber 1 = Done word
    /\ 0 <= word < 2 ^ 18
    /\ Z.shiftr word 12 = 1
    /\ clmul q utils.G18 = word
    /\ qr.SetupTypeNumber false (blank_symbol 2) = qr.Return tt w'
    /\ (forall i, 0 <= i < 18 ->
          colour_at (qr.modules (qr.self w')) (version_upper 21 i) = Some (Z.testbit word i)
          /\ colour_at (qr.modules (qr.self w')) (version_lower 21 i)
             = Some (Z.testbit word i)).
Proof.
  apply (SetupTypeNumber_places_word 21 1 (blank_symbol 2)); try reflexivity; lia.
Defined.

(** ** Reading the matrix *)

Lemma active_is_dark (q : qr.QRCode) (r c : Z) :
  qr.active q r c = Done (dark_at (qr.modules q) r c).
Proof.
  unfold qr.active, qr.IsConstrained, dark_at, colour_at, cell_at. cbn [fst snd].
  destruct (Z.ltb_spec r 0) as [Hr|Hr].
  { replace (r >=? 0) with false by lia. reflexivity. }
  replace (r >=? 0) with true by lia.
  destruct (Z.ltb_spec c 0) as [Hc|Hc].
  { replace (c >=? 0) with false by lia. rewrite andb_false_r. reflexivity. }
  replace (c >=? 0) with true by lia. cbn [andb orb]. rewrite andb_true_r.
  match goal with
  | |- context [r <? ?L] => destruct (Z.ltb_spec r L) as [Hr2|Hr2]
  end; cbn [andb].
  2:{ match goal with
      | |- context [match ?x with Some _ => _ | None => _ end] =>
          replace x with (@None (list utils.cell))
            by (symmetry; apply lookup_ge_None_2; unfold len in *; lia)
      end. reflexivity. }
  destruct (lookup_lt_is_Some_2 (qr.modules q) (Z.to_nat r) ltac:(unfold len in *; lia))
    as (row & Hrow).
  match goal with
  | |- context [default [] ?x] => replace x with (Some row) by (symmetry; exact Hrow)
  end.
  match goal with
  | |- context [match ?x with Some _ => _ | None => _ end] =>
      replace x with (Some row) by (symmetry; exact Hrow)
  end.
  cbn [default]. unfold id.
  match goal with
  | |- context [c <? ?L] => destruct (Z.ltb_spec c L) as [Hc2|Hc2]
  end.
  2:{ rewrite (lookup_ge_None_2 row) by (unfold len in *; lia). reflexivity. }
  rewrite (index_in_range _ _ row) by (lia || exact Hrow). cbn [obind].
  destruct (lookup_lt_is_Some_2 row (Z.to_nat c) ltac:(unfold len in *; lia))
    as (cell & Hcell).
  rewrite (index_in_range _ _ cell) by (lia || exact Hcell). cbn [obind].
  rewrite Hcell. destruct cell as [p|]; cbn; [|reflexivity].
  destruct (utils.pointee p); reflexivity.
Qed.

(** X24: [ActiveWithNeighbors] at a position whose neighbours' rows and
    columns, and the values [row+2] and [col+2] at which its two loops
    stop, are in the range of [int], never panics, whatever the matrix: a
    neighbour outside the matrix, on a row too short, or on a [nil] cell
    counts as not active.  Each of the nine fields is true exactly when
    the module at that place is inside the matrix, set, and dark. *)
Theorem ActiveWithNeighbors_reads_nine_cells (q : qr.QRCode) (row col : Z)
    (Hrow : int_range (row - 1) /\ int_range (row + 2))
    (Hcol : int_range (col - 1) /\ int_range (col + 2)) :
  qr.QRCode_ActiveWithNeighbors q row col
  = Done {| qr.NW := dark_at (qr.modules q) (row - 1) (col - 1);
            qr.N := dark_at (qr.modules q) (row - 1) col;
            qr.NE := dark_at (qr.modules q) (row - 1) (col + 1);
            qr.W := dark_at (qr.modules q) row (col - 1);
            qr.me := dark_at (qr.modules q) row col;
            qr.E := dark_at (qr.modules q) row (col + 1);
            qr.SW := dark_at (qr.modules q) (row + 1) (col - 1);
            qr.S := dark_at (qr.modules q) (row + 1) col;
            qr.SE := dark_at (qr.modules q) (row + 1) (col + 1) |}.
Proof.
  clear Hrow Hcol.
  unfold qr.QRCode_ActiveWithNeighbors, for_range.
  replace (Z.to_nat (row + 1 + 1 - (row - 1))) with 3%nat by lia.
  replace (Z.to_nat (col + 1 + 1 - (col - 1))) with 3%nat by lia.
  cbn [for_loop]. rewrite !active_is_dark. cbn [obind app].
  replace (row - 1 + 1) with row by lia. replace (col - 1 + 1) with col by lia.
  reflexivity.
Qed.

Lemma ActiveWithNeighbors_reads_nine_cells_witness :
  qr.QRCode_ActiveWithNeighbors one_dark_module 0 0
  = Done {| qr.NW := false; qr.N := false; qr.NE := false;
            qr.W := false; qr.me := true; qr.E := false;
            qr.SW := false; qr.S := false; qr.SE := false |}.
Proof.
  apply (ActiveWithNeighbors_reads_nine_cells one_dark_module 0 0);
    unfold int_range; split; lia.
Defined.

(** * Codeword assembly never panics *)

(** ** Composition of runs that return *)

Lemma returns_obind {A B} (P : A -> Prop) (Q : B -> Prop)
    (m : outcome A) (k : A -> outcome B) :
  returns_with P m -> (forall a, P a -> returns_with Q (k a)) -> returns_with Q (obind m k).
Proof. destruct m as [a| |]; simpl; [auto | contradiction | contradiction]. Qed.

Lemma settles_ebind {A B} (P : A -> Prop) (Q : B -> Prop)
    (m : outcome (fallible A)) (k : A -> outcome (fallible B)) :
  settles P m -> (forall a, P a -> settles Q (k a)) -> settles Q (ebind m k).
Proof.
  unfold settles, ebind. destruct m as [[a|e]| |]; simpl; [auto | auto | contradiction..].
Qed.

Lemma settles_obind {A B} (P : A -> Prop) (Q : B -> Prop)
    (m : outcome A) (k : A -> outcome (fallible B)) :
  returns_with P m -> (forall a, P a -> settles Q (k a)) -> settles Q (obind m k).
Proof. unfold settles. apply returns_obind. Qed.

Lemma returns_weaken {A} (P Q : A -> Prop) (o : outcome A) :
  returns_with P o -> (forall a, P a -> Q a) -> returns_with Q o.
Proof. destruct o as [a| |]; simpl; [auto | contradiction | contradiction]. Qed.

Lemma settles_weaken {A} (P Q : A -> Prop) (o : outcome (fallible A)) :
  settles P o -> (forall a, P a -> Q a) -> settles Q o.
Proof.
  unfold settles. intros H HPQ. apply (returns_weaken _ _ _ H).
  intros [a|e]; [apply HPQ | trivial].
Qed.

Lemma returns_index {A} (s : list A) (i : Z) :
  0 <= i < len s -> returns_with (fun x => s !! Z.to_nat i = Some x) (index s i).
Proof.
  intros Hi. unfold len in Hi.
  destruct (lookup_lt_is_Some_2 s (Z.to_nat i) ltac:(lia)) as [x Hx].
  rewrite (index_in_range s i x ltac:(lia) Hx). exact Hx.
Qed.

Lemma returns_store {A} (s : list A) (i : Z) (x : A) :
  0 <= i < len s -> returns_with (fun s' => s' = <[Z.to_nat i := x]> s) (store s i x).
Proof. intros Hi. rewrite (store_in_range s i x Hi). reflexivity. Qed.

Lemma returns_make_ints (n : Z) :
  0 <= n -> returns_with (fun l => l = replicate (Z.to_nat n) 0) (make_ints n).
Proof.
  intros Hn. unfold make_ints. destruct (n <? 0) eqn:E; [lia|]. reflexivity.
Qed.

Lemma returns_for_loop {St} (I : Z -> St -> Prop) (body : Z -> St -> outcome St) (n : nat) :
  forall i s,
    I i s ->
    (forall j t, i <= j < i + Z.of_nat n -> I j t -> returns_with (I (j + 1)) (body j t)) ->
    returns_with (I (i + Z.of_nat n)) (for_loop n i body s).
Proof.
  induction n as [|n IH]; intros i s Hs Hbody; simpl for_loop.
  - simpl. replace (i + Z.of_nat 0) with i by lia. exact Hs.
  - apply (returns_obind (I (i + 1))); [apply Hbody; [lia | exact Hs]|].
    intros t Ht. replace (i + Z.of_nat (S n)) with (i + 1 + Z.of_nat n) by lia.
    apply IH; [exact Ht|]. intros j u Hj. apply Hbody. lia.
Qed.

Lemma settles_for_loop_e {St} (I : Z -> St -> Prop)
    (body : Z -> St -> outcome (fallible St)) (n : nat) :
  forall i s,
    I i s ->
    (forall j t, i <= j < i + Z.of_nat n -> I j t -> settles (I (j + 1)) (body j t)) ->
    settles (I (i + Z.of_nat n)) (for_loop_e n i body s).
Proof.
  induction n as [|n IH]; intros i s Hs Hbody; simpl for_loop_e.
  - simpl. replace (i + Z.of_nat 0) with i by lia. exact Hs.
  - apply (settles_ebind (I (i + 1))); [apply Hbody; [lia | exact Hs]|].
    intros t Ht. replace (i + Z.of_nat (S n)) with (i + 1 + Z.of_nat n) by lia.
    apply IH; [exact Ht|]. intros j u Hj. apply Hbody. lia.
Qed.

Lemma settles_for_each_e {A St} (I : Z -> St -> Prop)
    (body : Z -> A -> St -> outcome (fallible St)) (xs : list A) :
  forall i s,
    I i s ->
    (forall (j : nat) x t, xs !! j = Some x -> I (i + Z.of_nat j) t ->
                           settles (I (i + Z.of_nat j + 1)) (body (i + Z.of_nat j) x t)) ->
    settles (I (i + len xs)) (for_each_e xs i body s).
Proof.
  induction xs as [|x xs IH]; intros i s Hs Hbody; simpl for_each_e.
  - simpl. unfold len. simpl length. replace (i + Z.of_nat 0) with i by lia. exact Hs.
  - apply (settles_ebind (I (i + 1))).
    + specialize (Hbody 0%nat x s eq_refl).
      replace (i + Z.of_nat 0) with i in Hbody by lia. apply Hbody. exact Hs.
    + intros t Ht.
      replace (i + len (x :: xs)) with (i + 1 + len xs) by (unfold len; simpl length; lia).
      apply IH; [exact Ht|]. intros j y u Hy Hu.
      specialize (Hbody (S j) y u Hy).
      replace (i + Z.of_nat (S j)) with (i + 1 + Z.of_nat j) in Hbody by lia.
      apply Hbody. exact Hu.
Qed.

(** ** Bytes *)

Lemma lxor_byte (a b : Z) : is_byte a -> is_byte b -> is_byte (Z.lxor a b).
Proof.
  unfold is_byte. intros Ha Hb.
  assert (H0 : 0 <= Z.lxor a b) by (apply Z.lxor_nonneg; lia).
  split; [exact H0|].
  destruct (Z.eq_dec (Z.lxor a b) 0) as [-> | Hne]; [lia|].
  assert (Hlog : forall x, 0 <= x <= 255 -> Z.log2 x < 8).
  { intros x Hx. destruct (Z.eq_dec x 0) as [-> | Hx0]; [reflexivity|].
    apply Z.log2_lt_pow2; lia. }
  pose proof (Z.log2_lxor a b ltac:(lia) ltac:(lia)) as Hl.
  pose proof (Hlog a Ha). pose proof (Hlog b Hb).
  assert (Z.lxor a b < 2 ^ 8) by (apply Z.log2_lt_pow2; lia).
  lia.
Qed.

Lemma land_byte (w : Z) : is_byte (Z.land 255 w).
Proof.
  unfold is_byte.
  assert (0 <= Z.land 255 w) by (apply Z.land_nonneg; lia).
  split; [assumption|].
  rewrite Z.land_comm. change 255 with (Z.ones 8) at 1. rewrite Z.land_ones by lia.
  change (2 ^ 8) with 256. pose proof (Z.mod_pos_bound w 256 ltac:(lia)). lia.
Qed.

Lemma Forall_byte_insert (l : list Z) (i : nat) (x : Z) :
  Forall is_byte l -> is_byte x -> Forall is_byte (<[i := x]> l).
Proof. intros Hl Hx. apply Forall_insert; assumption. Qed.

Lemma Forall_byte_zeros (n : nat) : Forall is_byte (replicate n 0).
Proof. apply Forall_replicate. unfold is_byte. lia. Qed.

(** ** Polynomials over bytes *)

Lemma Mul_term_settles (i item j otherItem : Z) (acc : list Z) :
  is_byte item -> is_byte otherItem -> 0 <= i + j < len acc -> Forall is_byte acc ->
  settles (fun acc' => length acc' = length acc /\ Forall is_byte acc')
          (base.Mul_term i item j otherItem acc).
Proof.
  unfold is_byte at 1 2. intros Hi Ho Hr Hacc. unfold base.Mul_term.
  destruct (Z.eq_dec item 0) as [-> | Hi0]; [exact I|].
  destruct (glog_defined item ltac:(lia)) as (gi & -> & Hgi). cbn [ebind obind].
  destruct (Z.eq_dec otherItem 0) as [-> | Ho0]; [exact I|].
  destruct (glog_defined otherItem ltac:(lia)) as (go & -> & Hgo). cbn [ebind obind].
  destruct (Gexp_defined (gi + go) ltac:(lia)) as (g & -> & Hg). cbn [obind].
  apply (settles_obind (fun old => acc !! Z.to_nat (i + j) = Some old));
    [apply returns_index; exact Hr|].
  intros old Hold.
  rewrite (store_in_range acc (i + j) _ Hr). cbn [obind]. simpl.
  split; [apply length_insert|].
  apply Forall_byte_insert; [exact Hacc|].
  apply lxor_byte; [|unfold is_byte; lia].
  apply (proj1 (List.Forall_forall _ _) Hacc). apply list_elem_of_In.
  apply (list_elem_of_lookup_2 _ _ _ Hold).
Qed.

Lemma Mul_loops_settle (p other acc : list Z) :
  Forall is_byte p -> Forall is_byte other -> Forall is_byte acc ->
  len p + len other - 1 <= len acc ->
  settles (fun acc' => length acc' = length acc /\ Forall is_byte acc')
          (for_each_e p 0
             (fun i item acc => for_each_e other 0 (base.Mul_term i item) acc) acc).
Proof.
  intros Hp Ho Hacc Hlen.
  refine (settles_for_each_e (fun _ t => length t = length acc /\ Forall is_byte t)
            _ p 0 acc _ _); [split; [reflexivity | exact Hacc]|].
  intros j x t Hx (Hlt & Hbt). cbv beta.
  refine (settles_for_each_e (fun _ u => length u = length acc /\ Forall is_byte u)
            _ other 0 t _ _); [split; assumption|].
  intros j' y u Hy (Hlu & Hbu). cbv beta.
  eapply settles_weaken.
  - apply Mul_term_settles; [| | |exact Hbu].
    + apply (proj1 (List.Forall_forall _ _) Hp), list_elem_of_In.
      apply (list_elem_of_lookup_2 _ _ _ Hx).
    + apply (proj1 (List.Forall_forall _ _) Ho), list_elem_of_In.
      apply (list_elem_of_lookup_2 _ _ _ Hy).
    + apply lookup_lt_Some in Hx, Hy. unfold len in *. lia.
  - intros a (H1 & H2). split; [congruence | exact H2].
Qed.

Lemma glog_one : base.glog 1 = Done (Ok 0).
Proof. reflexivity. Qed.

Lemma Gexp_zero : base.Gexp 0 = Done 1.
Proof. reflexivity. Qed.

Lemma Mul_leading_one (p other : list Z) (acc acc' : list Z) :
  p !! 0%nat = Some 1 -> other !! 0%nat = Some 1 -> acc !! 0%nat = Some 0 ->
  for_each_e p 0 (fun i item acc => for_each_e other 0 (base.Mul_term i item) acc) acc
  = Done (Ok acc') ->
  acc' !! 0%nat = Some 1.
Proof.
  intros Hp Ho Hacc Hrun.
  destruct p as [|x xs]; [discriminate|]. destruct other as [|o os]; [discriminate|].
  simpl in Hp, Ho. injection Hp as ->. injection Ho as ->.
  rewrite for_each_e_cons in Hrun.
  apply ebind_Ok in Hrun as (acc1 & Hrow & Hrest).
  rewrite for_each_e_cons in Hrow.
  apply ebind_Ok in Hrow as (acc0 & Hfirst & Hrow).
  assert (H0 : acc0 !! 0%nat = Some 1).
  { unfold base.Mul_term in Hfirst. rewrite glog_one in Hfirst. cbn [ebind obind] in Hfirst.
    change (0 + 0) with 0 in Hfirst. rewrite Gexp_zero in Hfirst. cbn [obind] in Hfirst.
    invert_step Hfirst. invert_step Hfirst. injection Hfirst as <-.
    apply store_Done in Hfirst1 as (Hr & ->).
    apply index_Done in Hfirst0 as (_ & Hold).
    change (Z.to_nat 0) with 0%nat in *.
    rewrite Hacc in Hold. injection Hold as <-.
    rewrite list_lookup_insert_eq by (unfold len in Hr; lia). reflexivity. }
  apply Mul_row_keeps in Hrow as (Hlen1 & Hhead1); [|lia].
  apply Mul_rows_keep in Hrest as (Hlen2 & Hhead2); [|lia].
  rewrite Hhead2, Hhead1 by lia. exact H0.
Qed.

Ltac returned H :=
  match type of H with
  | returns_with _ ?o =>
      let E := fresh "Hrun" in
      destruct o eqn:E; simpl in H; [|contradiction|contradiction]
  end.

Lemma Mul_settles (p other : base.Polynomial) :
  base.num p <> [] -> base.num other <> [] ->
  Forall is_byte (base.num p) -> Forall is_byte (base.num other) ->
  settles (fun q => Forall is_byte (base.num q)
                    /\ base.Poly_Len q = base.Poly_Len p + base.Poly_Len other - 1
                    /\ (base.num p !! 0%nat = Some 1 -> base.num other !! 0%nat = Some 1 ->
                        base.num q !! 0%nat = Some 1))
          (base.Mul p other).
Proof.
  intros Hp Ho Hpb Hob.
  assert (Hpos : 1 <= base.Poly_Len p /\ 1 <= base.Poly_Len other).
  { unfold base.Poly_Len, len. destruct (base.num p), (base.num other);
      try contradiction; simpl length; lia. }
  unfold base.Mul.
  set (n := base.Poly_Len p + base.Poly_Len other - 1).
  assert (Hz : make_ints n = Done (replicate (Z.to_nat n) 0)).
  { unfold make_ints. destruct (n <? 0) eqn:E; [unfold n in E; lia | reflexivity]. }
  rewrite Hz. cbn [obind].
  pose proof (Mul_loops_settle (base.num p) (base.num other) (replicate (Z.to_nat n) 0)
                Hpb Hob (Forall_byte_zeros _)) as Hloops.
  assert (Hlen : len (base.num p) + len (base.num other) - 1
                 <= len (replicate (Z.to_nat n) 0)).
  { unfold len. rewrite length_replicate. unfold n, base.Poly_Len, len in *. lia. }
  specialize (Hloops Hlen). unfold settles in Hloops. returned Hloops.
  destruct a as [num|e]; [|exact I]. cbn [ebind obind].
  destruct Hloops as (Hln & Hbn).
  assert (Hzero : replicate (Z.to_nat n) 0 !! 0%nat = Some 0).
  { apply lookup_replicate_2. unfold n. lia. }
  destruct (Mul_leading_term _ _ _ _ Hp Ho Hzero Hrun) as (_ & g & Hg & Hhead).
  rewrite (NewPolynomial_leading num g Hhead Hg). simpl.
  split; [exact Hbn|]. split.
  - unfold base.Poly_Len, len in *. simpl. rewrite Hln, length_replicate. lia.
  - intros H1 H2. apply (Mul_leading_one _ _ _ _ H1 H2 Hzero Hrun).
Qed.

Lemma NewPolynomial_settles (num : list Z) (shift : Z) :
  0 <= shift -> Forall is_byte num ->
  settles (fun q => Forall is_byte (base.num q)) (base.NewPolynomial num shift).
Proof.
  intros Hs Hb. unfold base.NewPolynomial.
  destruct (len num =? 0); [exact I|].
  unfold make_ints. destruct (shift <? 0) eqn:E; [lia|]. simpl.
  apply Forall_app. split; [|apply Forall_byte_zeros].
  unfold slice. apply Forall_take, Forall_drop. exact Hb.
Qed.

Lemma strip_zeros_bytes (num : list Z) :
  Forall is_byte num -> Forall is_byte (base.strip_zeros num).
Proof.
  induction num as [|x rest IH]; intros H; [exact H|].
  simpl. destruct (x =? 0); [|exact H]. apply IH. inversion H; assumption.
Qed.

Lemma lookup_byte (l : list Z) (i : nat) (x : Z) :
  Forall is_byte l -> l !! i = Some x -> 0 <= x <= 255.
Proof.
  intros Hl Hx. apply (proj1 (List.Forall_forall _ _) Hl), list_elem_of_In.
  apply (list_elem_of_lookup_2 _ _ _ Hx).
Qed.

Lemma Mod_loop_settles (other : base.Polynomial) :
  Forall is_byte (base.num other) -> base.num other !! 0%nat = Some 1 ->
  forall (fuel : nat) p,
    (length (base.num p) < fuel)%nat -> Forall is_byte (base.num p) ->
    settles (fun m => Forall is_byte (base.num m)) (base.Mod_loop fuel p other).
Proof.
  intros Hob Hmonic.
  assert (Ho1 : 1 <= base.Poly_Len other).
  { unfold base.Poly_Len, len. apply lookup_lt_Some in Hmonic. lia. }
  induction fuel as [|fuel IH]; intros p Hfuel Hpb; [lia|].
  cbn [base.Mod_loop].
  destruct (base.Poly_Len p >=? base.Poly_Len other) eqn:E; [|exact Hpb].
  destruct (base.Poly_Len p - base.Poly_Len other <? 0); [exact Hpb|].
  unfold base.Poly_Get at 1.
  pose proof (returns_index (base.num p) 0) as H0.
  unfold base.Poly_Len in *. specialize (H0 ltac:(lia)). returned H0.
  rename a into p0. cbn [obind].
  pose proof (lookup_byte _ _ _ Hpb H0) as Hp0.
  destruct (Z.eq_dec p0 0) as [-> | Hne]; [exact I|].
  destruct (glog_defined p0 ltac:(lia)) as (gp & Hgp & Hgpb). rewrite Hgp. cbn [ebind obind].
  assert (Hother0 : base.Poly_Get other 0 = Done 1).
  { unfold base.Poly_Get. apply index_in_range; [lia | exact Hmonic]. }
  rewrite Hother0. cbn [obind]. rewrite glog_one. cbn [ebind obind].
  match goal with
  | |- settles _ (ebind ?loop _) =>
      assert (Hloop : settles (fun acc => length acc = length (base.num p)
                                          /\ Forall is_byte acc) loop)
  end.
  { refine (settles_for_loop_e
              (fun _ acc => length acc = length (base.num p) /\ Forall is_byte acc)
              _ _ 0 (base.num p) _ _); [split; [reflexivity | exact Hpb]|].
    intros j acc Hj (Hla & Hba). cbv beta.
    unfold base.Poly_Get.
    apply (settles_obind (fun oi => base.num other !! Z.to_nat j = Some oi));
      [apply returns_index; unfold len; lia|].
    intros oi Hoi. pose proof (lookup_byte _ _ _ Hob Hoi) as Hoib.
    destruct (Z.eq_dec oi 0) as [-> | Hoi0]; [exact I|].
    destruct (glog_defined oi ltac:(lia)) as (gi & -> & Hgi). cbn [ebind obind].
    destruct (Gexp_defined (gi + (gp - 0)) ltac:(lia)) as (g & -> & Hg). cbn [obind].
    assert (Hr : 0 <= j < len acc) by (unfold len in *; lia).
    apply (settles_obind (fun old => acc !! Z.to_nat j = Some old));
      [apply returns_index; exact Hr|].
    intros old Hold. rewrite (store_in_range acc j _ Hr). cbn [obind]. simpl.
    split; [rewrite length_insert; exact Hla|].
    apply Forall_byte_insert; [exact Hba|].
    apply lxor_byte; [exact (lookup_byte _ _ _ Hba Hold) | unfold is_byte; lia]. }
  unfold settles in Hloop. returned Hloop.
  destruct a as [num|e]; [|exact I]. cbn [ebind obind].
  destruct Hloop as (Hln & Hbn).
  pose proof (NewPolynomial_settles (base.strip_zeros num) 0 ltac:(lia)
                (strip_zeros_bytes num Hbn)) as Hnew.
  unfold settles in Hnew. returned Hnew.
  destruct a as [q|e]; [|exact I]. cbn [ebind obind].
  apply IH; [|exact Hnew].
  assert (Hp0' : base.Poly_Get p 0 = Done p0) by exact Hrun.
  destruct (Mod_round_cancels p other p0 1 gp 0 num Hp0' Hgp Hother0 glog_one Hrun0)
    as (Hlen & Hzero).
  pose proof (strip_zeros_leading num Hzero).
  pose proof (NewPolynomial_length _ _ Hrun1). lia.
Qed.

Lemma rs_generator_settles (ecCount : Z) :
  0 <= ecCount ->
  settles (fun g => Forall is_byte (base.num g) /\ base.num g !! 0%nat = Some 1
                    /\ base.Poly_Len g = ecCount + 1)
          (utils.rs_generator ecCount).
Proof.
  intros Hec. unfold utils.rs_generator.
  change (base.NewPolynomial [1] 0) with (Done (Ok {| base.num := [1] |})).
  cbn [ebind obind].
  eapply settles_weaken.
  - refine (settles_for_loop_e
              (fun i g => Forall is_byte (base.num g) /\ base.num g !! 0%nat = Some 1
                          /\ base.Poly_Len g = i + 1)
              _ _ 0 {| base.num := [1] |} _ _).
    + split; [|split; reflexivity]. repeat constructor; unfold is_byte; lia.
    + intros j t Hj (Hb & Hm & Hl). cbv beta.
      destruct (Gexp_defined j ltac:(lia)) as (g & -> & Hg). cbn [obind].
      rewrite (NewPolynomial_leading [1; g] 1) by (reflexivity || lia). cbn [ebind obind].
      eapply settles_weaken.
      * apply Mul_settles; [| discriminate | exact Hb |].
        -- intros E. rewrite E in Hm. discriminate.
        -- simpl. repeat constructor; unfold is_byte; lia.
      * intros q (Hqb & Hql & Hqm). split; [exact Hqb|]. split; [apply Hqm; [exact Hm | reflexivity]|].
        rewrite Hql, Hl. unfold base.Poly_Len, len. simpl. lia.
  - intros g (Hb & Hm & Hl). split; [exact Hb|]. split; [exact Hm|]. lia.
Qed.

(** ** The codewords of a block *)

Lemma block_data_returns (buffer : utils.BitBuffer) (offset dcCount : Z) :
  0 <= offset -> 0 <= dcCount -> offset + dcCount <= len (utils.buffer buffer) ->
  returns_with (fun dc => len dc = dcCount /\ Forall is_byte dc)
               (utils.block_data buffer offset dcCount).
Proof.
  intros Ho Hd Hfit. unfold utils.block_data.
  unfold make_ints. destruct (dcCount <? 0) eqn:E; [lia|]. cbn [obind].
  set (dc0 := replicate (Z.to_nat dcCount) 0).
  assert (Hl0 : len dc0 = dcCount) by (unfold len, dc0; rewrite length_replicate; lia).
  unfold for_range. eapply returns_weaken.
  - refine (returns_for_loop (fun _ dc => length dc = length dc0 /\ Forall is_byte dc)
              _ _ 0 dc0 _ _); [split; [reflexivity | apply Forall_byte_zeros]|].
    intros j dc Hj (Hl & Hb). cbv beta.
    apply (returns_obind (fun _ => True)); [|intros w _].
    + eapply returns_weaken; [apply returns_index; lia | trivial].
    + assert (Hr : 0 <= j < len dc) by (unfold len in *; lia).
      rewrite (store_in_range dc j _ Hr). simpl.
      split; [rewrite length_insert; exact Hl|].
      apply Forall_byte_insert; [exact Hb | apply land_byte].
  - cbv beta. intros dc (Hl & Hb). split; [|exact Hb]. unfold len in *. lia.
Qed.

Lemma block_ec_settles (dc : list Z) (ecCount : Z) :
  Forall is_byte dc -> 0 <= ecCount ->
  settles (fun ec => len ec = ecCount) (utils.block_ec dc ecCount).
Proof.
  intros Hdc Hec. unfold utils.block_ec.
  apply (settles_ebind _ _ _ _ (rs_generator_settles ecCount Hec)).
  intros rsPoly (Hrb & Hrm & Hrl).
  apply (settles_ebind (fun raw => Forall is_byte (base.num raw)));
    [apply NewPolynomial_settles; [lia | exact Hdc]|].
  intros rawPoly Hraw.
  apply (settles_ebind (fun m => Forall is_byte (base.num m))).
  { unfold base.Mod. apply Mod_loop_settles; [exact Hrb | exact Hrm | lia | exact Hraw]. }
  intros modPoly _.
  rewrite Hrl. replace (ecCount + 1 - 1) with ecCount by lia.
  unfold make_ints. destruct (ecCount <? 0) eqn:E; [lia|]. cbn [obind].
  set (ec0 := replicate (Z.to_nat ecCount) 0).
  assert (Hl0 : len ec0 = ecCount) by (unfold len, ec0; rewrite length_replicate; lia).
  apply (settles_obind (fun ec => length ec = length ec0)).
  - unfold for_range.
    refine (returns_for_loop (fun _ ec => length ec = length ec0) _ _ 0 ec0 eq_refl _).
    intros j ec Hj Hl. cbv beta.
    assert (Hr : 0 <= j < len ec) by (unfold len in *; lia).
    destruct (j + (base.Poly_Len modPoly - len ec0) >=? 0) eqn:Em.
    + apply (returns_obind (fun _ => True)).
      * unfold base.Poly_Get. eapply returns_weaken; [apply returns_index|trivial].
        unfold base.Poly_Len in *. lia.
      * intros v _. rewrite (store_in_range ec j _ Hr). simpl.
        rewrite length_insert. exact Hl.
    + rewrite (store_in_range ec j _ Hr). simpl. rewrite length_insert. exact Hl.
  - intros ec Hl. simpl. unfold len in *. lia.
Qed.

Lemma data_offset_S (blocks : list base.RSBlock) (j : nat) (b : base.RSBlock) :
  blocks !! j = Some b ->
  data_offset blocks (S j) = data_offset blocks j + base.DataCount b.
Proof.
  intros Hb. unfold data_offset. rewrite (take_S_r _ _ _ Hb), fold_left_app. reflexivity.
Qed.

Lemma sum_nonneg {A} (f : A -> Z) (l : list A) :
  (forall x, In x l -> 0 <= f x) -> 0 <= fold_right (fun b t => f b + t) 0 l.
Proof.
  induction l as [|x l IH]; intros H; simpl; [lia|].
  pose proof (H x (or_introl eq_refl)).
  specialize (IH (fun y Hy => H y (or_intror Hy))). lia.
Qed.

Lemma data_offset_bounds (blocks : list base.RSBlock) (j : nat) :
  (forall b, In b blocks -> 0 <= base.DataCount b) ->
  0 <= data_offset blocks j <= data_offset blocks (length blocks).
Proof.
  intros Hpos. unfold data_offset. rewrite firstn_all.
  rewrite <- (take_drop j blocks) at 3. rewrite fold_left_app.
  rewrite (fold_left_sum _ (drop j blocks)).
  rewrite (fold_left_sum _ (take j blocks)).
  assert (0 <= fold_right (fun b t => base.DataCount b + t) 0 (take j blocks)).
  { apply sum_nonneg. intros x Hx. apply Hpos.
    apply list_elem_of_In. apply list_elem_of_In in Hx.
    apply (subseteq_take j blocks). exact Hx. }
  assert (0 <= fold_right (fun b t => base.DataCount b + t) 0 (drop j blocks)).
  { apply sum_nonneg. intros x Hx. apply Hpos.
    apply list_elem_of_In. apply list_elem_of_In in Hx.
    apply (subseteq_drop j blocks). exact Hx. }
  lia.
Qed.

Lemma blocks_loop_settles (buffer : utils.BitBuffer) (blocks : list base.RSBlock) :
  (forall b, In b blocks -> 0 <= base.DataCount b <= base.TotalCount b) ->
  data_offset blocks (length blocks) <= len (utils.buffer buffer) ->
  settles (fun _ => True)
    (for_each_e blocks 0 (utils.CreateBytes_block buffer)
       {| utils.offset := 0; utils.maxDcCount := 0; utils.maxEcCount := 0;
          utils.dcdata := replicate (length blocks) [];
          utils.ecdata := replicate (length blocks) [] |}).
Proof.
  intros Hblocks Hfit.
  assert (Hpos : forall b, In b blocks -> 0 <= base.DataCount b).
  { intros b Hb. apply Hblocks in Hb. lia. }
  eapply settles_weaken.
  - refine (settles_for_each_e
              (fun i st => utils.offset st = data_offset blocks (Z.to_nat i)
                           /\ length (utils.dcdata st) = length blocks
                           /\ length (utils.ecdata st) = length blocks)
              _ blocks 0 _ _ _).
    + simpl. rewrite !length_replicate. auto.
    + intros j b st Hb (Ho & Hd & He). cbv beta.
      replace (Z.to_nat (0 + Z.of_nat j)) with j in Ho by lia.
      replace (Z.to_nat (0 + Z.of_nat j + 1)) with (S j) by lia.
      pose proof (data_offset_S blocks j b Hb) as HS.
      pose proof (data_offset_bounds blocks j Hpos) as Hj.
      pose proof (data_offset_bounds blocks (S j) Hpos) as HSj.
      assert (Hin : In b blocks).
      { apply list_elem_of_In. apply (list_elem_of_lookup_2 _ _ _ Hb). }
      pose proof (Hblocks b Hin) as Hbb.
      apply lookup_lt_Some in Hb as Hlt.
      unfold utils.CreateBytes_block.
      apply (settles_obind _ _ _ _
               (block_data_returns buffer (utils.offset st) (base.DataCount b)
                  ltac:(lia) ltac:(lia) ltac:(lia))).
      intros dc (Hldc & Hbdc).
      rewrite store_in_range by (unfold len; lia). cbn [obind].
      apply (settles_ebind _ _ _ _
               (block_ec_settles dc (base.TotalCount b - base.DataCount b) Hbdc ltac:(lia))).
      intros ec Hlec.
      rewrite store_in_range by (unfold len; lia). cbn [obind]. simpl.
      rewrite !length_insert. split; [lia | auto].
  - trivial.
Qed.

(** ** Interleaving *)

Lemma pending_app (a b : list (list Z)) (i : Z) :
  pending (a ++ b) i = pending a i + pending b i.
Proof. unfold pending. induction a as [|x a IH]; simpl; [reflexivity | rewrite IH; lia]. Qed.

Lemma pending_nonneg (cols : list (list Z)) (i : Z) : 0 <= pending cols i.
Proof. unfold pending. induction cols as [|x a IH]; simpl; lia. Qed.

Lemma pending_all (cols : list (list Z)) :
  pending cols 0 = fold_right (fun col t => len col + t) 0 cols.
Proof.
  unfold pending. induction cols as [|x a IH]; simpl; [reflexivity|].
  rewrite IH. unfold len. lia.
Qed.

Lemma interleave_into_fits (max : Z) (cols : list (list Z)) (data : list Z) (idx : Z) :
  0 <= idx -> idx + pending cols 0 <= len data ->
  returns_with (fun st => length (fst st) = length data
                          /\ idx <= snd st <= idx + pending cols 0)
               (utils.interleave_into max (len cols) cols (data, idx)).
Proof.
  intros Hidx Hfit. unfold utils.interleave_into, for_range.
  set (B := idx + pending cols 0) in *.
  eapply returns_weaken.
  - refine (returns_for_loop
              (fun i st => length (fst st) = length data /\ idx <= snd st
                           /\ snd st + pending cols i <= B)
              _ _ 0 (data, idx) _ _); [simpl; unfold B; lia|].
    intros i st Hi (HL & Hlo & Hhi). cbv beta.
    eapply returns_weaken.
    + refine (returns_for_loop
                (fun r st => length (fst st) = length data /\ idx <= snd st
                             /\ snd st + pending (take (Z.to_nat r) cols) (i + 1)
                                + pending (drop (Z.to_nat r) cols) i <= B)
                _ _ 0 st _ _).
      * cbv beta. split; [exact HL|]. split; [exact Hlo|].
        change (Z.to_nat 0) with 0%nat. rewrite take_0, drop_0.
        change (pending [] (i + 1)) with 0. lia.
      * intros r [d x] Hr (HL' & Hlo' & Hhi'). cbv beta. simpl in HL', Hlo', Hhi'.
        assert (Hrn : (Z.to_nat r < length cols)%nat) by (unfold len in Hr; lia).
        destruct (lookup_lt_is_Some_2 cols (Z.to_nat r) Hrn) as [col Hcol].
        rewrite (index_in_range cols r col ltac:(lia) Hcol). cbn [obind].
        replace (Z.to_nat (r + 1)) with (S (Z.to_nat r)) by lia.
        rewrite (take_S_r _ _ _ Hcol), pending_app.
        rewrite (drop_S _ _ _ Hcol) in Hhi'.
        pose proof (pending_nonneg (take (Z.to_nat r) cols) (i + 1)).
        pose proof (pending_nonneg (drop (S (Z.to_nat r)) cols) i).
        unfold pending at 2. unfold pending at 2 in Hhi'.
        simpl fold_right. simpl fold_right in Hhi'.
        fold (pending (drop (S (Z.to_nat r)) cols) i) in Hhi'.
        destruct (i <? len col) eqn:Ei.
        -- apply (returns_obind (fun _ => True)).
           { eapply returns_weaken; [apply returns_index; lia | trivial]. }
           intros v _.
           rewrite store_in_range by (unfold len in *; lia). cbn [obind]. simpl.
           rewrite length_insert. split; [exact HL'|]. lia.
        -- simpl. split; [exact HL'|]. lia.
    + cbv beta. intros st' (HL' & Hlo' & Hhi').
      replace (Z.to_nat (0 + Z.of_nat (Z.to_nat (len cols - 0)))) with (length cols) in Hhi'
        by (unfold len; lia).
      rewrite firstn_all, drop_all in Hhi'. unfold pending at 2 in Hhi'. simpl in Hhi'.
      split; [exact HL'|]. split; [exact Hlo'|]. lia.
  - cbv beta. intros st' (HL' & Hlo' & Hhi').
    pose proof (pending_nonneg cols (0 + Z.of_nat (Z.to_nat (max - 0)))).
    split; [exact HL'|]. lia.
Qed.

(** ** [CreateBytes] and [CreateData] *)

Lemma sum_split (blocks : list base.RSBlock) :
  fold_right (fun b t => base.TotalCount b + t) 0 blocks
  = fold_right (fun b t => base.DataCount b + t) 0 blocks
    + fold_right (fun b t => (base.TotalCount b - base.DataCount b) + t) 0 blocks.
Proof. induction blocks as [|b bs IH]; simpl; lia. Qed.

Lemma CreateBytes_returns (buffer : utils.BitBuffer) (rsBlocks : list base.RSBlock) :
  (forall b, In b rsBlocks -> 0 <= base.DataCount b <= base.TotalCount b) ->
  data_offset rsBlocks (length rsBlocks) <= len (utils.buffer buffer) ->
  returns_with (fun r => forall data, r = Some data -> len data = total_codewords rsBlocks)
               (utils.CreateBytes buffer rsBlocks).
Proof.
  intros Hblocks Hfit. unfold utils.CreateBytes.
  pose proof (blocks_loop_settles buffer rsBlocks Hblocks Hfit) as Hloop.
  unfold settles in Hloop. returned Hloop. cbn [obind].
  destruct a as [st|e]; [|simpl; discriminate].
  apply (blocks_loop_returns buffer rsBlocks 0 _ st Hblocks) in Hrun
    as (Hl1 & Hl2 & _ & Hnew & _).
  simpl in Hl1, Hl2. rewrite length_replicate in Hl1, Hl2.
  set (dcs := utils.dcdata st) in *. set (ecs := utils.ecdata st) in *.
  assert (Hdlen : forall j b, rsBlocks !! j = Some b ->
            exists c, dcs !! j = Some c /\ len c = base.DataCount b).
  { intros j b Hb. destruct (Hnew j b Hb) as (dc & ec & H1 & _ & (_ & _ & H3 & _)).
    exists dc. auto. }
  assert (Helen : forall j b, rsBlocks !! j = Some b ->
            exists c, ecs !! j = Some c /\ len c = base.TotalCount b - base.DataCount b).
  { intros j b Hb. destruct (Hnew j b Hb) as (dc & ec & _ & H2 & (_ & _ & _ & H4)).
    exists ec. auto. }
  pose proof (sum_by_lookup base.DataCount rsBlocks dcs Hl1 Hdlen) as Hsd.
  pose proof (sum_by_lookup (fun b => base.TotalCount b - base.DataCount b) rsBlocks ecs
                Hl2 Helen) as Hse.
  rewrite <- pending_all in Hsd, Hse.
  fold (total_codewords rsBlocks).
  assert (Htot : total_codewords rsBlocks = pending dcs 0 + pending ecs 0).
  { unfold total_codewords. rewrite fold_left_sum, sum_split, Hsd, Hse. lia. }
  pose proof (pending_nonneg dcs 0) as Hpd. pose proof (pending_nonneg ecs 0) as Hpe.
  unfold make_ints. destruct (total_codewords rsBlocks <? 0) eqn:E; [lia|]. cbn [obind].
  set (data0 := replicate (Z.to_nat (total_codewords rsBlocks)) 0).
  assert (Hl0 : len data0 = total_codewords rsBlocks)
    by (unfold len, data0; rewrite length_replicate; lia).
  replace (len rsBlocks) with (len dcs) at 1 by (unfold len; lia).
  pose proof (interleave_into_fits (utils.maxDcCount st) dcs data0 0 ltac:(lia) ltac:(lia))
    as H1.
  returned H1. destruct a as [data1 idx1]. cbn [obind]. simpl in H1.
  destruct H1 as (HL1 & Hi1).
  replace (len rsBlocks) with (len ecs) by (unfold len; lia).
  pose proof (interleave_into_fits (utils.maxEcCount st) ecs data1 idx1 ltac:(lia)
                ltac:(unfold len in *; lia)) as H2.
  returned H2. destruct a as [data2 idx2]. cbn [obind]. simpl in H2. simpl.
  destruct H2 as (HL2 & Hi2).
  intros data [= <-]. unfold len in *. lia.
Qed.

Lemma terminate_bits_returns (bitLimit : Z) :
  forall (fuel : nat) (i : Z) (b : utils.BitBuffer),
    buffer_inv b -> utils.Len b <= bitLimit -> 0 <= i -> 4 - i <= Z.of_nat fuel ->
    exists b', utils.terminate_bits fuel bitLimit i b = Done b'
               /\ buffer_inv b' /\ utils.Len b' <= bitLimit.
Proof.
  induction fuel as [|fuel IH]; intros i b Hinv Hfit Hi Hfuel; cbn [utils.terminate_bits].
  - destruct (i <? utils.min (bitLimit - utils.Len b) 4) eqn:E.
    + unfold utils.min in E. destruct (bitLimit - utils.Len b <? 4) eqn:E4; lia.
    + exists b. auto.
  - destruct (i <? utils.min (bitLimit - utils.Len b) 4) eqn:E.
    + destruct (PutBit_inv b false Hinv) as (b1 & -> & Hinv1 & Hlen1). cbn [obind].
      apply IH; [exact Hinv1 | | lia | lia].
      unfold utils.Len in *. unfold utils.min in E.
      destruct (bitLimit - utils.bb_length b <? 4) eqn:E4; lia.
    + exists b. auto.
Qed.

Lemma capacity_in_bits (blocks : list base.RSBlock) :
  fold_left (fun t b => t + base.DataCount b * 8) blocks 0
  = 8 * data_offset blocks (length blocks).
Proof.
  unfold data_offset. rewrite firstn_all, !fold_left_sum.
  induction blocks as [|b bs IH]; simpl; lia.
Qed.

Lemma pad_bits_returns (n : nat) (b : utils.BitBuffer) :
  buffer_inv b ->
  exists b', for_loop n 0 (fun _ b => utils.PutBit b false) b = Done b'
             /\ buffer_inv b' /\ utils.bb_length b' = utils.bb_length b + Z.of_nat n.
Proof.
  intros Hinv.
  destruct (for_loop_Done (fun j t => buffer_inv t /\ utils.bb_length t = utils.bb_length b + j)
              (fun _ b => utils.PutBit b false) n 0 b) as (b' & Hrun & Hinv' & Hlen').
  - split; [exact Hinv | lia].
  - intros j t Hj (Ht & Hl).
    destruct (PutBit_inv t false Ht) as (t' & H1 & H2 & H3).
    exists t'. split; [exact H1|]. split; [exact H2 | lia].
  - exists b'. split; [exact Hrun|]. split; [exact Hinv' | lia].
Qed.

Lemma pad_bytes_returns (n : nat) (b : utils.BitBuffer) :
  buffer_inv b ->
  exists b', for_loop n 0 (fun i b => if Z.rem i 2 =? 0 then utils.Put b utils.PAD0 8
                                      else utils.Put b utils.PAD1 8) b = Done b'
             /\ buffer_inv b' /\ utils.bb_length b' = utils.bb_length b + 8 * Z.of_nat n.
Proof.
  intros Hinv.
  destruct (for_loop_Done
              (fun j t => buffer_inv t /\ utils.bb_length t = utils.bb_length b + 8 * j)
              (fun i b => if Z.rem i 2 =? 0 then utils.Put b utils.PAD0 8
                          else utils.Put b utils.PAD1 8) n 0 b) as (b' & Hrun & Hinv' & Hlen').
  - split; [exact Hinv | lia].
  - intros j t Hj (Ht & Hl).
    destruct (Z.rem j 2 =? 0).
    + destruct (Put_length t utils.PAD0 8 Ht) as (t' & H1 & H2 & H3).
      exists t'. split; [exact H1|]. split; [exact H2 | lia].
    + destruct (Put_length t utils.PAD1 8 Ht) as (t' & H1 & H2 & H3).
      exists t'. split; [exact H1|]. split; [exact H2 | lia].
  - exists b'. split; [exact Hrun|]. split; [exact Hinv' | lia].
Qed.

Lemma CreateData_fitting (version errorCorrection : Z) (dataList : list utils.QRData)
    (blocks : list base.RSBlock) :
  1 <= version <= 40 ->
  Forall (fun d => known_mode (utils.mode d)) dataList ->
  base.RSBlocks version errorCorrection = Done (Ok blocks) ->
  (forall b, In b blocks -> 0 <= base.DataCount b <= base.TotalCount b) ->
  total_bits (utils.ModeSizeVersion version) dataList
  <= fold_left (fun t b => t + base.DataCount b * 8) blocks 0 ->
  exists r, utils.CreateData version errorCorrection dataList = Done (Ok r)
            /\ forall data, r = Some data -> len data = total_codewords blocks.
Proof.
  intros Hversion Hmodes Hblocks Hshape Hfit.
  destruct (write_segments_length version dataList Hversion Hmodes) as (b & Hb & Hinv & Hlen).
  unfold utils.CreateData. rewrite Hb, Hblocks. cbn [obind ebind].
  rewrite capacity_in_bits in *.
  set (K := data_offset blocks (length blocks)) in *.
  assert (Hlb : utils.Len b <= 8 * K) by (unfold utils.Len; lia).
  destruct (utils.Len b >? 8 * K) eqn:E; [lia|].
  destruct (terminate_bits_returns (8 * K) 4 0 b Hinv Hlb ltac:(lia) ltac:(lia))
    as (b1 & -> & Hinv1 & Hlen1).
  cbn [obind].
  assert (Hpos1 : 0 <= utils.Len b1) by (destruct Hinv1 as (H & _); exact H).
  assert (Hpad : exists b2,
            (if negb (Z.rem (utils.Len b1) 8 =? 0)
             then for_range 0 (8 - Z.rem (utils.Len b1) 8)
                    (fun _ b => utils.PutBit b false) b1
             else Done b1) = Done b2
            /\ buffer_inv b2 /\ utils.Len b2 <= 8 * K /\ utils.Len b2 mod 8 = 0).
  { rewrite Z.rem_mod_nonneg by lia.
    pose proof (Z.div_mod (utils.Len b1) 8 ltac:(lia)) as Hdm.
    pose proof (Z.mod_pos_bound (utils.Len b1) 8 ltac:(lia)) as Hmb.
    destruct (utils.Len b1 mod 8 =? 0) eqn:Ed; cbn [negb].
    - exists b1. split; [reflexivity|]. split; [exact Hinv1|]. split; [exact Hlen1|].
      apply Z.eqb_eq. exact Ed.
    - unfold for_range.
      destruct (pad_bits_returns (Z.to_nat (8 - utils.Len b1 mod 8 - 0)) b1 Hinv1)
        as (b2 & -> & Hinv2 & Hlen2).
      exists b2. split; [reflexivity|]. split; [exact Hinv2|].
      unfold utils.Len in *.
      assert (Heq : utils.bb_length b2 = 8 * (utils.bb_length b1 / 8 + 1)) by lia.
      split; [lia|]. rewrite Heq, Z.mul_comm. apply Z.mod_mul. lia. }
  destruct Hpad as (b2 & -> & Hinv2 & Hlen2 & Hmod2). cbn [obind].
  assert (Hpos2 : 0 <= utils.Len b2) by (destruct Hinv2 as (H & _); exact H).
  pose proof (Z.div_mod (utils.Len b2) 8 ltac:(lia)) as Hdm2.
  assert (Hq : Z.quot (8 * K - utils.Len b2) 8 = K - utils.Len b2 / 8).
  { rewrite Z.quot_div_nonneg by lia.
    replace (8 * K - utils.Len b2) with ((K - utils.Len b2 / 8) * 8) by lia.
    apply Z.div_mul. lia. }
  rewrite Hq. unfold for_range.
  destruct (pad_bytes_returns (Z.to_nat (K - utils.Len b2 / 8 - 0)) b2 Hinv2)
    as (b3 & -> & Hinv3 & Hlen3).
  cbn [obind].
  assert (Hfull : utils.bb_length b3 = 8 * K) by (unfold utils.Len in *; lia).
  assert (Hbytes : len (utils.buffer b3) = K).
  { destruct Hinv3 as (_ & Hsize & _). rewrite Hsize, Hfull.
    replace (8 * K + 7) with (7 + K * 8) by lia.
    rewrite Z.div_add by lia. reflexivity. }
  pose proof (CreateBytes_returns b3 blocks Hshape ltac:(fold K; lia)) as Hcb.
  returned Hcb. cbn [obind]. exists a. split; [reflexivity | exact Hcb].
Qed.

(** X25: [CreateBytes] never panics on a buffer that holds the data
    codewords of the blocks: for blocks with [0 <= DataCount <= TotalCount]
    and a buffer of at least [sum DataCount] bytes, whatever they are, it
    returns; what it returns is [nil] or a stream of [sum TotalCount]
    bytes. *)
Theorem CreateBytes_never_panics (buffer : utils.BitBuffer) (rsBlocks : list base.RSBlock)
    (Hblocks : forall b, In b rsBlocks -> 0 <= base.DataCount b <= base.TotalCount b)
    (Hfit : data_offset rsBlocks (length rsBlocks) <= len (utils.buffer buffer)) :
  exists r, utils.CreateBytes buffer rsBlocks = Done r
            /\ forall data, r = Some data -> len data = total_codewords rsBlocks.
Proof.
  pose proof (CreateBytes_returns buffer rsBlocks Hblocks Hfit) as H.
  destruct (utils.CreateBytes buffer rsBlocks) as [r| |]; simpl in H; try contradiction.
  exists r. split; [reflexivity | exact H].
Qed.

Lemma CreateBytes_never_panics_witness :
  exists r, utils.CreateBytes {| utils.buffer := [64; 0; 236]; utils.bb_length := 24 |}
              [ {| base.TotalCount := 5; base.DataCount := 3 |} ] = Done r
            /\ forall data, r = Some data
                            -> len data
                               = total_codewords [ {| base.TotalCount := 5; base.DataCount := 3 |} ].
Proof.
  apply CreateBytes_never_panics.
  - intros b [<- | []]. simpl. lia.
  - vm_compute. discriminate.
Defined.

(** X26: [CreateData] returns, without an error and without a panic, for
    segments of known modes that fit the version: for a version from 1 to
    40 at one of the four levels and segments whose encoding is not longer
    than eight times the data codewords of the blocks, the result is [nil]
    or a stream of as many bytes as the blocks have codewords. *)
Theorem CreateData_returns (version errorCorrection : Z) (dataList : list utils.QRData)
    (Hversion : 1 <= version <= 40) (Hlevel : 0 <= errorCorrection <= 3)
    (Hmodes : Forall (fun d => known_mode (utils.mode d)) dataList) :
  exists blocks,
    base.RSBlocks version errorCorrection = Done (Ok blocks)
    /\ (total_bits (utils.ModeSizeVersion version) dataList
        <= fold_left (fun t b => t + base.DataCount b * 8) blocks 0 ->
        exists r, utils.CreateData version errorCorrection dataList = Done (Ok r)
                  /\ forall data, r = Some data -> len data = total_codewords blocks).
Proof.
  pose proof (rs_blocks_check_sound version errorCorrection Hversion Hlevel) as Hc.
  unfold rs_blocks_check in Hc.
  destruct (base.RSBlocks version errorCorrection) as [[blocks|e]| |] eqn:Hrun;
    try discriminate.
  destruct (base.RSBlocks version constants.ERROR_CORRECT_L) as [[blocksL|e]| |];
    try discriminate.
  apply andb_true_iff in Hc as [Hc _]. apply andb_true_iff in Hc as [Hc _].
  apply andb_true_iff in Hc as [_ H2].
  exists blocks. split; [reflexivity|]. intros Hfit.
  apply (CreateData_fitting version errorCorrection dataList blocks Hversion Hmodes Hrun);
    [|exact Hfit].
  intros b Hb. apply (proj1 (forallb_forall _ _) H2) in Hb. lia.
Qed.

Lemma CreateData_returns_witness :
  exists blocks,
    base.RSBlocks 1 0 = Done (Ok blocks)
    /\ (total_bits (utils.ModeSizeVersion 1)
          [ {| utils.mode := utils.ModeByte; utils.data := [104; 105] |} ]
        <= fold_left (fun t b => t + base.DataCount b * 8) blocks 0 ->
        exists r, utils.CreateData 1 0
                    [ {| utils.mode := utils.ModeByte; utils.data := [104; 105] |} ]
                  = Done (Ok r)
                  /\ forall data, r = Some data -> len data = total_codewords blocks).
Proof.
  apply (CreateData_returns 1 0); [lia | lia |].
  constructor; [right; right; left; reflexivity | constructor].
Defined.

(** * Penalty scoring and [nil] cells *)

Lemma unless_nil_obind {A B} (H : Prop) (m : outcome A) (k : A -> outcome B) :
  returns_unless_nil H m -> (forall a, m = Done a -> returns_unless_nil H (k a)) ->
  returns_unless_nil H (obind m k).
Proof.
  destruct m as [a|p|]; simpl; intros H1 H2; [apply H2; reflexivity | exact H1 | exact H1].
Qed.

Lemma unless_nil_returns {A} (H : Prop) (P : A -> Prop) (o : outcome A) :
  returns_with P o -> returns_unless_nil H o.
Proof. destruct o; simpl; [trivial | contradiction | contradiction]. Qed.

Lemma unless_nil_for_loop {St} (H : Prop) (body : Z -> St -> outcome St) (n : nat) :
  forall i s,
    (forall j t, i <= j < i + Z.of_nat n -> returns_unless_nil H (body j t)) ->
    returns_unless_nil H (for_loop n i body s).
Proof.
  induction n as [|n IH]; intros i s Hbody; simpl for_loop; [exact I|].
  apply unless_nil_obind; [apply Hbody; lia|].
  intros t _. apply IH. intros j u Hj. apply Hbody. lia.
Qed.

Lemma unless_and (H : Prop) (a b : outcome bool) :
  returns_unless_nil H a -> returns_unless_nil H b -> returns_unless_nil H (utils.and_then a b).
Proof.
  intros Ha Hb. unfold utils.and_then. apply unless_nil_obind; [exact Ha|].
  intros [|] _; [exact Hb | exact I].
Qed.

Lemma unless_or (H : Prop) (a b : outcome bool) :
  returns_unless_nil H a -> returns_unless_nil H b -> returns_unless_nil H (utils.or_else a b).
Proof.
  intros Ha Hb. unfold utils.or_else. apply unless_nil_obind; [exact Ha|].
  intros [|] _; [exact I | exact Hb].
Qed.

Lemma unless_not (H : Prop) (a : outcome bool) :
  returns_unless_nil H a -> returns_unless_nil H (utils.not_ a).
Proof.
  intros Ha. unfold utils.not_. apply unless_nil_obind; [exact Ha|]. intros x _. exact I.
Qed.

(** ** Rule 3 dereferences *)

Lemma level3_match_runs (H : Prop) (at_ : Z -> outcome bool) :
  (forall k, 0 <= k <= 10 -> returns_unless_nil H (at_ k)) ->
  returns_unless_nil H (utils.level3_match at_).
Proof.
  intros Hat. unfold utils.level3_match.
  repeat first [ apply unless_and | apply unless_or | apply unless_not | (apply Hat; lia) ].
Qed.

Lemma level3_line_runs (H : Prop) (N : Z) (read : Z -> outcome utils.cell) :
  (forall k, 0 <= k < N -> returns_with (fun c => c = None -> H) (read k)) ->
  forall (fuel : nat) pos lp,
    0 <= pos -> N - 10 - pos <= Z.of_nat fuel ->
    returns_unless_nil H (utils.level3_line fuel N read pos lp).
Proof.
  intros Hread. induction fuel as [|fuel IH]; intros pos lp Hpos Hfuel;
    cbn [utils.level3_line].
  - destruct (pos <? N - 10) eqn:E; [lia | exact I].
  - destruct (pos <? N - 10) eqn:E; [|exact I].
    assert (Hat : forall k, 0 <= k <= 10 ->
                    returns_unless_nil H (do c <- read (pos + k); utils.deref c)).
    { intros k Hk. specialize (Hread (pos + k) ltac:(lia)).
      destruct (read (pos + k)) as [c| |]; simpl in *; try contradiction.
      destruct c; simpl; [exact I|]. split; [reflexivity | apply Hread; reflexivity]. }
    apply unless_nil_obind; [apply level3_match_runs; exact Hat|]. intros hit _.
    apply unless_nil_obind; [apply Hat; lia|]. intros last _.
    apply IH; destruct last; lia.
Qed.

Lemma read_row (m : list (list utils.cell)) (N : Z) (row : list utils.cell) (k : Z) :
  In row m -> len row = N -> 0 <= k < N ->
  returns_with (fun c => c = None -> has_nil m) (index row k).
Proof.
  intros Hin Hlen Hk.
  pose proof (returns_index row k ltac:(lia)) as Hi.
  eapply returns_weaken; [exact Hi|]. cbv beta. intros c Hc ->.
  exists row. split; [exact Hin|].
  apply list_elem_of_In. apply (list_elem_of_lookup_2 _ _ _ Hc).
Qed.

Lemma lostPointLevel3_runs (m : list (list utils.cell)) (N : Z) :
  square N m = true ->
  returns_unless_nil (has_nil m) (utils.lostPointLevel3 m N).
Proof.
  intros Hsq. apply square_spec in Hsq as Hsp. destruct Hsp as [Hlen Hrows].
  unfold utils.lostPointLevel3, for_range.
  apply unless_nil_obind.
  - apply unless_nil_for_loop. intros row lp Hrow.
    destruct (square_row N m row Hsq ltac:(lia)) as (thisRow & Hr & Hl).
    rewrite (index_in_range m row thisRow ltac:(lia) Hr). cbn [obind].
    apply level3_line_runs; [|lia|lia].
    intros k Hk. apply (read_row m N thisRow k); [|exact Hl|exact Hk].
    apply list_elem_of_In. apply (list_elem_of_lookup_2 _ _ _ Hr).
  - intros lp _. apply unless_nil_for_loop. intros col lp' Hcol.
    apply level3_line_runs; [|lia|lia].
    intros k Hk.
    destruct (square_row N m k Hsq ltac:(lia)) as (thisRow & Hr & Hl).
    rewrite (index_in_range m k thisRow ltac:(lia) Hr). cbn [obind].
    apply (read_row m N thisRow col); [|exact Hl|lia].
    apply list_elem_of_In. apply (list_elem_of_lookup_2 _ _ _ Hr).
Qed.

(** ** Rule 4 dereferences every cell *)

Lemma level4_row (row : list utils.cell) :
  forall count,
    (In None row ->
     for_each row (fun module darkCount =>
                     do dark <- utils.deref module;
                     Done (if dark then darkCount + 1 else darkCount)) count
     = Panicked NilDereference)
    /\ (~ In None row ->
        exists count',
          for_each row (fun module darkCount =>
                          do dark <- utils.deref module;
                          Done (if dark then darkCount + 1 else darkCount)) count
          = Done count').
Proof.
  induction row as [|c row IH]; intros count; simpl for_each.
  - split; [contradiction|]. intros _. exists count. reflexivity.
  - destruct c as [p|]; simpl.
    + destruct (IH (if utils.pointee p then count + 1 else count)) as [IH1 IH2].
      split.
      * intros [Hc | Hin]; [discriminate | apply IH1; exact Hin].
      * intros Hno. apply IH2. intros Hin. apply Hno. right. exact Hin.
    + split; [reflexivity|]. intros Hno. exfalso. apply Hno. left. reflexivity.
Qed.

Lemma nil_in_row (row : list utils.cell) : In None row \/ ~ In None row.
Proof.
  induction row as [|c row IH]; [right; intros []|].
  destruct c as [p|]; [|left; left; reflexivity].
  destruct IH as [IH | IH]; [left; right; exact IH|].
  right. intros [Hc | Hin]; [discriminate | contradiction].
Qed.

Lemma level4_rows (m : list (list utils.cell)) :
  forall count,
    (has_nil m ->
     for_each m (fun row darkCount =>
                   for_each row (fun module darkCount =>
                                   do dark <- utils.deref module;
                                   Done (if dark then darkCount + 1 else darkCount))
                     darkCount) count
     = Panicked NilDereference)
    /\ (~ has_nil m ->
        exists count',
          for_each m (fun row darkCount =>
                        for_each row (fun module darkCount =>
                                        do dark <- utils.deref module;
                                        Done (if dark then darkCount + 1 else darkCount))
                          darkCount) count
          = Done count').
Proof.
  induction m as [|row m IH]; intros count; simpl for_each.
  - split; [intros (row & [] & _)|]. intros _. exists count. reflexivity.
  - destruct (nil_in_row row) as [Hin | Hno].
    + rewrite (proj1 (level4_row row count) Hin). simpl. split; [reflexivity|].
      intros Hn. exfalso. apply Hn. exists row. split; [left; reflexivity | exact Hin].
    + destruct (proj2 (level4_row row count) Hno) as (count1 & ->). simpl.
      destruct (IH count1) as [IH1 IH2]. split.
      * intros (row' & [<- | Hin'] & Hnone); [contradiction|].
        apply IH1. exists row'. split; assumption.
      * intros Hn. apply IH2. intros (row' & Hin' & Hnone). apply Hn.
        exists row'. split; [right; exact Hin' | exact Hnone].
Qed.

Lemma has_nil_decided (m : list (list utils.cell)) : has_nil m \/ ~ has_nil m.
Proof.
  induction m as [|row m IH]; [right; intros (row & [] & _)|].
  destruct (nil_in_row row) as [Hin | Hno].
  - left. exists row. split; [left; reflexivity | exact Hin].
  - destruct IH as [(row' & Hin' & Hnone) | IH].
    + left. exists row'. split; [right; exact Hin' | exact Hnone].
    + right. intros (row' & [<- | Hin'] & Hnone); [contradiction|].
      apply IH. exists row'. split; assumption.
Qed.

(** ** Rules 1 and 2 compare pointers *)

Lemma incr_at_returns (container : list Z) (i : Z) :
  0 <= i < len container ->
  returns_with (fun c' => length c' = length container) (utils.incr_at container i).
Proof.
  intros Hi. unfold utils.incr_at.
  apply (returns_obind (fun _ => True)).
  - eapply returns_weaken; [apply returns_index; exact Hi | trivial].
  - intros v _. rewrite (store_in_range container i _ Hi). simpl. apply length_insert.
Qed.

Lemma level1_step_returns (L : nat) (col : Z) (c : utils.cell) (st : utils.scan_state) :
  0 <= col < Z.of_nat L -> scanned L col st ->
  returns_with (scanned L (col + 1)) (utils.level1_step c st).
Proof.
  intros Hcol. destruct st as [[container prev] length_]. unfold scanned. simpl.
  intros (Hl & Hn). destruct (utils.ptr_eqb c prev); simpl; [split; [exact Hl | lia]|].
  destruct (length_ >=? 5).
  - pose proof (incr_at_returns container length_ ltac:(unfold len; lia)) as Hi.
    returned Hi. simpl. split; [congruence | lia].
  - simpl. split; [exact Hl | lia].
Qed.

Lemma level1_flush_returns (L : nat) (col : Z) (st : utils.scan_state) :
  col < Z.of_nat L -> scanned L col st ->
  returns_with (fun c' => length c' = L) (utils.level1_flush st).
Proof.
  intros Hcol. destruct st as [[container prev] length_]. unfold scanned. simpl.
  intros (Hl & Hn). destruct (length_ >=? 5); [|exact Hl].
  pose proof (incr_at_returns container length_ ltac:(unfold len; lia)) as Hi.
  returned Hi. simpl. congruence.
Qed.

Lemma lostPointLevel1_returns (m : list (list utils.cell)) (N : Z) :
  square N m = true -> returns_with (fun _ => True) (utils.lostPointLevel1 m N).
Proof.
  intros Hsq. apply square_spec in Hsq as Hsp. destruct Hsp as [Hlen Hrows].
  assert (HN : 0 <= N) by (unfold len in Hlen; lia).
  unfold utils.lostPointLevel1.
  unfold make_ints. destruct (N + 1 <? 0) eqn:E; [lia|]. cbn [obind].
  set (L := Z.to_nat (N + 1)).
  assert (HL : Z.of_nat L = N + 1) by (unfold L; lia).
  unfold for_range.
  apply (returns_obind (fun c => length c = L)).
  { refine (returns_for_loop (fun _ c => length c = L) _ _ 0 _ _ _);
      [apply length_replicate|].
    intros row container Hrow Hc. cbv beta.
    destruct (square_row N m row Hsq ltac:(lia)) as (thisRow & Hr & Hl).
    rewrite (index_in_range m row thisRow ltac:(lia) Hr). cbn [obind].
    apply (returns_obind (fun _ => True)).
    { eapply returns_weaken; [apply returns_index; lia | trivial]. }
    intros prev _.
    apply (returns_obind (scanned L (0 + Z.of_nat (Z.to_nat (N - 0))))).
    - refine (returns_for_loop (scanned L) _ _ 0 _ _ _);
        [unfold scanned; simpl; split; [exact Hc | lia]|].
      intros col st Hcol Hst.
      apply (returns_obind (fun _ => True)).
      { eapply returns_weaken; [apply returns_index; lia | trivial]. }
      intros c _. apply level1_step_returns; [lia | exact Hst].
    - intros st Hst.
      apply (level1_flush_returns L (0 + Z.of_nat (Z.to_nat (N - 0)))); [lia | exact Hst]. }
  intros container1 Hc1.
  apply (returns_obind (fun c => length c = L)).
  { refine (returns_for_loop (fun _ c => length c = L) _ _ 0 _ Hc1 _).
    intros col container Hcol Hc. cbv beta.
    destruct (square_row N m 0 Hsq ltac:(lia)) as (row0 & Hr0 & Hl0).
    rewrite (index_in_range m 0 row0 ltac:(lia) Hr0). cbn [obind].
    apply (returns_obind (fun _ => True)).
    { eapply returns_weaken; [apply returns_index; lia | trivial]. }
    intros prev _.
    apply (returns_obind (scanned L (0 + Z.of_nat (Z.to_nat (N - 0))))).
    - refine (returns_for_loop (scanned L) _ _ 0 _ _ _);
        [unfold scanned; simpl; split; [exact Hc | lia]|].
      intros row st Hrow Hst.
      destruct (square_row N m row Hsq ltac:(lia)) as (thisRow & Hr & Hl).
      rewrite (index_in_range m row thisRow ltac:(lia) Hr). cbn [obind].
      apply (returns_obind (fun _ => True)).
      { eapply returns_weaken; [apply returns_index; lia | trivial]. }
      intros c _. apply level1_step_returns; [lia | exact Hst].
    - intros st Hst.
      apply (level1_flush_returns L (0 + Z.of_nat (Z.to_nat (N - 0)))); [lia | exact Hst]. }
  intros container2 Hc2.
  eapply returns_weaken.
  - refine (returns_for_loop (fun _ _ => True) _ _ 5 0 I _).
    intros e lp He _.
    apply (returns_obind (fun _ => True)); [|intros; exact I].
    eapply returns_weaken; [apply returns_index; unfold len; lia | trivial].
  - trivial.
Qed.

Lemma level2_cols_returns (N : Z) (thisRow nextRow : list utils.cell) :
  len thisRow = N -> len nextRow = N ->
  forall (fuel : nat) col lp,
    0 <= col -> N - 1 - col <= Z.of_nat fuel ->
    returns_with (fun _ => True) (utils.level2_cols fuel N thisRow nextRow col lp).
Proof.
  intros H1 H2. induction fuel as [|fuel IH]; intros col lp Hcol Hfuel;
    cbn [utils.level2_cols].
  - destruct (col <? N - 1) eqn:E; [lia | exact I].
  - destruct (col <? N - 1) eqn:E; [|exact I].
    apply (returns_obind (fun _ => True)).
    { eapply returns_weaken; [apply returns_index; lia | trivial]. }
    intros topRight _.
    apply (returns_obind (fun _ => True)).
    { eapply returns_weaken; [apply returns_index; lia | trivial]. }
    intros bottomRight _.
    destruct (negb (utils.ptr_eqb topRight bottomRight)); [apply IH; lia|].
    apply (returns_obind (fun _ => True)).
    { eapply returns_weaken; [apply returns_index; lia | trivial]. }
    intros topLeft _.
    destruct (negb (utils.ptr_eqb topRight topLeft)); [apply IH; lia|].
    apply (returns_obind (fun _ => True)).
    { eapply returns_weaken; [apply returns_index; lia | trivial]. }
    intros bottomLeft _.
    destruct (negb (utils.ptr_eqb topRight bottomLeft)); apply IH; lia.
Qed.

Lemma lostPointLevel2_returns (m : list (list utils.cell)) (N : Z) :
  square N m = true -> returns_with (fun _ => True) (utils.lostPointLevel2 m N).
Proof.
  intros Hsq. unfold utils.lostPointLevel2, for_range.
  refine (returns_for_loop (fun _ _ => True) _ _ 0 0 I _).
  intros row lp Hrow _.
  destruct (square_row N m row Hsq ltac:(lia)) as (thisRow & Hr & Hl).
  destruct (square_row N m (row + 1) Hsq ltac:(lia)) as (nextRow & Hr' & Hl').
  rewrite (index_in_range m row thisRow ltac:(lia) Hr). cbn [obind].
  rewrite (index_in_range m (row + 1) nextRow ltac:(lia) Hr'). cbn [obind].
  apply level2_cols_returns; [exact Hl | exact Hl' | lia | lia].
Qed.

Lemma LostPoint_stops_at_nil (m : list (list utils.cell)) :
  square (len m) m = true -> has_nil m -> utils.LostPoint m = Panicked NilDereference.
Proof.
  intros Hsquare Hn. unfold utils.LostPoint.
  pose proof (lostPointLevel1_returns m (len m) Hsquare) as H1.
  pose proof (lostPointLevel2_returns m (len m) Hsquare) as H2.
  pose proof (lostPointLevel3_runs m (len m) Hsquare) as H3.
  destruct (utils.lostPointLevel1 m (len m)) as [l1| |]; simpl in H1; try contradiction.
  destruct (utils.lostPointLevel2 m (len m)) as [l2| |]; simpl in H2; try contradiction.
  cbn [obind]. unfold utils.lostPointLevel4.
  destruct (utils.lostPointLevel3 m (len m)) as [l3|p|]; simpl in H3.
  - cbn [obind]. rewrite (proj1 (level4_rows m 0) Hn). reflexivity.
  - destruct H3 as [-> _]. reflexivity.
  - contradiction.
Qed.

(** X27: on a square matrix [LostPoint] returns a score exactly when no
    cell is [nil]: rules 1 and 2 only compare pointers, rules 3 and 4
    dereference them, and rule 4 reads every cell; with a [nil] cell
    anywhere it panics with a nil dereference.  It does not index out of
    range, whatever the size. *)
Theorem LostPoint_needs_every_cell (m : list (list utils.cell))
    (Hsquare : square (len m) m = true) :
  (has_nil m -> utils.LostPoint m = Panicked NilDereference)
  /\ (~ has_nil m -> exists score, utils.LostPoint m = Done score).
Proof.
  split; [apply LostPoint_stops_at_nil; exact Hsquare|].
  intros Hn. unfold utils.LostPoint.
  pose proof (lostPointLevel1_returns m (len m) Hsquare) as H1.
  pose proof (lostPointLevel2_returns m (len m) Hsquare) as H2.
  pose proof (lostPointLevel3_runs m (len m) Hsquare) as H3.
  destruct (utils.lostPointLevel1 m (len m)) as [l1| |]; simpl in H1; try contradiction.
  destruct (utils.lostPointLevel2 m (len m)) as [l2| |]; simpl in H2; try contradiction.
  cbn [obind]. unfold utils.lostPointLevel4.
  destruct (utils.lostPointLevel3 m (len m)) as [l3|p|]; simpl in H3.
  - cbn [obind]. destruct (proj2 (level4_rows m 0) Hn) as (count & ->). cbn [obind].
    eexists. reflexivity.
  - destruct H3 as [_ H3]. contradiction.
  - contradiction.
Qed.

Lemma LostPoint_needs_every_cell_witness :
  (has_nil [[None; None]; [None; None]]
   -> utils.LostPoint [[None; None]; [None; None]] = Panicked NilDereference)
  /\ (~ has_nil [[None; None]; [None; None]]
      -> exists score, utils.LostPoint [[None; None]; [None; None]] = Done score).
Proof. apply LostPoint_needs_every_cell. reflexivity. Defined.

(** * Builds that complete *)

Lemma completes_bind {A B} (P : qr.world -> Prop) (Q : A -> qr.world -> Prop)
    (S : B -> qr.world -> Prop) (m : qr.M A) (k : A -> qr.M B) :
  completes P m Q -> (forall a, completes (Q a) (k a) S) -> completes P (qr.sbind m k) S.
Proof.
  intros Hm Hk w Hw. unfold qr.sbind. specialize (Hm w Hw).
  destruct (m w) as [a w1| |]; [|contradiction|contradiction]. apply Hk. exact Hm.
Qed.

Lemma completes_ret {A} (P : qr.world -> Prop) (a : A) :
  completes P (qr.ret a) (fun _ => P).
Proof. intros w Hw. exact Hw. Qed.

Lemma completes_post {A} (P : qr.world -> Prop) (m : qr.M A) (Q Q' : A -> qr.world -> Prop) :
  completes P m Q -> (forall a w, Q a w -> Q' a w) -> completes P m Q'.
Proof.
  intros Hm HQ w Hw. specialize (Hm w Hw).
  destruct (m w) as [a w1| |]; [apply HQ; exact Hm | contradiction | contradiction].
Qed.

Lemma completes_pre {A} (P P' : qr.world -> Prop) (m : qr.M A) (Q : A -> qr.world -> Prop) :
  (forall w, P' w -> P w) -> completes P m Q -> completes P' m Q.
Proof. intros HP Hm w Hw. apply Hm, HP, Hw. Qed.

Lemma completes_at {A} (P : qr.world -> Prop) (m : qr.M A) (Q : A -> qr.world -> Prop) :
  (forall w, P w -> completes (eq w) m Q) -> completes P m Q.
Proof. intros H w Hw. exact (H w Hw w eq_refl). Qed.

Lemma completes_this_bind {A} (w : qr.world) (k : qr.QRCode -> qr.M A)
    (Q : A -> qr.world -> Prop) :
  completes (eq w) (k (qr.self w)) Q -> completes (eq w) (qr.sbind qr.this k) Q.
Proof. intros H w' <-. exact (H w eq_refl). Qed.

Lemma completes_lift_bind {A B} (P : qr.world -> Prop) (o : outcome A) (a : A)
    (k : A -> qr.M B) (Q : B -> qr.world -> Prop) :
  o = Done a -> completes P (k a) Q -> completes P (qr.sbind (qr.lift o) k) Q.
Proof. intros -> H w Hw. exact (H w Hw). Qed.

Lemma completes_forM (P : qr.world -> Prop) (body : Z -> qr.M unit) (n : nat) :
  forall i,
    (forall j, i <= j < i + Z.of_nat n -> completes P (body j) (fun _ => P)) ->
    completes P (qr.forM n i body) (fun _ => P).
Proof.
  induction n as [|n IH]; intros i Hbody; cbn [qr.forM].
  - apply completes_ret.
  - apply (completes_bind P (fun _ => P)); [apply Hbody; lia|].
    intros _. apply IH. intros j Hj. apply Hbody. lia.
Qed.

Lemma completes_for_rangeM (P : qr.world -> Prop) (lo hi : Z) (body : Z -> qr.M unit) :
  (forall j, lo <= j < hi -> completes P (body j) (fun _ => P)) ->
  completes P (qr.for_rangeM lo hi body) (fun _ => P).
Proof.
  intros Hbody. unfold qr.for_rangeM. apply completes_forM. intros j Hj. apply Hbody. lia.
Qed.

Lemma completes_for_eachM {A} (P : qr.world -> Prop) (xs : list A) (body : A -> qr.M unit) :
  (forall x, In x xs -> completes P (body x) (fun _ => P)) ->
  completes P (qr.for_eachM xs body) (fun _ => P).
Proof.
  induction xs as [|x xs IH]; intros Hbody; cbn [qr.for_eachM].
  - apply completes_ret.
  - apply (completes_bind P (fun _ => P)); [apply Hbody; left; reflexivity|].
    intros _. apply IH. intros y Hy. apply Hbody. right. exact Hy.
Qed.

Lemma pattern_positions_checked :
  forallb pattern_positions_check (seqZ 1 40) = true.
Proof. vm_compute. reflexivity. Qed.

Lemma cell_at_blank (n : nat) (rc : Z * Z) :
  cell_at (replicate n (replicate n (None : utils.cell))) rc = None.
Proof.
  unfold cell_at.
  destruct (replicate n (replicate n (None : utils.cell)) !! Z.to_nat (fst rc))
    as [row|] eqn:Hrow;
    [|reflexivity].
  apply lookup_replicate in Hrow as [-> _].
  destruct (replicate n (None : utils.cell) !! Z.to_nat (snd rc)) as [c|] eqn:Hc;
    [|reflexivity].
  apply lookup_replicate in Hc as [-> _]. reflexivity.
Qed.

Ltac split_if :=
  match goal with
  | |- completes _ (if ?b then _ else _) _ => destruct b
  end.

Section Build.
Variables (v ec : Z) (dl : list utils.QRData).
Hypothesis v_valid : 1 <= v <= 40.

Let N := v * 4 + 17.
Let Inv := building v ec dl.

Lemma building_count (w : qr.world) : Inv w -> qr.modulesCount (qr.self w) = N.
Proof. intros (_ & H & _). exact H. Qed.

Lemma building_square (w : qr.world) : Inv w -> square N (qr.modules (qr.self w)) = true.
Proof. intros (_ & _ & H & _). exact H. Qed.

Lemma set_module_completes (r c : Z) (b : bool) :
  in_matrix N (r, c) -> ~ left_gap N (r, c) ->
  completes Inv (qr.set_module r c b) (fun _ => Inv).
Proof.
  intros Hin Hgap w Hw. pose proof Hw as (Hv & Hn & Hsq & He & Hd & Hg & Hc).
  pose proof (set_module_run N w (r, c) b Hsq Hin) as Hrun. cbn [fst snd] in Hrun.
  rewrite Hrun.
  split; [exact Hv|]. split; [exact Hn|].
  split; [apply after_set_module_square; exact Hsq|].
  split; [exact He|]. split; [exact Hd|]. split; [|exact Hc].
  intros rc Hrc. unfold after_set_module. cbn [qr.self qr.modules qr.set_modules].
  rewrite (cell_at_write_other N); [apply Hg; exact Hrc | exact Hin | | ].
  - destruct Hrc as [H0 H9]. split; [fold N in H9; lia|]. rewrite H0. fold N. lia.
  - intros <-. contradiction.
Qed.

Lemma module_at_bind {A} (r c : Z) (k : utils.cell -> qr.M A) (Q : A -> qr.world -> Prop) :
  in_matrix N (r, c) ->
  (forall m, completes Inv (k m) Q) ->
  completes Inv (qr.sbind (qr.module_at r c) k) Q.
Proof.
  intros [Hr Hc] Hk w Hw. simpl in Hr, Hc. pose proof (building_square w Hw) as Hsq.
  destruct (square_row N _ r Hsq Hr) as (row & Hrow & Hlen).
  unfold qr.sbind at 1, qr.module_at, qr.sbind, qr.this, qr.lift.
  rewrite (index_in_range _ r row ltac:(lia) Hrow). cbn [obind].
  destruct (lookup_lt_is_Some_2 row (Z.to_nat c) ltac:(unfold len in Hlen; lia))
    as [m Hm].
  rewrite (index_in_range row c m ltac:(lia) Hm).
  exact (Hk m w Hw).
Qed.

Lemma isOutOfBounds_bind {A} (i : Z) (k : bool -> qr.M A) (Q : A -> qr.world -> Prop) :
  completes Inv (k ((i <=? -1) || (N <=? i))) Q ->
  completes Inv (qr.sbind (qr.isOutOfBounds i) k) Q.
Proof.
  intros Hk w Hw. unfold qr.sbind at 1, qr.isOutOfBounds, qr.sbind, qr.this, qr.ret.
  rewrite (building_count w Hw). exact (Hk w Hw).
Qed.

Lemma Version_bind {A} (P : qr.world -> Prop) (k : Z -> qr.M A) (Q : A -> qr.world -> Prop) :
  (forall w, P w -> qr.version (qr.self w) = v) ->
  completes P (k v) Q -> completes P (qr.sbind qr.Version k) Q.
Proof.
  intros HP Hk w Hw. unfold qr.sbind.
  rewrite (Version_valid w) by (rewrite (HP w Hw); unfold utils.CheckVersion; lia).
  rewrite (HP w Hw). exact (Hk w Hw).
Qed.

Lemma this_bind {A} (P : qr.world -> Prop) (k : qr.QRCode -> qr.M A)
    (Q : A -> qr.world -> Prop) :
  (forall w, P w -> completes (eq w) (k (qr.self w)) Q) ->
  completes P (qr.sbind qr.this k) Q.
Proof. intros H w Hw. exact (H w Hw w eq_refl). Qed.

(** ** Function patterns *)

Lemma SetupPositionProbePattern_completes (row col : Z) :
  row <= 1 \/ 11 <= row /\ N - 12 < row - 1 \/ 1 <= col - 1 ->
  completes Inv (qr.SetupPositionProbePattern row col) (fun _ => Inv).
Proof.
  intros Hpos. unfold qr.SetupPositionProbePattern.
  apply completes_for_rangeM. intros r Hr.
  apply isOutOfBounds_bind.
  destruct ((row + r <=? -1) || (N <=? row + r)) eqn:Er; [apply completes_ret|].
  apply completes_for_rangeM. intros c Hc.
  apply isOutOfBounds_bind.
  destruct ((col + c <=? -1) || (N <=? col + c)) eqn:Ec; [apply completes_ret|].
  assert (Hin : in_matrix N (row + r, col + c)) by (unfold in_matrix; simpl; lia).
  assert (Hgap : ~ left_gap N (row + r, col + c)) by (unfold left_gap; simpl; lia).
  unfold qr.setModuleValue. split_if; apply set_module_completes; assumption.
Qed.

Lemma positions_of_version :
  exists pos, utils.PatternPosition v = Done pos
              /\ forall x, In x pos -> 6 <= x <= N - 7.
Proof.
  pose proof (forallb_seqZ _ _ _ v pattern_positions_checked ltac:(lia)) as Hc.
  unfold pattern_positions_check in Hc.
  destruct (utils.PatternPosition v) as [pos| |]; try discriminate.
  exists pos. split; [reflexivity|]. intros x Hx.
  apply (proj1 (forallb_forall _ _) Hc) in Hx. unfold N. lia.
Qed.

Lemma SetupPositionAdjustPattern_completes :
  completes Inv qr.SetupPositionAdjustPattern (fun _ => Inv).
Proof.
  unfold qr.SetupPositionAdjustPattern.
  apply Version_bind; [intros w (H & _); exact H|].
  destruct positions_of_version as (pos & Hpos & Hrange).
  apply (completes_lift_bind _ _ pos); [exact Hpos|].
  apply completes_for_eachM. intros row Hrow.
  apply completes_for_eachM. intros col Hcol.
  pose proof (Hrange row Hrow). pose proof (Hrange col Hcol).
  apply module_at_bind; [unfold in_matrix; simpl; lia|]. intros m.
  split_if; [apply completes_ret|].
  unfold qr.setPositionAdjustPattern.
  apply completes_for_rangeM. intros r Hr.
  apply completes_for_rangeM. intros c Hc.
  unfold qr.setPositionAdjustPatternValue.
  split_if; apply set_module_completes;
    solve [unfold in_matrix; simpl; lia | unfold left_gap; simpl; lia].
Qed.

Lemma SetupTimingPattern_completes :
  completes Inv qr.SetupTimingPattern (fun _ => Inv).
Proof.
  unfold qr.SetupTimingPattern.
  apply this_bind. intros w Hw. rewrite (building_count w Hw).
  apply (completes_pre Inv); [intros ? <-; exact Hw|].
  apply (completes_bind Inv (fun _ => Inv)); [|intros _].
  - apply completes_for_rangeM. intros r Hr.
    apply module_at_bind; [unfold in_matrix; simpl; lia|]. intros m.
    split_if; [apply completes_ret|].
    apply set_module_completes;
      solve [unfold in_matrix; simpl; lia | unfold left_gap; simpl; lia].
  - apply completes_for_rangeM. intros c Hc.
    apply module_at_bind; [unfold in_matrix; simpl; lia|]. intros m.
    split_if; [apply completes_ret|].
    apply set_module_completes;
      solve [unfold in_matrix; simpl; lia | unfold left_gap; simpl; lia].
Qed.

(** ** Format and version information *)

Lemma SetupTypeInfo_completes (test : bool) (maskPattern : Z) :
  0 <= ec <= 3 -> 0 <= maskPattern <= 7 ->
  completes Inv (qr.SetupTypeInfo test maskPattern) (fun _ => Inv).
Proof.
  intros Hec Hmask. unfold qr.SetupTypeInfo.
  apply this_bind. intros w Hw. rewrite (building_count w Hw).
  pose proof Hw as (_ & _ & _ & He & _). rewrite He.
  apply (completes_pre Inv); [intros ? <-; exact Hw|].
  rewrite (type_info_data ec maskPattern Hec Hmask).
  destruct (BCHTypeInfo_word (8 * ec + maskPattern) ltac:(lia)) as (r & Hbits & _).
  apply (completes_lift_bind _ _ _ _ _ Hbits).
  assert (HN : 21 <= N) by (unfold N; lia).
  apply (completes_bind Inv (fun _ => Inv)); [|intros _].
  { apply completes_for_rangeM. intros i Hi.
    destruct (i <? 6) eqn:E6; [|destruct (i <? 8) eqn:E8]; apply set_module_completes;
      solve [unfold in_matrix; simpl; lia | unfold left_gap; simpl; lia]. }
  apply (completes_bind Inv (fun _ => Inv)); [|intros _].
  { apply completes_for_rangeM. intros i Hi.
    destruct (i <? 8) eqn:E8; [|destruct (i <? 9) eqn:E9]; apply set_module_completes;
      solve [unfold in_matrix; simpl; lia | unfold left_gap; simpl; lia]. }
  apply set_module_completes;
    solve [unfold in_matrix; simpl; lia | unfold left_gap; simpl; lia].
Qed.

Lemma SetupTypeNumber_completes (test : bool) :
  7 <= v ->
  completes Inv (qr.SetupTypeNumber test) (fun _ => Inv).
Proof.
  intros Hv. unfold qr.SetupTypeNumber.
  apply this_bind. intros w Hw. rewrite (building_count w Hw).
  pose proof Hw as (Hver & _). rewrite Hver.
  apply (completes_pre Inv); [intros ? <-; exact Hw|].
  pose proof (forallb_seqZ _ _ _ v BCHTypeNumber_checked ltac:(lia)) as Hc.
  cbv beta in Hc.
  destruct (utils.BCHTypeNumber v) as [bits| |] eqn:Hbits; try discriminate. clear Hc.
  apply (completes_lift_bind _ _ bits); [reflexivity|].
  assert (HN : 45 <= N) by (unfold N; lia).
  apply (completes_bind Inv (fun _ => Inv)); [|intros _].
  - apply completes_for_rangeM. intros i Hi.
    destruct (quot_rem_3 i Hi) as (Hq & Hr & _).
    apply set_module_completes;
      solve [unfold in_matrix; simpl; lia | unfold left_gap; simpl; lia].
  - apply completes_for_rangeM. intros i Hi.
    destruct (quot_rem_3 i Hi) as (Hq & Hr & _).
    apply set_module_completes;
      solve [unfold in_matrix; simpl; lia | unfold left_gap; simpl; lia].
Qed.

(** ** Data mapping *)

Lemma MapData_cell_completes (data : list Z) (f : Z -> Z -> bool) (c : Z) (k : qr.cursor) :
  cursor_ok N k -> 1 <= c < N ->
  completes Inv (qr.MapData_cell data f c k)
    (fun k' w => Inv w /\ cursor_ok N k' /\ qr.row k' = qr.row k /\ qr.inc k' = qr.inc k).
Proof.
  intros (Hbit & Hbyte & Hrow & Hinc) Hc. unfold qr.MapData_cell.
  apply module_at_bind; [unfold in_matrix; simpl; lia|]. intros m.
  destruct (utils.ptr_eqb m None).
  - assert (Hdark : exists dark,
              (if qr.byteIndex k <? len data
               then do b <- index data (qr.byteIndex k);
                    do s <- shr b (qr.bitIndex k);
                    Done (Z.land s 1 =? 1)
               else Done false) = Done dark).
    { destruct (qr.byteIndex k <? len data) eqn:E; [|exists false; reflexivity].
      rewrite (index_nth data (qr.byteIndex k) 0) by lia. cbn [obind].
      unfold shr. destruct (qr.bitIndex k <? 0) eqn:Eb; [lia|]. cbn [obind].
      eexists. reflexivity. }
    destruct Hdark as (dark & Hdark).
    apply (completes_lift_bind _ _ dark); [exact Hdark|].
    apply (completes_bind Inv (fun _ => Inv)).
    + apply set_module_completes;
        solve [unfold in_matrix; simpl; lia | unfold left_gap; simpl; lia].
    + intros _. destruct (qr.bitIndex k - 1 =? -1) eqn:E.
      * intros w Hw. simpl. split; [exact Hw|]. unfold cursor_ok. simpl.
        repeat split; first [assumption | lia | apply Hrow ].
      * intros w Hw. simpl. split; [exact Hw|]. unfold cursor_ok. simpl.
        repeat split; first [assumption | lia | apply Hrow ].
  - intros w Hw. simpl. split; [exact Hw|]. unfold cursor_ok.
    repeat split; first [assumption | lia | apply Hrow ].
Qed.

Lemma MapData_column_completes (data : list Z) (f : Z -> Z -> bool) (col : Z) :
  2 <= col < N ->
  forall (fuel : nat) (k : qr.cursor),
    cursor_ok N k ->
    (qr.inc k = -1 -> qr.row k + 1 <= Z.of_nat fuel) ->
    (qr.inc k = 1 -> N - qr.row k <= Z.of_nat fuel) ->
    completes Inv (qr.MapData_column fuel data f col k)
      (fun k' w => Inv w /\ cursor_ok N k').
Proof.
  intros Hcol. induction fuel as [|fuel IH]; intros k Hk Hdown Hup.
  - destruct Hk as (_ & _ & Hrow & [Hi | Hi]); [specialize (Hup Hi) | specialize (Hdown Hi)]; lia.
  - cbn [qr.MapData_column].
    eapply completes_bind; [apply MapData_cell_completes; [exact Hk | lia]|].
    intros k1. apply completes_at. intros w1 (Hw1 & Hk1 & Hr1 & Hi1).
    apply (completes_pre Inv); [intros ? <-; exact Hw1|].
    eapply completes_bind; [apply MapData_cell_completes; [exact Hk1 | lia]|].
    intros k2. apply completes_at. intros w2 (Hw2 & Hk2 & Hr2 & Hi2).
    apply completes_this_bind. rewrite (building_count w2 Hw2).
    apply (completes_pre Inv); [intros ? <-; exact Hw2|].
    pose proof Hk2 as (Hbit & Hbyte & Hrow & Hinc).
    destruct ((qr.row k2 + qr.inc k2 <? 0) || (qr.row k2 + qr.inc k2 >=? N)) eqn:E.
    + intros w Hw. simpl. split; [exact Hw|]. unfold cursor_ok. simpl.
      repeat split; first [assumption | lia].
    + apply IH.
      * unfold cursor_ok. simpl. repeat split; first [assumption | lia].
      * simpl. intros Hi. specialize (Hdown ltac:(congruence)). lia.
      * simpl. intros Hi. specialize (Hup ltac:(congruence)). lia.
Qed.

Lemma MapData_columns_completes (data : list Z) (f : Z -> Z -> bool) :
  forall (fuel : nat) (col : Z) (k : qr.cursor),
    cursor_ok N k -> column_ok N col -> col < Z.of_nat fuel ->
    completes Inv (qr.MapData_columns fuel data f col k) (fun _ => Inv).
Proof.
  induction fuel as [|fuel IH]; intros col k Hk (Hmax & Hcol) Hfuel.
  - cbn [qr.MapData_columns]. destruct (col >? 0) eqn:E; [lia | apply completes_ret].
  - cbn [qr.MapData_columns]. destruct (col >? 0) eqn:E; [|apply completes_ret].
    apply this_bind. intros w Hw. rewrite (building_count w Hw).
    apply (completes_pre Inv); [intros ? <-; exact Hw|].
    pose proof Hk as (_ & _ & Hrow & _).
    eapply completes_bind.
    + apply MapData_column_completes; [|exact Hk| |].
      * destruct (col <=? 6) eqn:E6; destruct Hcol as [-> | [-> | [-> | (h & Hh & ->)]]];
          lia.
      * intros _. lia.
      * intros _. lia.
    + intros k'. apply completes_at. intros w' (Hw' & Hk').
      apply (completes_pre Inv); [intros ? <-; exact Hw'|].
      apply IH; [exact Hk' | | destruct (col <=? 6); lia].
      destruct Hcol as [-> | [-> | [-> | (h & Hh & ->)]]].
      * exfalso. lia.
      * change (3 <=? 6) with true. cbv iota. split; [lia|]. left. reflexivity.
      * change (6 <=? 6) with true. cbv iota. split; [lia|]. right. left. reflexivity.
      * assert (E6 : (2 * h <=? 6) = false) by lia. rewrite E6.
        split; [lia|].
        destruct (Z.eq_dec h 4) as [-> | Hne]; [right; right; left; reflexivity|].
        right. right. right. exists (h - 1). lia.
Qed.

Lemma MapData_completes (data : list Z) (maskPattern : Z) :
  0 <= maskPattern <= 7 ->
  completes Inv (qr.MapData data maskPattern) (fun _ => Inv).
Proof.
  intros Hmask. unfold qr.MapData.
  apply this_bind. intros w Hw. rewrite (building_count w Hw).
  apply (completes_pre Inv); [intros ? <-; exact Hw|].
  destruct (MaskFunc_defined maskPattern Hmask) as (f & Hf).
  apply (completes_lift_bind _ _ f); [exact Hf|].
  apply MapData_columns_completes.
  - unfold cursor_ok. simpl. unfold N. repeat split; lia.
  - split; [lia|]. right. right. right. exists (2 * v + 8). unfold N. lia.
  - lia.
Qed.

(** ** The build *)

Variable blocks : list base.RSBlock.
Hypothesis ec_valid : 0 <= ec <= 3.
Hypothesis dl_modes : Forall (fun d => known_mode (utils.mode d)) dl.
Hypothesis dl_blocks : base.RSBlocks v ec = Done (Ok blocks).
Hypothesis dl_fits :
  total_bits (utils.ModeSizeVersion v) dl
  <= fold_left (fun t b => t + base.DataCount b * 8) blocks 0.

Lemma blocks_shape :
  forall b, In b blocks -> 0 <= base.DataCount b <= base.TotalCount b.
Proof.
  pose proof (rs_blocks_check_sound v ec v_valid ec_valid) as Hc.
  unfold rs_blocks_check in Hc. rewrite dl_blocks in Hc.
  destruct (base.RSBlocks v constants.ERROR_CORRECT_L) as [[blocksL|e]| |];
    try discriminate.
  apply andb_true_iff in Hc as [Hc _]. apply andb_true_iff in Hc as [Hc _].
  apply andb_true_iff in Hc as [_ H2].
  intros b Hb. apply (proj1 (forallb_forall _ _) H2) in Hb. lia.
Qed.

Lemma blank_completes (w : qr.world) :
  ready v ec dl w -> qr.modulesCount (qr.self w) = N ->
  qr.precomputedQRBlanks w !! v = None ->
  completes (eq w)
    (qr.sbind qr.this (fun q =>
     qr.sbind (qr.lift (qr.blank_modules (qr.modulesCount q))) (fun m =>
     qr.sbind (qr.update (qr.set_modules m)) (fun _ =>
     qr.sbind (qr.SetupPositionProbePattern 0 0) (fun _ =>
     qr.sbind qr.this (fun q =>
     qr.sbind (qr.SetupPositionProbePattern (qr.modulesCount q - 7) 0) (fun _ =>
     qr.sbind qr.this (fun q =>
     qr.sbind (qr.SetupPositionProbePattern 0 (qr.modulesCount q - 7)) (fun _ =>
     qr.sbind qr.SetupPositionAdjustPattern (fun _ =>
     qr.sbind qr.SetupTimingPattern (fun _ =>
     qr.sbind qr.Version (fun v' =>
     qr.sbind qr.this (fun q =>
     qr.set_cache v' (qr.Copy2DArray (qr.modules q)))))))))))))))
    (fun _ => Inv).
Proof.
  intros (Hver & Hec & Hdl & Hcache) Hcount Hnone.
  assert (HN : 21 <= N) by (unfold N; lia).
  apply completes_this_bind. rewrite Hcount.
  assert (Hblank : qr.blank_modules N
                   = Done (replicate (Z.to_nat N) (replicate (Z.to_nat N) None))).
  { unfold qr.blank_modules. destruct (N <? 0) eqn:E; [lia | reflexivity]. }
  apply (completes_lift_bind _ _ _ _ _ Hblank).
  apply (completes_bind _ (fun _ => Inv)).
  { intros w' <-. unfold qr.update. cbn.
    split; [exact Hver|]. split; [exact Hcount|].
    split; [apply square_blank; lia|]. split; [exact Hec|]. split; [exact Hdl|].
    split; [|exact Hcache]. intros rc _. apply cell_at_blank. }
  intros _.
  apply (completes_bind _ (fun _ => Inv));
    [apply SetupPositionProbePattern_completes; lia|].
  intros _. apply this_bind. intros w1 Hw1. rewrite (building_count w1 Hw1).
  apply (completes_pre Inv); [intros ? <-; exact Hw1|].
  apply (completes_bind _ (fun _ => Inv));
    [apply SetupPositionProbePattern_completes; lia|].
  intros _. apply this_bind. intros w2 Hw2. rewrite (building_count w2 Hw2).
  apply (completes_pre Inv); [intros ? <-; exact Hw2|].
  apply (completes_bind _ (fun _ => Inv));
    [apply SetupPositionProbePattern_completes; lia|].
  intros _.
  apply (completes_bind _ (fun _ => Inv)); [apply SetupPositionAdjustPattern_completes|].
  intros _.
  apply (completes_bind _ (fun _ => Inv)); [apply SetupTimingPattern_completes|].
  intros _.
  apply Version_bind; [intros w3 (H & _); exact H|].
  apply this_bind. intros w3 Hw3 w3' <-.
  unfold qr.set_cache. rewrite Copy2DArray_same.
  destruct Hw3 as (H1 & H2 & H3 & H4 & H5 & H6 & H7).
  split; [exact H1|]. split; [exact H2|]. split; [exact H3|]. split; [exact H4|].
  split; [exact H5|]. split; [exact H6|].
  intros v' m. cbn [qr.precomputedQRBlanks].
  destruct (Z.eq_dec v v') as [<- | Hne].
  - rewrite lookup_insert_eq. intros [= <-]. split; [exact H3 | exact H6].
  - rewrite lookup_insert_ne by exact Hne. apply H7.
Qed.

Lemma MakeImpl_completes (test : bool) (maskPattern : Z) :
  0 <= maskPattern <= 7 ->
  completes (ready v ec dl) (qr.MakeImpl test maskPattern) (fun _ => Inv).
Proof.
  intros Hmask. unfold qr.MakeImpl.
  apply Version_bind; [intros w (H & _); exact H|].
  apply (completes_bind _ (fun _ w => ready v ec dl w /\ qr.modulesCount (qr.self w) = N)).
  { intros w Hw. unfold qr.update. cbn. split; [exact Hw | reflexivity]. }
  intros _.
  apply Version_bind; [intros w ((H & _) & _); exact H|].
  apply (completes_bind _ (fun _ => Inv)).
  { intros w (Hready & Hcount).
    destruct (qr.precomputedQRBlanks w !! v) as [m|] eqn:Hc.
    - unfold qr.update. cbn. rewrite Copy2DArray_same.
      pose proof Hready as (Hver & Hec & Hdl & Hcache).
      destruct (Hcache v m Hc) as (Hsq & Hgap).
      split; [exact Hver|]. split; [exact Hcount|]. split; [exact Hsq|].
      split; [exact Hec|]. split; [exact Hdl|]. split; [exact Hgap | exact Hcache].
    - exact (blank_completes w Hready Hcount Hc w eq_refl). }
  intros _.
  apply (completes_bind _ (fun _ => Inv));
    [apply SetupTypeInfo_completes; [exact ec_valid | exact Hmask]|].
  intros _.
  apply Version_bind; [intros w (H & _); exact H|].
  apply (completes_bind _ (fun _ => Inv)).
  { destruct (v >=? 7) eqn:E7; [apply SetupTypeNumber_completes; lia | apply completes_ret]. }
  intros _.
  apply this_bind. intros w Hw.
  apply (completes_pre Inv); [intros ? <-; exact Hw|].
  apply (completes_bind _ (fun _ => Inv)).
  { destruct (qr.dataCache (qr.self w)) as [c|]; [apply completes_ret|].
    apply Version_bind; [intros w1 (H & _); exact H|].
    apply this_bind. intros w1 Hw1.
    pose proof Hw1 as (_ & _ & _ & He1 & Hd1 & _). rewrite He1, Hd1.
    apply (completes_pre Inv); [intros ? <-; exact Hw1|].
    destruct (CreateData_fitting v ec dl blocks v_valid dl_modes dl_blocks blocks_shape dl_fits)
      as (r & Hr & _).
    apply (completes_lift_bind _ _ (Ok r)); [exact Hr|].
    intros w2 Hw2. unfold qr.update. cbn. exact Hw2. }
  intros _.
  apply this_bind. intros w1 Hw1.
  apply (completes_pre Inv); [intros ? <-; exact Hw1|].
  apply MapData_completes. exact Hmask.
Qed.

End Build.

Lemma gap_has_nil (v : Z) (m : list (list utils.cell)) :
  1 <= v ->
  square (v * 4 + 17) m = true ->
  (forall rc, left_gap (v * 4 + 17) rc -> cell_at m rc = None) ->
  has_nil m.
Proof.
  intros Hv Hsq Hgap.
  destruct (square_row _ m 9 Hsq ltac:(lia)) as (row & Hrow & Hlen).
  destruct (lookup_lt_is_Some_2 row 0%nat ltac:(unfold len in Hlen; lia)) as [c Hc].
  specialize (Hgap (9, 0) ltac:(unfold left_gap; simpl; lia)).
  unfold cell_at in Hgap. cbn [fst snd] in Hgap.
  change (Z.to_nat 9) with 9%nat in *. change (Z.to_nat 0) with 0%nat in Hgap.
  rewrite Hrow, Hc in Hgap. subst c.
  exists row. split.
  - apply list_elem_of_In. apply (list_elem_of_lookup_2 _ _ _ Hrow).
  - apply list_elem_of_In. apply (list_elem_of_lookup_2 _ _ _ Hc).
Qed.

Lemma empty_cache_blank (w : qr.world) : qr.precomputedQRBlanks w = ∅ -> cache_blank w.
Proof. intros H v m Hm. rewrite H, lookup_empty in Hm. discriminate. Qed.

(** X28: with a mask setting from 1 to 7, [Make] completes: for a symbol
    with a version from 1 to 40, one of the four levels and segments of
    known modes that fit the data codewords of the version, it returns
    [nil] without a panic, whatever [fit] is and whether or not the blank
    of the version is in the cache.  The symbol then has its square matrix
    of [4*version+17] modules, in which the cells of column 0 from row 9 to
    row [4*version+5] are still [nil]: no step of the build writes them.
    The cache is left as the next build needs it. *)
Theorem Make_completes (fit : bool) (w : qr.world) (blocks : list base.RSBlock)
    (Hversion : 1 <= qr.version (qr.self w) <= 40)
    (Hlevel : 0 <= qr.errorCorrection (qr.self w) <= 3)
    (Hmask : 1 <= qr.maskPattern (qr.self w) <= 7)
    (Hmodes : Forall (fun d => known_mode (utils.mode d)) (qr.DataList (qr.self w)))
    (Hblocks : base.RSBlocks (qr.version (qr.self w)) (qr.errorCorrection (qr.self w))
               = Done (Ok blocks))
    (Hfits : total_bits (utils.ModeSizeVersion (qr.version (qr.self w)))
               (qr.DataList (qr.self w))
             <= fold_left (fun t b => t + base.DataCount b * 8) blocks 0)
    (Hcache : cache_blank w) :
  exists w',
    qr.Make fit w = qr.Return None w'
    /\ qr.modulesCount (qr.self w') = qr.version (qr.self w) * 4 + 17
    /\ square (qr.version (qr.self w) * 4 + 17) (qr.modules (qr.self w')) = true
    /\ (forall r, 9 <= r <= qr.version (qr.self w) * 4 + 5 ->
                  cell_at (qr.modules (qr.self w')) (r, 0) = None)
    /\ cache_blank w'.
Proof.
  rewrite (Make_valid_version fit w) by (unfold utils.CheckVersion; lia).
  assert (Hm0 : (qr.maskPattern (qr.self w) =? 0) = false) by lia. rewrite Hm0.
  pose proof (MakeImpl_completes _ _ _ Hversion blocks Hlevel Hmodes Hblocks Hfits
                false (qr.maskPattern (qr.self w)) ltac:(lia) w) as Hrun.
  specialize (Hrun (conj eq_refl (conj eq_refl (conj eq_refl Hcache)))).
  unfold qr.sbind.
  destruct (qr.MakeImpl false (qr.maskPattern (qr.self w)) w) as [[] w'| |];
    [|contradiction|contradiction].
  destruct Hrun as (_ & Hn & Hsq & _ & _ & Hgap & Hc).
  exists w'. split; [reflexivity|]. split; [exact Hn|]. split; [exact Hsq|].
  split; [|exact Hc].
  intros r Hr. apply Hgap. unfold left_gap. simpl. lia.
Qed.

Lemma Make_completes_witness :
  exists w',
    qr.Make true (hello_symbol 3) = qr.Return None w'
    /\ qr.modulesCount (qr.self w') = qr.version (qr.self (hello_symbol 3)) * 4 + 17
    /\ square (qr.version (qr.self (hello_symbol 3)) * 4 + 17) (qr.modules (qr.self w')) = true
    /\ (forall r, 9 <= r <= qr.version (qr.self (hello_symbol 3)) * 4 + 5 ->
                  cell_at (qr.modules (qr.self w')) (r, 0) = None)
    /\ cache_blank w'.
Proof.
  apply (Make_completes true (hello_symbol 3)
           [ {| base.TotalCount := 26; base.DataCount := 13 |} ]).
  - simpl. lia.
  - simpl. unfold constants.ERROR_CORRECT_Q. lia.
  - simpl. lia.
  - constructor; [right; left; reflexivity | constructor].
  - reflexivity.
  - vm_compute. discriminate.
  - apply empty_cache_blank. reflexivity.
Defined.

(** X29: with the mask setting 0, automatic selection, [Make] never
    completes: for a symbol with a version from 1 to 40, one of the four
    levels and segments of known modes that fit, the trial build of
    pattern 0 goes through, and the first call of [utils.LostPoint] stops
    with a nil dereference on the cells the build left [nil]. *)
Theorem Make_automatic_mask_panics (fit : bool) (w : qr.world) (blocks : list base.RSBlock)
    (Hversion : 1 <= qr.version (qr.self w) <= 40)
    (Hlevel : 0 <= qr.errorCorrection (qr.self w) <= 3)
    (Hmask : qr.maskPattern (qr.self w) = 0)
    (Hmodes : Forall (fun d => known_mode (utils.mode d)) (qr.DataList (qr.self w)))
    (Hblocks : base.RSBlocks (qr.version (qr.self w)) (qr.errorCorrection (qr.self w))
               = Done (Ok blocks))
    (Hfits : total_bits (utils.ModeSizeVersion (qr.version (qr.self w)))
               (qr.DataList (qr.self w))
             <= fold_left (fun t b => t + base.DataCount b * 8) blocks 0)
    (Hcache : cache_blank w) :
  exists w',
    qr.Make fit w = qr.Abort NilDereference w'
    /\ qr.lost_point_calls w' = qr.lost_point_calls w + 1.
Proof.
  rewrite (Make_valid_version fit w) by (unfold utils.CheckVersion; lia).
  rewrite Hmask. change (0 =? 0) with true. cbv iota.
  unfold qr.BestMaskPattern. change 8%nat with (S 7). rewrite BestMaskPattern_loop_S.
  unfold qr.score_pattern.
  pose proof (MakeImpl_completes _ _ _ Hversion blocks Hlevel Hmodes Hblocks Hfits
                true 0 ltac:(lia) w) as Hrun.
  specialize (Hrun (conj eq_refl (conj eq_refl (conj eq_refl Hcache)))).
  pose proof (MakeImpl_unscored true 0 w) as Hkeep.
  unfold qr.sbind.
  destruct (qr.MakeImpl true 0 w) as [[] w1| |]; [|contradiction|contradiction].
  destruct Hrun as (_ & _ & Hsq & _ & _ & Hgap & _).
  destruct Hkeep as (_ & Hcalls).
  unfold qr.LostPoint_call, qr.sbind, qr.this, qr.lift. cbn [qr.self].
  assert (Hlen : len (qr.modules (qr.self w1)) = qr.version (qr.self w) * 4 + 17).
  { apply square_spec in Hsq as [Hl _]. exact Hl. }
  rewrite (LostPoint_stops_at_nil (qr.modules (qr.self w1)));
    [|rewrite Hlen; exact Hsq
     |apply (gap_has_nil (qr.version (qr.self w))); [lia | exact Hsq | exact Hgap]].
  eexists. split; [reflexivity|]. cbn [qr.lost_point_calls]. lia.
Qed.

Lemma Make_automatic_mask_panics_witness :
  exists w',
    qr.Make true (hello_symbol 0) = qr.Abort NilDereference w'
    /\ qr.lost_point_calls w' = qr.lost_point_calls (hello_symbol 0) + 1.
Proof.
  apply (Make_automatic_mask_panics true (hello_symbol 0)
           [ {| base.TotalCount := 26; base.DataCount := 13 |} ]).
  - simpl. lia.
  - simpl. unfold constants.ERROR_CORRECT_Q. lia.
  - reflexivity.
  - constructor; [right; left; reflexivity | constructor].
  - reflexivity.
  - vm_compute. discriminate.
  - apply empty_cache_blank. reflexivity.
Defined.

(** * The matrix of module values *)

Lemma for_each_i_ext {A St} (body body' : Z -> A -> St -> outcome St) (xs : list A) :
  (forall i x s, body i x s = body' i x s) ->
  forall i s, qr.for_each_i xs i body s = qr.for_each_i xs i body' s.
Proof.
  intros Hext. induction xs as [|x xs IH]; intros i s; simpl; [reflexivity|].
  rewrite Hext. destruct (body' i x s); simpl; [apply IH | reflexivity | reflexivity].
Qed.

Lemma copy_row_loop (off : Z) :
  0 <= off ->
  forall (cells : list utils.cell) (j0 : Z) (row : list bool),
    0 <= j0 -> j0 + len cells + off <= len row ->
    exists row',
      qr.for_each_i cells j0
        (fun j c row =>
           if negb (utils.ptr_eqb c None) then do v <- utils.deref c; store row (j + off) v
           else Done row) row = Done row'
      /\ length row' = length row
      /\ forall k, 0 <= k ->
           default false (row' !! Z.to_nat k)
           = copied cells (k - j0 - off) (default false (row !! Z.to_nat k)).
Proof.
  intros Hoff. induction cells as [|c cells IH]; intros j0 row Hj0 Hfit.
  - exists row. split; [reflexivity|]. split; [reflexivity|].
    intros k Hk. unfold copied. destruct (k - j0 - off <? 0); [reflexivity|].
    rewrite lookup_nil. reflexivity.
  - assert (Hlen : len (c :: cells) = 1 + len cells) by (unfold len; simpl length; lia).
    assert (Hpos : 0 <= len cells) by (unfold len; lia).
    rewrite Hlen in Hfit. clear Hlen.
    cbn [qr.for_each_i].
    assert (Hstep : exists row1,
              (if negb (utils.ptr_eqb c None)
               then do v <- utils.deref c; store row (j0 + off) v
               else Done row) = Done row1
              /\ length row1 = length row
              /\ forall k, 0 <= k ->
                   default false (row1 !! Z.to_nat k)
                   = if k =? j0 + off
                     then match c with
                          | Some p => utils.pointee p
                          | None => default false (row !! Z.to_nat k)
                          end
                     else default false (row !! Z.to_nat k)).
    { destruct c as [p|]; simpl.
      - rewrite store_in_range by lia.
        eexists. split; [reflexivity|]. split; [apply length_insert|].
        intros k Hk. destruct (k =? j0 + off) eqn:E.
        + apply Z.eqb_eq in E. subst k.
          rewrite list_lookup_insert_eq by (unfold len in *; lia). reflexivity.
        + rewrite list_lookup_insert_ne by lia. reflexivity.
      - exists row. split; [reflexivity|]. split; [reflexivity|].
        intros k Hk. destruct (k =? j0 + off); reflexivity. }
    destruct Hstep as (row1 & -> & Hl1 & Hv1). cbn [obind].
    destruct (IH (j0 + 1) row1 ltac:(lia) ltac:(unfold len in *; lia))
      as (row' & Hrun & Hl' & Hv').
    exists row'. split; [exact Hrun|]. split; [congruence|].
    intros k Hk. rewrite (Hv' k Hk), (Hv1 k Hk). unfold copied.
    destruct (k - j0 - off <? 0) eqn:E0.
    + assert ((k - (j0 + 1) - off <? 0) = true) as -> by lia.
      assert ((k =? j0 + off) = false) as -> by lia. reflexivity.
    + destruct (k =? j0 + off) eqn:E1.
      * assert ((k - (j0 + 1) - off <? 0) = true) as -> by lia.
        replace (k - j0 - off) with 0 by lia. simpl. destruct c; reflexivity.
      * assert ((k - (j0 + 1) - off <? 0) = false) as -> by lia.
        replace (Z.to_nat (k - j0 - off)) with (S (Z.to_nat (k - (j0 + 1) - off))) by lia.
        reflexivity.
Qed.

Lemma copied_is_dark (m : list (list utils.cell)) (r : Z) (cells : list utils.cell) (c : Z) :
  0 <= r -> m !! Z.to_nat r = Some cells -> copied cells c false = dark_at m r c.
Proof.
  intros Hr Hrow. unfold copied, dark_at, colour_at, cell_at. cbn [fst snd].
  assert ((r <? 0) = false) as -> by lia. cbn [orb].
  destruct (c <? 0); [reflexivity|]. rewrite Hrow.
  destruct (cells !! Z.to_nat c) as [[p|]|]; simpl; [|reflexivity|reflexivity].
  destruct (utils.pointee p); reflexivity.
Qed.

Lemma dark_at_outside (m : list (list utils.cell)) (r c : Z) :
  r < 0 \/ len m <= r -> dark_at m r c = false.
Proof.
  intros Hr. unfold dark_at, colour_at, cell_at. cbn [fst snd].
  destruct (r <? 0) eqn:E; [reflexivity|]. cbn [orb].
  destruct (c <? 0); [reflexivity|].
  rewrite lookup_ge_None_2 by (unfold len in Hr; lia). reflexivity.
Qed.

(** The loop that fills the rows of the matrix from the module rows. *)
Lemma rows_loop (b W : Z) (wd : list utils.cell -> Z) (m : list (list utils.cell)) :
  0 <= b ->
  forall (rows : list (list utils.cell)) (i0 : Z) (code : list (list bool)),
    0 <= i0 ->
    (forall j row, rows !! j = Some row ->
       m !! Z.to_nat (i0 + Z.of_nat j) = Some row /\ wd row = W /\ len row + b <= W) ->
    i0 + b + len rows <= len code ->
    exists code',
      qr.for_each_i rows i0
        (fun i module code =>
           do row <- qr.make_bools (wd module);
           do row <- qr.copy_row b module row;
           store code (i + b) row) code = Done code'
      /\ length code' = length code
      /\ (forall k, 0 <= k -> k < i0 + b \/ i0 + b + len rows <= k ->
            code' !! Z.to_nat k = code !! Z.to_nat k)
      /\ (forall k, i0 + b <= k < i0 + b + len rows ->
            exists r, code' !! Z.to_nat k = Some r /\ len r = W
                      /\ forall c, 0 <= c < W ->
                           r !! Z.to_nat c = Some (dark_at m (k - b) (c - b))).
Proof.
  intros Hb. induction rows as [|row rows IH]; intros i0 code Hi0 Hrows Hfit.
  - exists code. split; [reflexivity|]. split; [reflexivity|].
    split; [reflexivity|]. intros k Hk. unfold len in Hk. simpl in Hk. lia.
  - assert (Hlen : len (row :: rows) = 1 + len rows) by (unfold len; simpl length; lia).
    assert (Hpos : 0 <= len rows) by (unfold len; lia).
    rewrite Hlen in *. clear Hlen.
    destruct (Hrows 0%nat row eq_refl) as (Hm & Hwd & Hroom).
    replace (i0 + Z.of_nat 0) with i0 in Hm by lia.
    assert (HW : 0 <= W) by (unfold len in Hroom; lia).
    cbn [qr.for_each_i]. unfold qr.make_bools. rewrite Hwd.
    destruct (W <? 0) eqn:EW; [lia|]. cbn [obind].
    unfold qr.copy_row.
    destruct (copy_row_loop b Hb row 0 (replicate (Z.to_nat W) false) ltac:(lia))
      as (r & -> & Hlr & Hvr).
    { unfold len. rewrite length_replicate. unfold len in Hroom. lia. }
    cbn [obind]. rewrite length_replicate in Hlr.
    rewrite store_in_range by lia. cbn [obind].
    destruct (IH (i0 + 1) (<[Z.to_nat (i0 + b) := r]> code) ltac:(lia))
      as (code' & Hrun & Hl' & Hout & Hin).
    { intros j row' Hj. destruct (Hrows (S j) row' Hj) as (H1 & H2 & H3).
      replace (i0 + 1 + Z.of_nat j) with (i0 + Z.of_nat (S j)) by lia. auto. }
    { unfold len in *. rewrite length_insert. lia. }
    exists code'. split; [exact Hrun|]. rewrite length_insert in Hl'.
    split; [exact Hl'|]. split.
    + intros k Hk Hrange. rewrite Hout by lia.
      apply list_lookup_insert_ne. lia.
    + intros k Hk. destruct (Z.eq_dec k (i0 + b)) as [-> | Hne].
      * exists r. rewrite Hout by lia.
        rewrite list_lookup_insert_eq by (unfold len in *; lia).
        split; [reflexivity|]. split; [unfold len; lia|].
        intros c Hc.
        destruct (lookup_lt_is_Some_2 r (Z.to_nat c) ltac:(lia)) as [x Hx].
        rewrite Hx. f_equal.
        specialize (Hvr c ltac:(lia)). rewrite Hx in Hvr. change (default false (Some x)) with x in Hvr.
        rewrite Hvr. replace (c - 0 - b) with (c - b) by lia.
        replace (i0 + b - b) with i0 by lia.
        assert (Hzero : default false (replicate (Z.to_nat W) false !! Z.to_nat c) = false).
        { rewrite lookup_replicate_2 by lia. reflexivity. }
        rewrite Hzero. apply copied_is_dark; [lia | exact Hm].
      * apply Hin. lia.
Qed.

(** The loop that puts the empty rows above and below. *)
Lemma border_loop (b width : Z) (code : list (list bool)) :
  0 <= b -> 2 * b <= width -> len code = width ->
  exists code',
    for_range 0 b
      (fun i code =>
         do top <- qr.make_bools width;
         do code <- store code i top;
         do bottom <- qr.make_bools width;
         store code (width - 1 - i) bottom) code = Done code'
    /\ len code' = width
    /\ forall k, 0 <= k < b \/ width - b <= k < width ->
         code' !! Z.to_nat k = Some (replicate (Z.to_nat width) false).
Proof.
  intros Hb Hw Hlen. unfold for_range.
  destruct (for_loop_Done
              (fun i c => len c = width
                          /\ forall k, 0 <= k < i \/ width - i <= k < width ->
                               c !! Z.to_nat k = Some (replicate (Z.to_nat width) false))
              (fun i code =>
                 do top <- qr.make_bools width;
                 do code <- store code i top;
                 do bottom <- qr.make_bools width;
                 store code (width - 1 - i) bottom)
              (Z.to_nat (b - 0)) 0 code) as (code' & Hrun & Hl' & Hv').
  - split; [exact Hlen|]. intros k Hk. lia.
  - intros i c Hi (Hlc & Hvc). unfold qr.make_bools.
    destruct (width <? 0) eqn:E; [lia|]. cbn [obind].
    rewrite store_in_range by lia. cbn [obind].
    rewrite store_in_range by (unfold len in *; rewrite length_insert; lia).
    eexists. split; [reflexivity|]. split.
    + unfold len in *. rewrite !length_insert. exact Hlc.
    + intros k Hk.
      destruct (Z.eq_dec k (width - 1 - i)) as [-> | Hne1].
      * apply list_lookup_insert_eq. unfold len in *. rewrite length_insert. lia.
      * rewrite list_lookup_insert_ne by lia.
        destruct (Z.eq_dec k i) as [-> | Hne2].
        -- apply list_lookup_insert_eq. unfold len in *. lia.
        -- rewrite list_lookup_insert_ne by lia. apply Hvc. lia.
  - exists code'. split; [exact Hrun|]. split; [exact Hl'|].
    intros k Hk. apply Hv'. lia.
Qed.

(** X30: [GetMatrix] on a made symbol with a square matrix of [N] rows and
    a border [b >= 0], where the width [N+2b] it computes is in the range
    of [int], never panics and returns [N+2b] rows of [N+2b] values: the
    value at row [i], column [j] is true exactly when the module at row
    [i-b], column [j-b] is inside the symbol, not [nil], and dark.  The
    border is false, and so is every [nil] cell. *)
Theorem GetMatrix_adds_border (q : qr.QRCode)
    (Hsquare : square (len (qr.modules q)) (qr.modules q) = true)
    (Hborder : 0 <= qr.border q)
    (Hwidth : int_range (len (qr.modules q) + qr.border q * 2)) :
  exists M,
    qr.matrix_of q = Done M
    /\ len M = len (qr.modules q) + 2 * qr.border q
    /\ (forall i, 0 <= i < len (qr.modules q) + 2 * qr.border q ->
          exists row,
            M !! Z.to_nat i = Some row
            /\ len row = len (qr.modules q) + 2 * qr.border q
            /\ forall j, 0 <= j < len (qr.modules q) + 2 * qr.border q ->
                 row !! Z.to_nat j
                 = Some (dark_at (qr.modules q) (i - qr.border q) (j - qr.border q)))
    /\ (forall w, qr.self w = q -> qr.dataCache q <> None ->
          qr.GetMatrix w = qr.Return M w).
Proof.
  clear Hwidth.
  set (m := qr.modules q) in *. set (b := qr.border q) in *. set (N := len m) in *.
  assert (HN : 0 <= N) by (unfold N, len; lia).
  apply square_spec in Hsquare as Hsp. destruct Hsp as [_ Hrows].
  assert (Hlook : forall j row, m !! j = Some row ->
            m !! Z.to_nat (0 + Z.of_nat j) = Some row /\ len row = N).
  { intros j row Hj. replace (Z.to_nat (0 + Z.of_nat j)) with j by lia.
    split; [exact Hj|]. apply Hrows. apply list_elem_of_In.
    apply (list_elem_of_lookup_2 _ _ _ Hj). }
  assert (Hcore : exists M,
            qr.matrix_of q = Done M
            /\ len M = N + 2 * b
            /\ forall i, 0 <= i < N + 2 * b ->
                 exists row, M !! Z.to_nat i = Some row /\ len row = N + 2 * b
                   /\ forall j, 0 <= j < N + 2 * b ->
                        row !! Z.to_nat j = Some (dark_at m (i - b) (j - b))).
  { unfold qr.matrix_of. fold m b. destruct (b =? 0) eqn:Eb.
    - assert (b = 0) as Hb0 by lia. rewrite Hb0 in *. clear Eb.
      unfold qr.make_rows. fold N. destruct (N <? 0) eqn:E; [lia|]. cbn [obind].
      rewrite (for_each_i_ext _
                 (fun i module code =>
                    do row <- qr.make_bools (len module);
                    do row <- qr.copy_row 0 module row;
                    store code (i + 0) row))
        by (intros i x s; rewrite Z.add_0_r; reflexivity).
      destruct (rows_loop 0 N (fun row => len row) m ltac:(lia) m 0
                  (replicate (Z.to_nat N) []) ltac:(lia))
        as (M & Hrun & HlM & _ & Hin).
      { intros j row Hj. destruct (Hlook j row Hj) as [H1 H2].
        split; [exact H1|]. split; [exact H2 | lia]. }
      { unfold len at 2. rewrite length_replicate. fold N. lia. }
      exists M. split; [exact Hrun|]. rewrite length_replicate in HlM.
      split; [unfold len; lia|].
      intros i Hi. destruct (Hin i ltac:(fold N; lia)) as (r & H1 & H2 & H3).
      exists r. split; [exact H1|]. split; [lia|].
      intros j Hj. rewrite (H3 j ltac:(lia)). reflexivity.
    - assert (Hbpos : 0 < b) by lia.
      unfold qr.make_rows. fold N. destruct (N + b * 2 <? 0) eqn:E; [lia|]. cbn [obind].
      destruct (border_loop b (N + b * 2) (replicate (Z.to_nat (N + b * 2)) [])
                  ltac:(lia) ltac:(lia)) as (code1 & -> & Hl1 & Hv1).
      { unfold len. rewrite length_replicate. lia. }
      cbn [obind].
      destruct (rows_loop b (N + b * 2) (fun _ => N + b * 2) m ltac:(lia) m 0 code1
                  ltac:(lia)) as (M & Hrun & HlM & Hout & Hin).
      { intros j row Hj. destruct (Hlook j row Hj) as [H1 H2].
        split; [exact H1|]. split; [reflexivity | lia]. }
      { fold N. lia. }
      exists M. split; [exact Hrun|].
      split; [unfold len in *; lia|].
      intros i Hi.
      destruct (Z_lt_le_dec i b) as [Htop | Hge];
        [|destruct (Z_lt_le_dec i (b + N)) as [Hmid | Hbot]].
      + exists (replicate (Z.to_nat (N + b * 2)) false).
        rewrite Hout by (fold N; lia). rewrite Hv1 by lia.
        split; [reflexivity|]. split; [unfold len; rewrite length_replicate; lia|].
        intros j Hj. rewrite lookup_replicate_2 by lia.
        rewrite dark_at_outside by lia. reflexivity.
      + destruct (Hin i ltac:(fold N; lia)) as (r & H1 & H2 & H3).
        exists r. split; [exact H1|]. split; [lia|].
        intros j Hj. apply H3. lia.
      + exists (replicate (Z.to_nat (N + b * 2)) false).
        rewrite Hout by (fold N; lia). rewrite Hv1 by lia.
        split; [reflexivity|]. split; [unfold len; rewrite length_replicate; lia|].
        intros j Hj. rewrite lookup_replicate_2 by lia.
        rewrite dark_at_outside by (fold N; lia). reflexivity. }
  destruct Hcore as (M & Hrun & HlM & Hcells).
  exists M. split; [exact Hrun|]. split; [exact HlM|]. split; [exact Hcells|].
  intros w Hw Hcache. unfold qr.GetMatrix, qr.sbind, qr.this. rewrite Hw.
  destruct (qr.dataCache q) as [c|]; [|contradiction].
  unfold qr.ret. rewrite Hw. unfold qr.lift. rewrite Hrun. reflexivity.
Qed.

Lemma GetMatrix_adds_border_witness :
  exists M,
    qr.matrix_of one_dark_module = Done M
    /\ len M = len (qr.modules one_dark_module) + 2 * qr.border one_dark_module
    /\ (forall i, 0 <= i < len (qr.modules one_dark_module) + 2 * qr.border one_dark_module ->
          exists row,
            M !! Z.to_nat i = Some row
            /\ len row = len (qr.modules one_dark_module) + 2 * qr.border one_dark_module
            /\ forall j, 0 <= j < len (qr.modules one_dark_module)
                                  + 2 * qr.border one_dark_module ->
                 row !! Z.to_nat j
                 = Some (dark_at (qr.modules one_dark_module)
                           (i - qr.border one_dark_module) (j - qr.border one_dark_module)))
    /\ (forall w, qr.self w = one_dark_module -> qr.dataCache one_dark_module <> None ->
          qr.GetMatrix w = qr.Return M w).
Proof.
  apply (GetMatrix_adds_border one_dark_module);
    [reflexivity | simpl; lia | vm_compute; split; discriminate].
Defined.
